(** * A didactic CRYSTALS-Kyber public-key encryption: model and properties

    Shallow embedding of [src/index.ts]: the centred modular arithmetic, the
    reduction of a polynomial modulo the modulus polynomial, the algebra of
    matrices of polynomials, the sampling of random matrices, the message
    codec with its 0x80 padding, and key generation, encryption and
    decryption.

    Number model.  A JavaScript [number] is an IEEE double.  The sums,
    differences, products and remainders that the scheme computes are on
    integers or, after the scaling of a message bit by [q/2], half-integers,
    far below 2^53 in magnitude, where the arithmetic of doubles is exact;
    the model computes them with exact rationals [Q].  The statements that
    give the value of a sum or of a product of arbitrary arguments bound
    the magnitudes of the coefficients so that every intermediate value
    stays an integer of magnitude at most 2^53.  The one product that is
    not exact, [Math.random() * moduloQ], is rounded to the nearest double
    ([roundToDouble]).  [NaN] and the infinities are not represented: they
    arise only from a remainder by a zero modulus or a division by a zero
    leading coefficient, and the doc comments of the definitions concerned
    say what is done there.

    The logger only prints; it is left out. *)

From Stdlib Require Import ZArith QArith Qround Qabs List Lia Bool Arith.
Import ListNotations.

Close Scope Q_scope.
Open Scope nat_scope.

(** ** Numbers *)

(** [a < b] on numbers, as a boolean. *)
Definition Qltb (a b : Q) : bool :=
  match (a ?= b)%Q with Lt => true | _ => false end.

(** [Math.floor]. *)
Definition Math_floor (x : Q) : Q := inject_Z (Qfloor x).

(** The integer nearest to a number; of the two nearest ones, the even
    one. *)
Definition roundHalfEven (x : Q) : Z :=
  let f := Qfloor x in
  match ((x - inject_Z f) ?= 1 # 2)%Q with
  | Lt => f
  | Gt => (f + 1)%Z
  | Eq => if Z.even f then f else (f + 1)%Z
  end.

(** The exponent [e] of a positive number [x]: [2^e <= x < 2^(e+1)]. *)
Definition binade (x : Q) : Z :=
  let e0 := (Z.log2 (Qnum x) - Z.log2 (Z.pos (Qden x)))%Z in
  if Qle_bool (2 ^ e0)%Q x then e0 else (e0 - 1)%Z.

(** The double nearest to a real number, as the arithmetic of IEEE 754
    binary64 rounds a result (to nearest, ties to even): 53 significant bits
    from the exponent -1022 on, the multiples of 2^-1074 below.  A result of
    magnitude 2^1024 or more is an infinity for a double and has no
    counterpart here; the product rounded below is that of a value of
    [Math.random()], below 1, and a finite modulus. *)
Definition roundToDouble (x : Q) : Q :=
  if Qeq_bool x 0 then 0%Q
  else
    let ulp := (2 ^ (Z.max (binade (Qabs x)) (-1022) - 52))%Q in
    (inject_Z (roundHalfEven (x / ulp)) * ulp)%Q.

(** The integer part of a number, rounded towards zero. *)
Definition Qtrunc (x : Q) : Z := Z.quot (Qnum x) (Z.pos (Qden x)).

(** The remainder operator [%] of JavaScript: the result has the sign of the
    dividend, [x % m = x - m * trunc (x / m)].  For [m = 0] JavaScript gives
    [NaN]; every statement below takes a positive modulus. *)
Definition jsRem (x m : Q) : Q := (x - m * inject_Z (Qtrunc (x / m)))%Q.

(** [ToInt32], the conversion the bitwise operators apply to their operands. *)
Definition toInt32 (x : Q) : Z :=
  ((Qtrunc x + 2 ^ 31) mod 2 ^ 32 - 2 ^ 31)%Z.

(** [ToUint16], the conversion [String.fromCharCode] applies. *)
Definition toUint16 (x : Z) : Z := (x mod 2 ^ 16)%Z.

(** [reduceToBinary] (index.ts 78-80); [minValue] is not used by the source
    either. *)
Definition reduceToBinary (value minValue maxValue : Q) : Q :=
  if Qltb (Math_floor (maxValue / 2)) (Qabs value) then 1%Q else 0%Q.

(** [symmetricValueModuloQ] (index.ts 88-100). *)
Definition symmetricValueModuloQ (asymmetricValueModuloQ moduloQ : Q) : Q :=
  let r := jsRem asymmetricValueModuloQ moduloQ in
  if Qltb r 0
  then (if Qltb r (- Math_floor (moduloQ / 2)) then r + moduloQ else r)%Q
  else (if Qltb (Math_floor (moduloQ / 2)) r then r - moduloQ else r)%Q.

(** The same centring written over the integers, with the truncating
    remainder [Z.rem]; [symmetricValueModuloQ] is shown below to compute it
    on integer arguments. *)
Definition centerZ (v m : Z) : Z :=
  let r := Z.rem v m in
  if (r <? 0)%Z
  then (if (r <? - (m / 2))%Z then r + m else r)%Z
  else (if (m / 2 <? r)%Z then r - m else r)%Z.

(** ** Data (index.ts 59-65) *)

(** [type Polynomial = { coefficients: number[] }]: index = degree. *)
Record Polynomial : Type := mkPolynomial { coefficients : list Q }.

(** [type PolynomialMatrix = Polynomial[][]]: an array of rows. *)
Definition PolynomialMatrix : Type := list (list Polynomial).

(** [type EncryptedBlock = {u, v}]; the fields carry the record's initials
    so that the one-letter names of the source stay free for variables. *)
Record EncryptedBlock : Type :=
  mkEncryptedBlock { eb_u : PolynomialMatrix; eb_v : PolynomialMatrix }.

(** [type CrystalsKyberPublicKey = {t, A}]. *)
Record CrystalsKyberPublicKey : Type :=
  mkPublicKey { pk_t : PolynomialMatrix; pk_A : PolynomialMatrix }.

(** [type CrystalsKyberPrivateKey = {s}]. *)
Record CrystalsKyberPrivateKey : Type :=
  mkPrivateKey { sk_s : PolynomialMatrix }.

(** [type CrystalsKyberKeys = {pKey, sKey}]. *)
Record CrystalsKyberKeys : Type :=
  mkKeys { pKey : CrystalsKyberPublicKey; sKey : CrystalsKyberPrivateKey }.

(** A JavaScript string: its UTF-16 code units. *)
Definition jsString : Type := list Z.

(** ** Outcomes of a call *)

(** What the source can throw: the [Error] of the dimension checks of
    [addMatrices], [subtractMatrices] and [multiplyMatrices], and the
    [TypeError] of a property read on [undefined]. *)
Inductive exn : Type :=
| ShapeMismatch
| TypeError.

(** A call returns a value, throws, or is still running when the fuel that
    bounds the iterations of each [while] loop of [dividePolynomials] is
    spent. *)
Inductive outcome (X : Type) : Type :=
| Ok (x : X)
| Throw (e : exn)
| OutOfFuel.

Arguments Ok {X} x.
Arguments Throw {X} e.
Arguments OutOfFuel {X}.

Definition bind {X Y : Type} (m : outcome X) (f : X -> outcome Y) : outcome Y :=
  match m with
  | Ok x => f x
  | Throw e => Throw e
  | OutOfFuel => OutOfFuel
  end.

Notation "x <- m ;; k" := (bind m (fun x => k))
  (at level 61, m at next level, right associativity).

(** A read that gives [undefined] followed by a property access. *)
Definition defined {X : Type} (o : option X) : outcome X :=
  match o with
  | Some x => Ok x
  | None => Throw TypeError
  end.

(** [l.map((x, i) => f i x)] for an [f] that may throw: left to right, the
    first failure ends the call. *)
Fixpoint mapiM_from {X Y : Type} (f : nat -> X -> outcome Y) (i : nat)
  (l : list X) : outcome (list Y) :=
  match l with
  | [] => Ok []
  | x :: rest =>
      y <- f i x ;;
      ys <- mapiM_from f (S i) rest ;;
      Ok (y :: ys)
  end.

Definition mapiM {X Y : Type} (f : nat -> X -> outcome Y) (l : list X)
  : outcome (list Y) :=
  mapiM_from f 0 l.

Definition mapM {X Y : Type} (f : X -> outcome Y) (l : list X)
  : outcome (list Y) :=
  mapiM (fun _ => f) l.

(** A [for] loop that updates an accumulator and may throw. *)
Fixpoint foldM {X St : Type} (f : St -> X -> outcome St) (l : list X)
  (acc : St) : outcome St :=
  match l with
  | [] => Ok acc
  | x :: rest => acc' <- f acc x ;; foldM f rest acc'
  end.

(** ** Arrays *)

(** [l[i] = x] for an index inside the array.  Each index the source writes
    is below the length of the array written ([degreeDiff + i] in
    [dividePolynomials], [indexA + indexB] in [multiplyMatrices]), so the
    extension of a JavaScript array by a write past its end never happens. *)
Fixpoint arraySet {X : Type} (i : nat) (x : X) (l : list X) : list X :=
  match l, i with
  | [], _ => []
  | _ :: rest, O => x :: rest
  | y :: rest, S i' => y :: arraySet i' x rest
  end.

(** [l.forEach((x, i) => ...)] on an accumulator. *)
Fixpoint foldi_from {X St : Type} (f : St -> X -> nat -> St) (i : nat)
  (l : list X) (acc : St) : St :=
  match l with
  | [] => acc
  | x :: rest => foldi_from f (S i) rest (f acc x i)
  end.

Definition foldi {X St : Type} (f : St -> X -> nat -> St) (l : list X)
  (acc : St) : St :=
  foldi_from f 0 l acc.

(** ** Polynomial operations *)

(** The inner [for] loop of [dividePolynomials] (index.ts 122-125): the
    scaled divisor is subtracted at offset [degreeDiff], each touched
    coefficient is centred again.  The product and the difference are
    exact; those of the source are as long as they are integers of
    magnitude at most 2^53. *)
Definition subtractScaledDivisor (divisor : list Q) (degreeDiff : nat)
  (leadingCoeff moduloQ : Q) (dividendCoefficients : list Q) : list Q :=
  fold_left
    (fun d i =>
       let d1 :=
         arraySet (degreeDiff + i)
           (nth (degreeDiff + i) d 0
            - symmetricValueModuloQ (nth i divisor 0 * leadingCoeff) moduloQ)%Q
           d in
       arraySet (degreeDiff + i)
         (symmetricValueModuloQ (nth (degreeDiff + i) d1 0%Q) moduloQ) d1)
    (seq 0 (length divisor)) dividendCoefficients.

(** The inner [while] loop (index.ts 127-129), on the reversed array. *)
Fixpoint popZeros_rev (l : list Q) : list Q :=
  match l with
  | [] => []
  | x :: rest => if Qeq_bool x 0 then popZeros_rev rest else l
  end.

Definition popTrailingZeros (l : list Q) : list Q :=
  rev (popZeros_rev (rev l)).

(** The outer [while] loop (index.ts 118-130).  When the divisor is empty,
    or its leading coefficient is zero, the loop of the source never ends
    once entered: an empty divisor is never longer than the dividend, and a
    zero leading coefficient turns the quotient and every touched
    coefficient into [NaN], which is never popped; both are reported as
    [OutOfFuel]. *)
Fixpoint dividePolynomials_loop (fuel : nat)
  (dividendCoefficients divisor : list Q) (moduloQ : Q) : outcome (list Q) :=
  if length divisor <=? length dividendCoefficients then
    match fuel with
    | O => OutOfFuel
    | S fuel' =>
        if Qeq_bool (last divisor 0%Q) 0 then OutOfFuel
        else
          let degreeDiff := length dividendCoefficients - length divisor in
          let leadingCoeff :=
            Math_floor (last dividendCoefficients 0 / last divisor 0)%Q in
          dividePolynomials_loop fuel'
            (popTrailingZeros
               (subtractScaledDivisor divisor degreeDiff leadingCoeff moduloQ
                  dividendCoefficients))
            divisor moduloQ
    end
  else Ok dividendCoefficients.

(** [dividePolynomials] (index.ts 113-133): the remainder of the division. *)
Definition dividePolynomials (fuel : nat)
  (dividend dividingPolynomial : Polynomial) (moduloQ : Q)
  : outcome Polynomial :=
  r <- dividePolynomials_loop fuel (coefficients dividend)
         (coefficients dividingPolynomial) moduloQ ;;
  Ok (mkPolynomial r).

(** The bits of a byte, most significant first: [(byte >> bit) & 1] for
    [bit] from 7 down to 0.  The bytes are character codes, below 2^16,
    which [ToInt32] leaves as they are. *)
Definition bitsOfByte (byte : Z) : list Q :=
  map (fun bit => inject_Z (Z.land (Z.shiftr byte bit) 1))
    [7; 6; 5; 4; 3; 2; 1; 0]%Z.

Definition paddingByte : Z := 128.

(** [addPaddingToPolynomialBlocks] (index.ts 143-174). *)
Definition addPaddingToPolynomialBlocks (polynomial : Polynomial)
  (blockSize : nat) : list Polynomial :=
  let currentBlock := coefficients polynomial in
  let '(blocks, currentBlock) :=
    if length currentBlock =? blockSize
    then ([mkPolynomial currentBlock], [])
    else ([], currentBlock) in
  let currentBlock := currentBlock ++ bitsOfByte paddingByte in
  let '(blocks, currentBlock) :=
    if length currentBlock =? blockSize
    then (blocks ++ [mkPolynomial currentBlock], [])
    else (blocks, currentBlock) in
  let currentBlock :=
    currentBlock ++ repeat 0%Q (blockSize - length currentBlock) in
  blocks ++ [mkPolynomial currentBlock].

(** The loop of [removePaddingFromPolynomialBlocks], on the reversed array. *)
Fixpoint removePadding_rev (l : list Q) : list Q :=
  match l with
  | [] => []
  | last :: rest =>
      if Qeq_bool last 0 then removePadding_rev rest
      else if Qeq_bool last 1 then rest
      else l
  end.

(** [removePaddingFromPolynomialBlocks] (index.ts 181-197). *)
Definition removePaddingFromPolynomialBlocks (polynomial : Polynomial)
  : Polynomial :=
  mkPolynomial (rev (removePadding_rev (rev (coefficients polynomial)))).

Definition isHighSurrogate (c : Z) : bool := ((55296 <=? c) && (c <=? 56319))%Z.
Definition isLowSurrogate (c : Z) : bool := ((56320 <=? c) && (c <=? 57343))%Z.

(** [Array.from(text).map(char => char.charCodeAt(0))]: [Array.from] walks
    the string by code points, so the low half of a surrogate pair is
    skipped; a string without surrogates gives its code units. *)
Fixpoint charCodes (text : jsString) : list Z :=
  match text with
  | [] => []
  | c :: rest =>
      c :: match rest with
           | [] => []
           | d :: rest' =>
               if isHighSurrogate c && isLowSurrogate d
               then charCodes rest'
               else charCodes rest
           end
  end.

(** One turn of the inner loop of [textToPolynomialBlocks] (index.ts
    212-217): a full block is emitted before the bit is pushed. *)
Definition pushBit (blockSize : nat) (st : list Polynomial * list Q) (b : Q)
  : list Polynomial * list Q :=
  let '(blocks, currentBlock) := st in
  let '(blocks, currentBlock) :=
    if length currentBlock =? blockSize
    then (blocks ++ [mkPolynomial currentBlock], [])
    else (blocks, currentBlock) in
  (blocks, currentBlock ++ [b]).

(** [textToPolynomialBlocks] (index.ts 205-228). *)
Definition textToPolynomialBlocks (text : jsString) (blockSize : nat)
  : list Polynomial :=
  let textBytes := charCodes text in
  let '(blocks, currentBlock) :=
    fold_left
      (fun st byte => fold_left (pushBit blockSize) (bitsOfByte byte) st)
      textBytes ([], []) in
  blocks ++ addPaddingToPolynomialBlocks (mkPolynomial currentBlock) blockSize.

(** A 32-bit result of [<<]. *)
Definition wrapInt32 (z : Z) : Z := ((z + 2 ^ 31) mod 2 ^ 32 - 2 ^ 31)%Z.

(** One turn of the inner loop of [polynomialBlocksToText] (index.ts
    243-251); the state is the bytes pushed and [currentByte]. *)
Definition pushCoefficient (st : list Z * Z) (coefficient : Q) (i : nat)
  : list Z * Z :=
  let '(textBytes, currentByte) := st in
  let currentByte :=
    Z.lor (wrapInt32 (Z.shiftl currentByte 1)) (toInt32 coefficient) in
  if (i + 1) mod 8 =? 0
  then (textBytes ++ [currentByte], 0%Z)
  else (textBytes, currentByte).

(** [polynomialBlocksToText] (index.ts 236-258): [currentByte] starts at 0
    in every block, [blockSize] is not used by the source either, and
    [String.fromCharCode] keeps the low 16 bits of each byte. *)
Definition polynomialBlocksToText (blocks : list Polynomial) (blockSize : nat)
  : jsString :=
  let textBytes :=
    fold_left
      (fun textBytes block =>
         fst (foldi pushCoefficient (coefficients block) (textBytes, 0%Z)))
      blocks [] in
  map toUint16 textBytes.

(** ** Matrix operations *)

(** The values that the successive calls of [Math.random()] return, each in
    [0, 1); the source of randomness is an explicit input. *)
Definition Rand : Type := nat -> Q.

Definition Math_random (rand : Rand) : Q * Rand :=
  (rand 0, fun i => rand (S i)).

(** [Array.from({ length: count }, () => f())] for an [f] that draws. *)
Fixpoint repeatRand {X : Type} (f : Rand -> X * Rand) (count : nat)
  (rand : Rand) : list X * Rand :=
  match count with
  | O => ([], rand)
  | S count' =>
      let '(x, rand1) := f rand in
      let '(xs, rand2) := repeatRand f count' rand1 in
      (x :: xs, rand2)
  end.

(** One coefficient of [generateRandomMatrix] (index.ts 277).  The product
    of the random value and the modulus is a product of doubles: it is
    rounded before [Math.floor] is applied. *)
Definition randomCoefficient (moduloQ : Q) (rand : Rand) : Q * Rand :=
  let '(x, rand') := Math_random rand in
  (symmetricValueModuloQ (Math_floor (roundToDouble (x * moduloQ)%Q)) moduloQ,
   rand').

Definition randomPolynomial (n : nat) (moduloQ : Q) (rand : Rand)
  : Polynomial * Rand :=
  let '(coefficients, rand') := repeatRand (randomCoefficient moduloQ) n rand in
  (mkPolynomial coefficients, rand').

(** [generateRandomMatrix] (index.ts 272-283): row by row, entry by entry. *)
Definition generateRandomMatrix (rows cols n : nat) (moduloQ : Q)
  (rand : Rand) : PolynomialMatrix * Rand :=
  repeatRand (repeatRand (randomPolynomial n moduloQ) cols) rows rand.

(** The coefficients of a sum or difference (index.ts 300-304, 325-329 and
    364-368): a missing coefficient reads as 0 ([coefficients[k] || 0]).
    The sum or difference is exact; that of the source is as long as it is
    an integer of magnitude at most 2^53 or a half-integer of magnitude at
    most 2^52. *)
Definition combineCoefficients (op : Q -> Q -> Q) (a b : list Q) (moduloQ : Q)
  : list Q :=
  map (fun k => symmetricValueModuloQ (op (nth k a 0%Q) (nth k b 0%Q)) moduloQ)
    (seq 0 (Nat.max (length a) (length b))).

(** The common body of [addMatrices] and [subtractMatrices], which differ in
    the operator only.  [A[0]] is read after the row counts were found
    equal. *)
Definition combineMatrices (op : Q -> Q -> Q) (fuel : nat)
  (A B : PolynomialMatrix) (moduloQ : Q) (modulusPolynomial : Polynomial)
  : outcome PolynomialMatrix :=
  if negb (length A =? length B) then Throw ShapeMismatch
  else
    A0 <- defined (nth_error A 0) ;;
    B0 <- defined (nth_error B 0) ;;
    if negb (length A0 =? length B0) then Throw ShapeMismatch
    else
      mapiM
        (fun i row =>
           mapiM
             (fun j polyA =>
                polyB <- defined (nth_error (nth i B []) j) ;;
                dividePolynomials fuel
                  (mkPolynomial
                     (combineCoefficients op (coefficients polyA)
                        (coefficients polyB) moduloQ))
                  modulusPolynomial moduloQ)
             row)
        A.

(** [addMatrices] (index.ts 293-308). *)
Definition addMatrices : nat -> PolynomialMatrix -> PolynomialMatrix -> Q ->
  Polynomial -> outcome PolynomialMatrix :=
  combineMatrices Qplus.

(** [subtractMatrices] (index.ts 318-333). *)
Definition subtractMatrices : nat -> PolynomialMatrix -> PolynomialMatrix ->
  Q -> Polynomial -> outcome PolynomialMatrix :=
  combineMatrices Qminus.

(** The schoolbook product of two coefficient arrays (index.ts 355-361).
    The products and the sums are exact; those of the source are as long as
    they are integers of magnitude at most 2^53. *)
Definition productCoefficients (a b : list Q) : list Q :=
  foldi
    (fun pc coeffA indexA =>
       foldi
         (fun pc coeffB indexB =>
            arraySet (indexA + indexB)
              (nth (indexA + indexB) pc 0 + coeffA * coeffB)%Q pc)
         b pc)
    a (repeat 0%Q (length a + length b - 1)).

(** [multiplyMatrices] (index.ts 343-377).  [B[0]] is read when the result
    is allocated, [A] having a first row by then. *)
Definition multiplyMatrices (fuel : nat) (A B : PolynomialMatrix)
  (moduloQ : Q) (modulusPolynomial : Polynomial) : outcome PolynomialMatrix :=
  A0 <- defined (nth_error A 0) ;;
  if negb (length A0 =? length B) then Throw ShapeMismatch
  else
    B0 <- defined (nth_error B 0) ;;
    mapiM
      (fun i _ =>
         mapM
           (fun j =>
              summed <-
                foldM
                  (fun current k =>
                     polyA <- defined (nth_error (nth i A []) k) ;;
                     polyB <- defined (nth_error (nth k B []) j) ;;
                     Ok (combineCoefficients Qplus current
                           (productCoefficients (coefficients polyA)
                              (coefficients polyB))
                           moduloQ))
                  (seq 0 (length B)) [] ;;
              dividePolynomials fuel (mkPolynomial summed) modulusPolynomial
                moduloQ)
           (seq 0 (length B0)))
      A.

(** [transposeMatrix] (index.ts 384-396), on matrices whose rows are at
    least as long as the first one; the entries of a row beyond the length
    of the first row are not read.  For a row shorter than the first one
    the source returns an array that holds [undefined], which is not a
    matrix of polynomials, and fails with a [TypeError] only when such an
    entry is used; the model has no such array and gives the [TypeError]
    at the read.  The statements about [transposeMatrix] take a rectangular
    matrix or a call that returns. *)
Definition transposeMatrix (matrix : PolynomialMatrix)
  : outcome PolynomialMatrix :=
  row0 <- defined (nth_error matrix 0) ;;
  mapM (fun j => mapM (fun row => defined (nth_error row j)) matrix)
    (seq 0 (length row0)).

(** ** Parameters (index.ts 402-433) *)

(** The globals [q], [n], [k], [n1], [n2]. *)
Record Parameters : Type :=
  mkParameters {
    param_q : Z;
    param_n : nat;
    param_k : nat;
    param_n1 : Z;
    param_n2 : Z
  }.

Definition Kyber512 : Parameters := mkParameters 3329 256 2 3 2.
Definition Kyber768 : Parameters := mkParameters 3329 256 3 2 2.
Definition Kyber1024 : Parameters := mkParameters 3329 256 4 2 2.

(** The set the source runs with ("Customized"). *)
Definition Customized : Parameters := mkParameters 3329 256 4 2 2.

(** [modulusPolynomial] (index.ts 430-433): 1 at degree 0 and at degree n. *)
Definition modulusPolynomial (P : Parameters) : Polynomial :=
  mkPolynomial
    (arraySet (param_n P) 1%Q
       (arraySet 0 1%Q (repeat 0%Q (param_n P + 1)))).

(** ** Cryptographic functions *)

(** [crystalsKyber_generateKeys] (index.ts 439-451). *)
Definition crystalsKyber_generateKeys (P : Parameters) (fuel : nat)
  (rand : Rand) : outcome (CrystalsKyberKeys * Rand) :=
  let q := inject_Z (param_q P) in
  let n := param_n P in
  let k := param_k P in
  let '(s, rand) :=
    generateRandomMatrix k 1 n (inject_Z (param_n1 P) * 2 + 1)%Q rand in
  let '(e, rand) :=
    generateRandomMatrix k 1 n (inject_Z (param_n2 P) * 2 + 1)%Q rand in
  let '(A, rand) := generateRandomMatrix k k n q rand in
  As <- multiplyMatrices fuel A s q (modulusPolynomial P) ;;
  t <- addMatrices fuel As e q (modulusPolynomial P) ;;
  Ok (mkKeys (mkPublicKey t A) (mkPrivateKey s), rand).

(** [msgScaled] (index.ts 461): every coefficient times [q/2]. *)
Definition scaleMessage (P : Parameters) (msg : Polynomial) : Polynomial :=
  mkPolynomial
    (map (fun coeff => (coeff * (inject_Z (param_q P) / 2))%Q)
       (coefficients msg)).

(** [crystalsKyber_encrypt] (index.ts 453-475). *)
Definition crystalsKyber_encrypt (P : Parameters) (fuel : nat)
  (msg : Polynomial) (pKey : CrystalsKyberPublicKey) (rand : Rand)
  : outcome (EncryptedBlock * Rand) :=
  let q := inject_Z (param_q P) in
  let n := param_n P in
  let k := param_k P in
  let '(encrypt_r, rand) :=
    generateRandomMatrix k 1 n (inject_Z (param_n1 P) * 2 + 1)%Q rand in
  let '(e1, rand) :=
    generateRandomMatrix k 1 n (inject_Z (param_n2 P) * 2 + 1)%Q rand in
  let '(e2, rand) :=
    generateRandomMatrix 1 1 n (inject_Z (param_n2 P) * 2 + 1)%Q rand in
  let msgScaled := scaleMessage P msg in
  let matrixMsgScaled := [[msgScaled]] in
  At <- transposeMatrix (pk_A pKey) ;;
  Atr <- multiplyMatrices fuel At encrypt_r q (modulusPolynomial P) ;;
  u <- addMatrices fuel Atr e1 q (modulusPolynomial P) ;;
  tt <- transposeMatrix (pk_t pKey) ;;
  ttr <- multiplyMatrices fuel tt encrypt_r q (modulusPolynomial P) ;;
  ttre2 <- addMatrices fuel ttr e2 q (modulusPolynomial P) ;;
  v <- addMatrices fuel ttre2 matrixMsgScaled q (modulusPolynomial P) ;;
  Ok (mkEncryptedBlock u v, rand).

(** [msg_polynomial] of [crystalsKyber_decrypt] (index.ts 478-479): the
    entry [0][0] of [v - s^T u]. *)
Definition decryptionPolynomial (P : Parameters) (fuel : nat)
  (eb : EncryptedBlock) (sKey : CrystalsKyberPrivateKey)
  : outcome Polynomial :=
  let q := inject_Z (param_q P) in
  st <- transposeMatrix (sk_s sKey) ;;
  stu <- multiplyMatrices fuel st (eb_u eb) q (modulusPolynomial P) ;;
  msg_decrypted <-
    subtractMatrices fuel (eb_v eb) stu q (modulusPolynomial P) ;;
  row0 <- defined (nth_error msg_decrypted 0) ;;
  defined (nth_error row0 0).

(** [crystalsKyber_decrypt] (index.ts 477-489). *)
Definition crystalsKyber_decrypt (P : Parameters) (fuel : nat)
  (eb : EncryptedBlock) (sKey : CrystalsKyberPrivateKey)
  : outcome Polynomial :=
  msg_polynomial <- decryptionPolynomial P fuel eb sKey ;;
  Ok (mkPolynomial
        (map (fun coeff => reduceToBinary coeff 0 (inject_Z (param_q P) / 2))
           (coefficients msg_polynomial))).

(** The loop of [crystalsKyber_encryptMessage] (index.ts 497-500). *)
Fixpoint encryptBlocks (P : Parameters) (fuel : nat)
  (polynomialsToEncrypt : list Polynomial) (pKey : CrystalsKyberPublicKey)
  (rand : Rand) : outcome (list EncryptedBlock * Rand) :=
  match polynomialsToEncrypt with
  | [] => Ok ([], rand)
  | msg :: rest =>
      r1 <- crystalsKyber_encrypt P fuel msg pKey rand ;;
      r2 <- encryptBlocks P fuel rest pKey (snd r1) ;;
      Ok (fst r1 :: fst r2, snd r2)
  end.

(** [crystalsKyber_encryptMessage] (index.ts 491-503). *)
Definition crystalsKyber_encryptMessage (P : Parameters) (fuel : nat)
  (message : jsString) (pKey : CrystalsKyberPublicKey) (rand : Rand)
  : outcome (list EncryptedBlock * Rand) :=
  encryptBlocks P fuel (textToPolynomialBlocks message (param_n P)) pKey rand.

(** The loop with [break] of index.ts 515-522. *)
Fixpoint allZeroes (lastPolynomialCoefficients : list Q) : bool :=
  match lastPolynomialCoefficients with
  | [] => true
  | c :: rest => if negb (Qeq_bool c 0) then false else allZeroes rest
  end.

(** [l.map((x, i) => f i x)]. *)
Fixpoint mapi_from {X Y : Type} (f : nat -> X -> Y) (i : nat) (l : list X)
  : list Y :=
  match l with
  | [] => []
  | x :: rest => f i x :: mapi_from f (S i) rest
  end.

(** The part of [crystalsKyber_decryptMessage] between the decryption of the
    blocks and the decoding (index.ts 514-534): the last block is read
    ([TypeError] when there is none), popped when all its coefficients are
    zero, and the padding is removed from the block at the last index. *)
Definition stripPadding (polynomialsDecrypted : list Polynomial)
  : outcome (list Polynomial) :=
  lastPolynomial <-
    defined (nth_error polynomialsDecrypted
               (length polynomialsDecrypted - 1)) ;;
  let polynomialsDecrypted :=
    if allZeroes (coefficients lastPolynomial)
    then removelast polynomialsDecrypted
    else polynomialsDecrypted in
  Ok (mapi_from
        (fun i p =>
           if i =? length polynomialsDecrypted - 1
           then removePaddingFromPolynomialBlocks p
           else p)
        0 polynomialsDecrypted).

(** [crystalsKyber_decryptMessage] (index.ts 505-539). *)
Definition crystalsKyber_decryptMessage (P : Parameters) (fuel : nat)
  (encryptedMsg : list EncryptedBlock) (sKey : CrystalsKyberPrivateKey)
  : outcome jsString :=
  polynomialsDecrypted <-
    mapM (fun eb => crystalsKyber_decrypt P fuel eb sKey) encryptedMsg ;;
  polynomialsDecryptedWithoutPadding <- stripPadding polynomialsDecrypted ;;
  Ok (polynomialBlocksToText polynomialsDecryptedWithoutPadding (param_n P)).

(** ** Vocabulary of the statements *)

(** A number that is an integer, in the representation the arithmetic of
    [Q] gives to sums, differences and products of integers. *)
Definition isInt (x : Q) : Prop := Qden x = 1%positive.

(** A coefficient that is a bit. *)
Definition isBit (c : Q) : Prop := (c == 0)%Q \/ (c == 1)%Q.

(** A coefficient in the centred range of the modulus. *)
Definition centered (moduloQ c : Q) : Prop :=
  (- Math_floor (moduloQ / 2) <= c)%Q /\ (c <= Math_floor (moduloQ / 2))%Q.

(** A ring element in reduced form: fewer coefficients than the modulus
    polynomial, each one centred. *)
Definition reduced (P : Parameters) (p : Polynomial) : Prop :=
  length (coefficients p) <= param_n P /\
  Forall (centered (inject_Z (param_q P))) (coefficients p).

(** The bit sequence of a text: eight bits per character code. *)
Definition bitsOfText (text : jsString) : list Q :=
  flat_map bitsOfByte (charCodes text).

(** Padding removal applied to the last block of a sequence, the blocks
    before it unchanged. *)
Fixpoint unpadLast (blocks : list Polynomial) : list Polynomial :=
  match blocks with
  | [] => []
  | [lastBlock] => [removePaddingFromPolynomialBlocks lastBlock]
  | block :: rest => block :: unpadLast rest
  end.

(** The coefficients of a sequence of blocks, end to end. *)
Definition blockBits (blocks : list Polynomial) : list Q :=
  concat (map coefficients blocks).

(** The sequence of blocks with its last block dropped when all the
    coefficients of that block are zero. *)
Definition dropZeroBlock (blocks : list Polynomial) : list Polynomial :=
  if allZeroes (coefficients (last blocks (mkPolynomial [])))
  then removelast blocks
  else blocks.

(** *** The decoder in the words of its description *)

(** A bit stream regrouped by eight; fewer than eight bits left over make no
    group. *)
Fixpoint groupsOf8 (bits : list Q) : list (list Q) :=
  match bits with
  | b7 :: b6 :: b5 :: b4 :: b3 :: b2 :: b1 :: b0 :: rest =>
      [b7; b6; b5; b4; b3; b2; b1; b0] :: groupsOf8 rest
  | _ => []
  end.

(** The byte that a group of bits spells, most significant bit first. *)
Definition byteOfBits (group : list Q) : Z :=
  fold_left (fun byte bit => (2 * byte + Qfloor bit)%Z) group 0%Z.

(** All coefficients of all blocks as one bit stream, regrouped by eight,
    each group read as the code of a character. *)
Definition blocksToText_spec (blocks : list Polynomial) : jsString :=
  map byteOfBits (groupsOf8 (blockBits blocks)).

(** The character codes of a text are bytes. *)
Definition byteString (text : jsString) : Prop :=
  Forall (fun c => (0 <= c < 256)%Z) text.

(** The character codes of a text are ASCII. *)
Definition asciiString (text : jsString) : Prop :=
  Forall (fun c => (0 <= c < 128)%Z) text.

(** The bytes accumulated by the inner loop of [polynomialBlocksToText]
    when only the byte in progress matters. *)
Definition byteStep (currentByte : Z) (coefficient : Q) : Z :=
  Z.lor (wrapInt32 (Z.shiftl currentByte 1)) (toInt32 coefficient).

(** Every block but the last has a whole number of bytes. *)
Fixpoint wholeBytesButLast (blocks : list Polynomial) : Prop :=
  match blocks with
  | [] => True
  | [_] => True
  | block :: rest =>
      length (coefficients block) mod 8 = 0 /\ wholeBytesButLast rest
  end.

(** Every coefficient of every block is a bit. *)
Definition bitBlocks (blocks : list Polynomial) : Prop :=
  Forall (fun block => Forall isBit (coefficients block)) blocks.

(** *** Matrices *)

(** Two arrays combined position by position. *)
Fixpoint zipWith {X Y W : Type} (f : X -> Y -> W) (l : list X) (l' : list Y)
  : list W :=
  match l, l' with
  | x :: rest, y :: rest' => f x y :: zipWith f rest rest'
  | _, _ => []
  end.

(** The entry of a sum or difference of matrices before its reduction. *)
Definition combinePolynomials (op : Q -> Q -> Q) (moduloQ : Q)
  (a b : Polynomial) : Polynomial :=
  mkPolynomial (combineCoefficients op (coefficients a) (coefficients b) moduloQ).

(** Two coefficient arrays that denote the same polynomial: they agree at
    every index, an absent coefficient reading as 0, the way the sums and
    differences of the source read them. *)
Definition samePolynomial (p p' : Polynomial) : Prop :=
  forall i : nat, nth i (coefficients p) 0%Q = nth i (coefficients p') 0%Q.

(** Two entries short enough for their sum or difference to need no
    reduction. *)
Definition shortPair (mp : Polynomial) (a b : Polynomial) : Prop :=
  length (coefficients a) < length (coefficients mp) /\
  length (coefficients b) < length (coefficients mp).

(** A matrix with the given numbers of rows and columns whose entries all
    satisfy a property. *)
Definition matrixOf (Pr : Polynomial -> Prop) (rows cols : nat)
  (M : PolynomialMatrix) : Prop :=
  length M = rows /\
  Forall (fun row => length row = cols /\ Forall Pr row) M.

(** A polynomial with integer coefficients and at most n of them: what the
    reduction returns. *)
Definition ringElement (P : Parameters) (p : Polynomial) : Prop :=
  Forall isInt (coefficients p) /\ length (coefficients p) <= param_n P.

(** A polynomial with exactly n coefficients. *)
Definition fullLength (P : Parameters) (p : Polynomial) : Prop :=
  length (coefficients p) = param_n P.

(** The conditions on the parameters under which the scheme runs: a
    positive modulus, at least one row, blocks of a positive whole number
    of bytes. *)
Definition validParameters (P : Parameters) : Prop :=
  (0 < param_q P)%Z /\ 0 < param_k P /\ 0 < param_n P /\
  param_n P mod 8 = 0.

(** A polynomial with integer coefficients and exactly n of them: what the
    sampling returns. *)
Definition freshElement (P : Parameters) (p : Polynomial) : Prop :=
  Forall isInt (coefficients p) /\ length (coefficients p) = param_n P.

(** Keys and ciphertext blocks of the shapes that key generation and
    encryption produce. *)
Definition goodPublicKey (P : Parameters) (pk : CrystalsKyberPublicKey)
  : Prop :=
  matrixOf (ringElement P) (param_k P) 1 (pk_t pk) /\
  matrixOf (ringElement P) (param_k P) (param_k P) (pk_A pk).

Definition goodPrivateKey (P : Parameters) (sk : CrystalsKyberPrivateKey)
  : Prop :=
  matrixOf (ringElement P) (param_k P) 1 (sk_s sk).

Definition goodBlock (P : Parameters) (eb : EncryptedBlock) : Prop :=
  matrixOf (ringElement P) (param_k P) 1 (eb_u eb) /\
  matrixOf (fullLength P) 1 1 (eb_v eb).

(** The block that holds the bits of a run of bytes. *)
Definition encodeChunk (bytes : list Z) : Polynomial :=
  mkPolynomial (flat_map bitsOfByte bytes).

(** The decryption polynomial [d] rounds back to the message block [m]:
    each of its n coefficients decodes to the bit of [m] at its index. *)
Definition roundsBack (P : Parameters) (d m : Polynomial) : Prop :=
  forall j : nat,
    j < param_n P ->
    reduceToBinary (nth j (coefficients d) 0%Q) 0 (inject_Z (param_q P) / 2)
    = nth j (coefficients m) 0%Q.

(** The noise is small enough in every block: whenever the decryption
    polynomial of the i-th ciphertext block is computed, it rounds back to
    the i-th message block. *)
Definition noiseSmall (P : Parameters) (fuel : nat) (blocks : list Polynomial)
  (cts : list EncryptedBlock) (sk : CrystalsKyberPrivateKey) : Prop :=
  forall (i : nat) (eb : EncryptedBlock) (m d : Polynomial),
    nth_error cts i = Some eb ->
    nth_error blocks i = Some m ->
    decryptionPolynomial P fuel eb sk = Ok d ->
    roundsBack P d m.

(** *** Values for the examples *)

(** A small parameter set: the modulus of Kyber, blocks of one byte, one
    row. *)
Definition smallParameters : Parameters := mkParameters 3329 8 1 2 2.

(** A random source that cycles through 0, 1/7, ..., 6/7. *)
Definition cyclingRand : Rand := fun i => (Z.of_nat (i mod 7) # 7)%Q.

(** *** Numbers and sampling *)

(** Two integers congruent modulo [m]. *)
Definition congruent (m a b : Z) : Prop := exists j : Z, (a = b + j * m)%Z.

(** The number that a bit stands for. *)
Definition bitValue (bit : bool) : Q := if bit then 1%Q else 0%Q.

(** A polynomial with exactly [n] coefficients, each an integer of the
    centred range of the modulus [m]. *)
Definition sampled (n : nat) (m : Z) (p : Polynomial) : Prop :=
  length (coefficients p) = n /\
  Forall (fun c => exists z : Z, c = inject_Z z /\ (- (m / 2) <= z <= m / 2)%Z)
    (coefficients p).

(** *** Exact arithmetic *)

(** Every integer of magnitude up to 2^53 is a double, and a sum, a
    difference or a product of two doubles whose exact value is such an
    integer is computed exactly. *)
Definition maxExactInteger : Z := 2 ^ 53.

(** A polynomial whose coefficients have magnitude at most [B]. *)
Definition magnitude (B : Z) (p : Polynomial) : Prop :=
  Forall (fun c => (Qabs c <= inject_Z B)%Q) (coefficients p).

(** *** Polynomials with integer coefficients *)

(** The coefficient of degree [k] of the product of two polynomials: the sum
    of the products [a_i * b_(k-i)] for [i] from 0 to [k], a coefficient
    beyond the end of an array reading as 0. *)
Definition convolution (a b : list Z) (k : nat) : Z :=
  fold_right Z.add 0%Z
    (map (fun i => (nth i a 0 * nth (k - i) b 0)%Z) (seq 0 (S k))).

(** The same sum, taken along the array [a] whose first coefficient has the
    degree [s]. *)
Fixpoint convolutionFrom (a b : list Z) (s k : nat) : Z :=
  match a with
  | [] => 0%Z
  | x :: rest =>
      ((if (s <=? k)%nat then x * nth (k - s) b 0 else 0)
       + convolutionFrom rest b (S s) k)%Z
  end.

(** The alternating sum [c i - c (i + n) + c (i + 2n) - ...] of [terms]
    terms. *)
Fixpoint alternatingSum (terms n : nat) (c : nat -> Z) (i : nat) : Z :=
  match terms with
  | O => 0%Z
  | S terms' => (c i - alternatingSum terms' n c (i + n))%Z
  end.

(** The coefficient of degree [i] of a polynomial folded modulo x^n + 1,
    where x^n counts as -1: [d_i - d_(i+n) + d_(i+2n) - ...]. *)
Definition negacyclicFold (n : nat) (d : list Z) (i : nat) : Z :=
  alternatingSum (length d) n (fun j => nth j d 0%Z) i.

(** An integer in the centred range of the modulus [m]. *)
Definition centeredZ (m z : Z) : Prop := (- (m / 2) <= z <= m / 2)%Z.

(** *** Keys and blocks *)

(** A polynomial with exactly [n] coefficients, each an integer of
    magnitude at most [eta]. *)
Definition bounded (n : nat) (eta : Z) (p : Polynomial) : Prop :=
  length (coefficients p) = n /\
  Forall (fun c => exists z : Z, c = inject_Z z /\ (- eta <= z <= eta)%Z)
    (coefficients p).

(** A coefficient that is the number 0 or the number 1 itself. *)
Definition exactBit (c : Q) : Prop := c = 0%Q \/ c = 1%Q.

(** The moduli of the two samplers, [2 * eta + 1]. *)
Definition samplerModulus (eta : Z) : Q := (inject_Z eta * 2 + 1)%Q.

(** *** Formal series with integer coefficients *)

(** The sum of [f i] for [i] below [m]. *)
Fixpoint sumBelow (m : nat) (f : nat -> Z) : Z :=
  match m with
  | O => 0%Z
  | S m' => (sumBelow m' f + f m')%Z
  end.

(** The product of two series: at degree [k], the sum of [a i * b (k - i)]
    for [i] from 0 to [k]. *)
Definition seriesProduct (a b : nat -> Z) (k : nat) : Z :=
  sumBelow (S k) (fun i => (a i * b (k - i)%nat)%Z).

(** The product of a series with x^n + 1. *)
Definition timesModulus (n : nat) (c : nat -> Z) (k : nat) : Z :=
  (c k + if (n <=? k)%nat then c (k - n)%nat else 0)%Z.

(** Two series congruent modulo x^n + 1 and q: they differ by a multiple of
    x^n + 1 by a polynomial, and by multiples of q. *)
Definition ringCongruent (n : nat) (q : Z) (a b : nat -> Z) : Prop :=
  exists (quotient err : nat -> Z) (bound : nat),
    (forall i, bound <= i -> quotient i = 0%Z) /\
    forall k, a k = (b k + timesModulus n quotient k + q * err k)%Z.

(** The coefficients of a polynomial of the program, read as integers. *)
Definition seriesOf (p : Polynomial) (i : nat) : Z :=
  Qnum (nth i (coefficients p) 0%Q).

(** The entry of a matrix at row [i] and column [j]. *)
Definition entry (M : PolynomialMatrix) (i j : nat) : Polynomial :=
  nth j (nth i M []) (mkPolynomial []).

(** The coefficient of degree [t] of the product of two polynomials of at
    most n coefficients, reduced modulo x^n + 1: the part of the product
    from the degree n on is subtracted from the part below. *)
Definition negacyclicProduct (n : nat) (a b : nat -> Z) (t : nat) : Z :=
  (seriesProduct a b t - seriesProduct a b (t + n)%nat)%Z.

(** The dot product of two column vectors of k polynomials, in the ring of
    the polynomials modulo x^n + 1 over the integers. *)
Definition dotProduct (n k : nat) (u v : PolynomialMatrix) (t : nat) : Z :=
  sumBelow k
    (fun i =>
       negacyclicProduct n (seriesOf (entry u i 0)) (seriesOf (entry v i 0)) t).

(** The noise of a ciphertext block: e^T r + e2 - s^T e1, over the
    integers. *)
Definition decryptionNoise (n k : nat) (s e r e1 e2 : PolynomialMatrix)
  (t : nat) : Z :=
  (dotProduct n k e r t + seriesOf (entry e2 0 0) t - dotProduct n k s e1 t)%Z.

(** The matrices that key generation samples from a random source, in the
    order of the source: s, e and A. *)
Definition keySample1 (P : Parameters) (rand : Rand) : PolynomialMatrix * Rand :=
  generateRandomMatrix (param_k P) 1 (param_n P)
    (samplerModulus (param_n1 P)) rand.

Definition keySample2 (P : Parameters) (rand : Rand) : PolynomialMatrix * Rand :=
  generateRandomMatrix (param_k P) 1 (param_n P)
    (samplerModulus (param_n2 P)) (snd (keySample1 P rand)).

Definition keySample3 (P : Parameters) (rand : Rand) : PolynomialMatrix * Rand :=
  generateRandomMatrix (param_k P) (param_k P) (param_n P)
    (inject_Z (param_q P)) (snd (keySample2 P rand)).

(** The matrices that the encryption of a block samples: r, e1 and e2. *)
Definition blockSample1 (P : Parameters) (rand : Rand)
  : PolynomialMatrix * Rand :=
  generateRandomMatrix (param_k P) 1 (param_n P)
    (samplerModulus (param_n1 P)) rand.

Definition blockSample2 (P : Parameters) (rand : Rand)
  : PolynomialMatrix * Rand :=
  generateRandomMatrix (param_k P) 1 (param_n P)
    (samplerModulus (param_n2 P)) (snd (blockSample1 P rand)).

Definition blockSample3 (P : Parameters) (rand : Rand)
  : PolynomialMatrix * Rand :=
  generateRandomMatrix 1 1 (param_n P)
    (samplerModulus (param_n2 P)) (snd (blockSample2 P rand)).

(** The noise of the block encrypted with the random source [rand1] under
    the keys generated with the random source [rand]. *)
Definition blockNoise (P : Parameters) (rand rand1 : Rand) (t : nat) : Z :=
  decryptionNoise (param_n P) (param_k P)
    (fst (keySample1 P rand)) (fst (keySample2 P rand))
    (fst (blockSample1 P rand1)) (fst (blockSample2 P rand1))
    (fst (blockSample3 P rand1)) t.

(** * Properties *)

(** ** Integer arithmetic in the number model *)

Lemma inject_Z_plus (a b : Z) : (inject_Z a + inject_Z b)%Q = inject_Z (a + b).
Proof.
  unfold inject_Z, Qplus; simpl. f_equal. lia.
Qed.

Lemma inject_Z_opp (a : Z) : (- inject_Z a)%Q = inject_Z (- a).
Proof. reflexivity. Qed.

Lemma inject_Z_minus (a b : Z) : (inject_Z a - inject_Z b)%Q = inject_Z (a - b).
Proof.
  unfold Qminus. rewrite inject_Z_opp, inject_Z_plus. f_equal.
Qed.

Lemma inject_Z_mult (a b : Z) : (inject_Z a * inject_Z b)%Q = inject_Z (a * b).
Proof. reflexivity. Qed.

Lemma Qltb_inject_Z (a b : Z) : Qltb (inject_Z a) (inject_Z b) = (a <? b)%Z.
Proof.
  unfold Qltb, Qcompare, inject_Z; simpl. rewrite !Z.mul_1_r.
  unfold Z.ltb. destruct (a ?= b)%Z; reflexivity.
Qed.

Lemma Qeq_bool_inject_Z (a b : Z) :
  Qeq_bool (inject_Z a) (inject_Z b) = (a =? b)%Z.
Proof.
  unfold Qeq_bool, inject_Z; simpl. rewrite !Z.mul_1_r. reflexivity.
Qed.

Lemma Qtrunc_div_inject_Z (a m : Z) :
  (0 < m)%Z -> Qtrunc (inject_Z a / inject_Z m) = Z.quot a m.
Proof.
  intros Hm. destruct m as [|p|p]; try lia.
  unfold Qtrunc, Qdiv, Qinv, Qmult, inject_Z; simpl.
  rewrite Z.mul_1_r. reflexivity.
Qed.

Lemma jsRem_inject_Z (a m : Z) :
  (0 < m)%Z -> jsRem (inject_Z a) (inject_Z m) = inject_Z (Z.rem a m).
Proof.
  intros Hm. unfold jsRem. rewrite Qtrunc_div_inject_Z by assumption.
  rewrite inject_Z_mult, inject_Z_minus. f_equal.
  pose proof (Z.quot_rem' a m). lia.
Qed.

Lemma Math_floor_half_inject_Z (m : Z) :
  Math_floor (inject_Z m / 2) = inject_Z (m / 2).
Proof.
  unfold Math_floor, Qfloor, Qdiv, Qmult, inject_Z; simpl.
  rewrite Z.mul_1_r. reflexivity.
Qed.

Lemma symmetricValueModuloQ_inject_Z (a m : Z) :
  (0 < m)%Z ->
  symmetricValueModuloQ (inject_Z a) (inject_Z m) = inject_Z (centerZ a m).
Proof.
  intros Hm. unfold symmetricValueModuloQ, centerZ.
  rewrite jsRem_inject_Z by assumption.
  rewrite Math_floor_half_inject_Z, inject_Z_opp.
  change 0%Q with (inject_Z 0). rewrite !Qltb_inject_Z.
  destruct (Z.rem a m <? 0)%Z.
  - destruct (Z.rem a m <? - (m / 2))%Z; [apply inject_Z_plus | reflexivity].
  - destruct (m / 2 <? Z.rem a m)%Z; [apply inject_Z_minus | reflexivity].
Qed.

(** ** The centred remainder over the integers *)

Lemma centerZ_cases (a m : Z) :
  centerZ a m = Z.rem a m \/ centerZ a m = (Z.rem a m + m)%Z
  \/ centerZ a m = (Z.rem a m - m)%Z.
Proof.
  unfold centerZ.
  destruct (Z.rem a m <? 0)%Z.
  - destruct (Z.rem a m <? - (m / 2))%Z; auto.
  - destruct (m / 2 <? Z.rem a m)%Z; auto.
Qed.

Lemma centerZ_congruent (a m : Z) :
  (0 < m)%Z -> exists j : Z, centerZ a m = (a + j * m)%Z.
Proof.
  intros Hm. pose proof (Z.quot_rem' a m) as E.
  destruct (centerZ_cases a m) as [H | [H | H]]; rewrite H.
  - exists (- (Z.quot a m))%Z. lia.
  - exists (1 - Z.quot a m)%Z. lia.
  - exists (- 1 - Z.quot a m)%Z. lia.
Qed.

Lemma centerZ_range (a m : Z) :
  (0 < m)%Z -> (- (m / 2) <= centerZ a m <= m / 2)%Z.
Proof.
  intros Hm. unfold centerZ.
  assert (Hr : (- m < Z.rem a m < m)%Z).
  { pose proof (Z.rem_bound_pos_neg a m).
    destruct (Z_le_gt_dec 0 a) as [Ha | Ha].
    - pose proof (Z.rem_bound_pos a m Ha Hm). lia.
    - pose proof (Z.rem_bound_neg_pos a m). lia. }
  assert (Hh : (2 * (m / 2) <= m < 2 * (m / 2) + 2)%Z).
  { pose proof (Z.div_mod m 2). pose proof (Z.mod_pos_bound m 2). lia. }
  destruct (Z.ltb_spec (Z.rem a m) 0).
  - destruct (Z.ltb_spec (Z.rem a m) (- (m / 2))); lia.
  - destruct (Z.ltb_spec (m / 2) (Z.rem a m)); lia.
Qed.

Lemma centerZ_multiple (j m : Z) : (0 < m)%Z -> centerZ (j * m) m = 0%Z.
Proof.
  intros Hm. unfold centerZ.
  rewrite Z.rem_mul by lia. simpl.
  destruct (Z.ltb_spec (m / 2) 0); [|reflexivity].
  pose proof (Z.div_pos m 2). lia.
Qed.

Lemma centerZ_cancel (a m : Z) :
  (0 < m)%Z -> centerZ (a - centerZ a m) m = 0%Z.
Proof.
  intros Hm. destruct (centerZ_congruent a m Hm) as [j Hj].
  rewrite Hj. replace (a - (a + j * m))%Z with ((- j) * m)%Z by lia.
  apply centerZ_multiple; assumption.
Qed.

Lemma half_odd (m : Z) : Z.odd m = true -> (m = 2 * (m / 2) + 1)%Z.
Proof.
  intros Hodd. rewrite Z.odd_spec in Hodd. destruct Hodd as [c Hc].
  rewrite Hc at 1. f_equal. f_equal.
  rewrite Hc. rewrite Z.add_comm, Z.mul_comm, Z.div_add by lia.
  reflexivity.
Qed.

(** The centred representative of a residue is unique under an odd
    modulus. *)
Lemma centerZ_unique (x a m : Z) :
  (0 < m)%Z -> Z.odd m = true ->
  (exists j : Z, x = a + j * m)%Z ->
  (- (m / 2) <= a <= m / 2)%Z ->
  centerZ x m = a.
Proof.
  intros Hm Hodd [j Hj] Ha.
  destruct (centerZ_congruent x m Hm) as [j' Hj'].
  pose proof (centerZ_range x m Hm) as Hr.
  pose proof (half_odd m Hodd) as Hh.
  assert (E : (centerZ x m - a = (j + j') * m)%Z) by lia.
  assert (Hz : (j + j' = 0)%Z) by nia.
  rewrite Hz in E. lia.
Qed.

(** A value in the centred range is its own centred remainder. *)
Lemma centerZ_fixed (a m : Z) :
  (0 < m)%Z -> (- (m / 2) <= a <= m / 2)%Z -> centerZ a m = a.
Proof.
  intros Hm Ha. unfold centerZ.
  assert (Hh : (2 * (m / 2) <= m)%Z).
  { pose proof (Z.div_mod m 2). pose proof (Z.mod_pos_bound m 2). lia. }
  assert (Er : Z.rem a m = a) by (apply Z.rem_small_iff; lia).
  rewrite Er.
  destruct (Z.ltb_spec a 0).
  - destruct (Z.ltb_spec a (- (m / 2))); lia.
  - destruct (Z.ltb_spec (m / 2) a); lia.
Qed.

(** ** Centred remainder (index.ts 88-100) *)

(** C4, as the code has it: for every integer value and every positive
    integer modulus the result is an integer congruent to the value, it is
    the raw remainder with the modulus added or subtracted at most once, and
    it lies in the closed range from -floor(modulus/2) to floor(modulus/2);
    for an odd modulus that range is inside (-modulus/2, modulus/2]. *)
Theorem symmetricValueModuloQ_centered (value modulus : Z) :
  (0 < modulus)%Z ->
  exists r : Z,
    symmetricValueModuloQ (inject_Z value) (inject_Z modulus) = inject_Z r /\
    (r = Z.rem value modulus \/ r = Z.rem value modulus + modulus
     \/ r = Z.rem value modulus - modulus)%Z /\
    (exists j : Z, r = value + j * modulus)%Z /\
    (- (modulus / 2) <= r <= modulus / 2)%Z /\
    (Z.odd modulus = true -> - modulus < 2 * r <= modulus)%Z.
Proof.
  intros Hm. exists (centerZ value modulus).
  split; [apply symmetricValueModuloQ_inject_Z; assumption|].
  split; [apply centerZ_cases|].
  split; [apply centerZ_congruent; assumption|].
  pose proof (centerZ_range value modulus Hm) as Hr.
  split; [exact Hr|].
  intros Hodd. pose proof (half_odd modulus Hodd). lia.
Qed.

Lemma symmetricValueModuloQ_centered_witness :
  exists r : Z,
    symmetricValueModuloQ (inject_Z (-5000)) (inject_Z 3329) = inject_Z r /\
    (r = Z.rem (-5000) 3329 \/ r = Z.rem (-5000) 3329 + 3329
     \/ r = Z.rem (-5000) 3329 - 3329)%Z /\
    (exists j : Z, r = -5000 + j * 3329)%Z /\
    (- (3329 / 2) <= r <= 3329 / 2)%Z /\
    (Z.odd 3329 = true -> - 3329 < 2 * r <= 3329)%Z.
Proof.
  apply (symmetricValueModuloQ_centered (-5000) 3329). reflexivity.
Defined.

(** C4 as it is written fails for an even modulus: -2 centred modulo 4 stays
    -2, which is not above -modulus/2. *)
Lemma symmetricValueModuloQ_even_modulus :
  symmetricValueModuloQ (inject_Z (-2)) (inject_Z 4) = inject_Z (-2) /\
  ~ (- (inject_Z 4 / 2) < symmetricValueModuloQ (inject_Z (-2)) (inject_Z 4))%Q.
Proof.
  split; [reflexivity|].
  intros H. vm_compute in H. discriminate H.
Qed.

(** ** Scaling of the message (index.ts 461) *)

Lemma Qmult_half (c : Q) (z : Z) : (c * (inject_Z z / 2) == c * (z # 2))%Q.
Proof.
  apply Qmult_comp; [reflexivity|].
  unfold Qdiv, Qmult, Qinv, inject_Z, Qeq; simpl. lia.
Qed.

Lemma bind_Ok_inv {X Y : Type} (m : outcome X) (f : X -> outcome Y) (y : Y) :
  (x <- m ;; f x) = Ok y -> exists x, m = Ok x /\ f x = Ok y.
Proof.
  destruct m as [x | e |]; simpl; intros H; try discriminate.
  exists x. split; [reflexivity | assumption].
Qed.

(** C3, as the code has it: the scaled message has one coefficient per
    coefficient of the message, each multiplied by the exact half of q (a
    bit becomes 0 or q/2, which is 1664.5 for q = 3329, not its floor), and
    the ciphertext component v is the sum of a matrix with the 1 x 1 matrix
    of that scaled message. *)
Theorem message_scaled_by_half_q (P : Parameters) (fuel : nat)
  (msg : Polynomial) (pKey : CrystalsKyberPublicKey) (rand rand' : Rand)
  (eb : EncryptedBlock) :
  crystalsKyber_encrypt P fuel msg pKey rand = Ok (eb, rand') ->
  (exists ttre2 : PolynomialMatrix,
     addMatrices fuel ttre2 [[scaleMessage P msg]] (inject_Z (param_q P))
       (modulusPolynomial P) = Ok (eb_v eb)) /\
  length (coefficients (scaleMessage P msg)) = length (coefficients msg) /\
  (forall i : nat,
     (nth i (coefficients (scaleMessage P msg)) 0
      == nth i (coefficients msg) 0 * (param_q P # 2))%Q) /\
  (Forall isBit (coefficients msg) ->
   Forall (fun c => (c == 0)%Q \/ (c == param_q P # 2)%Q)
     (coefficients (scaleMessage P msg))).
Proof.
  intros H. split; [|split; [|split]].
  - unfold crystalsKyber_encrypt in H.
    repeat match type of H with
           | (let '(_, _) := ?e in _) = _ => destruct e
           end.
    repeat (apply bind_Ok_inv in H; destruct H as [? [? H]]).
    injection H as <- _. simpl. eauto.
  - unfold scaleMessage; simpl. apply length_map.
  - intros i. unfold scaleMessage; simpl.
    destruct (Nat.lt_ge_cases i (length (coefficients msg))) as [Hi | Hi].
    + rewrite nth_indep with (d' := (0 * (inject_Z (param_q P) / 2))%Q)
        by (rewrite length_map; assumption).
      rewrite (map_nth (fun c => (c * (inject_Z (param_q P) / 2))%Q)).
      apply Qmult_half.
    + rewrite !nth_overflow by (rewrite ?length_map; assumption).
      rewrite Qmult_0_l. reflexivity.
  - intros Hbits. unfold scaleMessage; simpl.
    apply Forall_map. eapply Forall_impl; [|exact Hbits].
    intros c [Hc | Hc]; rewrite Qmult_half, Hc.
    + left. apply Qmult_0_l.
    + right. apply Qmult_1_l.
Qed.

(** C3 as it is written fails: the factor is 3329/2, not 1664. *)
Lemma message_scale_is_not_floor :
  coefficients (scaleMessage Customized (mkPolynomial [1%Q])) = [(3329 # 2)%Q] /\
  ~ (3329 # 2 == 1 * inject_Z (3329 / 2))%Q.
Proof.
  split; [reflexivity|].
  intros H. vm_compute in H. discriminate H.
Qed.

(** ** Reduction modulo the modulus polynomial (index.ts 113-133) *)

Lemma length_arraySet {X : Type} (i : nat) (x : X) (l : list X) :
  length (arraySet i x l) = length l.
Proof.
  revert i. induction l as [|y l IH]; intros [|i]; simpl; auto.
Qed.

Lemma length_modulusPolynomial (P : Parameters) :
  length (coefficients (modulusPolynomial P)) = param_n P + 1.
Proof.
  unfold modulusPolynomial; cbn [coefficients].
  rewrite !length_arraySet. apply repeat_length.
Qed.

Lemma dividePolynomials_loop_short (fuel : nat) (d divisor : list Q) (moduloQ : Q) :
  length d < length divisor ->
  dividePolynomials_loop fuel d divisor moduloQ = Ok d.
Proof.
  intros H. destruct fuel; simpl;
    (destruct (Nat.leb_spec (length divisor) (length d)); [lia | reflexivity]).
Qed.

Lemma dividePolynomials_short (fuel : nat) (p divisor : Polynomial) (moduloQ : Q) :
  length (coefficients p) < length (coefficients divisor) ->
  dividePolynomials fuel p divisor moduloQ = Ok p.
Proof.
  intros H. unfold dividePolynomials.
  rewrite dividePolynomials_loop_short by assumption.
  destruct p; reflexivity.
Qed.

(** Whatever the reduction returns has fewer coefficients than the
    divisor, so reducing it again returns it unchanged. *)
Lemma dividePolynomials_loop_result_short (fuel : nat) (divisor : list Q)
  (moduloQ : Q) :
  forall d r : list Q,
    dividePolynomials_loop fuel d divisor moduloQ = Ok r ->
    length r < length divisor.
Proof.
  induction fuel as [|fuel IH]; intros d r H; cbn [dividePolynomials_loop] in H;
    destruct (Nat.leb_spec (length divisor) (length d)) as [Hle | Hlt];
    try discriminate H; try (injection H as <-; exact Hlt).
  destruct (Qeq_bool (last divisor 0%Q) 0); [discriminate H|].
  eapply IH. exact H.
Qed.

Lemma dividePolynomials_idempotent (fuel fuel' : nat) (p divisor r : Polynomial)
  (moduloQ : Q) :
  dividePolynomials fuel p divisor moduloQ = Ok r ->
  dividePolynomials fuel' r divisor moduloQ = Ok r.
Proof.
  intros H. unfold dividePolynomials in H.
  apply bind_Ok_inv in H. destruct H as [rc [Hrc H]]. injection H as <-.
  apply dividePolynomials_short. cbn [coefficients].
  eapply dividePolynomials_loop_result_short. exact Hrc.
Qed.

(** C8: reducing a ring element that is already reduced (fewer than n+1
    coefficients, each centred modulo q) returns it unchanged, whatever the
    fuel. *)
Theorem reduction_of_reduced_is_identity (P : Parameters) (fuel : nat)
  (p : Polynomial) :
  reduced P p ->
  dividePolynomials fuel p (modulusPolynomial P) (inject_Z (param_q P)) = Ok p.
Proof.
  intros [Hlen _]. apply dividePolynomials_short.
  rewrite length_modulusPolynomial. lia.
Qed.

Lemma reduction_of_reduced_is_identity_witness :
  reduced Customized (mkPolynomial [1664; -1664; 0; 1]%Q) /\
  dividePolynomials 0 (mkPolynomial [1664; -1664; 0; 1]%Q)
    (modulusPolynomial Customized) (inject_Z (param_q Customized))
  = Ok (mkPolynomial [1664; -1664; 0; 1]%Q).
Proof.
  assert (H : reduced Customized (mkPolynomial [1664; -1664; 0; 1]%Q)).
  { split; [simpl; lia|].
    repeat constructor; simpl; intros E; vm_compute in E; discriminate E. }
  split; [exact H|].
  apply (reduction_of_reduced_is_identity Customized 0 _ H).
Defined.

(** ** Padding (index.ts 143-197 and 514-534) *)

Lemma unpadLast_snoc (l : list Polynomial) (x : Polynomial) :
  unpadLast (l ++ [x]) = l ++ [removePaddingFromPolynomialBlocks x].
Proof.
  induction l as [|y l IH]; [reflexivity|].
  simpl. rewrite IH. destruct (l ++ [x]) eqn:E; [|reflexivity].
  destruct l; discriminate E.
Qed.

Lemma mapi_from_last (g : Polynomial -> Polynomial) (l : list Polynomial)
  (x : Polynomial) (off total : nat) :
  total = off + length l ->
  mapi_from (fun i p => if i =? total then g p else p) off (l ++ [x])
  = l ++ [g x].
Proof.
  revert off. induction l as [|y l IH]; intros off Ht; simpl in *.
  - replace (off =? total) with true by (symmetry; apply Nat.eqb_eq; lia).
    reflexivity.
  - replace (off =? total) with false by (symmetry; apply Nat.eqb_neq; lia).
    rewrite IH by lia. reflexivity.
Qed.

Lemma list_snoc_cases {X : Type} (l : list X) :
  l = [] \/ exists init x, l = init ++ [x].
Proof.
  destruct l as [|y l]; [left; reflexivity | right].
  destruct (exists_last (l := y :: l)) as [init [x E]]; [discriminate|].
  exists init, x. exact E.
Qed.

Lemma mapi_from_unpadLast (l : list Polynomial) :
  mapi_from
    (fun i p => if i =? length l - 1
                then removePaddingFromPolynomialBlocks p else p) 0 l
  = unpadLast l.
Proof.
  destruct (list_snoc_cases l) as [-> | [init [x ->]]]; [reflexivity|].
  rewrite unpadLast_snoc. apply mapi_from_last.
  rewrite length_app; simpl. lia.
Qed.

Lemma nth_error_last_index {X : Type} (init : list X) (x : X) :
  nth_error (init ++ [x]) (length (init ++ [x]) - 1) = Some x.
Proof.
  rewrite length_app; simpl.
  replace (length init + 1 - 1) with (length init) by lia.
  rewrite nth_error_app2 by lia. rewrite Nat.sub_diag. reflexivity.
Qed.

(** The padding step of decryption, in one equation: no block, a
    [TypeError]; otherwise the last block is dropped if it is all zero and
    the padding is removed from the block that is then last. *)
Lemma stripPadding_eq (blocks : list Polynomial) :
  stripPadding blocks =
  match blocks with
  | [] => Throw TypeError
  | _ :: _ => Ok (unpadLast (dropZeroBlock blocks))
  end.
Proof.
  destruct (list_snoc_cases blocks) as [-> | [init [x E]]]; [reflexivity|].
  assert (Hne : blocks <> []) by (subst; destruct init; discriminate).
  destruct blocks as [|b bs]; [contradiction|].
  rewrite E. unfold stripPadding, dropZeroBlock.
  rewrite nth_error_last_index; simpl defined; cbn [bind].
  rewrite last_last.
  rewrite mapi_from_unpadLast. reflexivity.
Qed.

Lemma allZeroes_repeat (j : nat) : allZeroes (repeat 0%Q j) = true.
Proof. induction j; simpl; auto. Qed.

Lemma allZeroes_app (a b : list Q) :
  allZeroes (a ++ b) = allZeroes a && allZeroes b.
Proof.
  induction a as [|x a IH]; simpl; [reflexivity|].
  destruct (Qeq_bool x 0); simpl; auto.
Qed.

Lemma allZeroes_marker (c zs : list Q) : allZeroes (c ++ 1%Q :: zs) = false.
Proof.
  rewrite allZeroes_app. simpl. apply andb_false_r.
Qed.

Lemma allZeroes_Forall (l : list Q) :
  allZeroes l = true <-> Forall (fun c => (c == 0)%Q) l.
Proof.
  induction l as [|x l IH]; simpl.
  - split; auto.
  - destruct (Qeq_bool x 0) eqn:E; simpl.
    + rewrite IH. apply Qeq_bool_iff in E. split; intros H.
      * constructor; assumption.
      * inversion H; assumption.
    + split; [discriminate|]. intros H. inversion H as [|? ? Hx _]; subst.
      apply Qeq_bool_iff in Hx. congruence.
Qed.

Lemma removePadding_rev_zeros (j : nat) (l : list Q) :
  removePadding_rev (repeat 0%Q j ++ l) = removePadding_rev l.
Proof. induction j; simpl; auto. Qed.

Lemma rev_repeat {X : Type} (x : X) (j : nat) : rev (repeat x j) = repeat x j.
Proof.
  induction j as [|j IH]; [reflexivity|].
  simpl. rewrite IH. clear IH.
  induction j as [|j IH]; [reflexivity|]. simpl. rewrite IH. reflexivity.
Qed.

Lemma removePadding_marker (c : list Q) (j : nat) :
  removePaddingFromPolynomialBlocks (mkPolynomial (c ++ 1%Q :: repeat 0%Q j))
  = mkPolynomial c.
Proof.
  unfold removePaddingFromPolynomialBlocks; cbn [coefficients].
  rewrite rev_app_distr. simpl rev. rewrite rev_repeat.
  rewrite <- app_assoc. rewrite removePadding_rev_zeros. simpl.
  rewrite rev_involutive. reflexivity.
Qed.

Lemma bitsOfByte_padding :
  bitsOfByte paddingByte = 1%Q :: repeat 0%Q 7.
Proof. reflexivity. Qed.

Lemma length_bitsOfByte (byte : Z) : length (bitsOfByte byte) = 8.
Proof. reflexivity. Qed.

(** The blocks the padding emits, case by case. *)
Lemma addPadding_eq (cur : list Q) (blockSize : nat) :
  addPaddingToPolynomialBlocks (mkPolynomial cur) blockSize =
  if length cur =? blockSize then
    if 8 =? blockSize
    then [mkPolynomial cur; mkPolynomial ([] ++ 1%Q :: repeat 0%Q 7);
          mkPolynomial (repeat 0%Q blockSize)]
    else [mkPolynomial cur;
          mkPolynomial ([] ++ 1%Q :: repeat 0%Q (7 + (blockSize - 8)))]
  else
    if length cur + 8 =? blockSize
    then [mkPolynomial (cur ++ 1%Q :: repeat 0%Q 7);
          mkPolynomial (repeat 0%Q blockSize)]
    else [mkPolynomial
            (cur ++ 1%Q :: repeat 0%Q (7 + (blockSize - (length cur + 8))))].
Proof.
  unfold addPaddingToPolynomialBlocks; cbn [coefficients].
  rewrite bitsOfByte_padding.
  destruct (Nat.eqb_spec (length cur) blockSize) as [E | E].
  - cbn [app length repeat].
    destruct (Nat.eqb_spec 8 blockSize) as [E8 | E8].
    + cbn [app length]. rewrite Nat.sub_0_r. reflexivity.
    + reflexivity.
  - rewrite length_app. cbn [length repeat].
    destruct (Nat.eqb_spec (length cur + 8) blockSize) as [E8 | E8].
    + cbn [app length]. rewrite Nat.sub_0_r. reflexivity.
    + cbn [app]. rewrite <- app_assoc, ?length_app. reflexivity.
Qed.

Lemma app_cons_not_nil {X : Type} (l : list X) (x : X) (r : list X) :
  exists y ys, l ++ x :: r = y :: ys.
Proof. destruct l; simpl; eauto. Qed.

Lemma stripPadding_snoc (init : list Polynomial) (x : Polynomial) :
  stripPadding (init ++ [x]) = Ok (unpadLast (dropZeroBlock (init ++ [x]))).
Proof.
  rewrite stripPadding_eq.
  destruct (app_cons_not_nil init x []) as [y [ys ->]]. reflexivity.
Qed.

Lemma dropZeroBlock_zero (init : list Polynomial) (z : Polynomial) :
  allZeroes (coefficients z) = true -> dropZeroBlock (init ++ [z]) = init.
Proof.
  intros H. unfold dropZeroBlock. rewrite last_last, H.
  apply removelast_last.
Qed.

Lemma dropZeroBlock_nonzero (init : list Polynomial) (x : Polynomial) :
  allZeroes (coefficients x) = false ->
  dropZeroBlock (init ++ [x]) = init ++ [x].
Proof.
  intros H. unfold dropZeroBlock. rewrite last_last, H. reflexivity.
Qed.

(** What decryption's padding step leaves of a padded block sequence. *)
Lemma stripPadding_addPadding (pre : list Polynomial) (cur : list Q)
  (blockSize : nat) :
  stripPadding
    (pre ++ addPaddingToPolynomialBlocks (mkPolynomial cur) blockSize)
  = Ok (pre ++ (if length cur =? blockSize
                then [mkPolynomial cur; mkPolynomial []]
                else [mkPolynomial cur])).
Proof.
  rewrite addPadding_eq.
  destruct (length cur =? blockSize).
  - destruct (8 =? blockSize).
    + change (pre ++ [?a; ?b; ?c]) with (pre ++ [a; b] ++ [c]).
      rewrite app_assoc, stripPadding_snoc.
      rewrite dropZeroBlock_zero by apply allZeroes_repeat.
      change (pre ++ [?a; ?b]) with (pre ++ [a] ++ [b]).
      rewrite app_assoc, unpadLast_snoc, removePadding_marker.
      rewrite <- app_assoc. reflexivity.
    + change (pre ++ [?a; ?b]) with (pre ++ [a] ++ [b]).
      rewrite app_assoc, stripPadding_snoc.
      rewrite dropZeroBlock_nonzero by apply allZeroes_marker.
      rewrite unpadLast_snoc, removePadding_marker.
      rewrite <- app_assoc. reflexivity.
  - destruct (length cur + 8 =? blockSize).
    + change (pre ++ [?a; ?b]) with (pre ++ [a] ++ [b]).
      rewrite app_assoc, stripPadding_snoc.
      rewrite dropZeroBlock_zero by apply allZeroes_repeat.
      rewrite unpadLast_snoc, removePadding_marker. reflexivity.
    + rewrite stripPadding_snoc.
      rewrite dropZeroBlock_nonzero by apply allZeroes_marker.
      rewrite unpadLast_snoc, removePadding_marker. reflexivity.
Qed.

(** ** Encoding of a text (index.ts 205-228) *)

Lemma blockBits_app (a b : list Polynomial) :
  blockBits (a ++ b) = blockBits a ++ blockBits b.
Proof. unfold blockBits. rewrite map_app, concat_app. reflexivity. Qed.

Lemma pushBit_bits (blockSize : nat) (st : list Polynomial * list Q) (b : Q) :
  blockBits (fst (pushBit blockSize st b)) ++ snd (pushBit blockSize st b)
  = (blockBits (fst st) ++ snd st) ++ [b].
Proof.
  destruct st as [blocks cur]. unfold pushBit.
  destruct (length cur =? blockSize); cbn [fst snd].
  - rewrite blockBits_app. unfold blockBits at 2; simpl.
    rewrite app_nil_r, <- app_assoc. reflexivity.
  - rewrite app_assoc. reflexivity.
Qed.

Lemma pushBits_bits (blockSize : nat) (bits : list Q)
  (st : list Polynomial * list Q) :
  blockBits (fst (fold_left (pushBit blockSize) bits st))
    ++ snd (fold_left (pushBit blockSize) bits st)
  = (blockBits (fst st) ++ snd st) ++ bits.
Proof.
  revert st. induction bits as [|b bits IH]; intros st; simpl.
  - rewrite app_nil_r. reflexivity.
  - rewrite IH, pushBit_bits, <- app_assoc. reflexivity.
Qed.

Lemma encodeLoop_bits (blockSize : nat) (bytes : list Z)
  (st : list Polynomial * list Q) :
  let st' :=
    fold_left
      (fun st byte => fold_left (pushBit blockSize) (bitsOfByte byte) st)
      bytes st in
  blockBits (fst st') ++ snd st'
  = (blockBits (fst st) ++ snd st) ++ flat_map bitsOfByte bytes.
Proof.
  revert st. induction bytes as [|x bytes IH]; intros st; cbn zeta.
  - simpl. rewrite app_nil_r. reflexivity.
  - cbn [fold_left flat_map]. specialize (IH (fold_left (pushBit blockSize) (bitsOfByte x) st)).
    cbn zeta in IH. rewrite IH, pushBits_bits, <- app_assoc. reflexivity.
Qed.

(** The blocks of a text are never none: the padding always emits one. *)
Lemma addPadding_snoc (p : Polynomial) (blockSize : nat) :
  exists init lastBlock,
    addPaddingToPolynomialBlocks p blockSize = init ++ [lastBlock].
Proof.
  unfold addPaddingToPolynomialBlocks.
  destruct (length (coefficients p) =? blockSize);
    match goal with
    | |- context [if ?c then _ else _] => destruct c
    end; eauto.
Qed.

Lemma textToPolynomialBlocks_snoc (text : jsString) (blockSize : nat) :
  exists init lastBlock,
    textToPolynomialBlocks text blockSize = init ++ [lastBlock].
Proof.
  unfold textToPolynomialBlocks.
  destruct (fold_left _ (charCodes text) ([], [])) as [blocks cur].
  destruct (addPadding_snoc (mkPolynomial cur) blockSize) as [init [x E]].
  rewrite E. exists (blocks ++ init), x. apply app_assoc.
Qed.

Lemma textToPolynomialBlocks_stripPadding (text : jsString) (blockSize : nat) :
  exists stripped,
    stripPadding (textToPolynomialBlocks text blockSize) = Ok stripped /\
    blockBits stripped = bitsOfText text.
Proof.
  unfold textToPolynomialBlocks, bitsOfText.
  pose proof (encodeLoop_bits blockSize (charCodes text) ([], [])) as H.
  cbn zeta in H.
  destruct (fold_left _ (charCodes text) ([], [])) as [blocks cur].
  cbn [fst snd] in H. rewrite stripPadding_addPadding.
  eexists. split; [reflexivity|].
  change (blockBits [] ++ []) with (@nil Q) in H. cbn [app] in H.
  rewrite blockBits_app, <- H. f_equal.
  destruct (length cur =? blockSize); unfold blockBits; simpl;
    rewrite ?app_nil_r; reflexivity.
Qed.

(** C2, as the code has it: for every text and every block size, once the
    last emitted block is dropped if all its coefficients are zero (the
    filler that follows a marker ending exactly at a block boundary), the
    removal of the padding from the block that is then last, with the blocks
    before it unchanged, gives back the bit sequence of the text; this is the
    padding step of decryption.  The same holds for the padding of any
    coefficient sequence on its own. *)
Theorem padding_round_trip (text : jsString) (bits : list Q) (blockSize : nat) :
  let blocks := textToPolynomialBlocks text blockSize in
  let padded := addPaddingToPolynomialBlocks (mkPolynomial bits) blockSize in
  stripPadding blocks = Ok (unpadLast (dropZeroBlock blocks)) /\
  blockBits (unpadLast (dropZeroBlock blocks)) = bitsOfText text /\
  blockBits (unpadLast (dropZeroBlock padded)) = bits.
Proof.
  cbn zeta.
  destruct (textToPolynomialBlocks_stripPadding text blockSize)
    as [stripped [Hs Hb]].
  destruct (textToPolynomialBlocks_snoc text blockSize) as [init [x E]].
  rewrite E in *. rewrite stripPadding_snoc in Hs.
  injection Hs as Hs. rewrite stripPadding_snoc, Hs.
  split; [reflexivity|]. split; [exact Hb|].
  pose proof (stripPadding_addPadding [] bits blockSize) as H.
  cbn [app] in H.
  destruct (addPadding_snoc (mkPolynomial bits) blockSize) as [init' [x' E']].
  rewrite E' in *. rewrite stripPadding_snoc in H. injection H as ->.
  destruct (length bits =? blockSize); unfold blockBits; simpl;
    rewrite ?app_nil_r; reflexivity.
Qed.

(** C2 as it is written fails: with blocks of 16 bits the text "A" is
    encoded as its 8 bits followed by the marker byte, and a block of zeros;
    removing the padding from that last emitted block leaves the marker in
    the block before it.  The same happens for the empty text with blocks of
    8 bits. *)
Lemma padding_of_last_emitted_block_fails :
  blockBits (unpadLast (textToPolynomialBlocks [65%Z] 16))
  = bitsOfText [65%Z] ++ [1; 0; 0; 0; 0; 0; 0; 0]%Q /\
  blockBits (unpadLast (textToPolynomialBlocks [65%Z] 16)) <> bitsOfText [65%Z] /\
  blockBits (unpadLast (textToPolynomialBlocks [] 8)) <> bitsOfText [].
Proof.
  split; [reflexivity|]. split; intros H; vm_compute in H; discriminate H.
Qed.

(** ** Decoding of blocks (index.ts 236-258) *)

Lemma isBit_Qfloor (c : Q) : isBit c -> Qfloor c = 0%Z \/ Qfloor c = 1%Z.
Proof.
  intros [H | H]; [left | right].
  - rewrite (Qfloor_comp _ _ H). reflexivity.
  - rewrite (Qfloor_comp _ _ H). reflexivity.
Qed.

Lemma Qtrunc_comp (x y : Q) : (x == y)%Q -> Qtrunc x = Qtrunc y.
Proof.
  intros H. unfold Qtrunc.
  destruct x as [a b], y as [c d]; unfold Qeq in H; cbn [Qnum Qden] in *.
  destruct a as [|a|a], c as [|c|c]; try discriminate H; try reflexivity.
  - rewrite !Z.quot_div_nonneg by lia.
    change (Qfloor (Z.pos a # b) = Qfloor (Z.pos c # d)).
    apply Qfloor_comp. exact H.
  - change (Z.neg a) with (- Z.pos a)%Z. change (Z.neg c) with (- Z.pos c)%Z.
    rewrite !Z.quot_opp_l by lia. f_equal.
    rewrite !Z.quot_div_nonneg by lia.
    change (Qfloor (Z.pos a # b) = Qfloor (Z.pos c # d)).
    apply Qfloor_comp. unfold Qeq; cbn [Qnum Qden].
    change (Z.neg a) with (- Z.pos a)%Z in H.
    change (Z.neg c) with (- Z.pos c)%Z in H. lia.
Qed.

Lemma isBit_toInt32 (c : Q) : isBit c -> toInt32 c = Qfloor c.
Proof.
  intros [H | H]; unfold toInt32;
    rewrite (Qtrunc_comp _ _ H), (Qfloor_comp _ _ H); reflexivity.
Qed.

Lemma byteStep_bit (currentByte : Z) (c : Q) :
  (0 <= currentByte < 2 ^ 30)%Z -> isBit c ->
  byteStep currentByte c = (2 * currentByte + Qfloor c)%Z.
Proof.
  intros Hb Hc. unfold byteStep. rewrite (isBit_toInt32 c Hc).
  assert (Hw : wrapInt32 (Z.shiftl currentByte 1) = (2 * currentByte)%Z).
  { unfold wrapInt32. rewrite Z.shiftl_mul_pow2 by lia.
    change (2 ^ 1)%Z with 2%Z.
    rewrite Z.mod_small; [lia|].
    change (2 ^ 31)%Z with 2147483648%Z.
    change (2 ^ 32)%Z with 4294967296%Z.
    change (2 ^ 30)%Z with 1073741824%Z in Hb. lia. }
  rewrite Hw.
  destruct (isBit_Qfloor c Hc) as [-> | ->].
  - rewrite Z.lor_0_r. lia.
  - destruct currentByte as [|p|p]; try reflexivity. lia.
Qed.

Lemma mod8_offset (j r : nat) : (8 * j + r) mod 8 = r mod 8.
Proof.
  replace (8 * j + r) with (r + j * 8) by lia.
  apply Nat.Div0.mod_add.
Qed.

Lemma pushCoefficient_eq (textBytes : list Z) (currentByte : Z) (c : Q)
  (i : nat) :
  pushCoefficient (textBytes, currentByte) c i =
  if (i + 1) mod 8 =? 0
  then (textBytes ++ [byteStep currentByte c], 0%Z)
  else (textBytes, byteStep currentByte c).
Proof. reflexivity. Qed.

Lemma pushCoefficient_inside (textBytes : list Z) (currentByte : Z) (c : Q)
  (j r : nat) :
  r < 7 ->
  pushCoefficient (textBytes, currentByte) c (8 * j + r)
  = (textBytes, byteStep currentByte c).
Proof.
  intros Hr. rewrite pushCoefficient_eq.
  replace (8 * j + r + 1) with (8 * j + (r + 1)) by lia.
  rewrite mod8_offset, Nat.mod_small by lia.
  destruct (Nat.eqb_spec (r + 1) 0); [lia | reflexivity].
Qed.

Lemma pushCoefficient_eighth (textBytes : list Z) (currentByte : Z) (c : Q)
  (j : nat) :
  pushCoefficient (textBytes, currentByte) c (8 * j + 7)
  = (textBytes ++ [byteStep currentByte c], 0%Z).
Proof.
  rewrite pushCoefficient_eq.
  replace (8 * j + 7 + 1) with (8 * j + 8) by lia.
  rewrite mod8_offset. reflexivity.
Qed.

(** Eight coefficients from an index that is a multiple of 8 push one
    byte. *)
Lemma decode_group (j : nat) (b7 b6 b5 b4 b3 b2 b1 b0 : Q) (rest : list Q)
  (textBytes : list Z) :
  foldi_from pushCoefficient (8 * j)
    (b7 :: b6 :: b5 :: b4 :: b3 :: b2 :: b1 :: b0 :: rest) (textBytes, 0%Z)
  = foldi_from pushCoefficient (8 * (S j)) rest
      (textBytes ++ [fold_left byteStep [b7; b6; b5; b4; b3; b2; b1; b0] 0%Z],
       0%Z).
Proof.
  cbn [foldi_from].
  replace (S (S (S (S (S (S (S (S (8 * j))))))))) with (8 * S j) by lia.
  replace (S (S (S (S (S (S (S (8 * j)))))))) with (8 * j + 7) by lia.
  replace (S (S (S (S (S (S (8 * j))))))) with (8 * j + 6) by lia.
  replace (S (S (S (S (S (8 * j)))))) with (8 * j + 5) by lia.
  replace (S (S (S (S (8 * j))))) with (8 * j + 4) by lia.
  replace (S (S (S (8 * j)))) with (8 * j + 3) by lia.
  replace (S (S (8 * j))) with (8 * j + 2) by lia.
  replace (S (8 * j)) with (8 * j + 1) by lia.
  replace (pushCoefficient (textBytes, 0%Z) b7 (8 * j))
    with (pushCoefficient (textBytes, 0%Z) b7 (8 * j + 0))
    by (rewrite Nat.add_0_r; reflexivity).
  rewrite !pushCoefficient_inside by lia.
  rewrite pushCoefficient_eighth. cbn [fold_left]. reflexivity.
Qed.

Lemma fold_byteStep_bits (group : list Q) (currentByte : Z) :
  Forall isBit group ->
  (0 <= currentByte)%Z ->
  ((currentByte + 1) * 2 ^ Z.of_nat (length group) <= 2 ^ 30)%Z ->
  fold_left byteStep group currentByte
  = fold_left (fun byte bit => (2 * byte + Qfloor bit)%Z) group currentByte.
Proof.
  revert currentByte.
  induction group as [|c group IH]; intros cur Hbits H0 Hlt;
    [reflexivity|].
  inversion Hbits as [|? ? Hc Hrest]; subst.
  cbn [fold_left].
  assert (Hpow : (1 <= 2 ^ Z.of_nat (length group))%Z)
    by (apply Z.pow_le_mono_r with (b := 0%Z); lia).
  cbn [length] in Hlt.
  rewrite Nat2Z.inj_succ, Z.pow_succ_r in Hlt by lia.
  change (2 ^ 30)%Z with 1073741824%Z in *.
  set (X := (2 ^ Z.of_nat (length group))%Z) in *.
  assert (Hcur : (cur + 1 <= (cur + 1) * X)%Z) by nia.
  rewrite byteStep_bit;
    [|change (2 ^ 30)%Z with 1073741824%Z; lia|assumption].
  apply IH; [assumption| |].
  - destruct (isBit_Qfloor c Hc) as [-> | ->]; lia.
  - fold X. change (2 ^ 30)%Z with 1073741824%Z.
    destruct (isBit_Qfloor c Hc) as [-> | ->]; lia.
Qed.

Lemma byteOfBits_byteStep (group : list Q) :
  Forall isBit group -> length group <= 8 ->
  fold_left byteStep group 0%Z = byteOfBits group.
Proof.
  intros Hb Hl. apply fold_byteStep_bits; try assumption; try lia.
  rewrite Z.mul_1_l. apply Z.pow_le_mono_r; lia.
Qed.

(** A leftover of fewer than eight coefficients pushes no byte. *)
Lemma decode_leftover (j : nat) (l : list Q) (st : list Z * Z) :
  length l < 8 - j -> j < 8 ->
  forall i, i mod 8 = j ->
  fst (foldi_from pushCoefficient i l st) = fst st.
Proof.
  revert j st. induction l as [|c l IH]; intros j st Hl Hj i Hi;
    [reflexivity|].
  cbn [foldi_from length] in *. destruct st as [tb cur].
  rewrite pushCoefficient_eq.
  assert (Hmod : (i + 1) mod 8 = S j).
  { rewrite Nat.Div0.add_mod, Hi. change (1 mod 8) with 1.
    rewrite Nat.mod_small; lia. }
  rewrite Hmod. cbn [Nat.eqb].
  rewrite (IH (S j)); [reflexivity | lia | lia |].
  replace (S i) with (i + 1) by lia. exact Hmod.
Qed.

(** The bytes one block contributes are those of its groups of eight. *)
Lemma decode_block_from (len : nat) :
  forall (l : list Q) (textBytes : list Z) (j : nat),
    length l = len ->
    Forall isBit l ->
    fst (foldi_from pushCoefficient (8 * j) l (textBytes, 0%Z))
    = textBytes ++ map byteOfBits (groupsOf8 l).
Proof.
  induction len as [len IH] using lt_wf_ind.
  intros l tb j Hlen Hbits.
  destruct l as [|b7 [|b6 [|b5 [|b4 [|b3 [|b2 [|b1 [|b0 rest]]]]]]]];
    try (cbn [groupsOf8 map]; rewrite app_nil_r;
         apply (decode_leftover 0); [simpl; lia | lia |];
         rewrite Nat.mul_comm; apply Nat.Div0.mod_mul).
  rewrite decode_group. cbn [groupsOf8 map].
  repeat match goal with
         | H : Forall isBit (_ :: _) |- _ =>
             let Hc := fresh "Hc" in
             apply Forall_cons_iff in H; destruct H as [Hc H]
         end.
  rewrite (IH (length rest)); [| simpl in Hlen; lia | reflexivity | assumption].
  rewrite byteOfBits_byteStep
    by (repeat (apply Forall_cons; [assumption|]); try apply Forall_nil;
        simpl; lia).
  rewrite <- app_assoc. reflexivity.
Qed.

Lemma decode_block (coefficients : list Q) (textBytes : list Z) :
  Forall isBit coefficients ->
  fst (foldi pushCoefficient coefficients (textBytes, 0%Z))
  = textBytes ++ map byteOfBits (groupsOf8 coefficients).
Proof.
  intros H. apply (decode_block_from (length coefficients) _ _ 0);
    [reflexivity | assumption].
Qed.

Lemma decode_blocks (blocks : list Polynomial) (textBytes : list Z) :
  Forall (fun block => Forall isBit (coefficients block)) blocks ->
  fold_left
    (fun textBytes block =>
       fst (foldi pushCoefficient (coefficients block) (textBytes, 0%Z)))
    blocks textBytes
  = textBytes
      ++ flat_map (fun block => map byteOfBits (groupsOf8 (coefficients block)))
           blocks.
Proof.
  revert textBytes. induction blocks as [|b blocks IH]; intros tb Hb.
  - simpl. rewrite app_nil_r. reflexivity.
  - inversion Hb; subst. cbn [fold_left flat_map].
    rewrite decode_block by assumption. rewrite IH by assumption.
    rewrite <- app_assoc. reflexivity.
Qed.

Lemma groupsOf8_app (a b : list Q) :
  length a mod 8 = 0 -> groupsOf8 (a ++ b) = groupsOf8 a ++ groupsOf8 b.
Proof.
  remember (length a) as len eqn:Hlen. revert a Hlen.
  induction len as [len IH] using lt_wf_ind. intros a Hlen Hmod.
  destruct a as [|b7 [|b6 [|b5 [|b4 [|b3 [|b2 [|b1 [|b0 rest]]]]]]]];
    try reflexivity; try (subst len; simpl in Hmod; discriminate Hmod).
  cbn [app groupsOf8]. f_equal.
  apply (IH (length rest)); [subst; simpl; lia | reflexivity |].
  subst len. cbn [length] in Hmod.
  replace (S (S (S (S (S (S (S (S (length rest)))))))))
    with (length rest + 1 * 8) in Hmod by lia.
  rewrite Nat.Div0.mod_add in Hmod. exact Hmod.
Qed.

Lemma byteOfBits_range (group : list Q) :
  Forall isBit group ->
  (0 <= byteOfBits group < 2 ^ Z.of_nat (length group))%Z.
Proof.
  unfold byteOfBits.
  assert (G : forall acc, Forall isBit group -> (0 <= acc)%Z ->
    (0 <= fold_left (fun byte bit => (2 * byte + Qfloor bit)%Z) group acc
     < (acc + 1) * 2 ^ Z.of_nat (length group))%Z).
  { induction group as [|c group IH]; intros acc Hb Hacc.
    - simpl. lia.
    - inversion Hb as [|? ? Hc Hrest]; subst. cbn [fold_left length].
      rewrite Nat2Z.inj_succ, Z.pow_succ_r by lia.
      assert (0 <= 2 * acc + Qfloor c <= 2 * acc + 1)%Z
        by (destruct (isBit_Qfloor c Hc) as [-> | ->]; lia).
      specialize (IH (2 * acc + Qfloor c)%Z Hrest ltac:(lia)).
      assert (0 < 2 ^ Z.of_nat (length group))%Z
        by (apply Z.pow_pos_nonneg; lia).
      nia. }
  intros Hb. specialize (G 0%Z Hb ltac:(lia)). lia.
Qed.

Lemma groupsOf8_length (bits : list Q) :
  Forall (fun g => length g = 8) (groupsOf8 bits).
Proof.
  remember (length bits) as len eqn:Hlen. revert bits Hlen.
  induction len as [len IH] using lt_wf_ind. intros l Hlen.
  destruct l as [|b7 [|b6 [|b5 [|b4 [|b3 [|b2 [|b1 [|b0 rest]]]]]]]];
    try constructor; [reflexivity|].
  apply (IH (length rest)); [subst; simpl; lia | reflexivity].
Qed.

Lemma groupsOf8_bits (bits : list Q) :
  Forall isBit bits -> Forall (Forall isBit) (groupsOf8 bits).
Proof.
  remember (length bits) as len eqn:Hlen. revert bits Hlen.
  induction len as [len IH] using lt_wf_ind. intros l Hlen Hb.
  destruct l as [|b7 [|b6 [|b5 [|b4 [|b3 [|b2 [|b1 [|b0 rest]]]]]]]];
    try constructor.
  - repeat (apply Forall_cons_iff in Hb; destruct Hb as [? Hb]).
    repeat (apply Forall_cons; [assumption|]). apply Forall_nil.
  - apply (IH (length rest)); [subst; simpl; lia | reflexivity |].
    repeat (apply Forall_cons_iff in Hb; destruct Hb as [_ Hb]). exact Hb.
Qed.

Lemma toUint16_bytes (bits : list Q) :
  Forall isBit bits ->
  map toUint16 (map byteOfBits (groupsOf8 bits))
  = map byteOfBits (groupsOf8 bits).
Proof.
  intros Hb. pose proof (groupsOf8_length bits) as Hl.
  pose proof (groupsOf8_bits bits Hb) as Hg.
  induction (groupsOf8 bits) as [|g gs IH]; [reflexivity|].
  inversion Hl; inversion Hg; subst. cbn [map]. f_equal; [|auto].
  pose proof (byteOfBits_range g ltac:(assumption)) as Hr.
  unfold toUint16. apply Z.mod_small.
  replace (length g) with 8 in Hr by congruence.
  change (2 ^ Z.of_nat 8)%Z with 256%Z in Hr.
  change (2 ^ 16)%Z with 65536%Z. lia.
Qed.

Lemma polynomialBlocksToText_groups (blocks : list Polynomial)
  (blockSize : nat) :
  bitBlocks blocks ->
  polynomialBlocksToText blocks blockSize
  = map toUint16
      (flat_map (fun block => map byteOfBits (groupsOf8 (coefficients block)))
         blocks).
Proof.
  intros Hb. unfold polynomialBlocksToText.
  rewrite decode_blocks by assumption. reflexivity.
Qed.

Lemma groups_of_blocks (blocks : list Polynomial) :
  wholeBytesButLast blocks ->
  flat_map (fun block => map byteOfBits (groupsOf8 (coefficients block))) blocks
  = map byteOfBits (groupsOf8 (blockBits blocks)).
Proof.
  induction blocks as [|b blocks IH]; intros Hw; [reflexivity|].
  cbn [flat_map]. unfold blockBits in *. cbn [map concat].
  destruct blocks as [|b' blocks].
  - simpl. rewrite !app_nil_r. reflexivity.
  - destruct Hw as [Hmod Hw].
    rewrite groupsOf8_app by assumption. rewrite map_app.
    f_equal. apply IH. exact Hw.
Qed.

Lemma bitBlocks_blockBits (blocks : list Polynomial) :
  bitBlocks blocks -> Forall isBit (blockBits blocks).
Proof.
  unfold bitBlocks, blockBits. induction 1; simpl; [constructor|].
  apply Forall_app. split; assumption.
Qed.

(** C6, as the code has it: when every block but the last holds a whole
    number of bytes, the text decoded from a sequence of bit-valued blocks
    is the one read off the single bit stream of all coefficients regrouped
    by eight; the bytes are assembled block by block, the byte in progress
    starting anew with every block. *)
Theorem blocks_to_text_by_groups (blocks : list Polynomial) (blockSize : nat) :
  bitBlocks blocks ->
  wholeBytesButLast blocks ->
  polynomialBlocksToText blocks blockSize = blocksToText_spec blocks.
Proof.
  intros Hb Hw. rewrite polynomialBlocksToText_groups by assumption.
  rewrite groups_of_blocks by assumption.
  unfold blocksToText_spec. apply toUint16_bytes.
  apply bitBlocks_blockBits. exact Hb.
Qed.

Lemma blocks_to_text_by_groups_witness :
  bitBlocks [mkPolynomial [0; 1; 0; 0; 1; 0; 0; 0]%Q;
             mkPolynomial [0; 1; 1; 0; 1; 0; 0; 1; 1]%Q] /\
  wholeBytesButLast [mkPolynomial [0; 1; 0; 0; 1; 0; 0; 0]%Q;
                     mkPolynomial [0; 1; 1; 0; 1; 0; 0; 1; 1]%Q] /\
  polynomialBlocksToText
    [mkPolynomial [0; 1; 0; 0; 1; 0; 0; 0]%Q;
     mkPolynomial [0; 1; 1; 0; 1; 0; 0; 1; 1]%Q] 8
  = blocksToText_spec
      [mkPolynomial [0; 1; 0; 0; 1; 0; 0; 0]%Q;
       mkPolynomial [0; 1; 1; 0; 1; 0; 0; 1; 1]%Q].
Proof.
  assert (Hb : bitBlocks [mkPolynomial [0; 1; 0; 0; 1; 0; 0; 0]%Q;
                          mkPolynomial [0; 1; 1; 0; 1; 0; 0; 1; 1]%Q]).
  { repeat constructor;
      solve [left; reflexivity | right; reflexivity]. }
  assert (Hw : wholeBytesButLast
                 [mkPolynomial [0; 1; 0; 0; 1; 0; 0; 0]%Q;
                  mkPolynomial [0; 1; 1; 0; 1; 0; 0; 1; 1]%Q]).
  { simpl. split; reflexivity. }
  split; [exact Hb|]. split; [exact Hw|].
  apply (blocks_to_text_by_groups _ 8 Hb Hw).
Defined.

(** C6 as it is written fails: two blocks of four bits spell the byte 65 as
    one stream, and no byte block by block. *)
Lemma blocks_to_text_resets_at_each_block :
  bitBlocks [mkPolynomial [0; 1; 0; 0]%Q; mkPolynomial [0; 0; 0; 1]%Q] /\
  polynomialBlocksToText
    [mkPolynomial [0; 1; 0; 0]%Q; mkPolynomial [0; 0; 0; 1]%Q] 4 = [] /\
  blocksToText_spec
    [mkPolynomial [0; 1; 0; 0]%Q; mkPolynomial [0; 0; 0; 1]%Q] = [65%Z] /\
  polynomialBlocksToText
    [mkPolynomial [0; 1; 0; 0]%Q; mkPolynomial [0; 0; 0; 1]%Q] 4
  <> blocksToText_spec
       [mkPolynomial [0; 1; 0; 0]%Q; mkPolynomial [0; 0; 0; 1]%Q].
Proof.
  split; [repeat constructor; solve [left; reflexivity | right; reflexivity]|].
  split; [reflexivity|]. split; [reflexivity|].
  intros H. vm_compute in H. discriminate H.
Qed.

(** ** Message-level decryption (index.ts 505-539) *)

Lemma mapiM_from_Forall2 {X Y : Type} (f : nat -> X -> outcome Y) (l : list X)
  (ys : list Y) (i : nat) :
  Forall2 (fun x y => forall j, f j x = Ok y) l ys ->
  mapiM_from f i l = Ok ys.
Proof.
  intros H. revert i. induction H as [|x y l ys Hxy _ IH]; intros i;
    [reflexivity|].
  simpl. rewrite Hxy. simpl. rewrite IH. reflexivity.
Qed.

Lemma mapM_Forall2 {X Y : Type} (f : X -> outcome Y) (l : list X)
  (ys : list Y) :
  Forall2 (fun x y => f x = Ok y) l ys -> mapM f l = Ok ys.
Proof.
  intros H. apply mapiM_from_Forall2.
  eapply Forall2_impl; [|exact H]. auto.
Qed.

Lemma mapiM_from_Ok_Forall2 {X Y : Type} (f : nat -> X -> outcome Y)
  (l : list X) (ys : list Y) (i : nat) :
  mapiM_from f i l = Ok ys ->
  Forall2 (fun x y => exists j, f j x = Ok y) l ys.
Proof.
  revert ys i. induction l as [|x l IH]; intros ys i H; simpl in H.
  - injection H as <-. constructor.
  - apply bind_Ok_inv in H. destruct H as [y [Hy H]].
    apply bind_Ok_inv in H. destruct H as [ys' [Hys H]].
    injection H as <-. constructor; [eauto|]. eapply IH; eassumption.
Qed.

Lemma mapM_Ok_Forall2 {X Y : Type} (f : X -> outcome Y) (l : list X)
  (ys : list Y) :
  mapM f l = Ok ys -> Forall2 (fun x y => f x = Ok y) l ys.
Proof.
  intros H. apply mapiM_from_Ok_Forall2 in H.
  eapply Forall2_impl; [|exact H]. intros x y [_ E]. exact E.
Qed.

(** C7: when each ciphertext block decrypts, to the blocks [init] followed
    by [lastBlock], the message is decoded from [init] with the padding
    removed from its own last block if all the coefficients of [lastBlock]
    are zero (that block is dropped), and otherwise from [init] unchanged
    followed by [lastBlock] with its padding removed. *)
Theorem decryptMessage_pads_last_block_only (P : Parameters) (fuel : nat)
  (encryptedMsg : list EncryptedBlock) (sKey : CrystalsKyberPrivateKey)
  (init : list Polynomial) (lastBlock : Polynomial) :
  Forall2 (fun eb p => crystalsKyber_decrypt P fuel eb sKey = Ok p)
    encryptedMsg (init ++ [lastBlock]) ->
  crystalsKyber_decryptMessage P fuel encryptedMsg sKey
  = Ok (polynomialBlocksToText
          (if allZeroes (coefficients lastBlock)
           then unpadLast init
           else init ++ [removePaddingFromPolynomialBlocks lastBlock])
          (param_n P)) /\
  (allZeroes (coefficients lastBlock) = true <->
   Forall (fun c => (c == 0)%Q) (coefficients lastBlock)).
Proof.
  intros H. split; [|apply allZeroes_Forall].
  unfold crystalsKyber_decryptMessage.
  rewrite (mapM_Forall2 _ _ _ H). cbn [bind].
  rewrite stripPadding_snoc. cbn [bind]. do 2 f_equal.
  destruct (allZeroes (coefficients lastBlock)) eqn:E.
  - rewrite dropZeroBlock_zero by assumption. reflexivity.
  - rewrite dropZeroBlock_nonzero by assumption. apply unpadLast_snoc.
Qed.

(** ** Shape errors (index.ts 294-296, 319-321, 344-346) *)

Lemma combineMatrices_rows_differ (op : Q -> Q -> Q) (fuel : nat)
  (A B : PolynomialMatrix) (moduloQ : Q) (mp : Polynomial) :
  length A <> length B ->
  combineMatrices op fuel A B moduloQ mp = Throw ShapeMismatch.
Proof.
  intros H. unfold combineMatrices.
  destruct (Nat.eqb_spec (length A) (length B)); [contradiction | reflexivity].
Qed.

Lemma combineMatrices_columns_differ (op : Q -> Q -> Q) (fuel : nat)
  (A B : PolynomialMatrix) (moduloQ : Q) (mp : Polynomial) :
  length (hd [] A) <> length (hd [] B) ->
  combineMatrices op fuel A B moduloQ mp = Throw ShapeMismatch.
Proof.
  intros H. unfold combineMatrices.
  destruct (Nat.eqb_spec (length A) (length B)) as [E | E]; [|reflexivity].
  destruct A as [|ra A], B as [|rb B]; try discriminate E.
  - simpl in H. contradiction.
  - simpl in *.
    destruct (Nat.eqb_spec (length ra) (length rb)); [contradiction|].
    reflexivity.
Qed.

Lemma multiplyMatrices_inner_differ (fuel : nat) (A B : PolynomialMatrix)
  (moduloQ : Q) (mp : Polynomial) :
  A <> [] -> length (hd [] A) <> length B ->
  multiplyMatrices fuel A B moduloQ mp = Throw ShapeMismatch.
Proof.
  intros HA H. unfold multiplyMatrices.
  destruct A as [|ra A]; [contradiction|]. simpl in *.
  destruct (Nat.eqb_spec (length ra) (length B)); [contradiction|].
  reflexivity.
Qed.

(** A first operand without rows has no first row to take a column count
    from: the read of [A[0].length] fails before the comparison. *)
Lemma multiplyMatrices_no_rows (fuel : nat) (B : PolynomialMatrix)
  (moduloQ : Q) (mp : Polynomial) :
  multiplyMatrices fuel [] B moduloQ mp = Throw TypeError.
Proof. reflexivity. Qed.

(** C5: [addMatrices] and [subtractMatrices] fail with the shape error when
    the row counts or the column counts of their operands differ, and
    [multiplyMatrices] when the column count of its first operand (the
    length of its first row) differs from the row count of the second; the
    error is the whole outcome, whatever the fuel and the entries, so no
    entry of a result is computed first; and the callers do not catch it:
    a decryption whose product [s^T u] is ill-shaped fails with it, and so
    does the decryption of a message that starts with such a block. *)
Theorem shape_mismatch_is_raised (P : Parameters) (fuel : nat)
  (A B : PolynomialMatrix) (moduloQ : Q) (mp : Polynomial)
  (eb : EncryptedBlock) (more : list EncryptedBlock)
  (sKey : CrystalsKyberPrivateKey) (st : PolynomialMatrix) :
  (length A <> length B \/ length (hd [] A) <> length (hd [] B) ->
   addMatrices fuel A B moduloQ mp = Throw ShapeMismatch /\
   subtractMatrices fuel A B moduloQ mp = Throw ShapeMismatch) /\
  (A <> [] -> length (hd [] A) <> length B ->
   multiplyMatrices fuel A B moduloQ mp = Throw ShapeMismatch) /\
  (transposeMatrix (sk_s sKey) = Ok st ->
   st <> [] -> length (hd [] st) <> length (eb_u eb) ->
   crystalsKyber_decrypt P fuel eb sKey = Throw ShapeMismatch /\
   crystalsKyber_decryptMessage P fuel (eb :: more) sKey
   = Throw ShapeMismatch).
Proof.
  split; [|split].
  - intros [H | H]; split;
      solve [apply combineMatrices_rows_differ; assumption
            | apply combineMatrices_columns_differ; assumption].
  - apply multiplyMatrices_inner_differ.
  - intros Ht Hne Hlen.
    assert (Hd : crystalsKyber_decrypt P fuel eb sKey = Throw ShapeMismatch).
    { unfold crystalsKyber_decrypt, decryptionPolynomial.
      rewrite Ht. cbn [bind].
      rewrite multiplyMatrices_inner_differ by assumption. reflexivity. }
    split; [exact Hd|].
    unfold crystalsKyber_decryptMessage, mapM, mapiM. cbn [mapiM_from].
    rewrite Hd. reflexivity.
Qed.

Lemma shape_mismatch_is_raised_witness :
  let p := mkPolynomial [1%Q] in
  (addMatrices 0 [[p]] [[p]; [p]] 3329 (modulusPolynomial Customized)
   = Throw ShapeMismatch /\
   subtractMatrices 0 [[p]] [[p]; [p]] 3329 (modulusPolynomial Customized)
   = Throw ShapeMismatch) /\
  multiplyMatrices 0 [[p]] [[p]; [p]] 3329 (modulusPolynomial Customized)
  = Throw ShapeMismatch /\
  (crystalsKyber_decrypt Customized 0 (mkEncryptedBlock [[p]] [[p]])
     (mkPrivateKey [[p]; [p]]) = Throw ShapeMismatch /\
   crystalsKyber_decryptMessage Customized 0
     [mkEncryptedBlock [[p]] [[p]]] (mkPrivateKey [[p]; [p]])
   = Throw ShapeMismatch).
Proof.
  intros p.
  pose proof (shape_mismatch_is_raised Customized 0 [[p]] [[p]; [p]] 3329%Q
                (modulusPolynomial Customized)
                (mkEncryptedBlock [[p]] [[p]]) []
                (mkPrivateKey [[p]; [p]]) [[p; p]]) as [Hadd [Hmul Hdec]].
  split; [|split].
  - apply Hadd. left. intros E; discriminate E.
  - apply Hmul; [discriminate | intros E; discriminate E].
  - apply Hdec; [reflexivity | discriminate | intros E; discriminate E].
Defined.

(** ** Sums and differences of short polynomials *)

Lemma mapiM_from_zipWith {X Y W : Type} (R : X -> Y -> Prop)
  (g : X -> Y -> W) (l : list X) (l' : list Y) :
  Forall2 R l l' ->
  forall (f : nat -> X -> outcome W) (off : nat),
    (forall k x y,
        nth_error l k = Some x -> nth_error l' k = Some y -> R x y ->
        f (off + k) x = Ok (g x y)) ->
    mapiM_from f off l = Ok (zipWith g l l').
Proof.
  induction 1 as [|x y l l' Hxy _ IH]; intros f off Hf; [reflexivity|].
  cbn [mapiM_from zipWith].
  rewrite <- (Nat.add_0_r off) at 1.
  rewrite (Hf 0 x y eq_refl eq_refl Hxy). cbn [bind].
  rewrite (IH f (S off)); [reflexivity|].
  intros k x' y' Hx Hy HR.
  replace (S off + k) with (off + S k) by lia.
  apply Hf; assumption.
Qed.

Lemma nth_error_nth_default {X : Type} (l : list X) (k : nat) (x d : X) :
  nth_error l k = Some x -> nth k l d = x.
Proof. intros H. apply nth_error_nth. exact H. Qed.

Lemma length_combineCoefficients (op : Q -> Q -> Q) (a b : list Q) (q : Q) :
  length (combineCoefficients op a b q) = Nat.max (length a) (length b).
Proof.
  unfold combineCoefficients. rewrite length_map, length_seq. reflexivity.
Qed.

Lemma combineMatrices_short (op : Q -> Q -> Q) (fuel : nat)
  (A B : PolynomialMatrix) (moduloQ : Q) (mp : Polynomial) :
  A <> [] ->
  Forall2 (Forall2 (shortPair mp)) A B ->
  combineMatrices op fuel A B moduloQ mp
  = Ok (zipWith (zipWith (combinePolynomials op moduloQ)) A B).
Proof.
  intros Hne H. unfold combineMatrices.
  pose proof (Forall2_length H) as Hlen.
  rewrite Hlen, Nat.eqb_refl. cbn [negb].
  destruct H as [|ra rb A B Hrow Hrest]; [contradiction|].
  cbn [nth_error defined bind].
  rewrite (Forall2_length Hrow), Nat.eqb_refl. cbn [negb].
  unfold mapiM.
  apply (mapiM_from_zipWith (Forall2 (shortPair mp))).
  - constructor; assumption.
  - intros i row row' Hi Hi' Hrr. cbn [Nat.add].
    apply (mapiM_from_zipWith (shortPair mp)); [exact Hrr|].
    intros j a b Hj Hj' [Ha Hb]. cbn [Nat.add].
    rewrite (nth_error_nth_default _ _ _ [] Hi'), Hj'. cbn [defined bind].
    apply dividePolynomials_short. unfold combinePolynomials.
    cbn [coefficients]. rewrite length_combineCoefficients. lia.
Qed.

(** ** Additive inverse (index.ts 293-333) *)

Lemma isInt_inject_Z (x : Q) : isInt x -> x = inject_Z (Qnum x).
Proof.
  destruct x as [a b]. unfold isInt, inject_Z; simpl. intros ->. reflexivity.
Qed.

Lemma centered_inject_Z (m z : Z) :
  centered (inject_Z m) (inject_Z z) -> (- (m / 2) <= z <= m / 2)%Z.
Proof.
  unfold centered. rewrite Math_floor_half_inject_Z, inject_Z_opp.
  rewrite <- !Zle_Qle. tauto.
Qed.

Lemma nth_combineCoefficients (op : Q -> Q -> Q) (a b : list Q) (q : Q)
  (k : nat) :
  k < Nat.max (length a) (length b) ->
  nth k (combineCoefficients op a b q) 0%Q
  = symmetricValueModuloQ (op (nth k a 0%Q) (nth k b 0%Q)) q.
Proof.
  intros Hk. unfold combineCoefficients.
  rewrite nth_indep
    with (d' := symmetricValueModuloQ (op (nth 0 a 0%Q) (nth 0 b 0%Q)) q)
    by (rewrite length_map, length_seq; assumption).
  rewrite (map_nth
             (fun k => symmetricValueModuloQ (op (nth k a 0%Q) (nth k b 0%Q)) q)).
  rewrite seq_nth by assumption. reflexivity.
Qed.

(** A coefficient read with the default 0 is an integer in the centred range
    when all the coefficients of the array are. *)
Lemma nth_int_centered (m : Z) (l : list Q) (k : nat) :
  (0 < m)%Z ->
  Forall isInt l -> Forall (centered (inject_Z m)) l ->
  exists z : Z, nth k l 0%Q = inject_Z z /\ (- (m / 2) <= z <= m / 2)%Z.
Proof.
  intros Hm Hi Hc.
  destruct (Nat.lt_ge_cases k (length l)) as [Hk | Hk].
  - rewrite Forall_forall in Hi, Hc.
    pose proof (nth_In l 0%Q Hk) as Hin.
    exists (Qnum (nth k l 0%Q)). split; [apply isInt_inject_Z; auto|].
    apply centered_inject_Z. rewrite <- isInt_inject_Z by auto. auto.
  - rewrite nth_overflow by assumption. exists 0%Z. split; [reflexivity|].
    pose proof (Z.div_pos m 2). lia.
Qed.

Lemma add_then_subtract_coefficients (m : Z) (a b : list Q) :
  (0 < m)%Z -> Z.odd m = true ->
  Forall isInt a -> Forall (centered (inject_Z m)) a ->
  Forall isInt b -> Forall (centered (inject_Z m)) b ->
  combineCoefficients Qminus
    (combineCoefficients Qplus a b (inject_Z m)) b (inject_Z m)
  = a ++ repeat 0%Q (length b - length a).
Proof.
  intros Hm Hodd Hia Hca Hib Hcb.
  apply nth_ext with (d := 0%Q) (d' := 0%Q).
  - rewrite !length_combineCoefficients, length_app, repeat_length. lia.
  - intros k Hk. rewrite !length_combineCoefficients in Hk.
    rewrite nth_combineCoefficients
      by (rewrite length_combineCoefficients; lia).
    rewrite nth_combineCoefficients by lia.
    destruct (nth_int_centered m a k Hm Hia Hca) as [x [Ex Hx]].
    destruct (nth_int_centered m b k Hm Hib Hcb) as [y [Ey Hy]].
    assert (Eapp : nth k (a ++ repeat 0%Q (length b - length a)) 0%Q
                   = nth k a 0%Q).
    { destruct (Nat.lt_ge_cases k (length a)) as [Hka | Hka].
      - apply app_nth1. assumption.
      - rewrite app_nth2 by assumption.
        rewrite (nth_overflow a) by assumption.
        apply nth_repeat. }
    rewrite Eapp, Ex, Ey.
    rewrite inject_Z_plus, symmetricValueModuloQ_inject_Z by assumption.
    rewrite inject_Z_minus, symmetricValueModuloQ_inject_Z by assumption.
    f_equal. apply centerZ_unique; try assumption.
    destruct (centerZ_congruent (x + y) m Hm) as [j Hj].
    exists j. lia.
Qed.

(** C9: for two ring elements in reduced form with integer coefficients,
    under an odd modulus q (3329 in every parameter set), the sum is
    computed, the subtraction of b from it is computed, and the result is
    the ring element a: its coefficient array is that of a, followed by
    zeros up to the length of b when b is the longer one. *)
Theorem subtract_add_is_identity (P : Parameters) (fuel : nat)
  (a b : Polynomial) :
  (0 < param_q P)%Z -> Z.odd (param_q P) = true ->
  reduced P a -> Forall isInt (coefficients a) ->
  reduced P b -> Forall isInt (coefficients b) ->
  exists sum diff : Polynomial,
    addMatrices fuel [[a]] [[b]] (inject_Z (param_q P)) (modulusPolynomial P)
    = Ok [[sum]] /\
    subtractMatrices fuel [[sum]] [[b]] (inject_Z (param_q P))
      (modulusPolynomial P) = Ok [[diff]] /\
    coefficients diff
    = coefficients a
        ++ repeat 0%Q (length (coefficients b) - length (coefficients a)) /\
    samePolynomial diff a.
Proof.
  intros Hq Hodd [Hla Hca] Hia [Hlb Hcb] Hib.
  set (q := inject_Z (param_q P)).
  exists (combinePolynomials Qplus q a b).
  exists (combinePolynomials Qminus q (combinePolynomials Qplus q a b) b).
  pose proof (length_modulusPolynomial P) as Hmp.
  assert (E : coefficients
                (combinePolynomials Qminus q (combinePolynomials Qplus q a b) b)
              = coefficients a
                  ++ repeat 0%Q
                       (length (coefficients b) - length (coefficients a))).
  { unfold combinePolynomials; cbn [coefficients].
    apply add_then_subtract_coefficients; assumption. }
  split; [|split; [|split]].
  - unfold addMatrices. rewrite combineMatrices_short; [reflexivity|discriminate|].
    repeat constructor; lia.
  - unfold subtractMatrices.
    rewrite combineMatrices_short; [reflexivity|discriminate|].
    repeat constructor; [|lia].
    unfold combinePolynomials; cbn [coefficients].
    rewrite length_combineCoefficients. lia.
  - exact E.
  - intros i. rewrite E.
    destruct (Nat.lt_ge_cases i (length (coefficients a))) as [Hi | Hi].
    + apply app_nth1. assumption.
    + rewrite app_nth2 by assumption.
      rewrite (nth_overflow (coefficients a)) by assumption.
      apply nth_repeat.
Qed.

Lemma subtract_add_is_identity_witness :
  let a := mkPolynomial [1664; -3]%Q in
  let b := mkPolynomial [1000; -1664; 7]%Q in
  exists sum diff : Polynomial,
    addMatrices 0 [[a]] [[b]] (inject_Z (param_q Customized))
      (modulusPolynomial Customized) = Ok [[sum]] /\
    subtractMatrices 0 [[sum]] [[b]] (inject_Z (param_q Customized))
      (modulusPolynomial Customized) = Ok [[diff]] /\
    coefficients diff
    = coefficients a
        ++ repeat 0%Q (length (coefficients b) - length (coefficients a)) /\
    samePolynomial diff a.
Proof.
  intros a b.
  assert (Hc : forall l : list Q,
             forallb (fun c => Qle_bool (- (1664)) c && Qle_bool c 1664) l = true ->
             Forall (centered (inject_Z (param_q Customized))) l).
  { intros l H. rewrite forallb_forall in H. apply Forall_forall.
    intros c Hin. specialize (H c Hin).
    apply andb_prop in H. destruct H as [H1 H2].
    apply Qle_bool_iff in H1, H2. split; assumption. }
  apply (subtract_add_is_identity Customized 0 a b).
  - reflexivity.
  - reflexivity.
  - split; [simpl; lia | apply Hc; reflexivity].
  - repeat constructor.
  - split; [simpl; lia | apply Hc; reflexivity].
  - repeat constructor.
Defined.

(** C9 as it is written fails for an even modulus: with q = 4 the elements
    a = [2] and b = [1] are in reduced form (the range is -2 .. 2), the sum
    3 is centred to -1, and the difference -1 - 1 = -2 is its own centred
    remainder, since the negative branch keeps every remainder that is not
    below -floor(q/2): the result is [-2], not [2]. *)
Lemma subtract_add_fails_for_even_modulus :
  let P := mkParameters 4 8 1 2 2 in
  let a := mkPolynomial [2%Q] in
  let b := mkPolynomial [1%Q] in
  reduced P a /\ Forall isInt (coefficients a) /\
  reduced P b /\ Forall isInt (coefficients b) /\
  forall fuel : nat,
    addMatrices fuel [[a]] [[b]] (inject_Z (param_q P)) (modulusPolynomial P)
    = Ok [[mkPolynomial [(-1)%Q]]] /\
    subtractMatrices fuel [[mkPolynomial [(-1)%Q]]] [[b]]
      (inject_Z (param_q P)) (modulusPolynomial P)
    = Ok [[mkPolynomial [(-2)%Q]]] /\
    ~ samePolynomial (mkPolynomial [(-2)%Q]) a.
Proof.
  intros P a b.
  assert (Hc : forall c : Q,
             Qle_bool (- (2)) c && Qle_bool c 2 = true ->
             centered (inject_Z (param_q P)) c).
  { intros c H. apply andb_prop in H. destruct H as [H1 H2].
    apply Qle_bool_iff in H1, H2. split; assumption. }
  split; [split; [simpl; lia | repeat constructor; apply Hc; reflexivity]|].
  split; [repeat constructor|].
  split; [split; [simpl; lia | repeat constructor; apply Hc; reflexivity]|].
  split; [repeat constructor|].
  intros fuel.
  split; [destruct fuel; reflexivity|].
  split; [destruct fuel; reflexivity|].
  intros H. specialize (H 0). cbn in H. discriminate H.
Qed.

(** ** Integer coefficients *)

Lemma isInt_inject (z : Z) : isInt (inject_Z z).
Proof. reflexivity. Qed.

Lemma isInt_plus (x y : Q) : isInt x -> isInt y -> isInt (x + y).
Proof.
  intros Hx Hy. rewrite (isInt_inject_Z x Hx), (isInt_inject_Z y Hy).
  rewrite inject_Z_plus. apply isInt_inject.
Qed.

Lemma isInt_minus (x y : Q) : isInt x -> isInt y -> isInt (x - y).
Proof.
  intros Hx Hy. rewrite (isInt_inject_Z x Hx), (isInt_inject_Z y Hy).
  rewrite inject_Z_minus. apply isInt_inject.
Qed.

Lemma isInt_mult (x y : Q) : isInt x -> isInt y -> isInt (x * y).
Proof.
  intros Hx Hy. rewrite (isInt_inject_Z x Hx), (isInt_inject_Z y Hy).
  rewrite inject_Z_mult. apply isInt_inject.
Qed.

Lemma isInt_symmetricValueModuloQ (x m : Q) :
  isInt x -> isInt m -> isInt (symmetricValueModuloQ x m).
Proof.
  intros Hx Hm. unfold symmetricValueModuloQ.
  assert (Hr : isInt (jsRem x m)).
  { unfold jsRem. apply isInt_minus; [assumption|].
    apply isInt_mult; [assumption | apply isInt_inject]. }
  destruct (Qltb (jsRem x m) 0).
  - destruct (Qltb _ _); [apply isInt_plus|]; assumption.
  - destruct (Qltb _ _); [apply isInt_minus|]; assumption.
Qed.

Lemma isInt_nth (l : list Q) (k : nat) : Forall isInt l -> isInt (nth k l 0%Q).
Proof.
  intros H. destruct (Nat.lt_ge_cases k (length l)) as [Hk | Hk].
  - rewrite Forall_forall in H. apply H. apply nth_In. assumption.
  - rewrite nth_overflow by assumption. reflexivity.
Qed.

Lemma isInt_combineCoefficients (op : Q -> Q -> Q) (a b : list Q) (q : Q) :
  (forall x y, isInt x -> isInt y -> isInt (op x y)) ->
  isInt q -> Forall isInt a -> Forall isInt b ->
  Forall isInt (combineCoefficients op a b q).
Proof.
  intros Hop Hq Ha Hb. unfold combineCoefficients.
  apply Forall_map. apply Forall_forall. intros k _.
  apply isInt_symmetricValueModuloQ; [|assumption].
  apply Hop; apply isInt_nth; assumption.
Qed.

Create HintDb ints.

#[export] Hint Resolve isInt_inject isInt_plus isInt_minus isInt_mult
  isInt_symmetricValueModuloQ isInt_nth : ints.

(** ** Arrays *)

Lemma nth_arraySet_eq {X : Type} (i : nat) (x d : X) (l : list X) :
  i < length l -> nth i (arraySet i x l) d = x.
Proof.
  revert i. induction l as [|y l IH]; intros [|i] H; simpl in *;
    try lia; [reflexivity|]. apply IH. lia.
Qed.

Lemma nth_arraySet_neq {X : Type} (i j : nat) (x d : X) (l : list X) :
  i <> j -> nth j (arraySet i x l) d = nth j l d.
Proof.
  revert i j. induction l as [|y l IH]; intros [|i] [|j] H; simpl;
    try reflexivity; try lia. apply IH. lia.
Qed.

Lemma arraySet_nth {X : Type} (i : nat) (d : X) (l : list X) :
  i < length l -> arraySet i (nth i l d) l = l.
Proof.
  revert i. induction l as [|y l IH]; intros [|i] H; simpl in *;
    try lia; [reflexivity|]. f_equal. apply IH. lia.
Qed.

Lemma Forall_arraySet {X : Type} (Pr : X -> Prop) (i : nat) (x : X)
  (l : list X) :
  Pr x -> Forall Pr l -> Forall Pr (arraySet i x l).
Proof.
  intros Hx. revert i. induction l as [|y l IH]; intros [|i] H; simpl;
    try assumption; inversion H; subst; constructor; auto.
Qed.

Lemma last_nth {X : Type} (l : list X) (d : X) :
  last l d = nth (length l - 1) l d.
Proof.
  induction l as [|x l IH]; [reflexivity|].
  destruct l as [|y l]; [reflexivity|].
  change (last (x :: y :: l) d) with (last (y :: l) d).
  rewrite IH. simpl. rewrite Nat.sub_0_r. reflexivity.
Qed.

Lemma foldi_from_invariant {X St : Type} (Inv : St -> Prop)
  (f : St -> X -> nat -> St) (l : list X) :
  (forall acc x i, In x l -> Inv acc -> Inv (f acc x i)) ->
  forall i acc, Inv acc -> Inv (foldi_from f i l acc).
Proof.
  induction l as [|x l IH]; intros Hf i acc H; simpl; [assumption|].
  apply IH.
  - intros acc' x' i' Hin. apply Hf. right. exact Hin.
  - apply Hf; [left; reflexivity | assumption].
Qed.

Lemma fold_left_invariant {X St : Type} (Inv : St -> Prop)
  (f : St -> X -> St) (l : list X) :
  (forall acc x, In x l -> Inv acc -> Inv (f acc x)) ->
  forall acc, Inv acc -> Inv (fold_left f l acc).
Proof.
  induction l as [|x l IH]; intros Hf acc H; simpl; [assumption|].
  apply IH.
  - intros acc' x' Hin. apply Hf. right. exact Hin.
  - apply Hf; [left; reflexivity | assumption].
Qed.

(** ** The product of two coefficient arrays *)

Lemma productCoefficients_spec (a b : list Q) :
  Forall isInt a -> Forall isInt b ->
  length (productCoefficients a b) = length a + length b - 1 /\
  Forall isInt (productCoefficients a b).
Proof.
  intros Ha Hb. unfold productCoefficients, foldi.
  rewrite Forall_forall in Ha, Hb.
  apply (foldi_from_invariant
           (fun pc => length pc = length a + length b - 1 /\ Forall isInt pc)).
  - intros pc coeffA indexA HinA Hpc.
    apply (foldi_from_invariant
             (fun pc => length pc = length a + length b - 1 /\ Forall isInt pc));
      [|exact Hpc].
    intros pc' coeffB indexB HinB [Hl Hi]. cbv beta.
    rewrite length_arraySet. split; [assumption|].
    apply Forall_arraySet; [|assumption].
    apply isInt_plus; [apply isInt_nth; assumption|].
    apply isInt_mult; auto.
  - rewrite repeat_length. split; [reflexivity|].
    apply Forall_forall. intros x Hx. apply repeat_spec in Hx. subst.
    reflexivity.
Qed.

(** ** Termination of the reduction *)

Lemma length_subtractScaledDivisor (divisor : list Q) (degreeDiff : nat)
  (leadingCoeff moduloQ : Q) (d : list Q) :
  length (subtractScaledDivisor divisor degreeDiff leadingCoeff moduloQ d)
  = length d.
Proof.
  unfold subtractScaledDivisor.
  apply (fold_left_invariant (fun d' => length d' = length d));
    [|reflexivity].
  intros acc i _ H. rewrite !length_arraySet. exact H.
Qed.

Lemma isInt_subtractScaledDivisor (divisor : list Q) (degreeDiff : nat)
  (leadingCoeff moduloQ : Q) (d : list Q) :
  Forall isInt divisor -> isInt leadingCoeff -> isInt moduloQ ->
  Forall isInt d ->
  Forall isInt
    (subtractScaledDivisor divisor degreeDiff leadingCoeff moduloQ d).
Proof.
  intros HD Hlc Hq Hd. unfold subtractScaledDivisor.
  apply (fold_left_invariant (Forall isInt)); [|assumption].
  intros acc i _ Hacc.
  assert (H1 : Forall isInt
                 (arraySet (degreeDiff + i)
                    (nth (degreeDiff + i) acc 0
                     - symmetricValueModuloQ (nth i divisor 0 * leadingCoeff)
                         moduloQ)%Q acc)).
  { apply Forall_arraySet; [|assumption].
    apply isInt_minus; [apply isInt_nth; assumption|].
    apply isInt_symmetricValueModuloQ; [|assumption].
    apply isInt_mult; [apply isInt_nth|]; assumption. }
  apply Forall_arraySet; [|assumption].
  apply isInt_symmetricValueModuloQ; [|assumption].
  apply isInt_nth. assumption.
Qed.

(** The steps of the inner loop at indices other than [j] leave the
    coefficient at [j] alone. *)
Lemma nth_subtract_steps (divisor : list Q) (degreeDiff : nat)
  (leadingCoeff moduloQ : Q) (indices : list nat) (j : nat) :
  (forall i, In i indices -> degreeDiff + i <> j) ->
  forall d,
    nth j
      (fold_left
         (fun d i =>
            let d1 :=
              arraySet (degreeDiff + i)
                (nth (degreeDiff + i) d 0
                 - symmetricValueModuloQ (nth i divisor 0 * leadingCoeff)
                     moduloQ)%Q d in
            arraySet (degreeDiff + i)
              (symmetricValueModuloQ (nth (degreeDiff + i) d1 0%Q) moduloQ) d1)
         indices d) 0%Q
    = nth j d 0%Q.
Proof.
  induction indices as [|i indices IH]; intros Hne d; [reflexivity|].
  cbn [fold_left]. rewrite IH by (intros i' Hi'; apply Hne; right; exact Hi').
  cbv zeta. rewrite !nth_arraySet_neq by (apply Hne; left; reflexivity).
  reflexivity.
Qed.

Lemma Math_floor_div_one (z : Z) :
  Math_floor (inject_Z z / 1) = inject_Z z.
Proof.
  unfold Math_floor, Qfloor, Qdiv, Qmult, Qinv, inject_Z; simpl.
  rewrite Z.mul_1_r, Z.div_1_r. reflexivity.
Qed.

Lemma popZeros_rev_length (l : list Q) : length (popZeros_rev l) <= length l.
Proof.
  induction l as [|x l IH]; simpl; [lia|].
  destruct (Qeq_bool x 0); simpl; lia.
Qed.

Lemma popZeros_rev_Forall (Pr : Q -> Prop) (l : list Q) :
  Forall Pr l -> Forall Pr (popZeros_rev l).
Proof.
  induction 1 as [|x l Hx Hl IH]; simpl; [constructor|].
  destruct (Qeq_bool x 0); [assumption | constructor; assumption].
Qed.

Lemma popTrailingZeros_Forall (Pr : Q -> Prop) (l : list Q) :
  Forall Pr l -> Forall Pr (popTrailingZeros l).
Proof.
  intros H. unfold popTrailingZeros.
  apply Forall_rev. apply popZeros_rev_Forall. apply Forall_rev. exact H.
Qed.

Lemma popTrailingZeros_snoc (init : list Q) (x : Q) :
  popTrailingZeros (init ++ [x])
  = if Qeq_bool x 0 then popTrailingZeros init else init ++ [x].
Proof.
  unfold popTrailingZeros. rewrite rev_app_distr. cbn [rev app popZeros_rev].
  destruct (Qeq_bool x 0); [reflexivity|].
  cbn [rev]. rewrite rev_involutive. reflexivity.
Qed.

Lemma isInt_zero (x : Q) : isInt x -> Qeq_bool x 0 = true -> x = 0%Q.
Proof.
  intros Hx Hz. rewrite (isInt_inject_Z x Hx) in *.
  change 0%Q with (inject_Z 0) in Hz. rewrite Qeq_bool_inject_Z in Hz.
  apply Z.eqb_eq in Hz. rewrite Hz. reflexivity.
Qed.

(** Popping trailing zeros does not change the polynomial. *)
Lemma popTrailingZeros_same (d : list Q) :
  Forall isInt d ->
  forall i, nth i (popTrailingZeros d) 0%Q = nth i d 0%Q.
Proof.
  induction d as [|x init IH] using rev_ind; intros Hint i; [reflexivity|].
  apply Forall_app in Hint. destruct Hint as [Hinit Hx].
  inversion Hx as [|? ? Hx' _]; subst.
  rewrite popTrailingZeros_snoc.
  destruct (Qeq_bool x 0) eqn:E; [|reflexivity].
  rewrite (isInt_zero x Hx' E), IH by assumption.
  destruct (Nat.lt_ge_cases i (length init)) as [Hlt | Hge].
  - symmetry. apply app_nth1. exact Hlt.
  - rewrite app_nth2 by exact Hge. rewrite nth_overflow by exact Hge.
    destruct (i - length init) as [|[|j]]; reflexivity.
Qed.

Lemma popTrailingZeros_shorter (l : list Q) :
  l <> [] -> last l 0%Q = 0%Q ->
  length (popTrailingZeros l) < length l.
Proof.
  intros Hne Hlast. unfold popTrailingZeros.
  rewrite length_rev.
  destruct (list_snoc_cases l) as [-> | [init [x ->]]]; [contradiction|].
  rewrite last_last in Hlast. subst x.
  rewrite rev_app_distr. cbn [rev app popZeros_rev].
  change (Qeq_bool 0 0) with true. cbv iota.
  pose proof (popZeros_rev_length (rev init)) as H.
  rewrite length_rev in H. rewrite length_app. simpl. lia.
Qed.

Section MonicDivisor.

(** The reduction by a monic divisor with integer coefficients, under a
    positive integer modulus. *)
Variable divisor : list Q.
Variable m : Z.
Hypothesis modulus_positive : (0 < m)%Z.
Hypothesis divisor_integer : Forall isInt divisor.
Hypothesis divisor_monic : last divisor 0%Q = 1%Q.
Hypothesis divisor_not_nil : divisor <> [].

(** With an integer leading coefficient, the inner loop leaves 0 at the top
    of the dividend. *)
Lemma top_of_subtractScaledDivisor (d : list Q) :
  length divisor <= length d ->
  isInt (last d 0%Q) ->
  last
    (subtractScaledDivisor divisor (length d - length divisor)
       (Math_floor (last d 0 / last divisor 0)%Q) (inject_Z m) d) 0%Q
  = 0%Q.
Proof.
  intros Hlen Hint.
  rewrite last_nth, length_subtractScaledDivisor.
  assert (Hdl : 1 <= length divisor)
    by (destruct divisor; simpl; [contradiction | lia]).
  assert (Eseq : seq 0 (length divisor)
                 = seq 0 (length divisor - 1) ++ [length divisor - 1]).
  { replace (length divisor) with (S (length divisor - 1)) at 1 by lia.
    rewrite seq_S. reflexivity. }
  unfold subtractScaledDivisor.
  rewrite Eseq, fold_left_app. cbn [fold_left].
  set (dd := length d - length divisor).
  set (top := length d - 1).
  assert (Etop : dd + (length divisor - 1) = top) by (unfold dd, top; lia).
  rewrite Etop.
  match goal with
  | |- nth top (arraySet top _ ?l) _ = _ =>
      assert (Hl1 : length l = length d)
  end.
  { rewrite length_arraySet.
    apply (fold_left_invariant (fun d' => length d' = length d));
      [|reflexivity].
    intros acc i _ H. rewrite !length_arraySet. exact H. }
  rewrite nth_arraySet_eq by (rewrite Hl1; unfold top; lia).
  rewrite nth_arraySet_eq.
  2:{ rewrite length_arraySet in Hl1. rewrite Hl1. unfold top. lia. }
  rewrite nth_subtract_steps.
  2:{ intros i Hi. apply in_seq in Hi. unfold dd, top. lia. }
  replace (nth top d 0%Q) with (last d 0%Q) by (unfold top; apply last_nth).
  replace (nth (length divisor - 1) divisor 0%Q) with 1%Q
    by (rewrite <- last_nth; symmetry; exact divisor_monic).
  rewrite divisor_monic, (isInt_inject_Z _ Hint).
  rewrite Math_floor_div_one.
  change 1%Q with (inject_Z 1). rewrite inject_Z_mult, Z.mul_1_l.
  rewrite symmetricValueModuloQ_inject_Z by assumption.
  rewrite inject_Z_minus.
  rewrite symmetricValueModuloQ_inject_Z by assumption.
  rewrite centerZ_cancel by assumption. reflexivity.
Qed.

(** The loop ends within as many turns as the dividend has coefficients
    beyond those of a remainder, and returns integers. *)
Lemma dividePolynomials_loop_terminates (fuel : nat) :
  forall d : list Q,
    Forall isInt d ->
    length d < length divisor + fuel ->
    exists r,
      dividePolynomials_loop fuel d divisor (inject_Z m) = Ok r /\
      length r < length divisor /\
      Forall isInt r.
Proof.
  induction fuel as [|fuel IH]; intros d Hd Hlen.
  - exists d. split; [apply dividePolynomials_loop_short; lia|].
    split; [lia | assumption].
  - destruct (Nat.lt_ge_cases (length d) (length divisor)) as [Hs | Hs].
    + exists d. split; [apply dividePolynomials_loop_short; assumption|].
      split; assumption.
    + cbn [dividePolynomials_loop].
      destruct (Nat.leb_spec (length divisor) (length d)); [|lia].
      rewrite divisor_monic. change (Qeq_bool 1 0) with false. cbv iota.
      assert (Hdne : d <> []).
      { destruct d; [|discriminate]. destruct divisor; [contradiction|].
        simpl in Hs. lia. }
      assert (Hlast : isInt (last d 0%Q))
        by (rewrite last_nth; auto with ints).
      set (next := subtractScaledDivisor divisor (length d - length divisor)
                     (Math_floor (last d 0 / 1)%Q) (inject_Z m) d).
      assert (Hnl : length next = length d)
        by apply length_subtractScaledDivisor.
      assert (Hni : Forall isInt next).
      { apply isInt_subtractScaledDivisor; try assumption;
          unfold Math_floor; auto with ints. }
      assert (Hnt : last next 0%Q = 0%Q).
      { unfold next. rewrite <- divisor_monic.
        apply top_of_subtractScaledDivisor; assumption. }
      apply IH.
      * apply popTrailingZeros_Forall. assumption.
      * assert (length (popTrailingZeros next) < length next).
        { apply popTrailingZeros_shorter; [|assumption].
          intros E. rewrite E in Hnl.
          destruct d; [contradiction | discriminate]. }
        lia.
Qed.

End MonicDivisor.

(** ** Calls that return *)

Lemma mapiM_from_ok {X Y : Type} (Pr : Y -> Prop)
  (f : nat -> X -> outcome Y) (l : list X) :
  forall i,
    (forall j x, nth_error l j = Some x ->
                 exists y, f (i + j) x = Ok y /\ Pr y) ->
    exists ys,
      mapiM_from f i l = Ok ys /\ length ys = length l /\ Forall Pr ys.
Proof.
  induction l as [|x l IH]; intros i Hf.
  - exists []. repeat split. constructor.
  - destruct (Hf 0 x eq_refl) as [y [Hy HPy]].
    rewrite Nat.add_0_r in Hy.
    destruct (IH (S i)) as [ys [Hys [Hlen HPys]]].
    { intros j x' Hj. replace (S i + j) with (i + S j) by lia.
      apply Hf. exact Hj. }
    exists (y :: ys). cbn [mapiM_from]. rewrite Hy. cbn [bind].
    rewrite Hys. cbn [bind]. repeat split.
    + simpl. lia.
    + constructor; assumption.
Qed.

Lemma mapM_seq_ok {Y : Type} (Pr : Y -> Prop) (f : nat -> outcome Y)
  (count : nat) :
  (forall j, j < count -> exists y, f j = Ok y /\ Pr y) ->
  exists ys,
    mapM f (seq 0 count) = Ok ys /\ length ys = count /\ Forall Pr ys.
Proof.
  intros Hf.
  destruct (mapiM_from_ok Pr (fun _ => f) (seq 0 count) 0) as [ys [H1 [H2 H3]]].
  - intros j x Hj. apply Hf.
    pose proof (nth_error_Some (seq 0 count) j) as Hs.
    assert (Hlt : j < length (seq 0 count)) by (apply Hs; congruence).
    rewrite length_seq in Hlt.
    apply nth_error_nth with (d := 0) in Hj.
    rewrite seq_nth in Hj by assumption. simpl in Hj. subst x. assumption.
  - exists ys. rewrite length_seq in H2. repeat split; assumption.
Qed.

Lemma foldM_ok {X St : Type} (Inv : St -> Prop) (f : St -> X -> outcome St)
  (l : list X) :
  (forall acc x, In x l -> Inv acc -> exists acc', f acc x = Ok acc' /\ Inv acc') ->
  forall acc, Inv acc -> exists r, foldM f l acc = Ok r /\ Inv r.
Proof.
  induction l as [|x l IH]; intros Hf acc Hacc.
  - exists acc. split; [reflexivity | assumption].
  - destruct (Hf acc x (or_introl eq_refl) Hacc) as [acc' [E Hacc']].
    cbn [foldM]. rewrite E. cbn [bind].
    apply IH; [|assumption].
    intros a y Hy. apply Hf. right. exact Hy.
Qed.

(** ** Shapes *)

Lemma matrixOf_row (Pr : Polynomial -> Prop) (rows cols : nat)
  (M : PolynomialMatrix) (i : nat) :
  matrixOf Pr rows cols M -> i < rows ->
  exists row,
    nth_error M i = Some row /\ nth i M [] = row /\
    length row = cols /\ Forall Pr row.
Proof.
  intros [Hlen Hrows] Hi.
  destruct (nth_error M i) as [row|] eqn:E.
  - exists row. split; [reflexivity|].
    split; [apply nth_error_nth; exact E|].
    rewrite Forall_forall in Hrows. apply Hrows.
    eapply nth_error_In. exact E.
  - apply nth_error_None in E. lia.
Qed.

Lemma row_entry (Pr : Polynomial -> Prop) (row : list Polynomial) (j : nat) :
  Forall Pr row -> j < length row ->
  exists p, nth_error row j = Some p /\ Pr p.
Proof.
  intros Hrow Hj.
  destruct (nth_error row j) as [p|] eqn:E.
  - exists p. split; [reflexivity|].
    rewrite Forall_forall in Hrow. apply Hrow.
    eapply nth_error_In. exact E.
  - apply nth_error_None in E. lia.
Qed.

Lemma matrixOf_impl (Pr Pr' : Polynomial -> Prop) (rows cols : nat)
  (M : PolynomialMatrix) :
  (forall p, Pr p -> Pr' p) ->
  matrixOf Pr rows cols M -> matrixOf Pr' rows cols M.
Proof.
  intros Himp [Hlen Hrows]. split; [assumption|].
  eapply Forall_impl; [|exact Hrows].
  intros row [Hl Hr]. split; [assumption|].
  eapply Forall_impl; [|exact Hr]. exact Himp.
Qed.

Lemma transposeMatrix_ok (Pr : Polynomial -> Prop) (rows cols : nat)
  (M : PolynomialMatrix) :
  matrixOf Pr rows cols M -> 0 < rows ->
  exists T, transposeMatrix M = Ok T /\ matrixOf Pr cols rows T.
Proof.
  intros HM Hr. unfold transposeMatrix.
  destruct (matrixOf_row Pr rows cols M 0 HM Hr) as [row0 [E0 [_ [Hl0 _]]]].
  rewrite E0. cbn [defined bind]. rewrite Hl0.
  destruct (mapM_seq_ok (fun row' => length row' = rows /\ Forall Pr row')
              (fun j => mapM (fun row => defined (nth_error row j)) M) cols)
    as [T [HT [HlT HPT]]].
  - intros j Hj.
    destruct (mapiM_from_ok Pr
                (fun _ row => defined (nth_error row j)) M 0)
      as [ys [H1 [H2 H3]]].
    + intros i row Hi.
      destruct HM as [HlM HrM]. rewrite Forall_forall in HrM.
      destruct (HrM row (nth_error_In _ _ Hi)) as [Hlr HPr].
      destruct (row_entry Pr row j HPr ltac:(lia)) as [p [Ep HPp]].
      exists p. rewrite Ep. split; [reflexivity | assumption].
    + exists ys. split; [exact H1|]. destruct HM as [HlM _].
      split; [lia | assumption].
  - exists T. split; [exact HT|]. split; assumption.
Qed.

(** ** The modulus polynomial *)

Lemma modulusPolynomial_isInt (P : Parameters) :
  Forall isInt (coefficients (modulusPolynomial P)).
Proof.
  unfold modulusPolynomial; cbn [coefficients].
  apply Forall_arraySet; [reflexivity|].
  apply Forall_arraySet; [reflexivity|].
  apply Forall_forall. intros x Hx. apply repeat_spec in Hx. subst.
  reflexivity.
Qed.

Lemma modulusPolynomial_monic (P : Parameters) :
  last (coefficients (modulusPolynomial P)) 0%Q = 1%Q.
Proof.
  rewrite last_nth, length_modulusPolynomial.
  replace (param_n P + 1 - 1) with (param_n P) by lia.
  unfold modulusPolynomial; cbn [coefficients].
  apply nth_arraySet_eq. rewrite length_arraySet, repeat_length. lia.
Qed.

Lemma modulusPolynomial_not_nil (P : Parameters) :
  coefficients (modulusPolynomial P) <> [].
Proof.
  intros E. pose proof (length_modulusPolynomial P) as H.
  rewrite E in H. simpl in H. lia.
Qed.

(** ** Sums and differences of matrices *)

Lemma Forall2_of_Forall {X Y : Type} (PA : X -> Prop) (PB : Y -> Prop)
  (l : list X) (l' : list Y) :
  length l = length l' -> Forall PA l -> Forall PB l' ->
  Forall2 (fun a b => PA a /\ PB b) l l'.
Proof.
  revert l'. induction l as [|x l IH]; intros [|y l'] Hlen Ha Hb;
    try discriminate Hlen; constructor.
  - inversion Ha; inversion Hb; subst. split; assumption.
  - inversion Ha; inversion Hb; subst. apply IH; auto.
Qed.

Lemma zipWith_Forall2 {X Y W : Type} (R : X -> Y -> Prop) (PC : W -> Prop)
  (g : X -> Y -> W) (l : list X) (l' : list Y) :
  (forall a b, R a b -> PC (g a b)) ->
  Forall2 R l l' ->
  length (zipWith g l l') = length l /\ Forall PC (zipWith g l l').
Proof.
  intros Hg. induction 1 as [|x y l l' Hxy _ [IHl IHf]]; simpl.
  - split; [reflexivity | constructor].
  - split; [lia | constructor; auto].
Qed.

Lemma combineMatrices_ok (P : Parameters) (op : Q -> Q -> Q) (fuel : nat)
  (PA PB PC : Polynomial -> Prop) (rows cols : nat)
  (A B : PolynomialMatrix) (moduloQ : Q) :
  0 < rows ->
  matrixOf PA rows cols A -> matrixOf PB rows cols B ->
  (forall a, PA a -> length (coefficients a) <= param_n P) ->
  (forall b, PB b -> length (coefficients b) <= param_n P) ->
  (forall a b, PA a -> PB b -> PC (combinePolynomials op moduloQ a b)) ->
  exists C,
    combineMatrices op fuel A B moduloQ (modulusPolynomial P) = Ok C /\
    matrixOf PC rows cols C.
Proof.
  intros Hrows [HlA HrA] [HlB HrB] HPA HPB HPC.
  assert (Hrel : Forall2
                   (fun ra rb =>
                      length ra = cols /\
                      Forall2 (fun a b => PA a /\ PB b) ra rb) A B).
  { assert (H0 : Forall2
                   (fun ra rb => (length ra = cols /\ Forall PA ra)
                                 /\ (length rb = cols /\ Forall PB rb)) A B)
      by (apply Forall2_of_Forall; [lia | assumption | assumption]).
    eapply Forall2_impl; [|exact H0].
    intros ra rb [[Hla Hfa] [Hlb Hfb]]. split; [assumption|].
    apply Forall2_of_Forall; [lia | assumption | assumption]. }
  exists (zipWith (zipWith (combinePolynomials op moduloQ)) A B).
  split.
  - apply combineMatrices_short.
    + intros E. rewrite E in HlA. simpl in HlA. lia.
    + eapply Forall2_impl; [|exact Hrel].
      intros ra rb [_ Hr]. eapply Forall2_impl; [|exact Hr].
      intros a b [Ha Hb]. unfold shortPair.
      rewrite length_modulusPolynomial.
      pose proof (HPA a Ha). pose proof (HPB b Hb). lia.
  - destruct (zipWith_Forall2
                (fun ra rb =>
                   length ra = cols /\
                   Forall2 (fun a b => PA a /\ PB b) ra rb)
                (fun row => length row = cols /\ Forall PC row)
                (zipWith (combinePolynomials op moduloQ)) A B) as [Hl Hf];
      [|exact Hrel|].
    + intros ra rb [Hlr Hr].
      destruct (zipWith_Forall2 (fun a b => PA a /\ PB b) PC
                  (combinePolynomials op moduloQ) ra rb) as [Hl' Hf'];
        [intros a b [Ha Hb]; auto | exact Hr |].
      split; [lia | exact Hf'].
    + split; [lia | exact Hf].
Qed.

Lemma combinePolynomials_ringElement (P : Parameters) (op : Q -> Q -> Q)
  (a b : Polynomial) :
  (forall x y, isInt x -> isInt y -> isInt (op x y)) ->
  ringElement P a -> ringElement P b ->
  ringElement P (combinePolynomials op (inject_Z (param_q P)) a b).
Proof.
  intros Hop [Hia Hla] [Hib Hlb]. unfold combinePolynomials, ringElement.
  cbn [coefficients]. split.
  - apply isInt_combineCoefficients; auto. apply isInt_inject.
  - rewrite length_combineCoefficients. lia.
Qed.

Lemma freshElement_ringElement (P : Parameters) (p : Polynomial) :
  freshElement P p -> ringElement P p.
Proof. intros [Hi Hl]. split; [assumption | lia]. Qed.

Lemma combinePolynomials_freshElement (P : Parameters) (a b : Polynomial) :
  ringElement P a -> freshElement P b ->
  freshElement P (combinePolynomials Qplus (inject_Z (param_q P)) a b).
Proof.
  intros [Hia Hla] [Hib Hlb]. unfold combinePolynomials, freshElement.
  cbn [coefficients]. split.
  - apply isInt_combineCoefficients; auto using isInt_plus, isInt_inject.
  - rewrite length_combineCoefficients. lia.
Qed.

Lemma combinePolynomials_fullLength_l (P : Parameters) (op : Q -> Q -> Q)
  (q : Q) (a b : Polynomial) :
  fullLength P a -> length (coefficients b) <= param_n P ->
  fullLength P (combinePolynomials op q a b).
Proof.
  unfold fullLength, combinePolynomials. cbn [coefficients].
  intros Ha Hb. rewrite length_combineCoefficients. lia.
Qed.

(** ** Sampling (index.ts 272-283) *)

Lemma repeatRand_spec {X : Type} (Pr : X -> Prop) (f : Rand -> X * Rand)
  (count : nat) :
  (forall rand, Pr (fst (f rand))) ->
  forall rand,
    length (fst (repeatRand f count rand)) = count /\
    Forall Pr (fst (repeatRand f count rand)).
Proof.
  intros Hf. induction count as [|count IH]; intros rand; simpl.
  - split; [reflexivity | constructor].
  - pose proof (Hf rand) as H1. destruct (f rand) as [x rand1].
    specialize (IH rand1). destruct (repeatRand f count rand1) as [xs rand2].
    simpl in *. destruct IH as [IHl IHf].
    split; [lia | constructor; assumption].
Qed.

Lemma generateRandomMatrix_spec (P : Parameters) (rows cols : nat)
  (moduloQ : Q) (rand : Rand) :
  isInt moduloQ ->
  matrixOf (freshElement P) rows cols
    (fst (generateRandomMatrix rows cols (param_n P) moduloQ rand)).
Proof.
  intros Hq. unfold generateRandomMatrix, matrixOf.
  apply (repeatRand_spec
           (fun row => length row = cols /\ Forall (freshElement P) row)).
  intros rand1.
  apply (repeatRand_spec (freshElement P)).
  intros rand2. unfold randomPolynomial.
  pose proof (repeatRand_spec isInt (randomCoefficient moduloQ) (param_n P))
    as H.
  destruct (H ltac:(intros r; unfold randomCoefficient, Math_random;
                     cbn [fst]; apply isInt_symmetricValueModuloQ;
                     [apply isInt_inject | assumption]) rand2)
    as [Hl Hi].
  destruct (repeatRand (randomCoefficient moduloQ) (param_n P) rand2)
    as [cs rand3].
  cbn [fst] in *. split; assumption.
Qed.

Lemma isInt_eta (eta : Z) : isInt (inject_Z eta * 2 + 1)%Q.
Proof. reflexivity. Qed.

Lemma matrixOf_singleton (Pr : Polynomial -> Prop) (M : PolynomialMatrix) :
  matrixOf Pr 1 1 M -> exists p, M = [[p]] /\ Pr p.
Proof.
  intros [Hl Hr].
  destruct M as [|row [|row' M]]; try discriminate Hl.
  inversion Hr as [|? ? [Hlr HPr] _]; subst.
  destruct row as [|p [|p' row]]; try discriminate Hlr.
  inversion HPr; subst. exists p. split; [reflexivity | assumption].
Qed.

Lemma matrixOf_singleton_intro (Pr : Polynomial -> Prop) (p : Polynomial) :
  Pr p -> matrixOf Pr 1 1 [[p]].
Proof.
  intros H. split; [reflexivity|].
  repeat constructor. exact H.
Qed.

Lemma encryptBlocks_length (P : Parameters) (fuel : nat)
  (pk : CrystalsKyberPublicKey) (blocks : list Polynomial) :
  forall rand cts rand',
    encryptBlocks P fuel blocks pk rand = Ok (cts, rand') ->
    length cts = length blocks.
Proof.
  induction blocks as [|m blocks IH]; intros rand cts rand' H.
  - injection H as <- _. reflexivity.
  - cbn [encryptBlocks] in H.
    apply bind_Ok_inv in H. destruct H as [r1 [E1 H]].
    apply bind_Ok_inv in H. destruct H as [r2 [E2 H]].
    injection H as <- _. destruct r2 as [cts2 rand2].
    simpl. f_equal. eapply IH. exact E2.
Qed.

(** The sum of a matrix of ring elements and a freshly sampled matrix. *)
Lemma sum_with_fresh_ok (P : Parameters) (fuel rows cols : nat)
  (A E : PolynomialMatrix) :
  0 < rows ->
  matrixOf (ringElement P) rows cols A ->
  matrixOf (freshElement P) rows cols E ->
  exists C,
    addMatrices fuel A E (inject_Z (param_q P)) (modulusPolynomial P) = Ok C /\
    matrixOf (ringElement P) rows cols C.
Proof.
  intros Hrows HA HE.
  apply (combineMatrices_ok P Qplus fuel (ringElement P) (freshElement P)
           (ringElement P) rows cols A E (inject_Z (param_q P)));
    try assumption.
  - intros a [_ Ha]. exact Ha.
  - intros b [_ Hb]. lia.
  - intros a b Ha Hb. apply combinePolynomials_ringElement;
      [apply isInt_plus | assumption
      | apply freshElement_ringElement; assumption].
Qed.

(** ** Key generation, encryption and decryption of a block *)

Section Scheme.

(** A valid parameter set, and fuel for n turns of each reduction loop. *)
Variable P : Parameters.
Variable fuel : nat.
Hypothesis valid : validParameters P.
Hypothesis enough_fuel : param_n P <= fuel.

Let q : Q := inject_Z (param_q P).
Let mp : Polynomial := modulusPolynomial P.

Lemma valid_q : (0 < param_q P)%Z.
Proof. apply valid. Qed.

Lemma valid_k : 0 < param_k P.
Proof. apply valid. Qed.

(** The reduction of an integer polynomial of fewer than 2n coefficients
    returns, within n turns of its loop. *)
Lemma dividePolynomials_ok (p : Polynomial) :
  Forall isInt (coefficients p) ->
  length (coefficients p) <= 2 * param_n P ->
  exists r, dividePolynomials fuel p mp q = Ok r /\ ringElement P r.
Proof.
  intros Hint Hlen. unfold dividePolynomials, mp, q.
  destruct (dividePolynomials_loop_terminates
              (coefficients (modulusPolynomial P)) (param_q P) valid_q
              (modulusPolynomial_isInt P) (modulusPolynomial_monic P)
              (modulusPolynomial_not_nil P)
              fuel (coefficients p) Hint)
    as [r [Hr [Hl Hi]]].
  - rewrite length_modulusPolynomial. lia.
  - exists (mkPolynomial r). rewrite Hr. cbn [bind].
    split; [reflexivity|]. split; [exact Hi|].
    rewrite length_modulusPolynomial in Hl. cbn [coefficients]. lia.
Qed.

(** A coefficient array longer than n whose coefficients from index n on
    are all zero (degree below n, trailing zeros not trimmed) goes through
    one turn of the loop, which subtracts nothing and pops the trailing
    zeros: the same polynomial comes back, trimmed. *)
Lemma reduction_trims_zero_tail (fuel0 : nat) (p : Polynomial) :
  Forall isInt (coefficients p) ->
  Forall (centered q) (coefficients p) ->
  (forall i, param_n P <= i -> nth i (coefficients p) 0%Q = 0%Q) ->
  param_n P < length (coefficients p) ->
  dividePolynomials (S fuel0) p mp q
  = Ok (mkPolynomial (popTrailingZeros (coefficients p))) /\
  length (popTrailingZeros (coefficients p)) <= param_n P /\
  samePolynomial (mkPolynomial (popTrailingZeros (coefficients p))) p.
Proof.
  intros Hint Hcen Hzero Hlong. destruct p as [d]. cbn [coefficients] in *.
  pose proof valid_q as Hq.
  assert (Hshort : length (popTrailingZeros d) <= param_n P).
  { clear Hlong Hint Hcen.
    remember (length d) as len eqn:Hlen. revert d Hlen Hzero.
    induction len as [len IH] using lt_wf_ind. intros d Hlen Hzero.
    destruct (Nat.le_gt_cases len (param_n P)) as [Hle | Hgt].
    - unfold popTrailingZeros. rewrite length_rev.
      pose proof (popZeros_rev_length (rev d)) as H.
      rewrite length_rev in H. lia.
    - destruct (list_snoc_cases d) as [-> | [init [x ->]]];
        [simpl in Hlen; lia|].
      rewrite length_app in Hlen. cbn [length] in Hlen.
      assert (Hx : x = 0%Q).
      { specialize (Hzero (length init) ltac:(lia)).
        rewrite app_nth2, Nat.sub_diag in Hzero by lia. exact Hzero. }
      subst x. unfold popTrailingZeros.
      rewrite rev_app_distr. cbn [rev app popZeros_rev].
      change (Qeq_bool 0 0) with true. cbv iota.
      apply (IH (length init)); [lia | reflexivity|].
      intros i Hi. destruct (Nat.lt_ge_cases i (length init)) as [Hlt | Hge].
      + rewrite <- (app_nth1 init [0%Q] 0%Q Hlt). apply Hzero. exact Hi.
      + apply nth_overflow. exact Hge. }
  split; [|split; [exact Hshort|]].
  2:{ intros i. cbn [coefficients]. apply popTrailingZeros_same. exact Hint. }
  unfold dividePolynomials, mp, q. cbn [coefficients dividePolynomials_loop].
  rewrite length_modulusPolynomial.
  destruct (Nat.leb_spec (param_n P + 1) (length d)); [|lia].
  rewrite modulusPolynomial_monic.
  change (Qeq_bool 1 0) with false. cbv iota.
  assert (Hlast : last d 0%Q = inject_Z 0).
  { rewrite last_nth. apply Hzero. lia. }
  rewrite Hlast, Math_floor_div_one.
  assert (Hsame : subtractScaledDivisor (coefficients (modulusPolynomial P))
                    (length d - (param_n P + 1)) (inject_Z 0)
                    (inject_Z (param_q P)) d = d).
  { unfold subtractScaledDivisor.
    apply (fold_left_invariant (fun acc => acc = d)); [|reflexivity].
    intros acc i Hi ->. apply in_seq in Hi.
    rewrite length_modulusPolynomial in Hi.
    set (k := length d - (param_n P + 1) + i).
    assert (Hk : k < length d) by (unfold k; lia).
    destruct (nth_int_centered (param_q P) d k Hq Hint Hcen) as [z [Ez Hz]].
    pose proof (isInt_inject_Z _
                  (isInt_nth (coefficients (modulusPolynomial P)) i
                     (modulusPolynomial_isInt P))) as Ec.
    cbv zeta. rewrite Ec, inject_Z_mult, Z.mul_0_r.
    rewrite symmetricValueModuloQ_inject_Z by assumption.
    rewrite (centerZ_fixed 0 (param_q P) Hq)
      by (pose proof (Z.div_pos (param_q P) 2); lia).
    rewrite Ez, inject_Z_minus, Z.sub_0_r, <- Ez.
    rewrite arraySet_nth by assumption.
    rewrite Ez, symmetricValueModuloQ_inject_Z by assumption.
    rewrite (centerZ_fixed z (param_q P) Hq Hz), <- Ez.
    apply arraySet_nth. assumption. }
  rewrite Hsame.
  rewrite dividePolynomials_loop_short
    by (rewrite length_modulusPolynomial; lia).
  reflexivity.
Qed.

(** One entry of a product: the accumulation over the inner index, then
    the reduction. *)
Lemma product_entry_ok (rowA : list Polynomial) (B : PolynomialMatrix)
  (inner cols j : nat) :
  length rowA = inner -> Forall (ringElement P) rowA ->
  matrixOf (ringElement P) inner cols B -> j < cols ->
  exists r,
    (summed <-
       foldM
         (fun current k =>
            polyA <- defined (nth_error rowA k) ;;
            polyB <- defined (nth_error (nth k B []) j) ;;
            Ok (combineCoefficients Qplus current
                  (productCoefficients (coefficients polyA)
                     (coefficients polyB)) q))
         (seq 0 inner) [] ;;
     dividePolynomials fuel (mkPolynomial summed) mp q) = Ok r /\
    ringElement P r.
Proof.
  intros HlA HPA HB Hj.
  destruct (foldM_ok
              (fun acc => Forall isInt acc /\ length acc <= 2 * param_n P)
              (fun current k =>
                 polyA <- defined (nth_error rowA k) ;;
                 polyB <- defined (nth_error (nth k B []) j) ;;
                 Ok (combineCoefficients Qplus current
                       (productCoefficients (coefficients polyA)
                          (coefficients polyB)) q))
              (seq 0 inner)) with (acc := @nil Q) as [summed [Hs [Hsi Hsl]]].
  - intros acc k Hk [Hai Hal]. apply in_seq in Hk.
    destruct (row_entry _ rowA k HPA ltac:(lia)) as [polyA [EpA [HiA HlpA]]].
    destruct (matrixOf_row _ _ _ B k HB ltac:(lia))
      as [rowB [_ [ErowB [HlrB HPrB]]]].
    destruct (row_entry _ rowB j HPrB ltac:(lia)) as [polyB [EpB [HiB HlpB]]].
    rewrite EpA, ErowB, EpB. cbn [defined bind].
    eexists. split; [reflexivity|].
    destruct (productCoefficients_spec _ _ HiA HiB) as [Hpl Hpi].
    split.
    + apply isInt_combineCoefficients; unfold q; auto with ints.
    + rewrite length_combineCoefficients, Hpl. lia.
  - split; [constructor | simpl; lia].
  - rewrite Hs. cbn [bind]. apply dividePolynomials_ok; assumption.
Qed.

Lemma multiplyMatrices_ok (rows inner cols : nat) (A B : PolynomialMatrix) :
  0 < rows -> 0 < inner ->
  matrixOf (ringElement P) rows inner A ->
  matrixOf (ringElement P) inner cols B ->
  exists C,
    multiplyMatrices fuel A B q mp = Ok C /\
    matrixOf (ringElement P) rows cols C.
Proof.
  intros Hrows Hinner HA HB. unfold multiplyMatrices.
  destruct (matrixOf_row _ _ _ A 0 HA Hrows) as [A0 [EA0 [_ [HlA0 _]]]].
  destruct (matrixOf_row _ _ _ B 0 HB Hinner) as [B0 [EB0 [_ [HlB0 _]]]].
  rewrite EA0. cbn [defined bind].
  assert (HlB : length B = inner) by (destruct HB; assumption).
  rewrite HlA0, HlB, Nat.eqb_refl. cbn [negb].
  rewrite EB0. cbn [defined bind]. rewrite HlB0.
  match goal with
  | |- exists C, mapiM ?f A = Ok C /\ _ =>
      destruct (mapiM_from_ok
                  (fun row => length row = cols /\ Forall (ringElement P) row)
                  f A 0) as [C [HC [HlC HPC]]]
  end.
  - intros i rowA Hi. cbn [Nat.add].
    assert (Hirows : i < rows).
    { destruct HA as [HlA _]. rewrite <- HlA.
      apply nth_error_Some. congruence. }
    destruct (matrixOf_row _ _ _ A i HA Hirows)
      as [rowA' [_ [ErowA [HlrA HPrA]]]].
    rewrite ErowA.
    apply mapM_seq_ok. intros j Hj.
    apply (product_entry_ok rowA' B inner cols j); assumption.
  - exists C. split; [exact HC|].
    split; [destruct HA; lia | assumption].
Qed.

Lemma generateKeys_ok (rand : Rand) :
  exists keys rand',
    crystalsKyber_generateKeys P fuel rand = Ok (keys, rand') /\
    goodPublicKey P (pKey keys) /\ goodPrivateKey P (sKey keys).
Proof.
  pose proof valid_k as Hk. unfold crystalsKyber_generateKeys.
  pose proof (generateRandomMatrix_spec P (param_k P) 1
                (inject_Z (param_n1 P) * 2 + 1)%Q rand (isInt_eta _)) as Hs.
  destruct (generateRandomMatrix (param_k P) 1 (param_n P) _ rand)
    as [s rand1]. cbn [fst] in Hs.
  pose proof (generateRandomMatrix_spec P (param_k P) 1
                (inject_Z (param_n2 P) * 2 + 1)%Q rand1 (isInt_eta _)) as He.
  destruct (generateRandomMatrix (param_k P) 1 (param_n P) _ rand1)
    as [e rand2]. cbn [fst] in He.
  pose proof (generateRandomMatrix_spec P (param_k P) (param_k P)
                (inject_Z (param_q P)) rand2 (isInt_inject _)) as HA.
  destruct (generateRandomMatrix (param_k P) (param_k P) (param_n P) _ rand2)
    as [A rand3]. cbn [fst] in HA.
  apply (matrixOf_impl _ _ _ _ _ (freshElement_ringElement P)) in Hs, HA.
  destruct (multiplyMatrices_ok _ _ _ A s Hk Hk HA Hs) as [As [EAs HAs]].
  fold q mp. rewrite EAs. cbn [bind].
  destruct (sum_with_fresh_ok P fuel (param_k P) 1 As e Hk HAs He)
    as [t [Et Ht]].
  fold q mp in Et. rewrite Et. cbn [bind].
  eexists. eexists. split; [reflexivity|].
  cbn [pKey sKey pk_t pk_A sk_s].
  split; [split|]; assumption.
Qed.

Lemma encrypt_ok (msg : Polynomial) (pk : CrystalsKyberPublicKey)
  (rand : Rand) :
  goodPublicKey P pk -> fullLength P msg ->
  exists eb rand',
    crystalsKyber_encrypt P fuel msg pk rand = Ok (eb, rand') /\
    goodBlock P eb.
Proof.
  intros [Ht HA] Hmsg. pose proof valid_k as Hk.
  unfold crystalsKyber_encrypt.
  pose proof (generateRandomMatrix_spec P (param_k P) 1
                (inject_Z (param_n1 P) * 2 + 1)%Q rand (isInt_eta _)) as Hr.
  destruct (generateRandomMatrix (param_k P) 1 (param_n P) _ rand)
    as [r rand1]. cbn [fst] in Hr.
  pose proof (generateRandomMatrix_spec P (param_k P) 1
                (inject_Z (param_n2 P) * 2 + 1)%Q rand1 (isInt_eta _)) as He1.
  destruct (generateRandomMatrix (param_k P) 1 (param_n P) _ rand1)
    as [e1 rand2]. cbn [fst] in He1.
  pose proof (generateRandomMatrix_spec P 1 1
                (inject_Z (param_n2 P) * 2 + 1)%Q rand2 (isInt_eta _)) as He2.
  destruct (generateRandomMatrix 1 1 (param_n P) _ rand2)
    as [e2 rand3]. cbn [fst] in He2.
  apply (matrixOf_impl _ _ _ _ _ (freshElement_ringElement P)) in Hr.
  fold q mp.
  (* u = A^T r + e1 *)
  destruct (transposeMatrix_ok _ _ _ _ HA Hk) as [At [EAt HAt]].
  rewrite EAt. cbn [bind].
  destruct (multiplyMatrices_ok _ _ _ At r Hk Hk HAt Hr) as [Atr [EAtr HAtr]].
  rewrite EAtr. cbn [bind].
  destruct (sum_with_fresh_ok P fuel (param_k P) 1 Atr e1 Hk HAtr He1)
    as [u [Eu Hu]].
  fold q mp in Eu. rewrite Eu. cbn [bind].
  (* v = t^T r + e2 + msgScaled *)
  destruct (transposeMatrix_ok _ _ _ _ Ht Hk) as [tt [Ett Htt]].
  rewrite Ett. cbn [bind].
  destruct (multiplyMatrices_ok 1 _ 1 tt r ltac:(lia) Hk Htt Hr)
    as [ttr [Ettr Httr]].
  rewrite Ettr. cbn [bind].
  destruct (combineMatrices_ok P Qplus fuel (ringElement P) (freshElement P)
              (freshElement P) 1 1 ttr e2 q)
    as [ttre2 [Ettre2 Httre2]]; try assumption; try lia.
  { intros a [_ Ha]. exact Ha. }
  { intros b [_ Hb]. lia. }
  { intros a b Ha Hb. apply combinePolynomials_freshElement; assumption. }
  unfold addMatrices at 1. fold mp in Ettre2. rewrite Ettre2. cbn [bind].
  destruct (combineMatrices_ok P Qplus fuel (freshElement P) (fullLength P)
              (fullLength P) 1 1 ttre2 [[scaleMessage P msg]] q)
    as [v [Ev Hv]]; try assumption; try lia.
  { apply matrixOf_singleton_intro. unfold fullLength, scaleMessage.
    cbn [coefficients]. rewrite length_map. exact Hmsg. }
  { intros a [_ Ha]. lia. }
  { intros b Hb. unfold fullLength in Hb. lia. }
  { intros a b [_ Ha] Hb. apply combinePolynomials_fullLength_l;
      [exact Ha | unfold fullLength in Hb; lia]. }
  unfold addMatrices. fold mp in Ev. rewrite Ev. cbn [bind].
  eexists. eexists. split; [reflexivity|].
  split; assumption.
Qed.

Lemma decryptionPolynomial_ok (eb : EncryptedBlock)
  (sk : CrystalsKyberPrivateKey) :
  goodPrivateKey P sk -> goodBlock P eb ->
  exists d, decryptionPolynomial P fuel eb sk = Ok d /\ fullLength P d.
Proof.
  intros Hs [Hu Hv]. pose proof valid_k as Hk.
  unfold decryptionPolynomial. fold q mp.
  destruct (transposeMatrix_ok _ _ _ _ Hs Hk) as [st [Est Hst]].
  rewrite Est. cbn [bind].
  destruct (multiplyMatrices_ok 1 _ 1 st (eb_u eb) ltac:(lia) Hk Hst Hu)
    as [stu [Estu Hstu]].
  rewrite Estu. cbn [bind].
  destruct (combineMatrices_ok P Qminus fuel (fullLength P) (ringElement P)
              (fullLength P) 1 1 (eb_v eb) stu q)
    as [md [Emd Hmd]]; try assumption; try lia.
  { intros a Ha. unfold fullLength in Ha. lia. }
  { intros b [_ Hb]. exact Hb. }
  { intros a b Ha [_ Hb]. apply combinePolynomials_fullLength_l; assumption. }
  unfold subtractMatrices. fold mp in Emd. rewrite Emd. cbn [bind].
  destruct (matrixOf_singleton _ _ Hmd) as [d [-> Hd]].
  exists d. split; [reflexivity | exact Hd].
Qed.

Lemma encryptBlocks_ok (pk : CrystalsKyberPublicKey)
  (blocks : list Polynomial) :
  goodPublicKey P pk -> Forall (fullLength P) blocks ->
  forall rand,
  exists cts rand',
    encryptBlocks P fuel blocks pk rand = Ok (cts, rand') /\
    length cts = length blocks /\
    Forall (goodBlock P) cts.
Proof.
  intros Hpk Hb.
  induction Hb as [|msg blocks Hm Hblocks IH]; intros rand.
  - exists [], rand. repeat split. constructor.
  - destruct (encrypt_ok msg pk rand Hpk Hm) as [eb [rand1 [Eeb Heb]]].
    destruct (IH rand1) as [cts [rand2 [Ects [Hl Hg]]]].
    exists (eb :: cts), rand2. cbn [encryptBlocks].
    rewrite Eeb. cbn [bind snd fst]. rewrite Ects. cbn [bind snd fst].
    repeat split; [simpl; lia | constructor; assumption].
Qed.

End Scheme.

(** ** The blocks of a text, byte by byte *)

Lemma length_bitsOfBytes (bytes : list Z) :
  length (flat_map bitsOfByte bytes) = 8 * length bytes.
Proof.
  induction bytes as [|x bytes IH]; [reflexivity|].
  cbn [flat_map]. rewrite length_app, IH, length_bitsOfByte. simpl. lia.
Qed.

Lemma pushBits_room (blockSize : nat) (bits : list Q) :
  forall (blocks : list Polynomial) (cur : list Q),
    length cur + length bits <= blockSize ->
    fold_left (pushBit blockSize) bits (blocks, cur) = (blocks, cur ++ bits).
Proof.
  induction bits as [|b bits IH]; intros blocks cur H.
  - rewrite app_nil_r. reflexivity.
  - cbn [fold_left pushBit]. cbn [length] in H.
    destruct (Nat.eqb_spec (length cur) blockSize); [lia|].
    rewrite IH by (rewrite length_app; simpl; lia).
    rewrite <- app_assoc. reflexivity.
Qed.

Lemma pushBits_full (blockSize : nat) (bits : list Q)
  (blocks : list Polynomial) (cur : list Q) :
  length cur = blockSize -> bits <> [] -> length bits <= blockSize ->
  fold_left (pushBit blockSize) bits (blocks, cur)
  = (blocks ++ [mkPolynomial cur], bits).
Proof.
  intros Hc Hne Hl. destruct bits as [|b bits]; [contradiction|].
  cbn [fold_left pushBit]. rewrite Hc, Nat.eqb_refl.
  rewrite pushBits_room by (simpl in *; lia). reflexivity.
Qed.

Section WholeBytes.

(** Blocks of a positive whole number of bytes. *)
Variable bytesPerBlock : nat.
Hypothesis bytesPerBlock_positive : 0 < bytesPerBlock.

Let blockSize : nat := 8 * bytesPerBlock.

Lemma encodeLoop_chunks (bytes : list Z) :
  forall (chunks : list (list Z)) (curBytes : list Z),
    length curBytes <= bytesPerBlock ->
    Forall (fun ch => length ch = bytesPerBlock) chunks ->
    exists chunks' curBytes',
      fold_left
        (fun st byte => fold_left (pushBit blockSize) (bitsOfByte byte) st)
        bytes (map encodeChunk chunks, flat_map bitsOfByte curBytes)
      = (map encodeChunk chunks', flat_map bitsOfByte curBytes') /\
      length curBytes' <= bytesPerBlock /\
      Forall (fun ch => length ch = bytesPerBlock) chunks' /\
      concat chunks' ++ curBytes' = (concat chunks ++ curBytes) ++ bytes.
Proof.
  pose proof bytesPerBlock_positive as Hb. unfold blockSize.
  induction bytes as [|x bytes IH]; intros chunks curBytes Hl Hc.
  - exists chunks, curBytes. rewrite app_nil_r. repeat split; assumption.
  - cbn [fold_left].
    destruct (Nat.eq_dec (length curBytes) bytesPerBlock) as [E | E].
    + (* the block in progress is full: it is emitted, the byte opens the next *)
      rewrite pushBits_full;
        [| rewrite length_bitsOfBytes; lia | discriminate
         | rewrite length_bitsOfByte; lia].
      destruct (IH (chunks ++ [curBytes]) [x])
        as [chunks' [cur' [H1 [H2 [H3 H4]]]]].
      * simpl. lia.
      * apply Forall_app.
        split; [assumption | constructor; [exact E | constructor]].
      * exists chunks', cur'. split; [|split; [|split]]; try assumption.
        -- rewrite <- H1. rewrite map_app. cbn [map flat_map].
           rewrite app_nil_r. reflexivity.
        -- rewrite H4. rewrite concat_app. cbn [concat].
           rewrite app_nil_r, <- !app_assoc. reflexivity.
    + (* there is room for the whole byte *)
      rewrite pushBits_room
        by (rewrite length_bitsOfBytes, length_bitsOfByte; lia).
      destruct (IH chunks (curBytes ++ [x]))
        as [chunks' [cur' [H1 [H2 [H3 H4]]]]].
      * rewrite length_app. simpl. lia.
      * assumption.
      * exists chunks', cur'. split; [|split; [|split]]; try assumption.
        -- rewrite <- H1. rewrite flat_map_app. cbn [flat_map].
           rewrite app_nil_r. reflexivity.
        -- rewrite H4. rewrite <- !app_assoc. reflexivity.
Qed.

(** The blocks of a text: full blocks of bytes, then the padding of the
    bytes left. *)
Lemma textToPolynomialBlocks_chunks (text : jsString) :
  exists chunks curBytes,
    textToPolynomialBlocks text blockSize
    = map encodeChunk chunks
        ++ addPaddingToPolynomialBlocks (encodeChunk curBytes) blockSize /\
    length curBytes <= bytesPerBlock /\
    Forall (fun ch => length ch = bytesPerBlock) chunks /\
    concat chunks ++ curBytes = charCodes text.
Proof.
  unfold textToPolynomialBlocks.
  destruct (encodeLoop_chunks (charCodes text) [] [])
    as [chunks [cur [H1 [H2 [H3 H4]]]]]; [simpl; lia | constructor|].
  cbn [map flat_map] in H1. rewrite H1.
  exists chunks, cur. repeat split; assumption.
Qed.

Lemma length_encodeChunk (ch : list Z) :
  length (coefficients (encodeChunk ch)) = 8 * length ch.
Proof. apply length_bitsOfBytes. Qed.

Lemma addPadding_lengths (curBytes : list Z) :
  length curBytes <= bytesPerBlock ->
  Forall (fun block => length (coefficients block) = blockSize)
    (addPaddingToPolynomialBlocks (encodeChunk curBytes) blockSize).
Proof.
  pose proof bytesPerBlock_positive as Hb. unfold blockSize.
  intros Hl. unfold encodeChunk. rewrite addPadding_eq.
  rewrite length_bitsOfBytes.
  destruct (Nat.eqb_spec (8 * length curBytes) (8 * bytesPerBlock)) as [E | E].
  - destruct (Nat.eqb_spec 8 (8 * bytesPerBlock)) as [E8 | E8];
      repeat constructor; cbn [coefficients app length];
      rewrite ?length_bitsOfBytes, ?repeat_length; lia.
  - destruct (Nat.eqb_spec (8 * length curBytes + 8) (8 * bytesPerBlock))
      as [E8 | E8];
      repeat constructor; cbn [coefficients];
      rewrite ?length_app; cbn [length];
      rewrite ?length_bitsOfBytes, ?repeat_length; try lia.
Qed.

End WholeBytes.

Lemma whole_bytes (n : nat) :
  0 < n -> n mod 8 = 0 -> exists b, n = 8 * b /\ 0 < b.
Proof.
  intros Hn H8. exists (n / 8).
  pose proof (Nat.div_mod_eq n 8) as E. rewrite H8 in E.
  split; [lia|].
  destruct (n / 8); [lia | lia].
Qed.

Lemma textToPolynomialBlocks_fullLength (P : Parameters) (text : jsString) :
  validParameters P ->
  Forall (fullLength P) (textToPolynomialBlocks text (param_n P)).
Proof.
  intros [_ [_ [Hn Hn8]]].
  destruct (whole_bytes (param_n P) Hn Hn8) as [b [En Hb]].
  destruct (textToPolynomialBlocks_chunks b Hb text)
    as [chunks [cur [H1 [H2 [H3 H4]]]]].
  unfold fullLength. rewrite En, H1.
  apply Forall_app. split.
  - apply Forall_map. eapply Forall_impl; [|exact H3].
    intros ch Hch. cbv beta in *. rewrite length_encodeChunk. lia.
  - apply addPadding_lengths; assumption.
Qed.

(** ** Decoding of the blocks of a text *)

Lemma bit_land_1 (z : Z) : isBit (inject_Z (Z.land z 1)).
Proof.
  change 1%Z with (Z.ones 1). rewrite Z.land_ones by lia.
  change (2 ^ 1)%Z with 2%Z.
  pose proof (Z.mod_pos_bound z 2 ltac:(lia)) as H.
  assert (E : (z mod 2 = 0 \/ z mod 2 = 1)%Z) by lia.
  destruct E as [-> | ->]; [left | right]; reflexivity.
Qed.

Lemma bitsOfByte_bits (byte : Z) : Forall isBit (bitsOfByte byte).
Proof.
  unfold bitsOfByte. apply Forall_map.
  apply Forall_forall. intros bit _. apply bit_land_1.
Qed.

Lemma encodeChunk_bits (ch : list Z) : Forall isBit (coefficients (encodeChunk ch)).
Proof.
  unfold encodeChunk; cbn [coefficients].
  induction ch as [|x ch IH]; [constructor|].
  cbn [flat_map]. apply Forall_app. split; [apply bitsOfByte_bits | exact IH].
Qed.

Lemma byteOfBits_bitsOfByte_table :
  forallb (fun x => (byteOfBits (bitsOfByte x) =? x)%Z)
    (map Z.of_nat (seq 0 256)) = true.
Proof. vm_compute. reflexivity. Qed.

Lemma byteOfBits_bitsOfByte (x : Z) :
  (0 <= x < 256)%Z -> byteOfBits (bitsOfByte x) = x.
Proof.
  intros Hx. pose proof byteOfBits_bitsOfByte_table as H.
  rewrite forallb_forall in H. apply Z.eqb_eq. apply H.
  apply in_map_iff. exists (Z.to_nat x). split; [lia|].
  apply in_seq. lia.
Qed.

Lemma groups_of_bytes (ch : list Z) :
  Forall (fun c => (0 <= c < 256)%Z) ch ->
  map byteOfBits (groupsOf8 (flat_map bitsOfByte ch)) = ch.
Proof.
  induction 1 as [|x ch Hx _ IH]; [reflexivity|].
  cbn [flat_map].
  change (bitsOfByte x ++ flat_map bitsOfByte ch)
    with (inject_Z (Z.land (Z.shiftr x 7) 1)
          :: inject_Z (Z.land (Z.shiftr x 6) 1)
          :: inject_Z (Z.land (Z.shiftr x 5) 1)
          :: inject_Z (Z.land (Z.shiftr x 4) 1)
          :: inject_Z (Z.land (Z.shiftr x 3) 1)
          :: inject_Z (Z.land (Z.shiftr x 2) 1)
          :: inject_Z (Z.land (Z.shiftr x 1) 1)
          :: inject_Z (Z.land (Z.shiftr x 0) 1)
          :: flat_map bitsOfByte ch).
  cbn [groupsOf8 map]. rewrite IH. f_equal.
  apply (byteOfBits_bitsOfByte x Hx).
Qed.

Lemma charCodes_bytes (text : jsString) :
  byteString text -> charCodes text = text.
Proof.
  induction 1 as [|c text Hc _ IH]; [reflexivity|].
  cbn [charCodes].
  assert (Hh : isHighSurrogate c = false).
  { unfold isHighSurrogate. destruct (Z.leb_spec 55296 c); [lia | reflexivity]. }
  rewrite Hh. cbn [andb]. f_equal.
  destruct text; [reflexivity | exact IH].
Qed.

(** The text decoded from the blocks that the padding step of decryption
    leaves of the blocks of a text is that text. *)
Lemma decode_stripped_blocks (bytesPerBlock : nat) (text : jsString) :
  0 < bytesPerBlock -> byteString text ->
  exists stripped,
    stripPadding (textToPolynomialBlocks text (8 * bytesPerBlock))
    = Ok stripped /\
    polynomialBlocksToText stripped (8 * bytesPerBlock) = text.
Proof.
  intros Hb Htext.
  destruct (textToPolynomialBlocks_chunks bytesPerBlock Hb text)
    as [chunks [cur [H1 [H2 [H3 H4]]]]].
  rewrite H1. unfold encodeChunk at 2. rewrite stripPadding_addPadding.
  eexists. split; [reflexivity|].
  rewrite (charCodes_bytes text Htext) in H4.
  assert (Hbytes : Forall (fun c => (0 <= c < 256)%Z) (concat chunks ++ cur))
    by (rewrite H4; exact Htext).
  apply Forall_app in Hbytes. destruct Hbytes as [Hchunks Hcur].
  assert (Hdec : forall chs : list (list Z),
             Forall (fun c => (0 <= c < 256)%Z) (concat chs) ->
             flat_map
               (fun block : Polynomial =>
                  map byteOfBits (groupsOf8 (coefficients block)))
               (map encodeChunk chs) = concat chs).
  { induction chs as [|ch chs IH]; intros Hf; [reflexivity|].
    cbn [concat] in Hf. apply Forall_app in Hf. destruct Hf as [Hf1 Hf2].
    cbn [map flat_map concat]. rewrite IH by assumption.
    unfold encodeChunk at 1; cbn [coefficients].
    rewrite groups_of_bytes by assumption. reflexivity. }
  assert (Htail :
            bitBlocks
              (if length (flat_map bitsOfByte cur) =? 8 * bytesPerBlock
               then [mkPolynomial (flat_map bitsOfByte cur); mkPolynomial []]
               else [mkPolynomial (flat_map bitsOfByte cur)]) /\
            flat_map
              (fun block : Polynomial =>
                 map byteOfBits (groupsOf8 (coefficients block)))
              (if length (flat_map bitsOfByte cur) =? 8 * bytesPerBlock
               then [mkPolynomial (flat_map bitsOfByte cur); mkPolynomial []]
               else [mkPolynomial (flat_map bitsOfByte cur)]) = cur).
  { destruct (length (flat_map bitsOfByte cur) =? 8 * bytesPerBlock);
      (split;
       [repeat constructor; apply (encodeChunk_bits cur)
       | cbn [flat_map coefficients groupsOf8 map];
         rewrite groups_of_bytes by assumption;
         rewrite ?app_nil_r; reflexivity]). }
  destruct Htail as [Hbits Hflat].
  rewrite polynomialBlocksToText_groups.
  - rewrite flat_map_app, Hdec by assumption. rewrite Hflat, H4.
    clear - Htext. induction Htext as [|c text Hc _ IH]; [reflexivity|].
    cbn [map]. rewrite IH. f_equal. unfold toUint16.
    apply Z.mod_small. change (2 ^ 16)%Z with 65536%Z. lia.
  - apply Forall_app. split; [|exact Hbits].
    apply Forall_map. apply Forall_forall. intros ch _.
    apply encodeChunk_bits.
Qed.

(** ** Round trip of a message *)

Lemma Forall2_nth_error_intro {X Y : Type} (R : X -> Y -> Prop)
  (l : list X) (l' : list Y) :
  length l = length l' ->
  (forall i x y, nth_error l i = Some x -> nth_error l' i = Some y -> R x y) ->
  Forall2 R l l'.
Proof.
  revert l'. induction l as [|x l IH]; intros [|y l'] Hlen H;
    try discriminate Hlen; constructor.
  - apply (H 0); reflexivity.
  - apply IH; [simpl in Hlen; lia|].
    intros i x' y' Hx Hy. apply (H (S i)); assumption.
Qed.

(** A block whose decryption polynomial rounds back to the message block
    decrypts to that block. *)
Lemma decrypt_rounds_back (P : Parameters) (fuel : nat) (eb : EncryptedBlock)
  (sk : CrystalsKyberPrivateKey) (d m : Polynomial) :
  decryptionPolynomial P fuel eb sk = Ok d ->
  fullLength P d -> fullLength P m -> roundsBack P d m ->
  crystalsKyber_decrypt P fuel eb sk = Ok m.
Proof.
  intros Hd Hld Hlm Hr. unfold crystalsKyber_decrypt.
  rewrite Hd. cbn [bind]. f_equal.
  destruct m as [mc]. f_equal. unfold fullLength in *.
  cbn [coefficients] in *.
  apply nth_ext with (d := reduceToBinary 0 0 (inject_Z (param_q P) / 2))
                     (d' := 0%Q).
  - rewrite length_map. lia.
  - intros j Hj. rewrite length_map in Hj.
    rewrite (map_nth (fun coeff =>
                        reduceToBinary coeff 0 (inject_Z (param_q P) / 2))).
    apply Hr. lia.
Qed.

Lemma asciiString_byteString (text : jsString) :
  asciiString text -> byteString text.
Proof.
  unfold asciiString, byteString. intros H.
  eapply Forall_impl; [|exact H]. intros c Hc. cbv beta in Hc. lia.
Qed.

(** C1: for valid parameters, enough fuel for the reductions, any values of
    the random source and any ASCII text, key generation returns a key
    pair, the encryption of the text under the public key returns its
    ciphertext blocks, the decryption polynomial of each block is computed
    and has n coefficients, and, when in every block each coefficient of
    that polynomial rounds back to the bit that was encrypted, the
    decryption of the ciphertext under the private key returns the text. *)
Theorem message_round_trip (P : Parameters) (fuel : nat) (rand : Rand)
  (text : jsString) :
  validParameters P -> param_n P <= fuel -> asciiString text ->
  exists (keys : CrystalsKyberKeys) (rand1 : Rand)
         (cts : list EncryptedBlock) (rand2 : Rand),
    crystalsKyber_generateKeys P fuel rand = Ok (keys, rand1) /\
    crystalsKyber_encryptMessage P fuel text (pKey keys) rand1
    = Ok (cts, rand2) /\
    Forall
      (fun eb =>
         exists d, decryptionPolynomial P fuel eb (sKey keys) = Ok d /\
                   fullLength P d)
      cts /\
    (noiseSmall P fuel (textToPolynomialBlocks text (param_n P)) cts
       (sKey keys) ->
     crystalsKyber_decryptMessage P fuel cts (sKey keys) = Ok text).
Proof.
  intros HP Hfuel Htext.
  destruct (generateKeys_ok P fuel HP Hfuel rand)
    as [keys [rand1 [Ekeys [Hpk Hsk]]]].
  pose proof (textToPolynomialBlocks_fullLength P text HP) as Hblocks.
  destruct (encryptBlocks_ok P fuel HP Hfuel (pKey keys)
              (textToPolynomialBlocks text (param_n P)) Hpk Hblocks rand1)
    as [cts [rand2 [Ects [Hlen Hgood]]]].
  exists keys, rand1, cts, rand2.
  split; [exact Ekeys|]. split; [exact Ects|].
  assert (Hdec : Forall
                   (fun eb =>
                      exists d,
                        decryptionPolynomial P fuel eb (sKey keys) = Ok d /\
                        fullLength P d) cts).
  { eapply Forall_impl; [|exact Hgood].
    intros eb Heb. apply decryptionPolynomial_ok; assumption. }
  split; [exact Hdec|].
  intros Hnoise.
  assert (H2 : Forall2
                 (fun eb m => crystalsKyber_decrypt P fuel eb (sKey keys) = Ok m)
                 cts (textToPolynomialBlocks text (param_n P))).
  { apply Forall2_nth_error_intro; [exact Hlen|].
    intros i eb m Hi Hm.
    rewrite Forall_forall in Hdec, Hblocks.
    destruct (Hdec eb (nth_error_In _ _ Hi)) as [d [Ed Hd]].
    apply (decrypt_rounds_back P fuel eb (sKey keys) d m Ed Hd).
    - apply Hblocks. eapply nth_error_In. exact Hm.
    - eapply Hnoise; eassumption. }
  unfold crystalsKyber_decryptMessage.
  rewrite (mapM_Forall2 _ _ _ H2). cbn [bind].
  destruct HP as [_ [_ [Hn Hn8]]].
  destruct (whole_bytes (param_n P) Hn Hn8) as [b [En Hb]].
  rewrite En.
  destruct (decode_stripped_blocks b text Hb
              (asciiString_byteString text Htext)) as [stripped [Es Et]].
  rewrite Es. cbn [bind]. rewrite Et. reflexivity.
Qed.

Lemma smallParameters_valid : validParameters smallParameters.
Proof. repeat split; simpl; lia. Defined.

Lemma message_round_trip_witness :
  exists (keys : CrystalsKyberKeys) (rand1 : Rand)
         (cts : list EncryptedBlock) (rand2 : Rand),
    crystalsKyber_generateKeys smallParameters 8 cyclingRand
    = Ok (keys, rand1) /\
    crystalsKyber_encryptMessage smallParameters 8 [65%Z] (pKey keys) rand1
    = Ok (cts, rand2) /\
    noiseSmall smallParameters 8
      (textToPolynomialBlocks [65%Z] (param_n smallParameters)) cts
      (sKey keys) /\
    crystalsKyber_decryptMessage smallParameters 8 cts (sKey keys)
    = Ok [65%Z].
Proof.
  destruct (message_round_trip smallParameters 8 cyclingRand [65%Z])
    as (keys & rand1 & cts & rand2 & Hk & He & Hd & Hrt).
  - exact smallParameters_valid.
  - simpl. lia.
  - repeat constructor; lia.
  - exists keys, rand1, cts, rand2.
    split; [exact Hk|]. split; [exact He|].
    assert (Hn : noiseSmall smallParameters 8
                   (textToPolynomialBlocks [65%Z] (param_n smallParameters))
                   cts (sKey keys)).
    { clear Hd Hrt. vm_compute in Hk. injection Hk as Hkeys Hrand.
      subst keys rand1. vm_compute in He. injection He as Hcts Hrand.
      subst cts rand2.
      intros i eb m d H1 H2 H3 j Hj.
      destruct i as [|[|[|i]]]; cbn [nth_error] in H1;
        try (destruct i; discriminate H1);
        injection H1 as <-; vm_compute in H2; injection H2 as <-;
        vm_compute in H3; injection H3 as <-;
        do 8 (destruct j as [|j]; [reflexivity|]);
        exfalso; cbn in Hj; lia. }
    split; [exact Hn | exact (Hrt Hn)].
Defined.

(** ** The last-block read of message decryption (index.ts 516) *)

Lemma mapM_length {X Y : Type} (f : X -> outcome Y) (l : list X)
  (ys : list Y) :
  mapM f l = Ok ys -> length ys = length l.
Proof.
  intros H. apply mapM_Ok_Forall2 in H. symmetry.
  eapply Forall2_length. exact H.
Qed.

Lemma stripPadding_not_nil (blocks : list Polynomial) :
  blocks <> [] -> exists stripped, stripPadding blocks = Ok stripped.
Proof.
  intros Hne. rewrite stripPadding_eq.
  destruct blocks; [contradiction | eauto].
Qed.

(** C10: decryption of the empty ciphertext sequence fails at the read of
    the last decrypted block; on a non-empty sequence whose blocks decrypt,
    that read finds a block and the decryption returns a text; the padding
    and the encoding of a text always emit at least one block; whenever the
    encryption of a text returns, it returns at least one ciphertext block;
    and with generated keys it does return. *)
Theorem decryptMessage_reads_an_existing_block (P : Parameters) (fuel : nat)
  (rand : Rand) (text : jsString) :
  validParameters P -> param_n P <= fuel ->
  (forall sKey, crystalsKyber_decryptMessage P fuel [] sKey = Throw TypeError) /\
  (forall cts sKey ds,
      cts <> [] ->
      mapM (fun eb => crystalsKyber_decrypt P fuel eb sKey) cts = Ok ds ->
      (exists lastBlock, nth_error ds (length ds - 1) = Some lastBlock) /\
      (exists text', crystalsKyber_decryptMessage P fuel cts sKey = Ok text')) /\
  (forall p blockSize,
      addPaddingToPolynomialBlocks p blockSize <> [] /\
      textToPolynomialBlocks text blockSize <> []) /\
  (forall pKey rand0 cts rand',
      crystalsKyber_encryptMessage P fuel text pKey rand0 = Ok (cts, rand') ->
      cts <> []) /\
  (exists keys rand1 cts rand2,
      crystalsKyber_generateKeys P fuel rand = Ok (keys, rand1) /\
      crystalsKyber_encryptMessage P fuel text (pKey keys) rand1
      = Ok (cts, rand2) /\
      cts <> []).
Proof.
  intros HP Hfuel.
  assert (Hblocks : forall blockSize,
             textToPolynomialBlocks text blockSize <> []).
  { intros blockSize E.
    destruct (textToPolynomialBlocks_snoc text blockSize) as [init [x Ex]].
    rewrite Ex in E. destruct init; discriminate E. }
  assert (Henc : forall pKey rand0 cts rand',
             crystalsKyber_encryptMessage P fuel text pKey rand0
             = Ok (cts, rand') -> cts <> []).
  { intros pKey rand0 cts rand' H E. subst cts.
    apply encryptBlocks_length in H. simpl in H.
    apply (Hblocks (param_n P)). apply length_zero_iff_nil. lia. }
  split; [reflexivity|]. split; [|split; [|split; [exact Henc|]]].
  - intros cts sKey ds Hne Hds.
    assert (Hdne : ds <> []).
    { intros E. subst ds. apply mapM_length in Hds.
      apply Hne. apply length_zero_iff_nil. simpl in Hds. lia. }
    destruct (list_snoc_cases ds) as [E | [init [x E]]]; [contradiction|].
    split.
    + exists x. rewrite E. apply nth_error_last_index.
    + unfold crystalsKyber_decryptMessage. rewrite Hds. cbn [bind].
      destruct (stripPadding_not_nil ds Hdne) as [stripped Es].
      rewrite Es. cbn [bind]. eauto.
  - intros p blockSize. split; [|apply Hblocks].
    intros E. destruct (addPadding_snoc p blockSize) as [init [x Ex]].
    rewrite Ex in E. destruct init; discriminate E.
  - destruct (generateKeys_ok P fuel HP Hfuel rand)
      as [keys [rand1 [Ekeys [Hpk Hsk]]]].
    destruct (encryptBlocks_ok P fuel HP Hfuel (pKey keys)
                (textToPolynomialBlocks text (param_n P)) Hpk
                (textToPolynomialBlocks_fullLength P text HP) rand1)
      as [cts [rand2 [Ects _]]].
    exists keys, rand1, cts, rand2.
    split; [exact Ekeys|]. split; [exact Ects|].
    eapply Henc. exact Ects.
Qed.

Lemma decryptMessage_reads_an_existing_block_witness :
  (forall sKey,
      crystalsKyber_decryptMessage smallParameters 8 [] sKey
      = Throw TypeError) /\
  (exists keys rand1 cts rand2,
      crystalsKyber_generateKeys smallParameters 8 cyclingRand
      = Ok (keys, rand1) /\
      crystalsKyber_encryptMessage smallParameters 8 [] (pKey keys) rand1
      = Ok (cts, rand2) /\
      cts <> []).
Proof.
  destruct (decryptMessage_reads_an_existing_block smallParameters 8
              cyclingRand [] smallParameters_valid)
    as [Hempty [_ [_ [_ Hrun]]]].
  - simpl. lia.
  - split; [exact Hempty | exact Hrun].
Defined.

(** The parameter sets of the source are valid. *)
Lemma presets_valid :
  validParameters Kyber512 /\ validParameters Kyber768 /\
  validParameters Kyber1024 /\ validParameters Customized.
Proof. repeat split; simpl; lia. Qed.

Lemma decryptMessage_pads_last_block_only_witness :
  let sKey := mkPrivateKey [[mkPolynomial [1%Q]]] in
  let u := [[mkPolynomial [0%Q]]] in
  let encryptedMsg :=
    [mkEncryptedBlock u [[mkPolynomial [0; 1664; 0; 0; 0; 0; 0; 1664]%Q]];
     mkEncryptedBlock u [[mkPolynomial [1664; 0; 0; 0; 0; 0; 0; 0]%Q]]] in
  let init := [mkPolynomial [0; 1; 0; 0; 0; 0; 0; 1]%Q] in
  let lastBlock := mkPolynomial [1; 0; 0; 0; 0; 0; 0; 0]%Q in
  Forall2
    (fun eb p => crystalsKyber_decrypt smallParameters 8 eb sKey = Ok p)
    encryptedMsg (init ++ [lastBlock]) /\
  crystalsKyber_decryptMessage smallParameters 8 encryptedMsg sKey
  = Ok (polynomialBlocksToText
          (if allZeroes (coefficients lastBlock)
           then unpadLast init
           else init ++ [removePaddingFromPolynomialBlocks lastBlock])
          (param_n smallParameters)) /\
  crystalsKyber_decryptMessage smallParameters 8 encryptedMsg sKey
  = Ok [65%Z].
Proof.
  intros sKey u encryptedMsg init lastBlock.
  assert (H : Forall2
                (fun eb p =>
                   crystalsKyber_decrypt smallParameters 8 eb sKey = Ok p)
                encryptedMsg (init ++ [lastBlock])).
  { repeat constructor. }
  split; [exact H|].
  destruct (decryptMessage_pads_last_block_only smallParameters 8
              encryptedMsg sKey init lastBlock H) as [E _].
  split; [exact E | reflexivity].
Defined.

Lemma message_scaled_by_half_q_witness :
  let msg := mkPolynomial [0; 1; 0; 0; 0; 0; 0; 1]%Q in
  let pKey :=
    mkPublicKey [[mkPolynomial [5%Q]]] [[mkPolynomial [7%Q]]] in
  exists (eb : EncryptedBlock) (rand' : Rand),
    crystalsKyber_encrypt smallParameters 8 msg pKey cyclingRand
    = Ok (eb, rand') /\
    (exists ttre2 : PolynomialMatrix,
        addMatrices 8 ttre2 [[scaleMessage smallParameters msg]]
          (inject_Z (param_q smallParameters))
          (modulusPolynomial smallParameters) = Ok (eb_v eb)) /\
    coefficients (scaleMessage smallParameters msg)
    = [0 # 2; 3329 # 2; 0 # 2; 0 # 2; 0 # 2; 0 # 2; 0 # 2; 3329 # 2]%Q.
Proof.
  intros msg pKey.
  destruct (crystalsKyber_encrypt smallParameters 8 msg pKey cyclingRand)
    as [[eb rand'] | e |] eqn:E;
    [| vm_compute in E; discriminate E | vm_compute in E; discriminate E].
  exists eb, rand'. split; [reflexivity|].
  destruct (message_scaled_by_half_q smallParameters 8 msg pKey cyclingRand
              rand' eb E) as [Hv _].
  split; [exact Hv | reflexivity].
Defined.

(** ** The centred remainder as a canonical form *)

(** The centred remainder of an integer for an odd positive modulus depends
    on the residue class only, and centring a second time changes nothing:
    two integers have the same centred remainder exactly when they are
    congruent.  The second centring changes nothing for an even modulus
    either. *)
Theorem symmetricValueModuloQ_canonical (x y m : Z) :
  (0 < m)%Z ->
  symmetricValueModuloQ
    (symmetricValueModuloQ (inject_Z x) (inject_Z m)) (inject_Z m)
  = symmetricValueModuloQ (inject_Z x) (inject_Z m) /\
  (Z.odd m = true ->
   (symmetricValueModuloQ (inject_Z x) (inject_Z m)
    = symmetricValueModuloQ (inject_Z y) (inject_Z m)
    <-> congruent m x y)).
Proof.
  intros Hm. rewrite !symmetricValueModuloQ_inject_Z by exact Hm.
  split.
  - f_equal. apply centerZ_fixed; [exact Hm | apply centerZ_range; exact Hm].
  - intros Hodd. split.
    + intros E. assert (E' : centerZ x m = centerZ y m).
      { unfold inject_Z in E. injection E as E. exact E. }
      destruct (centerZ_congruent x m Hm) as [j Hj].
      destruct (centerZ_congruent y m Hm) as [j' Hj'].
      exists (j' - j)%Z. lia.
    + intros [j Hj]. f_equal.
      apply centerZ_unique; [exact Hm | exact Hodd | | apply centerZ_range; exact Hm].
      destruct (centerZ_congruent y m Hm) as [j' Hj'].
      exists (j - j')%Z. lia.
Qed.

Lemma symmetricValueModuloQ_canonical_witness :
  symmetricValueModuloQ
    (symmetricValueModuloQ (inject_Z 5000) (inject_Z 3329)) (inject_Z 3329)
  = symmetricValueModuloQ (inject_Z 5000) (inject_Z 3329) /\
  (Z.odd 3329 = true ->
   (symmetricValueModuloQ (inject_Z 5000) (inject_Z 3329)
    = symmetricValueModuloQ (inject_Z (-1658)) (inject_Z 3329)
    <-> congruent 3329 5000 (-1658))).
Proof. apply (symmetricValueModuloQ_canonical 5000 (-1658) 3329). lia. Defined.

(** ** The centred remainder and the rounding on numbers that are not integers *)

Lemma Qltb_true (a b : Q) : Qltb a b = true <-> (a < b)%Q.
Proof.
  unfold Qltb. rewrite Qlt_alt. destruct (a ?= b)%Q; split; congruence.
Qed.

Lemma Qltb_false (a b : Q) : Qltb a b = false <-> (b <= a)%Q.
Proof.
  split.
  - intros E. apply Qnot_lt_le. intros Hlt. apply Qltb_true in Hlt. congruence.
  - intros Hle. destruct (Qltb a b) eqn:E; [|reflexivity].
    apply Qltb_true in E. exfalso. revert E. apply Qle_not_lt. exact Hle.
Qed.

Lemma Qltb_comp (a a' b b' : Q) :
  (a == a')%Q -> (b == b')%Q -> Qltb a b = Qltb a' b'.
Proof.
  intros Ea Eb. unfold Qltb. rewrite (Qcompare_comp a a' Ea b b' Eb). reflexivity.
Qed.

(** The remainder of a fraction by a positive integer, on the numerator. *)
Lemma jsRem_rational (a : Z) (b : positive) (m : Z) :
  (0 < m)%Z ->
  (jsRem (a # b) (inject_Z m) == Z.rem a (Z.pos b * m) # b)%Q.
Proof.
  intros Hm. destruct m as [|p|p]; try lia.
  unfold jsRem, Qtrunc.
  cbn [Qdiv Qinv Qmult Qnum Qden inject_Z].
  rewrite Z.mul_1_r.
  change (Z.pos (b * p)) with (Z.pos b * Z.pos p)%Z.
  pose proof (Z.quot_rem' a (Z.pos b * Z.pos p)) as E.
  set (qt := Z.quot a (Z.pos b * Z.pos p)) in *.
  set (rm := Z.rem a (Z.pos b * Z.pos p)) in *.
  clearbody qt rm.
  unfold Qeq, Qminus, Qplus, Qopp, Qmult, inject_Z. cbn [Qnum Qden].
  rewrite !Pos2Z.inj_mul. subst a. ring.
Qed.

(** The centred remainder of any number for a positive integer modulus:
    congruent to the number, strictly between -(floor(m/2) + 1) and
    floor(m/2) + 1. *)
Lemma symmetricValueModuloQ_rational (x : Q) (m : Z) :
  (0 < m)%Z ->
  exists k : Z,
    (symmetricValueModuloQ x (inject_Z m) == x + inject_Z (k * m))%Q /\
    (- inject_Z (m / 2) - 1 < symmetricValueModuloQ x (inject_Z m))%Q /\
    (symmetricValueModuloQ x (inject_Z m) < inject_Z (m / 2) + 1)%Q.
Proof.
  intros Hm. destruct x as [a b].
  pose proof (jsRem_rational a b m Hm) as Er.
  pose proof (Z.quot_rem' a (Z.pos b * m)) as Eq.
  assert (Hb : (Z.abs (Z.rem a (Z.pos b * m)) < Z.pos b * m)%Z).
  { pose proof (Z.rem_bound_abs a (Z.pos b * m)) as Hr.
    assert (Z.pos b * m <> 0)%Z by nia.
    specialize (Z.rem_bound_abs a (Z.pos b * m) H). lia. }
  set (qt := Z.quot a (Z.pos b * m)) in *.
  set (rm := Z.rem a (Z.pos b * m)) in *.
  pose proof (Z.div_mod m 2 ltac:(lia)) as Ehalf.
  pose proof (Z.mod_pos_bound m 2 ltac:(lia)) as Hhalf.
  set (h := (m / 2)%Z) in *.
  unfold symmetricValueModuloQ. rewrite Math_floor_half_inject_Z. fold h.
  set (r := jsRem (a # b) (inject_Z m)) in *.
  destruct (Qltb r 0) eqn:E0.
  - apply Qltb_true in E0. rewrite Er in E0.
    destruct (Qltb r (- inject_Z h)) eqn:E1.
    + apply Qltb_true in E1. rewrite Er in E1.
      exists (1 - qt)%Z. rewrite Er.
      unfold Qeq, Qlt, Qminus, Qplus, Qopp, Qmult, inject_Z in *.
      cbn [Qnum Qden] in *. repeat split; nia.
    + apply Qltb_false in E1. rewrite Er in E1.
      exists (- qt)%Z. rewrite Er.
      unfold Qeq, Qlt, Qle, Qminus, Qplus, Qopp, Qmult, inject_Z in *.
      cbn [Qnum Qden] in *. repeat split; nia.
  - apply Qltb_false in E0. rewrite Er in E0.
    destruct (Qltb (inject_Z h) r) eqn:E1.
    + apply Qltb_true in E1. rewrite Er in E1.
      exists (- 1 - qt)%Z. rewrite Er.
      unfold Qeq, Qlt, Qle, Qminus, Qplus, Qopp, Qmult, inject_Z in *.
      cbn [Qnum Qden] in *. repeat split; nia.
    + apply Qltb_false in E1. rewrite Er in E1.
      exists (- qt)%Z. rewrite Er.
      unfold Qeq, Qlt, Qle, Qminus, Qplus, Qopp, Qmult, inject_Z in *.
      cbn [Qnum Qden] in *. repeat split; nia.
Qed.

Lemma Math_floor_quarter (q : Z) :
  Math_floor (inject_Z q / 2 / 2) = inject_Z (q / 4).
Proof.
  unfold Math_floor, Qfloor. cbn. rewrite !Z.mul_1_r. reflexivity.
Qed.

Lemma reduceToBinary_comp (v v' minValue maxValue : Q) :
  (v == v')%Q ->
  reduceToBinary v minValue maxValue = reduceToBinary v' minValue maxValue.
Proof.
  intros E. unfold reduceToBinary.
  rewrite (Qltb_comp _ (Math_floor (maxValue / 2)) (Qabs v) (Qabs v')
             (Qeq_refl _) (Qabs_wd _ _ E)).
  reflexivity.
Qed.

(** A number congruent modulo an odd positive q to a bit times q/2 plus an
    integer of magnitude at most floor(q/4) is centred and then decoded to
    the bit. *)
Lemma rounding_recovers_bit (q e j : Z) (bit : bool) (x : Q) :
  (0 < q)%Z -> Z.odd q = true ->
  (Z.abs e <= q / 4)%Z ->
  (x == bitValue bit * (inject_Z q / 2) + inject_Z e + inject_Z (j * q))%Q ->
  reduceToBinary (symmetricValueModuloQ x (inject_Z q)) 0 (inject_Z q / 2)
  = bitValue bit.
Proof.
  intros Hq Hodd He Hx.
  pose proof (half_odd q Hodd) as Ehalf.
  pose proof (Z.div_mod q 4 ltac:(lia)) as Equarter.
  pose proof (Z.mod_pos_bound q 4 ltac:(lia)) as Hquarter.
  assert (Hodd4 : (q mod 4 <> 0)%Z).
  { intros E0. rewrite E0 in Equarter. lia. }
  destruct (symmetricValueModuloQ_rational x q Hq) as [k [Hk [Hlo Hhi]]].
  set (w := ((if bit then q else 0) + 2 * e + 2 * (j + k) * q)%Z).
  assert (Ew : (symmetricValueModuloQ x (inject_Z q) == w # 2)%Q).
  { rewrite Hk, Hx. unfold w. destruct bit; cbn [bitValue];
      unfold Qeq, Qplus, Qmult, Qdiv, Qinv, inject_Z;
      cbn -[Z.mul Z.add]; ring. }
  rewrite Ew in Hlo, Hhi.
  rewrite (reduceToBinary_comp _ (w # 2) _ _ Ew).
  unfold reduceToBinary. rewrite Math_floor_quarter.
  change (Qabs (w # 2)) with (Z.abs w # 2)%Q.
  assert (Hw : (- q - 1 < w < q + 1)%Z).
  { unfold Qlt, Qminus, Qplus, Qopp, inject_Z in Hlo, Hhi.
    cbn [Qnum Qden] in Hlo, Hhi. lia. }
  destruct bit; cbn [bitValue]; unfold w in *.
  - assert (HK : (j + k = 0 \/ j + k = -1)%Z) by nia.
    replace (Qltb (inject_Z (q / 4)) (Z.abs (q + 2 * e + 2 * (j + k) * q) # 2))
      with true; [reflexivity|].
    symmetry. apply Qltb_true. unfold Qlt, inject_Z. cbn [Qnum Qden].
    destruct HK as [HK | HK]; rewrite HK; lia.
  - assert (HK : (j + k = 0)%Z) by nia.
    replace (Qltb (inject_Z (q / 4)) (Z.abs (0 + 2 * e + 2 * (j + k) * q) # 2))
      with false; [reflexivity|].
    symmetry. apply Qltb_false. unfold Qle, inject_Z. cbn [Qnum Qden].
    rewrite HK. lia.
Qed.

(** The rounding of decryption tolerates a noise of floor(q/4): for an odd
    positive q, a number congruent modulo q to a bit times q/2 plus an
    integer noise of magnitude at most floor(q/4) is centred and then
    decoded to that bit ([x] is what the subtraction of [crystalsKyber_decrypt]
    centres, [reduceToBinary] is applied with the arguments of index.ts 484).
    The bound is the best one: from q = 3 on, a zero bit with the noise
    floor(q/4) + 1 is decoded as 1. *)
Theorem decoding_tolerates_quarter_q (q e j : Z) (bit : bool) (x : Q) :
  (0 < q)%Z -> Z.odd q = true ->
  (Z.abs e <= q / 4)%Z ->
  (x == bitValue bit * (inject_Z q / 2) + inject_Z e + inject_Z (j * q))%Q ->
  reduceToBinary (symmetricValueModuloQ x (inject_Z q)) 0 (inject_Z q / 2)
  = bitValue bit /\
  ((3 <= q)%Z ->
   reduceToBinary
     (symmetricValueModuloQ (inject_Z (q / 4 + 1)) (inject_Z q)) 0
     (inject_Z q / 2)
   = 1%Q).
Proof.
  intros Hq Hodd He Hx.
  split; [apply (rounding_recovers_bit q e j bit x); assumption|].
  pose proof (Z.div_mod q 4 ltac:(lia)) as Equarter.
  pose proof (Z.mod_pos_bound q 4 ltac:(lia)) as Hquarter.
  pose proof (Z.div_mod q 2 ltac:(lia)) as Ehalf.
  pose proof (Z.mod_pos_bound q 2 ltac:(lia)) as Hhalf.
  intros H3. rewrite symmetricValueModuloQ_inject_Z by exact Hq.
  rewrite centerZ_fixed by lia.
  unfold reduceToBinary. rewrite Math_floor_quarter.
  change (Qabs (inject_Z (q / 4 + 1))) with (inject_Z (Z.abs (q / 4 + 1))).
  rewrite Qltb_inject_Z.
  replace (q / 4 <? Z.abs (q / 4 + 1))%Z with true; [reflexivity|].
  symmetry. apply Z.ltb_lt. lia.
Qed.

Lemma decoding_tolerates_quarter_q_witness :
  reduceToBinary
    (symmetricValueModuloQ ((3329 # 2) + inject_Z (-832) + inject_Z (5 * 3329))
       (inject_Z 3329)) 0 (inject_Z 3329 / 2)
  = 1%Q /\
  reduceToBinary (symmetricValueModuloQ (inject_Z 833) (inject_Z 3329)) 0
    (inject_Z 3329 / 2)
  = 1%Q.
Proof.
  destruct (decoding_tolerates_quarter_q 3329 (-832) 5 true
              ((3329 # 2) + inject_Z (-832) + inject_Z (5 * 3329))%Q)
    as [H1 H2].
  - lia.
  - reflexivity.
  - vm_compute. discriminate.
  - vm_compute. reflexivity.
  - split; [exact H1 | apply H2; lia].
Defined.

(** ** Sampling (index.ts 272-283) *)

(** The state of the random source after [count] calls that make [d] draws
    each. *)
Lemma repeatRand_draws {X : Type} (f : Rand -> X * Rand) (d count : nat) :
  (forall rand i, snd (f rand) i = rand (d + i)) ->
  forall rand i, snd (repeatRand f count rand) i = rand (count * d + i).
Proof.
  intros Hf. induction count as [|count IH]; intros rand i.
  - reflexivity.
  - cbn [repeatRand]. pose proof (Hf rand) as H1.
    destruct (f rand) as [x rand1]. specialize (IH rand1 i).
    destruct (repeatRand f count rand1) as [xs rand2].
    cbn [snd] in *. rewrite IH, H1. f_equal. lia.
Qed.

(** A call that depends on the values of the source only gives the same
    results on two sources with the same values. *)
Lemma repeatRand_ext {X : Type} (f : Rand -> X * Rand) :
  (forall r r', (forall i, r i = r' i) ->
                fst (f r) = fst (f r') /\
                forall i, snd (f r) i = snd (f r') i) ->
  forall count r r',
    (forall i, r i = r' i) ->
    fst (repeatRand f count r) = fst (repeatRand f count r') /\
    forall i, snd (repeatRand f count r) i = snd (repeatRand f count r') i.
Proof.
  intros Hf. induction count as [|count IH]; intros r r' E.
  - split; [reflexivity | exact E].
  - cbn [repeatRand]. destruct (Hf r r' E) as [E1 E2].
    destruct (f r) as [x r1]. destruct (f r') as [x' r1'].
    cbn [fst snd] in *. destruct (IH r1 r1' E2) as [E3 E4].
    destruct (repeatRand f count r1) as [xs r2].
    destruct (repeatRand f count r1') as [xs' r2'].
    cbn [fst snd] in *. subst. split; [reflexivity | exact E4].
Qed.

(** The [t]-th result of [count] calls is the result of one call on the
    source advanced by [t * d] draws. *)
Lemma repeatRand_nth {X : Type} (f : Rand -> X * Rand) (d : nat) (dflt : X) :
  (forall r r', (forall i, r i = r' i) ->
                fst (f r) = fst (f r') /\
                forall i, snd (f r) i = snd (f r') i) ->
  (forall rand i, snd (f rand) i = rand (d + i)) ->
  forall count rand t,
    t < count ->
    nth t (fst (repeatRand f count rand)) dflt
    = fst (f (fun i => rand (t * d + i))).
Proof.
  intros Hext Hd. induction count as [|count IH]; intros rand t Ht; [lia|].
  cbn [repeatRand]. pose proof (Hd rand) as H1.
  destruct (f rand) as [x rand1] eqn:Ef.
  destruct t as [|t].
  - destruct (repeatRand f count rand1) as [xs rand2]. cbn [fst nth].
    replace x with (fst (f rand)) by (rewrite Ef; reflexivity).
    apply Hext. intros i. reflexivity.
  - specialize (IH rand1 t ltac:(lia)).
    destruct (repeatRand f count rand1) as [xs rand2]. cbn [fst snd nth] in *.
    rewrite IH. apply Hext. intros i. rewrite H1. f_equal. lia.
Qed.

Lemma randomCoefficient_ext (moduloQ : Q) (r r' : Rand) :
  (forall i, r i = r' i) ->
  fst (randomCoefficient moduloQ r) = fst (randomCoefficient moduloQ r') /\
  forall i, snd (randomCoefficient moduloQ r) i
            = snd (randomCoefficient moduloQ r') i.
Proof.
  intros E. unfold randomCoefficient, Math_random. cbn [fst snd].
  rewrite (E 0). split; [reflexivity | intros i; apply E].
Qed.

Lemma randomPolynomial_ext (n : nat) (moduloQ : Q) (r r' : Rand) :
  (forall i, r i = r' i) ->
  fst (randomPolynomial n moduloQ r) = fst (randomPolynomial n moduloQ r') /\
  forall i, snd (randomPolynomial n moduloQ r) i
            = snd (randomPolynomial n moduloQ r') i.
Proof.
  intros E. unfold randomPolynomial.
  destruct (repeatRand_ext (randomCoefficient moduloQ)
              (randomCoefficient_ext moduloQ) n r r' E) as [E1 E2].
  destruct (repeatRand (randomCoefficient moduloQ) n r) as [cs r1].
  destruct (repeatRand (randomCoefficient moduloQ) n r') as [cs' r1'].
  cbn [fst snd] in *. subst. split; [reflexivity | exact E2].
Qed.

Lemma randomPolynomial_draws (n : nat) (moduloQ : Q) (rand : Rand) (i : nat) :
  snd (randomPolynomial n moduloQ rand) i = rand (n + i).
Proof.
  unfold randomPolynomial.
  pose proof (repeatRand_draws (randomCoefficient moduloQ) 1 n
                ltac:(intros r j; reflexivity) rand i) as H.
  destruct (repeatRand (randomCoefficient moduloQ) n rand) as [cs r1].
  cbn [snd] in *. rewrite H. f_equal. lia.
Qed.

Lemma randomPolynomial_nth (n : nat) (moduloQ : Q) (rand : Rand) (c : nat) :
  c < n ->
  nth c (coefficients (fst (randomPolynomial n moduloQ rand))) 0%Q
  = symmetricValueModuloQ (Math_floor (roundToDouble (rand c * moduloQ)%Q))
      moduloQ.
Proof.
  intros Hc. unfold randomPolynomial.
  pose proof (repeatRand_nth (randomCoefficient moduloQ) 1 0%Q
                (randomCoefficient_ext moduloQ)
                ltac:(intros r j; reflexivity) n rand c Hc) as H.
  destruct (repeatRand (randomCoefficient moduloQ) n rand) as [cs r1].
  cbn [fst coefficients] in *. rewrite H.
  unfold randomCoefficient, Math_random. cbn [fst].
  replace (c * 1 + 0) with c by lia. reflexivity.
Qed.

Lemma randomPolynomial_sampled (n : nat) (m : Z) (rand : Rand) :
  (0 < m)%Z ->
  sampled n m (fst (randomPolynomial n (inject_Z m) rand)).
Proof.
  intros Hm. unfold randomPolynomial, sampled.
  pose proof (repeatRand_spec
                (fun c => exists z : Z,
                     c = inject_Z z /\ (- (m / 2) <= z <= m / 2)%Z)
                (randomCoefficient (inject_Z m)) n) as H.
  destruct (H ltac:(intros r; unfold randomCoefficient, Math_random, Math_floor;
                     cbn [fst];
                     rewrite symmetricValueModuloQ_inject_Z by exact Hm;
                     eexists; split; [reflexivity | apply centerZ_range; exact Hm])
              rand) as [Hl Hf].
  destruct (repeatRand (randomCoefficient (inject_Z m)) n rand) as [cs r1].
  cbn [fst coefficients] in *. split; assumption.
Qed.

Lemma randomRow_draws (cols n : nat) (moduloQ : Q) (r : Rand) (i : nat) :
  snd (repeatRand (randomPolynomial n moduloQ) cols r) i = r (cols * n + i).
Proof.
  apply repeatRand_draws. intros r0 i0. apply randomPolynomial_draws.
Qed.

Lemma randomRow_ext (cols n : nat) (moduloQ : Q) (r r' : Rand) :
  (forall i, r i = r' i) ->
  fst (repeatRand (randomPolynomial n moduloQ) cols r)
  = fst (repeatRand (randomPolynomial n moduloQ) cols r') /\
  forall i,
    snd (repeatRand (randomPolynomial n moduloQ) cols r) i
    = snd (repeatRand (randomPolynomial n moduloQ) cols r') i.
Proof.
  intros E. apply repeatRand_ext; [|exact E].
  intros r0 r0' E0. apply randomPolynomial_ext. exact E0.
Qed.

(** The random values that a call of [generateRandomMatrix] uses up. *)
Lemma generateRandomMatrix_draws (rows cols n : nat) (moduloQ : Q)
  (rand : Rand) (i : nat) :
  snd (generateRandomMatrix rows cols n moduloQ rand) i
  = rand (rows * cols * n + i).
Proof.
  unfold generateRandomMatrix.
  rewrite (repeatRand_draws _ (cols * n) rows (randomRow_draws cols n moduloQ)).
  f_equal. ring.
Qed.

Lemma generateRandomMatrix_sampled (rows cols n : nat) (m : Z) (rand : Rand) :
  (0 < m)%Z ->
  matrixOf (sampled n m) rows cols
    (fst (generateRandomMatrix rows cols n (inject_Z m) rand)).
Proof.
  intros Hm. unfold generateRandomMatrix, matrixOf.
  apply (repeatRand_spec
           (fun row => length row = cols /\ Forall (sampled n m) row)).
  intros rand1. apply (repeatRand_spec (sampled n m)).
  intros rand2. apply randomPolynomial_sampled. exact Hm.
Qed.

(** What [generateRandomMatrix] returns, for a positive integer modulus and
    whatever the random source gives: a matrix of [rows] rows of [cols]
    polynomials with exactly [n] coefficients, each an integer of the centred
    range from -floor(m/2) to floor(m/2) (from -eta to eta for the modulus
    2*eta+1); the draws are used row by row, entry by entry, one for each
    coefficient in the order of the degrees, the coefficient being the
    centred floor of the product, rounded as a product of doubles is, of its
    draw and the modulus; and rows*cols*n values of the source are used
    up. *)
Theorem generateRandomMatrix_samples (rows cols n : nat) (m : Z)
  (rand : Rand) :
  (0 < m)%Z ->
  let M := fst (generateRandomMatrix rows cols n (inject_Z m) rand) in
  let rand' := snd (generateRandomMatrix rows cols n (inject_Z m) rand) in
  matrixOf (sampled n m) rows cols M /\
  (forall i j c,
      i < rows -> j < cols -> c < n ->
      nth c (coefficients (nth j (nth i M []) (mkPolynomial []))) 0%Q
      = symmetricValueModuloQ
          (Math_floor
             (roundToDouble
                (rand ((i * cols + j) * n + c)%nat * inject_Z m)%Q))
          (inject_Z m)) /\
  (forall i, rand' i = rand (rows * cols * n + i)).
Proof.
  intros Hm M rand'.
  split; [apply generateRandomMatrix_sampled; exact Hm|].
  split; [|apply generateRandomMatrix_draws].
  unfold M, generateRandomMatrix.
  intros i j c Hi Hj Hc.
  unfold PolynomialMatrix.
  rewrite (repeatRand_nth _ (cols * n) []
             (randomRow_ext cols n (inject_Z m))
             (randomRow_draws cols n (inject_Z m)) rows rand i Hi).
  rewrite (repeatRand_nth _ n (mkPolynomial [])
             (randomPolynomial_ext n (inject_Z m))
             (randomPolynomial_draws n (inject_Z m)) cols _ j Hj).
  rewrite randomPolynomial_nth by exact Hc.
  cbv beta.
  replace (i * (cols * n) + (j * n + c)) with ((i * cols + j) * n + c)
    by ring.
  reflexivity.
Qed.

Lemma generateRandomMatrix_samples_witness :
  let M := fst (generateRandomMatrix 2 1 2 (inject_Z 5) cyclingRand) in
  let nearInteger : Rand := fun _ => (2807140050103268 # 4503599627370496)%Q in
  matrixOf (sampled 2 5) 2 1 M /\
  M = [[mkPolynomial [0; 0]%Q]; [mkPolynomial [1; 2]%Q]] /\
  snd (generateRandomMatrix 2 1 2 (inject_Z 5) cyclingRand) 0
  = cyclingRand 4 /\
  nth 0
    (coefficients
       (nth 0
          (nth 0 (fst (generateRandomMatrix 1 1 1 (inject_Z 3329) nearInteger))
             [])
          (mkPolynomial [])))
    0%Q
  = (-1254)%Q.
Proof.
  intros M nearInteger.
  destruct (generateRandomMatrix_samples 2 1 2 5 cyclingRand) as [H1 [_ H3]];
    [lia|].
  destruct (generateRandomMatrix_samples 1 1 1 3329 nearInteger)
    as [_ [H2 _]]; [lia|].
  split; [exact H1|]. split; [reflexivity|]. split; [exact (H3 0)|].
  rewrite (H2 0 0 0) by lia. vm_compute. reflexivity.
Defined.

(** ** Transposition (index.ts 384-396) *)

Lemma map_nth_seq {X : Type} (l : list X) (d : X) :
  map (fun i => nth i l d) (seq 0 (length l)) = l.
Proof.
  apply (nth_ext _ _ d d).
  - rewrite length_map, length_seq. reflexivity.
  - intros i Hi. rewrite length_map, length_seq in Hi.
    rewrite (nth_indep _ d (nth 0 l d))
      by (rewrite length_map, length_seq; exact Hi).
    rewrite (map_nth (fun i => nth i l d) (seq 0 (length l)) 0 i).
    rewrite seq_nth by exact Hi. reflexivity.
Qed.

Lemma mapM_map {X Y : Type} (f : X -> outcome Y) (g : X -> Y) (l : list X) :
  (forall x, In x l -> f x = Ok (g x)) -> mapM f l = Ok (map g l).
Proof.
  intros H. apply mapM_Forall2. induction l as [|x l IH]; cbn [map].
  - constructor.
  - constructor.
    + apply H. left. reflexivity.
    + apply IH. intros y Hy. apply H. right. exact Hy.
Qed.

(** The transposed matrix of a matrix whose rows all have [cols] entries. *)
Lemma transposeMatrix_rectangular (rows cols : nat) (M : PolynomialMatrix)
  (d : Polynomial) :
  length M = rows -> 0 < rows ->
  Forall (fun row => length row = cols) M ->
  transposeMatrix M
  = Ok (map (fun j => map (fun row => nth j row d) M) (seq 0 cols)).
Proof.
  intros Hl Hr HM. unfold transposeMatrix.
  destruct M as [|row0 M']; [cbn in Hl; lia|].
  cbn [nth_error defined bind].
  assert (E0 : length row0 = cols) by (inversion HM; assumption).
  rewrite E0. apply mapM_map. intros j Hj. apply in_seq in Hj.
  apply mapM_map. intros row Hrow.
  rewrite Forall_forall in HM. specialize (HM row Hrow).
  destruct (nth_error row j) as [p|] eqn:E.
  - cbn [defined]. f_equal. symmetry. apply nth_error_nth_default. exact E.
  - apply nth_error_None in E. lia.
Qed.

(** Transposition swaps the numbers of rows and columns and the two indices
    of every entry, and transposing twice gives the matrix back, for a
    matrix with at least one row and one column whose rows have the same
    length.  Without a row the call fails at the read of the first row, and
    a matrix of empty rows is transposed into the matrix without rows. *)
Theorem transposeMatrix_involutive (rows cols : nat) (M : PolynomialMatrix) :
  matrixOf (fun _ => True) rows cols M -> 0 < rows -> 0 < cols ->
  (exists T,
      transposeMatrix M = Ok T /\
      matrixOf (fun _ => True) cols rows T /\
      (forall i j d,
          i < rows -> j < cols ->
          nth i (nth j T []) d = nth j (nth i M []) d) /\
      transposeMatrix T = Ok M) /\
  transposeMatrix [] = Throw TypeError /\
  transposeMatrix (repeat [] rows) = Ok [].
Proof.
  intros [Hl HM] Hr Hc.
  assert (HM' : Forall (fun row => length row = cols) M).
  { apply (Forall_impl _ (P := fun row => length row = cols /\ Forall (fun _ => True) row));
      [intros row [H _]; exact H | exact HM]. }
  set (d0 := mkPolynomial []).
  set (T := map (fun j => map (fun row => nth j row d0) M) (seq 0 cols)).
  assert (HlT : length T = cols).
  { unfold T. rewrite length_map, length_seq. reflexivity. }
  assert (HT : Forall (fun row => length row = rows) T).
  { unfold T. apply Forall_forall. intros row Hrow.
    apply in_map_iff in Hrow. destruct Hrow as [j [E _]]. subst row.
    rewrite length_map. exact Hl. }
  assert (Hentry : forall i j d, i < rows -> j < cols ->
                     nth i (nth j T []) d = nth j (nth i M []) d).
  { intros i j d Hi Hj. unfold T.
    rewrite (nth_indep _ [] (map (fun row => nth 0 row d0) M))
      by (rewrite length_map, length_seq; exact Hj).
    rewrite (map_nth (fun j => map (fun row => nth j row d0) M) (seq 0 cols) 0 j).
    rewrite seq_nth by exact Hj. cbn [Nat.add].
    rewrite (nth_indep _ d (nth j [] d0)) by (rewrite length_map; lia).
    rewrite (map_nth (fun row => nth j row d0) M [] i).
    apply nth_indep.
    rewrite Forall_forall in HM'. rewrite (HM' (nth i M [])); [exact Hj|].
    apply nth_In. lia. }
  split; [|split].
  - exists T. split; [|split; [|split]].
    + apply (transposeMatrix_rectangular rows cols M d0 Hl Hr HM').
    + split; [exact HlT|]. apply Forall_forall. intros row Hrow.
      rewrite Forall_forall in HT. split; [apply HT; exact Hrow|].
      apply Forall_forall. intros; exact I.
    + exact Hentry.
    + rewrite (transposeMatrix_rectangular cols rows T d0 HlT Hc HT).
      apply (f_equal Ok).
      transitivity (map (fun i => nth i M []) (seq 0 rows));
        [|rewrite <- Hl; apply map_nth_seq].
      apply map_ext_in. intros i Hi. apply in_seq in Hi.
      assert (Eli : length (nth i M []) = cols).
      { rewrite Forall_forall in HM'. apply HM'. apply nth_In. lia. }
      transitivity (map (fun j => nth j (nth i M []) d0) (seq 0 cols));
        [|rewrite <- Eli; apply map_nth_seq].
      unfold T at 1. rewrite map_map.
      apply map_ext_in. intros j Hj. apply in_seq in Hj.
      rewrite <- (Hentry i j d0) by lia. unfold T.
      rewrite (nth_indep (map _ (seq 0 cols)) [] (map (fun row => nth 0 row d0) M))
        by (rewrite length_map, length_seq; lia).
      rewrite (map_nth (fun j => map (fun row => nth j row d0) M) (seq 0 cols) 0 j).
      rewrite seq_nth by lia. reflexivity.
  - reflexivity.
  - unfold transposeMatrix. destruct rows as [|rows']; [lia|]. reflexivity.
Qed.

Lemma transposeMatrix_involutive_witness :
  let a := mkPolynomial [1%Q] in
  let b := mkPolynomial [2%Q] in
  let c := mkPolynomial [3%Q] in
  transposeMatrix [[a; b; c]] = Ok [[a]; [b]; [c]] /\
  transposeMatrix [[a]; [b]; [c]] = Ok [[a; b; c]].
Proof.
  intros a b c.
  destruct (transposeMatrix_involutive 1 3 [[a; b; c]]) as [[T [H1 [_ [_ H2]]]] _].
  - split; [reflexivity|]. repeat constructor.
  - lia.
  - lia.
  - assert (E : T = [[a]; [b]; [c]]).
    { assert (E0 : Ok T = Ok [[a]; [b]; [c]]) by (rewrite <- H1; reflexivity).
      injection E0 as E0. exact E0. }
    rewrite E in H2. split; [reflexivity | exact H2].
Defined.

(** ** What the matrix operations return (index.ts 293-377) *)

Lemma dividePolynomials_result_short (fuel : nat) (p mp r : Polynomial)
  (moduloQ : Q) :
  dividePolynomials fuel p mp moduloQ = Ok r ->
  length (coefficients r) < length (coefficients mp).
Proof.
  unfold dividePolynomials. intros H.
  apply bind_Ok_inv in H. destruct H as [cs [H1 H2]].
  injection H2 as H2. subst r. cbn [coefficients].
  eapply dividePolynomials_loop_result_short. exact H1.
Qed.

Lemma mapiM_from_length {X Y : Type} (f : nat -> X -> outcome Y)
  (l : list X) (ys : list Y) (i : nat) :
  mapiM_from f i l = Ok ys -> length ys = length l.
Proof.
  intros H. apply mapiM_from_Ok_Forall2 in H. symmetry.
  eapply Forall2_length. exact H.
Qed.

(** Whenever a sum or a difference of matrices is returned, the operands
    have the same number of rows, at least one, the result has the rows of
    the first operand, entry for entry, and every entry of the result has
    fewer coefficients than the modulus polynomial. *)
Theorem sum_result_shape (fuel : nat) (A B C : PolynomialMatrix)
  (moduloQ : Q) (mp : Polynomial) :
  addMatrices fuel A B moduloQ mp = Ok C \/
  subtractMatrices fuel A B moduloQ mp = Ok C ->
  A <> [] /\ length B = length A /\ length (hd [] B) = length (hd [] A) /\
  Forall2 (fun rowA rowC => length rowC = length rowA) A C /\
  Forall
    (Forall (fun p => length (coefficients p) < length (coefficients mp))) C.
Proof.
  assert (Hgen : forall op,
             combineMatrices op fuel A B moduloQ mp = Ok C ->
             A <> [] /\ length B = length A /\
             length (hd [] B) = length (hd [] A) /\
             Forall2 (fun rowA rowC => length rowC = length rowA) A C /\
             Forall
               (Forall (fun p => length (coefficients p)
                                 < length (coefficients mp))) C).
  { intros op H. unfold combineMatrices in H.
    destruct (Nat.eqb_spec (length A) (length B)) as [El | El];
      [|discriminate H]. cbn [negb] in H.
    destruct A as [|ra A']; [discriminate H|].
    destruct B as [|rb B']; [discriminate El|].
    cbn [nth_error defined bind] in H.
    destruct (Nat.eqb_spec (length ra) (length rb)) as [Ec | Ec];
      [|discriminate H]. cbn [negb] in H.
    split; [discriminate|]. split; [symmetry; exact El|].
    split; [symmetry; exact Ec|].
    unfold mapiM in H. apply mapiM_from_Ok_Forall2 in H.
    split.
    - eapply Forall2_impl; [|exact H].
      intros rowA rowC [i Hi]. cbv beta in Hi.
      eapply mapiM_from_length. exact Hi.
    - clear El Ec. remember (ra :: A') as A0 eqn:EA. clear EA.
      induction H as [|rowA rowC A1 C1 [i Hi] _ IH]; constructor.
      + cbv beta in Hi. unfold mapiM in Hi.
        apply mapiM_from_Ok_Forall2 in Hi.
        clear IH. induction Hi as [|pa pc ra1 rc1 [j Hj] _ IH2]; constructor.
        * cbv beta in Hj. apply bind_Ok_inv in Hj.
          destruct Hj as [pb [_ Hj]].
          eapply dividePolynomials_result_short. exact Hj.
        * exact IH2.
      + exact IH. }
  intros [H | H]; eapply Hgen; exact H.
Qed.

Lemma sum_result_shape_witness :
  let a := mkPolynomial [1; 2]%Q in
  let b := mkPolynomial [3%Q] in
  addMatrices 0 [[a; b]] [[b; a]] 3329 (modulusPolynomial smallParameters)
  = Ok [[mkPolynomial [4; 2]%Q; mkPolynomial [4; 2]%Q]] /\
  Forall2 (fun rowA rowC => length rowC = length rowA) [[a; b]]
    [[mkPolynomial [4; 2]%Q; mkPolynomial [4; 2]%Q]].
Proof.
  intros a b.
  assert (E : addMatrices 0 [[a; b]] [[b; a]] 3329
                (modulusPolynomial smallParameters)
              = Ok [[mkPolynomial [4; 2]%Q; mkPolynomial [4; 2]%Q]])
    by reflexivity.
  split; [exact E|].
  apply (sum_result_shape 0 [[a; b]] [[b; a]] _ 3329
           (modulusPolynomial smallParameters) (or_introl E)).
Defined.

(** Whenever a product of matrices is returned, the first operand has a
    row, its first row has as many entries as the second operand has rows,
    at least one, the result has as many rows as the first operand and each
    of them as many entries as the first row of the second operand, and
    every entry of the result has fewer coefficients than the modulus
    polynomial. *)
Theorem product_result_shape (fuel : nat) (A B C : PolynomialMatrix)
  (moduloQ : Q) (mp : Polynomial) :
  multiplyMatrices fuel A B moduloQ mp = Ok C ->
  A <> [] /\ B <> [] /\ length (hd [] A) = length B /\
  length C = length A /\
  Forall (fun rowC => length rowC = length (hd [] B)) C /\
  Forall
    (Forall (fun p => length (coefficients p) < length (coefficients mp))) C.
Proof.
  intros H. unfold multiplyMatrices in H.
  destruct A as [|ra A']; [discriminate H|].
  cbn [nth_error defined bind] in H.
  destruct (Nat.eqb_spec (length ra) (length B)) as [Ei | Ei];
    [|discriminate H]. cbn [negb] in H.
  destruct B as [|rb B']; [discriminate H|].
  cbn [nth_error defined bind] in H.
  split; [discriminate|]. split; [discriminate|]. split; [exact Ei|].
  unfold mapiM in H. pose proof (mapiM_from_length _ _ _ _ H) as HlC.
  split; [exact HlC|].
  apply mapiM_from_Ok_Forall2 in H.
  remember (ra :: A') as A0 eqn:EA. clear EA HlC Ei.
  cbn [hd].
  assert (Hrows : Forall
            (fun rowC =>
               length rowC = length rb /\
               Forall (fun p => length (coefficients p)
                                < length (coefficients mp)) rowC) C).
  { induction H as [|rowA rowC A1 C1 [i Hi] _ IH]; constructor.
    - cbv beta in Hi. split.
      + rewrite (mapM_length _ _ _ Hi). apply length_seq.
      + apply mapM_Ok_Forall2 in Hi. clear IH.
        induction Hi as [|j pc js rc1 Hj _ IH2]; constructor.
        * cbv beta in Hj. apply bind_Ok_inv in Hj.
          destruct Hj as [summed [_ Hj]].
          eapply dividePolynomials_result_short. exact Hj.
        * exact IH2.
    - exact IH. }
  split; eapply Forall_impl; try exact Hrows; intros row [H1 H2]; assumption.
Qed.

Lemma product_result_shape_witness :
  let a := mkPolynomial [1; 2]%Q in
  let b := mkPolynomial [3%Q] in
  multiplyMatrices 0 [[a; b]] [[b]; [a]] 3329
    (modulusPolynomial smallParameters)
  = Ok [[mkPolynomial [6; 12]%Q]] /\
  length [[mkPolynomial [6; 12]%Q]] = length [[a; b]].
Proof.
  intros a b.
  assert (E : multiplyMatrices 0 [[a; b]] [[b]; [a]] 3329
                (modulusPolynomial smallParameters)
              = Ok [[mkPolynomial [6; 12]%Q]]) by reflexivity.
  split; [exact E|].
  apply (product_result_shape 0 [[a; b]] [[b]; [a]] _ 3329
           (modulusPolynomial smallParameters) E).
Defined.

(** ** Addition is commutative *)

Lemma Qplus_comm_eq (x y : Q) : (x + y)%Q = (y + x)%Q.
Proof.
  destruct x as [a b], y as [c d]. unfold Qplus. cbn [Qnum Qden].
  f_equal; [apply Z.add_comm | apply Pos.mul_comm].
Qed.

Lemma combineCoefficients_Qplus_comm (a b : list Q) (moduloQ : Q) :
  combineCoefficients Qplus a b moduloQ = combineCoefficients Qplus b a moduloQ.
Proof.
  unfold combineCoefficients. rewrite (Nat.max_comm (length a) (length b)).
  apply map_ext. intros k. rewrite Qplus_comm_eq. reflexivity.
Qed.

Lemma mapiM_from_congr {X X' Y : Type} (f : nat -> X -> outcome Y)
  (g : nat -> X' -> outcome Y) (l : list X) :
  forall (l' : list X') (off : nat),
    length l = length l' ->
    (forall k x x',
        nth_error l k = Some x -> nth_error l' k = Some x' ->
        f (off + k) x = g (off + k) x') ->
    mapiM_from f off l = mapiM_from g off l'.
Proof.
  induction l as [|x l IH]; intros l' off Hl H.
  - destruct l'; [reflexivity | discriminate Hl].
  - destruct l' as [|x' l']; [discriminate Hl|].
    cbn [mapiM_from].
    pose proof (H 0 x x' eq_refl eq_refl) as H0.
    rewrite Nat.add_0_r in H0. rewrite H0.
    rewrite (IH l' (S off)); [reflexivity | cbn in Hl; lia |].
    intros k y y' Hy Hy'. replace (S off + k) with (off + S k) by lia.
    apply H; assumption.
Qed.

(** The sum of two matrices does not depend on the order of the operands,
    error and all, when their rows have the same lengths pairwise (as they
    have for two matrices of the same dimensions). *)
Theorem addMatrices_commutative (fuel : nat) (A B : PolynomialMatrix)
  (moduloQ : Q) (mp : Polynomial) :
  Forall2 (fun rowA rowB => length rowA = length rowB) A B ->
  addMatrices fuel A B moduloQ mp = addMatrices fuel B A moduloQ mp.
Proof.
  intros H. unfold addMatrices, combineMatrices.
  pose proof (Forall2_length H) as Hl.
  rewrite (Nat.eqb_sym (length B) (length A)).
  destruct (Nat.eqb_spec (length A) (length B)) as [_ | Hne];
    [|contradiction]. cbn [negb].
  destruct H as [|ra rb A' B' Hr H']; [reflexivity|].
  cbn [nth_error defined bind].
  rewrite (Nat.eqb_sym (length rb) (length ra)).
  destruct (Nat.eqb_spec (length ra) (length rb)) as [_ | Hne];
    [|contradiction]. cbn [negb].
  unfold mapiM. apply mapiM_from_congr; [exact Hl|].
  intros i rowA rowB HrowA HrowB. cbn [Nat.add].
  assert (Hrows : length rowA = length rowB).
  { assert (HF : Forall2 (fun rowA rowB => length rowA = length rowB)
                   (ra :: A') (rb :: B')) by (constructor; assumption).
    clear - HF HrowA HrowB. revert i HrowA HrowB.
    induction HF as [|x y l l' Hxy _ IH]; intros i HA HB.
    - destruct i; discriminate HA.
    - destruct i as [|i].
      + cbn in HA, HB. injection HA as HA. injection HB as HB. subst.
        exact Hxy.
      + cbn in HA, HB. eapply IH; eassumption. }
  apply mapiM_from_congr; [exact Hrows|].
  intros j pa pb Hpa Hpb. cbn [Nat.add].
  rewrite (nth_error_nth_default _ i rowB [] HrowB).
  rewrite (nth_error_nth_default _ i rowA [] HrowA).
  rewrite Hpa, Hpb. cbn [defined bind].
  rewrite combineCoefficients_Qplus_comm. reflexivity.
Qed.

Lemma addMatrices_commutative_witness :
  let a := mkPolynomial [1; 2]%Q in
  let b := mkPolynomial [3%Q] in
  Forall2 (fun rowA rowB => length rowA = length rowB) [[a]; [b]] [[b]; [a]] /\
  addMatrices 0 [[a]; [b]] [[b]; [a]] 3329 (modulusPolynomial smallParameters)
  = addMatrices 0 [[b]; [a]] [[a]; [b]] 3329
      (modulusPolynomial smallParameters).
Proof.
  intros a b.
  assert (H : Forall2 (fun rowA rowB : list Polynomial =>
                         length rowA = length rowB)
                [[a]; [b]] [[b]; [a]]).
  { constructor; [reflexivity|]. constructor; [reflexivity | constructor]. }
  split; [exact H|].
  apply (addMatrices_commutative 0 _ _ 3329 (modulusPolynomial smallParameters) H).
Defined.

(** ** The schoolbook product (index.ts 355-361) *)

Lemma arraySet_map {X Y : Type} (f : X -> Y) (i : nat) (x : X) (l : list X) :
  arraySet i (f x) (map f l) = map f (arraySet i x l).
Proof.
  revert i. induction l as [|y l IH]; intros i;
    destruct i as [|i]; cbn [arraySet map]; try reflexivity.
  rewrite IH. reflexivity.
Qed.

Lemma nth_map_inject_Z (l : list Z) (k : nat) :
  nth k (map inject_Z l) 0%Q = inject_Z (nth k l 0%Z).
Proof. apply (map_nth inject_Z l 0%Z k). Qed.

Lemma nth_arraySet {X : Type} (i j : nat) (x d : X) (l : list X) :
  nth j (arraySet i x l) d
  = if (i =? j) && (j <? length l) then x else nth j l d.
Proof.
  destruct (Nat.eqb_spec i j) as [E | E].
  - subst j. destruct (Nat.ltb_spec i (length l)) as [H | H]; cbn [andb].
    + apply nth_arraySet_eq. exact H.
    + rewrite !nth_overflow; [reflexivity | lia |].
      rewrite length_arraySet. lia.
  - cbn [andb]. apply nth_arraySet_neq. exact E.
Qed.

(** The loop over the coefficients of [b] for one coefficient of [a], of
    degree [s]: the product with the coefficient of degree [k - s] of [b] is
    added at every degree [k] reached. *)
Lemma product_row (cA : Z) (s : nat) (b : list Z) :
  forall (t : nat) (pz : list Z),
    s + t + length b <= length pz ->
    exists pz',
      foldi_from
        (fun pc coeffB indexB =>
           arraySet (s + indexB)
             (nth (s + indexB) pc 0 + inject_Z cA * coeffB)%Q pc)
        t (map inject_Z b) (map inject_Z pz)
      = map inject_Z pz' /\
      length pz' = length pz /\
      forall k,
        nth k pz' 0%Z
        = (nth k pz 0
           + if ((s + t <=? k) && (k <? s + t + length b))%nat
             then cA * nth (k - (s + t)) b 0 else 0)%Z.
Proof.
  induction b as [|cB b IH]; intros t pz Hlen.
  - exists pz. split; [reflexivity|]. split; [reflexivity|].
    intros k. cbn [length].
    replace ((s + t <=? k) && (k <? s + t + 0)) with false; [lia|].
    symmetry. apply andb_false_iff.
    destruct (Nat.leb_spec (s + t) k); [right | left; reflexivity].
    apply Nat.ltb_ge. lia.
  - cbn [map foldi_from length] in *.
    rewrite nth_map_inject_Z, inject_Z_mult, inject_Z_plus, arraySet_map.
    destruct (IH (S t)
                (arraySet (s + t) (nth (s + t) pz 0 + cA * cB)%Z pz))
      as [pz' [E [Hl Hk]]].
    { rewrite length_arraySet. lia. }
    exists pz'. split; [exact E|].
    rewrite length_arraySet in Hl. split; [exact Hl|].
    intros k. rewrite Hk, nth_arraySet.
    destruct (Nat.eqb_spec (s + t) k) as [Ek | Ek].
    + subst k.
      replace (s + t <? length pz) with true
        by (symmetry; apply Nat.ltb_lt; lia).
      replace (s + S t <=? s + t) with false
        by (symmetry; apply Nat.leb_gt; lia).
      rewrite Nat.leb_refl.
      replace (s + t <? s + t + S (length b)) with true
        by (symmetry; apply Nat.ltb_lt; lia).
      cbn [andb]. rewrite Nat.sub_diag. cbn [nth]. lia.
    + cbn [andb].
      destruct (Nat.leb_spec (s + S t) k) as [H1 | H1];
        destruct (Nat.leb_spec (s + t) k) as [H2 | H2]; try lia;
        cbn [andb].
      * replace (k <? s + t + S (length b)) with (k <? s + S t + length b)
          by (f_equal; lia).
        destruct (k <? s + S t + length b); [|reflexivity].
        replace (k - (s + t)) with (S (k - (s + S t))) by lia.
        reflexivity.
      * reflexivity.
Qed.

(** The loop over the coefficients of [a], from the degree [s] on. *)
Lemma product_rows (b : list Z) (a : list Z) :
  forall (s : nat) (pz : list Z),
    s + length a + length b <= length pz + 1 ->
    exists pz',
      foldi_from
        (fun pc coeffA indexA =>
           foldi
             (fun pc coeffB indexB =>
                arraySet (indexA + indexB)
                  (nth (indexA + indexB) pc 0 + coeffA * coeffB)%Q pc)
             (map inject_Z b) pc)
        s (map inject_Z a) (map inject_Z pz)
      = map inject_Z pz' /\
      length pz' = length pz /\
      forall k,
        k < length pz ->
        nth k pz' 0%Z = (nth k pz 0 + convolutionFrom a b s k)%Z.
Proof.
  induction a as [|cA a IH]; intros s pz Hlen.
  - exists pz. split; [reflexivity|]. split; [reflexivity|].
    intros k _. cbn [convolutionFrom]. lia.
  - cbn [map foldi_from length] in *. unfold foldi at 2.
    destruct (product_row cA s b 0 pz) as [pz1 [E1 [Hl1 Hk1]]]; [lia|].
    rewrite E1.
    destruct (IH (S s) pz1) as [pz' [E [Hl Hk]]]; [lia|].
    exists pz'. split; [exact E|]. split; [lia|].
    intros k Hklt. rewrite (Hk k ltac:(lia)), Hk1. cbn [convolutionFrom].
    rewrite Nat.add_0_r.
    destruct (Nat.leb_spec s k) as [H1 | H1]; cbn [andb]; [|lia].
    destruct (Nat.ltb_spec k (s + length b)) as [H2 | H2]; [lia|].
    rewrite (nth_overflow b) by lia. lia.
Qed.

Lemma fold_right_add_zero (l : list nat) (f : nat -> Z) :
  (forall i, In i l -> f i = 0%Z) ->
  fold_right Z.add 0%Z (map f l) = 0%Z.
Proof.
  induction l as [|x l IH]; intros H; [reflexivity|].
  cbn [map fold_right]. rewrite (H x (or_introl eq_refl)), IH; [reflexivity|].
  intros i Hi. apply H. right. exact Hi.
Qed.

Lemma convolutionFrom_sum (b : list Z) (k : nat) (a : list Z) :
  forall s,
    convolutionFrom a b s k
    = fold_right Z.add 0%Z
        (map (fun i => (nth (i - s) a 0 * nth (k - i) b 0)%Z)
           (seq s (S k - s))).
Proof.
  induction a as [|x a IH]; intros s.
  - cbn [convolutionFrom]. symmetry. apply fold_right_add_zero.
    intros i _. destruct (i - s); reflexivity.
  - cbn [convolutionFrom]. rewrite IH.
    destruct (Nat.leb_spec s k) as [H | H].
    + replace (S k - s) with (S (S k - S s)) by lia.
      cbn [seq map fold_right]. rewrite Nat.sub_diag. cbn [nth].
      f_equal. f_equal. apply map_ext_in. intros i Hi. apply in_seq in Hi.
      replace (i - s) with (S (i - S s)) by lia. reflexivity.
    + replace (S k - s) with 0 by lia. replace (S k - S s) with 0 by lia.
      reflexivity.
Qed.

Lemma convolutionFrom_convolution (a b : list Z) (k : nat) :
  convolutionFrom a b 0 k = convolution a b k.
Proof.
  rewrite convolutionFrom_sum. unfold convolution. rewrite Nat.sub_0_r.
  f_equal. apply map_ext. intros i. rewrite Nat.sub_0_r. reflexivity.
Qed.

(** The product array as an array of integers. *)
Lemma productCoefficients_rows (a b : list Z) :
  exists pz,
    productCoefficients (map inject_Z a) (map inject_Z b) = map inject_Z pz /\
    length pz = length a + length b - 1 /\
    forall k, k < length pz -> nth k pz 0%Z = convolution a b k.
Proof.
  unfold productCoefficients. unfold foldi at 1. rewrite !length_map.
  set (len := length a + length b - 1).
  replace (repeat 0%Q len) with (map inject_Z (repeat 0%Z len))
    by (rewrite map_repeat; reflexivity).
  destruct a as [|cA a'] eqn:Ea.
  - cbn [map foldi_from]. exists (repeat 0%Z len).
    split; [reflexivity|]. split; [apply repeat_length|].
    intros k Hk. rewrite nth_repeat, <- convolutionFrom_convolution.
    reflexivity.
  - rewrite <- Ea in *.
    destruct (product_rows b a 0 (repeat 0%Z len)) as [pz' [E [Hl Hk]]].
    { rewrite repeat_length. unfold len. subst a. cbn [length]. lia. }
    exists pz'. rewrite repeat_length in Hl, Hk.
    split; [exact E|]. split; [exact Hl|].
    intros k Hklt. rewrite Hl in Hklt.
    rewrite (Hk k Hklt), nth_repeat, convolutionFrom_convolution. lia.
Qed.

(** ** The reduction modulo x^n + 1 (index.ts 113-133) *)

Lemma ints_as_Z (l : list Q) : Forall isInt l -> l = map inject_Z (map Qnum l).
Proof.
  induction 1 as [|x l Hx _ IH]; [reflexivity|].
  cbn [map]. rewrite <- IH, <- (isInt_inject_Z x Hx). reflexivity.
Qed.

Lemma map_inject_Z_inj (l l' : list Z) :
  map inject_Z l = map inject_Z l' -> l = l'.
Proof.
  revert l'. induction l as [|x l IH]; intros [|y l'] E;
    try discriminate E; [reflexivity|].
  cbn [map] in E. injection E as E1 E2. subst. f_equal. apply IH. exact E2.
Qed.

Lemma last_map_inject_Z (l : list Z) :
  last (map inject_Z l) 0%Q = inject_Z (last l 0%Z).
Proof.
  rewrite !last_nth, length_map. apply nth_map_inject_Z.
Qed.

(** The coefficients after the inner loop: those at the offsets of the
    divisor have the scaled divisor subtracted and are centred. *)
Lemma nth_subtract_range (divisor : list Q) (degreeDiff : nat)
  (leadingCoeff moduloQ : Q) (j : nat) (len : nat) :
  forall (s : nat) (d : list Q),
    degreeDiff + s + len <= length d ->
    nth j
      (fold_left
         (fun d i =>
            let d1 :=
              arraySet (degreeDiff + i)
                (nth (degreeDiff + i) d 0
                 - symmetricValueModuloQ (nth i divisor 0 * leadingCoeff)
                     moduloQ)%Q d in
            arraySet (degreeDiff + i)
              (symmetricValueModuloQ (nth (degreeDiff + i) d1 0%Q) moduloQ) d1)
         (seq s len) d) 0%Q
    = if (degreeDiff + s <=? j) && (j <? degreeDiff + s + len)
      then symmetricValueModuloQ
             (nth j d 0
              - symmetricValueModuloQ
                  (nth (j - degreeDiff) divisor 0 * leadingCoeff) moduloQ)%Q
             moduloQ
      else nth j d 0%Q.
Proof.
  induction len as [|len IH]; intros s d Hlen.
  - cbn [seq fold_left].
    replace ((degreeDiff + s <=? j) && (j <? degreeDiff + s + 0)) with false;
      [reflexivity|].
    symmetry. apply andb_false_iff.
    destruct (Nat.leb_spec (degreeDiff + s) j); [right | left; reflexivity].
    apply Nat.ltb_ge. lia.
  - cbn [seq fold_left]. rewrite IH by (rewrite !length_arraySet; lia).
    cbv zeta.
    destruct (Nat.eq_dec j (degreeDiff + s)) as [E | E].
    + subst j.
      replace (degreeDiff + S s <=? degreeDiff + s) with false
        by (symmetry; apply Nat.leb_gt; lia).
      rewrite Nat.leb_refl.
      replace (degreeDiff + s <? degreeDiff + s + S len) with true
        by (symmetry; apply Nat.ltb_lt; lia).
      cbn [andb].
      rewrite nth_arraySet_eq by (rewrite length_arraySet; lia).
      rewrite nth_arraySet_eq by lia.
      replace (degreeDiff + s - degreeDiff) with s by lia. reflexivity.
    + rewrite !nth_arraySet_neq by lia.
      destruct (Nat.leb_spec (degreeDiff + S s) j) as [H1 | H1];
        destruct (Nat.leb_spec (degreeDiff + s) j) as [H2 | H2]; try lia;
        cbn [andb]; [|reflexivity].
      replace (j <? degreeDiff + s + S len)
        with (j <? degreeDiff + S s + len) by (f_equal; lia).
      reflexivity.
Qed.

Lemma nth_subtractScaledDivisor (divisor : list Q) (degreeDiff : nat)
  (leadingCoeff moduloQ : Q) (d : list Q) (j : nat) :
  degreeDiff + length divisor <= length d ->
  nth j (subtractScaledDivisor divisor degreeDiff leadingCoeff moduloQ d) 0%Q
  = if (degreeDiff <=? j) && (j <? degreeDiff + length divisor)
    then symmetricValueModuloQ
           (nth j d 0
            - symmetricValueModuloQ
                (nth (j - degreeDiff) divisor 0 * leadingCoeff) moduloQ)%Q
           moduloQ
    else nth j d 0%Q.
Proof.
  intros Hlen. unfold subtractScaledDivisor.
  rewrite nth_subtract_range by lia.
  rewrite Nat.add_0_r. reflexivity.
Qed.

Lemma nth_modulusPolynomial (P : Parameters) (i : nat) :
  nth i (coefficients (modulusPolynomial P)) 0%Q
  = if (i =? 0) || (i =? param_n P) then 1%Q else 0%Q.
Proof.
  unfold modulusPolynomial. cbn [coefficients].
  rewrite !nth_arraySet, !length_arraySet, repeat_length.
  rewrite (Nat.eqb_sym (param_n P) i), (Nat.eqb_sym 0 i).
  destruct (Nat.eqb_spec i (param_n P)) as [E | E].
  - subst i. replace (param_n P <? param_n P + 1) with true
      by (symmetry; apply Nat.ltb_lt; lia).
    cbn [andb]. rewrite orb_true_r. reflexivity.
  - cbn [andb]. rewrite orb_false_r.
    destruct (Nat.eqb_spec i 0) as [E0 | E0].
    + subst i. replace (0 <? param_n P + 1) with true
        by (symmetry; apply Nat.ltb_lt; lia).
      reflexivity.
    + cbn [andb]. apply nth_repeat.
Qed.

Lemma centerZ_twice_congruent (a b m : Z) :
  (0 < m)%Z -> congruent m a (centerZ (a - centerZ b m) m + b).
Proof.
  intros Hm.
  destruct (centerZ_congruent b m Hm) as [j Hj].
  destruct (centerZ_congruent (a - centerZ b m) m Hm) as [j' Hj'].
  exists (- j' + j)%Z. lia.
Qed.

Section Reduction.

Variable P : Parameters.
Hypothesis q_positive : (0 < param_q P)%Z.
Hypothesis n_positive : 0 < param_n P.

Let n : nat := param_n P.
Let q : Z := param_q P.
Let D : list Q := coefficients (modulusPolynomial P).

(** One turn of the loop on an array of integers: the leading coefficient
    times x^dd * (x^n + 1) is subtracted modulo q, the array gets shorter,
    and each coefficient is left as it was or centred. *)
Lemma reduction_step (dz : list Z) :
  n + 1 <= length dz ->
  exists d1z : list Z,
    popTrailingZeros
      (subtractScaledDivisor D (length dz - (n + 1))
         (Math_floor (last (map inject_Z dz) 0 / last D 0)%Q) (inject_Z q)
         (map inject_Z dz))
    = map inject_Z d1z /\
    length d1z < length dz /\
    (forall j,
        congruent q (nth j dz 0%Z)
          (nth j d1z 0
           + if ((j =? length dz - (n + 1)) || (j =? length dz - 1))%nat
             then last dz 0 else 0)%Z) /\
    (forall j, nth j d1z 0%Z = nth j dz 0%Z \/ centeredZ q (nth j d1z 0%Z)).
Proof.
  intros Hlen.
  set (dd := length dz - (n + 1)).
  set (d := map inject_Z dz).
  assert (Hd : Forall isInt d).
  { unfold d. apply Forall_forall. intros x Hx. apply in_map_iff in Hx.
    destruct Hx as [z [<- _]]. apply isInt_inject. }
  assert (HlD : length D = n + 1) by apply length_modulusPolynomial.
  assert (Hld : length d = length dz) by (unfold d; apply length_map).
  assert (HDlast : last D 0%Q = 1%Q) by apply modulusPolynomial_monic.
  rewrite HDlast. unfold d at 1. rewrite last_map_inject_Z, Math_floor_div_one.
  set (lc := last dz 0%Z).
  set (next := subtractScaledDivisor D dd (inject_Z lc) (inject_Z q) d).
  assert (Hnl : length next = length d) by apply length_subtractScaledDivisor.
  assert (Hni : Forall isInt next).
  { apply isInt_subtractScaledDivisor; try assumption;
      [apply modulusPolynomial_isInt | apply isInt_inject | apply isInt_inject]. }
  assert (Hnth : forall j,
             nth j next 0%Q
             = inject_Z
                 (if ((dd <=? j) && (j <? dd + (n + 1)))%nat
                  then centerZ
                         (nth j dz 0
                          - centerZ
                              ((if ((j - dd =? 0) || (j - dd =? n))%nat
                                then 1 else 0)
                               * lc) q) q
                  else nth j dz 0)%Z).
  { intros j. unfold next. rewrite nth_subtractScaledDivisor by lia.
    rewrite HlD. unfold d. rewrite nth_map_inject_Z.
    destruct ((dd <=? j) && (j <? dd + (n + 1))); [|reflexivity].
    unfold D. rewrite nth_modulusPolynomial. fold n.
    replace (if (j - dd =? 0) || (j - dd =? n) then 1%Q else 0%Q)
      with (inject_Z (if (j - dd =? 0) || (j - dd =? n) then 1%Z else 0%Z))
      by (destruct ((j - dd =? 0) || (j - dd =? n)); reflexivity).
    rewrite inject_Z_mult.
    rewrite symmetricValueModuloQ_inject_Z by exact q_positive.
    rewrite inject_Z_minus.
    rewrite symmetricValueModuloQ_inject_Z by exact q_positive.
    reflexivity. }
  assert (Hnt : last next 0%Q = 0%Q).
  { rewrite last_nth, Hnl, Hld, Hnth.
    replace ((dd <=? length dz - 1) && (length dz - 1 <? dd + (n + 1)))
      with true
      by (symmetry; apply andb_true_iff; split;
          [apply Nat.leb_le | apply Nat.ltb_lt]; unfold dd; lia).
    replace (length dz - 1 - dd) with n by (unfold dd; lia).
    rewrite Nat.eqb_refl, orb_true_r, Z.mul_1_l.
    replace (nth (length dz - 1) dz 0%Z) with lc
      by (unfold lc; apply last_nth).
    rewrite centerZ_cancel by exact q_positive. reflexivity. }
  assert (Hpi : Forall isInt (popTrailingZeros next))
    by (apply popTrailingZeros_Forall; exact Hni).
  exists (map Qnum (popTrailingZeros next)).
  split; [apply ints_as_Z; exact Hpi|].
  split.
  { rewrite length_map.
    assert (length (popTrailingZeros next) < length next).
    { apply popTrailingZeros_shorter; [|exact Hnt].
      intros E. rewrite E in Hnl. cbn in Hnl. lia. }
    lia. }
  assert (Hval : forall j,
             nth j (map Qnum (popTrailingZeros next)) 0%Z
             = (if ((dd <=? j) && (j <? dd + (n + 1)))%nat
                then centerZ
                       (nth j dz 0
                        - centerZ
                            ((if ((j - dd =? 0) || (j - dd =? n))%nat
                              then 1 else 0)
                             * lc) q) q
                else nth j dz 0)%Z).
  { intros j.
    change 0%Z with (Qnum 0%Q) at 1.
    rewrite (map_nth Qnum (popTrailingZeros next) 0%Q j).
    rewrite popTrailingZeros_same by exact Hni.
    rewrite Hnth. reflexivity. }
  split; intros j; rewrite Hval.
  - destruct (Nat.leb_spec dd j) as [H1 | H1];
      destruct (Nat.ltb_spec j (dd + (n + 1))) as [H2 | H2]; cbn [andb].
    + assert (E1 : (j =? dd) = (j - dd =? 0)).
      { destruct (Nat.eqb_spec j dd);
          destruct (Nat.eqb_spec (j - dd) 0); try reflexivity;
          unfold dd in *; lia. }
      assert (E2 : (j =? length dz - 1) = (j - dd =? n)).
      { destruct (Nat.eqb_spec j (length dz - 1));
          destruct (Nat.eqb_spec (j - dd) n); try reflexivity;
          unfold dd in *; lia. }
      rewrite E1, E2.
      destruct ((j - dd =? 0) || (j - dd =? n)).
      * rewrite Z.mul_1_l. apply centerZ_twice_congruent. exact q_positive.
      * rewrite Z.mul_0_l.
        destruct (centerZ_twice_congruent (nth j dz 0%Z) 0 q q_positive)
          as [k Hk].
        exists k. fold lc. lia.
    + replace ((j =? dd) || (j =? length dz - 1)) with false.
      * exists 0%Z. lia.
      * symmetry. apply orb_false_iff.
        split; apply Nat.eqb_neq; unfold dd in *; lia.
    + replace ((j =? dd) || (j =? length dz - 1)) with false.
      * exists 0%Z. lia.
      * symmetry. apply orb_false_iff.
        split; apply Nat.eqb_neq; unfold dd in *; lia.
    + replace ((j =? dd) || (j =? length dz - 1)) with false.
      * exists 0%Z. lia.
      * symmetry. apply orb_false_iff.
        split; apply Nat.eqb_neq; unfold dd in *; lia.
  - destruct ((dd <=? j) && (j <? dd + (n + 1))).
    + right. apply centerZ_range. exact q_positive.
    + left. reflexivity.
Qed.

Lemma congruent_div (a b : Z) :
  congruent q a b -> (a = b + q * ((a - b) / q))%Z.
Proof.
  intros [k Hk]. replace (a - b)%Z with (k * q)%Z by lia.
  rewrite Z.div_mul by lia. lia.
Qed.

(** The loop on an array of integers: it ends within as many turns as the
    array has coefficients beyond n, with a remainder of at most n
    coefficients; dividend = quotient * (x^n + 1) + remainder modulo q, the
    quotient having a degree below that of the dividend less n; and each
    coefficient of the remainder is the one of the dividend or is centred. *)
Lemma reduction_loop (fuel : nat) :
  forall dz : list Z,
    length dz <= n + fuel ->
    exists (rz : list Z) (quotient err : nat -> Z),
      dividePolynomials_loop fuel (map inject_Z dz) D (inject_Z q)
      = Ok (map inject_Z rz) /\
      length rz <= n /\
      length rz <= length dz /\
      (forall i, length dz - n <= i -> quotient i = 0%Z) /\
      (forall i,
          nth i dz 0%Z
          = (nth i rz 0
             + (quotient i + if (n <=? i)%nat then quotient (i - n)%nat else 0)
             + q * err i)%Z) /\
      (forall j, nth j rz 0%Z = nth j dz 0%Z \/ centeredZ q (nth j rz 0%Z)).
Proof.
  assert (HlD : length D = n + 1) by apply length_modulusPolynomial.
  assert (Hshort : forall fuel0 dz,
             length dz <= n ->
             exists (rz : list Z) (quotient err : nat -> Z),
               dividePolynomials_loop fuel0 (map inject_Z dz) D (inject_Z q)
               = Ok (map inject_Z rz) /\
               length rz <= n /\
               length rz <= length dz /\
               (forall i, length dz - n <= i -> quotient i = 0%Z) /\
               (forall i,
                   nth i dz 0%Z
                   = (nth i rz 0
                      + (quotient i
                         + if (n <=? i)%nat then quotient (i - n)%nat else 0)
                      + q * err i)%Z) /\
               (forall j,
                   nth j rz 0%Z = nth j dz 0%Z \/ centeredZ q (nth j rz 0%Z))).
  { intros fuel0 dz Hlen. exists dz, (fun _ => 0%Z), (fun _ => 0%Z).
    split; [apply dividePolynomials_loop_short; rewrite length_map; lia|].
    split; [exact Hlen|]. split; [lia|]. split; [reflexivity|].
    split; [|intros j; left; reflexivity].
    intros i. destruct (n <=? i); lia. }
  induction fuel as [|fuel IH]; intros dz Hlen.
  - apply Hshort. lia.
  - destruct (Nat.le_gt_cases (length dz) n) as [Hs | Hs];
      [apply Hshort; exact Hs|].
    cbn [dividePolynomials_loop].
    rewrite length_map, HlD.
    destruct (Nat.leb_spec (n + 1) (length dz)) as [_ | Hc]; [|lia].
    unfold D at 1. rewrite modulusPolynomial_monic. fold D.
    change (Qeq_bool 1 0) with false. cbv iota.
    destruct (reduction_step dz ltac:(lia)) as [d1z [E1 [Hl1 [Hc1 Hr1]]]].
    rewrite E1.
    destruct (IH d1z ltac:(lia)) as [rz [qf [ef [Er [Hlr [Hlr' [Hq [He Hr]]]]]]]].
    set (dd := length dz - (n + 1)) in *.
    set (lc := last dz 0%Z) in *.
    exists rz,
      (fun i => (qf i + if (i =? dd)%nat then lc else 0)%Z),
      (fun i =>
         (ef i
          + (nth i dz 0
             - (nth i d1z 0
                + if ((i =? dd) || (i =? length dz - 1))%nat
                  then lc else 0)) / q)%Z).
    split; [exact Er|]. split; [exact Hlr|]. split; [lia|].
    split; [|split].
    + intros i Hi. rewrite Hq by lia.
      destruct (Nat.eqb_spec i dd) as [E | E]; [unfold dd in E; lia | lia].
    + intros i. pose proof (congruent_div _ _ (Hc1 i)) as Hd.
      rewrite Z.mul_add_distr_l.
      pose proof (He i) as Hei.
      destruct (Nat.leb_spec n i) as [Hn | Hn].
      * destruct (Nat.eqb_spec i dd) as [Ea | Ea];
          destruct (Nat.eqb_spec (i - n) dd) as [Eb | Eb];
          destruct (Nat.eqb_spec i (length dz - 1)) as [Ec | Ec];
          cbn [orb] in *; try (unfold dd in *; lia).
      * destruct (Nat.eqb_spec i dd) as [Ea | Ea];
          destruct (Nat.eqb_spec i (length dz - 1)) as [Ec | Ec];
          cbn [orb] in *; try (unfold dd in *; lia).
    + intros j. destruct (Hr j) as [E | Hc']; [|right; exact Hc'].
      rewrite E. apply Hr1.
Qed.

End Reduction.

(** *** The folded dividend *)

Lemma alternatingSum_ext (terms n : nat) (c c' : nat -> Z) :
  (forall j, c j = c' j) ->
  forall i, alternatingSum terms n c i = alternatingSum terms n c' i.
Proof.
  intros E. induction terms as [|terms IH]; intros i; [reflexivity|].
  cbn [alternatingSum]. rewrite E, IH. reflexivity.
Qed.

Lemma alternatingSum_plus (terms n : nat) (c c' : nat -> Z) :
  forall i,
    alternatingSum terms n (fun j => (c j + c' j)%Z) i
    = (alternatingSum terms n c i + alternatingSum terms n c' i)%Z.
Proof.
  induction terms as [|terms IH]; intros i; [reflexivity|].
  cbn [alternatingSum]. rewrite IH. lia.
Qed.

Lemma alternatingSum_scale (terms n : nat) (m : Z) (e : nat -> Z) :
  forall i,
    alternatingSum terms n (fun j => (m * e j)%Z) i
    = (m * alternatingSum terms n e i)%Z.
Proof.
  induction terms as [|terms IH]; intros i; [cbn; lia|].
  cbn [alternatingSum]. rewrite IH. lia.
Qed.

Lemma alternatingSum_vanish (terms n i0 : nat) (c : nat -> Z) :
  (forall j, i0 <= j -> c j = 0%Z) ->
  forall i, i0 <= i -> alternatingSum terms n c i = 0%Z.
Proof.
  intros H. induction terms as [|terms IH]; intros i Hi; [reflexivity|].
  cbn [alternatingSum]. rewrite (H i Hi), IH by lia. reflexivity.
Qed.

Lemma alternatingSum_short (terms n : nat) (c : nat -> Z) (i : nat) :
  0 < terms -> (forall j, n <= j -> c j = 0%Z) ->
  alternatingSum terms n c i = c i.
Proof.
  intros Ht H. destruct terms as [|terms]; [lia|].
  cbn [alternatingSum]. rewrite (alternatingSum_vanish terms n n c H) by lia.
  lia.
Qed.

(** The multiples of x^n + 1 fold to zero. *)
Lemma alternatingSum_quotient (n bound : nat) (quotient : nat -> Z) :
  (forall j, bound <= j -> quotient j = 0%Z) ->
  forall terms i,
    0 < terms -> bound <= i + (terms - 1) * n ->
    alternatingSum terms n
      (fun j =>
         (quotient j + if (n <=? j)%nat then quotient (j - n)%nat else 0)%Z) i
    = (if (n <=? i)%nat then quotient (i - n)%nat else 0)%Z.
Proof.
  intros H. induction terms as [|terms IH]; intros i Ht Hb; [lia|].
  cbn [alternatingSum].
  destruct terms as [|terms'].
  - cbn [alternatingSum]. rewrite (H i) by lia. lia.
  - rewrite IH by (cbn [Nat.sub] in *; lia).
    replace (n <=? i + n) with true by (symmetry; apply Nat.leb_le; lia).
    replace (i + n - n) with i by lia. lia.
Qed.

(** A remainder of at most n coefficients that satisfies the equation of
    the division is, coefficient by coefficient, congruent to the folded
    dividend. *)
Lemma remainder_is_folded_dividend (n : nat) (q : Z) (dz rz : list Z)
  (quotient err : nat -> Z) :
  0 < n ->
  length rz <= n -> length rz <= length dz ->
  (forall i, length dz - n <= i -> quotient i = 0%Z) ->
  (forall i,
      nth i dz 0%Z
      = (nth i rz 0
         + (quotient i + if (n <=? i)%nat then quotient (i - n)%nat else 0)
         + q * err i)%Z) ->
  forall i, i < n -> congruent q (negacyclicFold n dz i) (nth i rz 0%Z).
Proof.
  intros Hn Hlr Hlr' Hq He i Hi. unfold negacyclicFold.
  destruct (length dz) as [|len] eqn:El.
  - destruct rz; [|cbn in Hlr'; lia]. exists 0%Z. destruct i; reflexivity.
  - rewrite (alternatingSum_ext _ _ _ _ He).
    rewrite alternatingSum_plus, alternatingSum_plus, alternatingSum_scale.
    rewrite (alternatingSum_short (S len) n (fun j => nth j rz 0%Z))
      by (try lia; intros j Hj; apply nth_overflow; lia).
    rewrite (alternatingSum_quotient n (S len - n) quotient Hq) by nia.
    replace (n <=? i) with false by (symmetry; apply Nat.leb_gt; lia).
    exists (alternatingSum (S len) n err i). lia.
Qed.

(** [dividePolynomials] by the modulus polynomial computes the remainder of
    the division by x^n + 1 modulo q, for n > 0, q > 0 and every array of
    integers of magnitude at most 2^53 - q (every value the loop computes is
    then an integer of magnitude at most 2^53), within as many turns of its
    loop as the array has coefficients beyond n: the remainder has at most n
    coefficients, each one a coefficient of the dividend or centred, and
    there is a quotient of degree below that of the dividend less n with
    dividend = remainder + quotient * (x^n + 1) + q * err, coefficient by
    coefficient. *)
Theorem dividePolynomials_division_equation (P : Parameters) (fuel : nat)
  (dz : list Z) :
  (0 < param_q P)%Z -> 0 < param_n P ->
  length dz <= param_n P + fuel ->
  Forall (fun z => (Z.abs z + param_q P <= maxExactInteger)%Z) dz ->
  exists (rz : list Z) (quotient err : nat -> Z),
    dividePolynomials fuel (mkPolynomial (map inject_Z dz))
      (modulusPolynomial P) (inject_Z (param_q P))
    = Ok (mkPolynomial (map inject_Z rz)) /\
    length rz <= param_n P /\
    (forall j, nth j rz 0%Z = nth j dz 0%Z
               \/ centeredZ (param_q P) (nth j rz 0%Z)) /\
    (forall i, length dz - param_n P <= i -> quotient i = 0%Z) /\
    (forall i,
        nth i dz 0%Z
        = (nth i rz 0
           + (quotient i
              + if (param_n P <=? i)%nat
                then quotient (i - param_n P)%nat else 0)
           + param_q P * err i)%Z).
Proof.
  intros Hq Hn Hlen Hdz.
  destruct (reduction_loop P Hq Hn fuel dz Hlen)
    as [rz [qf [ef [Er [Hlr [Hlrd [Hqf [He Hc]]]]]]]].
  exists rz, qf, ef. unfold dividePolynomials. cbn [coefficients].
  rewrite Er. cbn [bind].
  split; [reflexivity|]. split; [exact Hlr|].
  split; [exact Hc|]. split; assumption.
Qed.

Lemma dividePolynomials_division_equation_witness :
  exists (rz : list Z) (quotient err : nat -> Z),
    dividePolynomials 3 (mkPolynomial (map inject_Z [1; 2; 3; 4; 5]%Z))
      (modulusPolynomial (mkParameters 7 2 1 2 2)) (inject_Z 7)
    = Ok (mkPolynomial (map inject_Z rz)) /\
    rz = [3; -2]%Z.
Proof.
  destruct (dividePolynomials_division_equation (mkParameters 7 2 1 2 2) 3
              [1; 2; 3; 4; 5]%Z) as [rz [qf [ef [H _]]]].
  - reflexivity.
  - cbn. lia.
  - cbn. lia.
  - repeat constructor; vm_compute; discriminate.
  - exists rz, qf, ef. split; [exact H|].
    assert (E : Ok (mkPolynomial (map inject_Z rz))
                = Ok (mkPolynomial (map inject_Z [3; -2]%Z)))
      by (rewrite <- H; reflexivity).
    injection E as E. apply map_inject_Z_inj. exact E.
Defined.

(** For an odd positive q and a dividend of centred integers,
    [dividePolynomials] by the modulus polynomial returns the dividend folded
    modulo x^n + 1 and centred: the coefficient of degree i < n of the result
    is the centred remainder of d_i - d_(i+n) + d_(i+2n) - ..., a
    coefficient beyond the end of the result reading as 0. *)
Theorem dividePolynomials_negacyclic (P : Parameters) (fuel : nat)
  (dz : list Z) :
  (0 < param_q P)%Z -> Z.odd (param_q P) = true -> 0 < param_n P ->
  length dz <= param_n P + fuel ->
  Forall (centeredZ (param_q P)) dz ->
  exists rz : list Z,
    dividePolynomials fuel (mkPolynomial (map inject_Z dz))
      (modulusPolynomial P) (inject_Z (param_q P))
    = Ok (mkPolynomial (map inject_Z rz)) /\
    length rz <= param_n P /\
    forall i,
      i < param_n P ->
      nth i rz 0%Z = centerZ (negacyclicFold (param_n P) dz i) (param_q P).
Proof.
  intros Hq Hodd Hn Hlen Hc.
  destruct (reduction_loop P Hq Hn fuel dz Hlen)
    as [rz [qf [ef [Er [Hlr [Hlr' [Hqf [He Hr]]]]]]]].
  exists rz. unfold dividePolynomials. cbn [coefficients].
  rewrite Er. cbn [bind]. split; [reflexivity|]. split; [exact Hlr|].
  intros i Hi. symmetry. apply centerZ_unique; [exact Hq | exact Hodd | |].
  - destruct (remainder_is_folded_dividend (param_n P) (param_q P) dz rz qf ef
                Hn Hlr Hlr' Hqf He i Hi) as [k Hk].
    exists k. exact Hk.
  - destruct (Hr i) as [E | Hc']; [|exact Hc'].
    rewrite E. destruct (Nat.lt_ge_cases i (length dz)) as [Hlt | Hge].
    + rewrite Forall_forall in Hc. apply Hc. apply nth_In. exact Hlt.
    + rewrite nth_overflow by exact Hge.
      pose proof (Z.div_pos (param_q P) 2 ltac:(lia) ltac:(lia)).
      unfold centeredZ. lia.
Qed.

Lemma dividePolynomials_negacyclic_witness :
  exists rz : list Z,
    dividePolynomials 3 (mkPolynomial (map inject_Z [1; 2; 3; -3; -2]%Z))
      (modulusPolynomial (mkParameters 7 2 1 2 2)) (inject_Z 7)
    = Ok (mkPolynomial (map inject_Z rz)) /\
    nth 0 rz 0%Z = centerZ (1 - 3 + - 2) 7 /\
    nth 1 rz 0%Z = centerZ (2 - - 3) 7.
Proof.
  destruct (dividePolynomials_negacyclic (mkParameters 7 2 1 2 2) 3
              [1; 2; 3; -3; -2]%Z) as [rz [H1 [_ H3]]].
  - reflexivity.
  - reflexivity.
  - cbn. lia.
  - cbn. lia.
  - repeat constructor; cbn; lia.
  - exists rz. split; [exact H1|]. split.
    + apply (H3 0). cbn. lia.
    + apply (H3 1). cbn. lia.
Defined.

(** ** The blocks of a text (index.ts 205-228) *)

Lemma length_concat_uniform {X : Type} (b : nat) (chunks : list (list X)) :
  Forall (fun ch => length ch = b) chunks ->
  length (concat chunks) = b * length chunks.
Proof.
  induction 1 as [|ch chunks Hch _ IH]; [cbn; lia|].
  cbn [concat length]. rewrite length_app, IH, Hch. lia.
Qed.

Lemma Forall_isBit_marker (cur : list Q) (j : nat) :
  Forall isBit cur -> Forall isBit (cur ++ 1%Q :: repeat 0%Q j).
Proof.
  intros H. apply Forall_app. split; [exact H|].
  constructor; [right; reflexivity|].
  apply Forall_forall. intros x Hx. apply repeat_spec in Hx. subst.
  left. reflexivity.
Qed.

Lemma Forall_isBit_zeros (j : nat) : Forall isBit (repeat 0%Q j).
Proof.
  apply Forall_forall. intros x Hx. apply repeat_spec in Hx. subst.
  left. reflexivity.
Qed.

Lemma length_textToPolynomialBlocks (bytesPerBlock : nat) (text : jsString) :
  0 < bytesPerBlock ->
  length (textToPolynomialBlocks text (8 * bytesPerBlock))
  = (length (charCodes text) + 1) / bytesPerBlock + 1.
Proof.
  intros Hb.
  destruct (textToPolynomialBlocks_chunks bytesPerBlock Hb text)
    as [chunks [cur [H1 [H2 [H3 H4]]]]].
  rewrite H1.
  rewrite length_app, length_map.
  assert (EL : length (charCodes text)
               = bytesPerBlock * length chunks + length cur).
  { rewrite <- H4, length_app, (length_concat_uniform bytesPerBlock) by exact H3.
    reflexivity. }
  rewrite EL. unfold encodeChunk. rewrite addPadding_eq.
  rewrite length_bitsOfBytes.
  destruct (Nat.eqb_spec (8 * length cur) (8 * bytesPerBlock)) as [E1 | E1].
  - assert (Ec : length cur = bytesPerBlock) by lia.
    destruct (Nat.eqb_spec 8 (8 * bytesPerBlock)) as [E2 | E2];
      cbn [length].
    + assert (Hone : bytesPerBlock = 1) by lia.
      rewrite Hone, Nat.div_1_r. lia.
    + rewrite <- (Nat.div_unique
                    (bytesPerBlock * length chunks + length cur + 1)
                    bytesPerBlock (length chunks + 1) 1); nia.
  - destruct (Nat.eqb_spec (8 * length cur + 8) (8 * bytesPerBlock))
      as [E2 | E2]; cbn [length].
    + rewrite <- (Nat.div_unique
                    (bytesPerBlock * length chunks + length cur + 1)
                    bytesPerBlock (length chunks + 1) 0); nia.
    + rewrite <- (Nat.div_unique
                    (bytesPerBlock * length chunks + length cur + 1)
                    bytesPerBlock (length chunks) (length cur + 1)); nia.
Qed.

Lemma textToPolynomialBlocks_bits (bytesPerBlock : nat) (text : jsString) :
  0 < bytesPerBlock ->
  bitBlocks (textToPolynomialBlocks text (8 * bytesPerBlock)).
Proof.
  intros Hb.
  destruct (textToPolynomialBlocks_chunks bytesPerBlock Hb text)
    as [chunks [cur [H1 [H2 [H3 H4]]]]].
  rewrite H1. apply Forall_app. split.
  - apply Forall_map. apply Forall_forall. intros ch _.
    apply encodeChunk_bits.
  - pose proof (encodeChunk_bits cur) as Hcur.
    unfold encodeChunk in *. cbn [coefficients] in Hcur.
    rewrite addPadding_eq.
    destruct (length (flat_map bitsOfByte cur) =? 8 * bytesPerBlock);
      [destruct (8 =? 8 * bytesPerBlock)|
       destruct (length (flat_map bitsOfByte cur) + 8 =? 8 * bytesPerBlock)];
      repeat match goal with
             | |- Forall _ (_ :: _) => apply Forall_cons
             | |- Forall _ [] => apply Forall_nil
             end;
      cbn [coefficients];
      first [ exact Hcur
            | apply Forall_isBit_zeros
            | apply Forall_isBit_marker; first [exact Hcur | constructor] ].
Qed.

(** A text of L characters is encoded, for blocks of a positive whole
    number b of bytes, into floor((L + 1) / b) + 1 blocks, each of exactly
    8 * b coefficients that are all bits: the padding costs one block when
    the marker byte fills up the last block of text, and two for blocks of
    one byte. *)
Theorem textToPolynomialBlocks_blocks (bytesPerBlock : nat) (text : jsString) :
  0 < bytesPerBlock ->
  length (textToPolynomialBlocks text (8 * bytesPerBlock))
  = (length (charCodes text) + 1) / bytesPerBlock + 1 /\
  Forall
    (fun block =>
       length (coefficients block) = 8 * bytesPerBlock /\
       Forall isBit (coefficients block))
    (textToPolynomialBlocks text (8 * bytesPerBlock)).
Proof.
  intros Hb. split; [apply length_textToPolynomialBlocks; exact Hb|].
  pose proof (textToPolynomialBlocks_bits bytesPerBlock text Hb) as Hbits.
  assert (Hlens : Forall
                    (fun block => length (coefficients block)
                                  = 8 * bytesPerBlock)
                    (textToPolynomialBlocks text (8 * bytesPerBlock))).
  { destruct (textToPolynomialBlocks_chunks bytesPerBlock Hb text)
      as [chunks [cur [H1 [H2 [H3 H4]]]]].
    rewrite H1. apply Forall_app. split.
    - apply Forall_map. eapply Forall_impl; [|exact H3].
      intros ch Hch. cbv beta in *. rewrite length_encodeChunk. lia.
    - apply (addPadding_lengths bytesPerBlock Hb cur H2). }
  unfold bitBlocks in Hbits.
  induction Hlens as [|block blocks Hl _ IH]; [constructor|].
  inversion Hbits; subst. constructor; [split; assumption|].
  apply IH. assumption.
Qed.

Lemma textToPolynomialBlocks_blocks_witness :
  length (textToPolynomialBlocks [72; 105; 33]%Z (8 * 2)) = (3 + 1) / 2 + 1 /\
  length (textToPolynomialBlocks [72; 105; 33]%Z (8 * 2)) = 3.
Proof.
  destruct (textToPolynomialBlocks_blocks 2 [72; 105; 33]%Z) as [H _].
  - lia.
  - split; [exact H | reflexivity].
Defined.

(** ** The codec without encryption (index.ts 205-258, 514-534) *)

Lemma land_shiftr_low (x bit : Z) :
  (0 <= bit < 8)%Z ->
  Z.land (Z.shiftr (x mod 256) bit) 1 = Z.land (Z.shiftr x bit) 1.
Proof.
  intros Hbit. change 1%Z with (Z.ones 1). rewrite !Z.land_ones by lia.
  change (2 ^ 1)%Z with 2%Z. rewrite <- !Z.bit0_mod.
  rewrite !Z.shiftr_spec by lia. f_equal.
  change 256%Z with (2 ^ 8)%Z. apply Z.mod_pow2_bits_low. lia.
Qed.

(** Only the low byte of a character code is encoded. *)
Lemma bitsOfByte_low (x : Z) : bitsOfByte (x mod 256) = bitsOfByte x.
Proof.
  unfold bitsOfByte. cbn [map].
  rewrite !land_shiftr_low by lia. reflexivity.
Qed.

Lemma groups_of_codes (ch : list Z) :
  map byteOfBits (groupsOf8 (flat_map bitsOfByte ch))
  = map (fun c => (c mod 256)%Z) ch.
Proof.
  rewrite <- (groups_of_bytes (map (fun c => (c mod 256)%Z) ch)).
  - f_equal. f_equal. induction ch as [|c ch IH]; [reflexivity|].
    cbn [flat_map map]. rewrite bitsOfByte_low, IH. reflexivity.
  - apply Forall_map. apply Forall_forall. intros c _.
    apply Z.mod_pos_bound. lia.
Qed.

(** Encoding a text into blocks, removing the padding the way decryption
    does and decoding gives back the low byte of every character the
    encoder read: a text of bytes comes back as it is, and no other text
    does (a character beyond 255 loses its high byte, and of a surrogate
    pair only the first half is encoded).  The texts are strings of UTF-16
    code units. *)
Theorem codec_keeps_low_bytes (bytesPerBlock : nat) (text : jsString) :
  0 < bytesPerBlock ->
  Forall (fun c => (0 <= c < 65536)%Z) text ->
  exists stripped,
    stripPadding (textToPolynomialBlocks text (8 * bytesPerBlock))
    = Ok stripped /\
    polynomialBlocksToText stripped (8 * bytesPerBlock)
    = map (fun c => (c mod 256)%Z) (charCodes text) /\
    (polynomialBlocksToText stripped (8 * bytesPerBlock) = text
     <-> byteString text).
Proof.
  intros Hb Hunits.
  destruct (textToPolynomialBlocks_chunks bytesPerBlock Hb text)
    as [chunks [cur [H1 [H2 [H3 H4]]]]].
  rewrite H1. unfold encodeChunk at 2. rewrite stripPadding_addPadding.
  eexists. split; [reflexivity|].
  assert (Hdec : forall chs : list (list Z),
             flat_map
               (fun block : Polynomial =>
                  map byteOfBits (groupsOf8 (coefficients block)))
               (map encodeChunk chs)
             = map (fun c => (c mod 256)%Z) (concat chs)).
  { induction chs as [|ch chs IH]; [reflexivity|].
    cbn [map flat_map concat]. rewrite IH, map_app.
    unfold encodeChunk at 1; cbn [coefficients].
    rewrite groups_of_codes. reflexivity. }
  assert (Htail :
            bitBlocks
              (if length (flat_map bitsOfByte cur) =? 8 * bytesPerBlock
               then [mkPolynomial (flat_map bitsOfByte cur); mkPolynomial []]
               else [mkPolynomial (flat_map bitsOfByte cur)]) /\
            flat_map
              (fun block : Polynomial =>
                 map byteOfBits (groupsOf8 (coefficients block)))
              (if length (flat_map bitsOfByte cur) =? 8 * bytesPerBlock
               then [mkPolynomial (flat_map bitsOfByte cur); mkPolynomial []]
               else [mkPolynomial (flat_map bitsOfByte cur)])
            = map (fun c => (c mod 256)%Z) cur).
  { destruct (length (flat_map bitsOfByte cur) =? 8 * bytesPerBlock);
      (split;
       [repeat constructor; apply (encodeChunk_bits cur)
       | cbn [flat_map coefficients groupsOf8 map];
         rewrite groups_of_codes;
         rewrite ?app_nil_r; reflexivity]). }
  destruct Htail as [Hbits Hflat].
  assert (Edec :
            polynomialBlocksToText
              (map encodeChunk chunks
               ++ (if length (flat_map bitsOfByte cur) =? 8 * bytesPerBlock
                   then [mkPolynomial (flat_map bitsOfByte cur);
                         mkPolynomial []]
                   else [mkPolynomial (flat_map bitsOfByte cur)]))
              (8 * bytesPerBlock)
            = map (fun c => (c mod 256)%Z) (charCodes text)).
  { rewrite polynomialBlocksToText_groups.
    - rewrite flat_map_app, Hdec, Hflat, <- map_app, H4.
      rewrite map_map. apply map_ext. intros c. unfold toUint16.
      apply Z.mod_small. change (2 ^ 16)%Z with 65536%Z.
      pose proof (Z.mod_pos_bound c 256 ltac:(lia)). lia.
    - apply Forall_app. split; [|exact Hbits].
      apply Forall_map. apply Forall_forall. intros ch _.
      apply encodeChunk_bits. }
  split; [exact Edec|]. rewrite Edec. split.
  - intros E. unfold byteString. rewrite <- E.
    apply Forall_map. apply Forall_forall. intros c _.
    apply Z.mod_pos_bound. lia.
  - intros Hbytes. rewrite (charCodes_bytes text Hbytes).
    clear - Hbytes. induction Hbytes as [|c text Hc _ IH]; [reflexivity|].
    cbn [map]. rewrite IH. f_equal. apply Z.mod_small. exact Hc.
Qed.

Lemma codec_keeps_low_bytes_witness :
  exists stripped,
    stripPadding (textToPolynomialBlocks [8364; 65]%Z (8 * 2)) = Ok stripped /\
    polynomialBlocksToText stripped (8 * 2) = [172; 65]%Z.
Proof.
  destruct (codec_keeps_low_bytes 2 [8364; 65]%Z) as [stripped [H1 [H2 _]]].
  - lia.
  - repeat constructor; lia.
  - exists stripped. split; [exact H1 | exact H2].
Defined.

(** ** What key generation, encryption and decryption return *)

(** Magnitudes of the coefficients of a matrix given by its entries. *)
Ltac small_magnitudes :=
  repeat (cbv beta;
          match goal with
          | |- matrixOf _ _ _ _ => split; [reflexivity|]
          | |- magnitude _ _ => unfold magnitude; cbn [coefficients]
          | |- Forall _ (_ :: _) => apply Forall_cons
          | |- Forall _ [] => apply Forall_nil
          | |- _ /\ _ => split
          | |- length _ = _ => reflexivity
          | |- (_ <= _)%Q => vm_compute; discriminate
          | |- Forall _ ?l =>
              let l' := eval hnf in l in progress change l with l'
          end).

Lemma samplerModulus_inject_Z (eta : Z) :
  samplerModulus eta = inject_Z (eta * 2 + 1).
Proof.
  unfold samplerModulus. change 2%Q with (inject_Z 2).
  change 1%Q with (inject_Z 1). rewrite inject_Z_mult, inject_Z_plus.
  reflexivity.
Qed.

Lemma sampled_bounded (n : nat) (eta : Z) (p : Polynomial) :
  (0 <= eta)%Z -> sampled n (eta * 2 + 1) p -> bounded n eta p.
Proof.
  intros Heta [Hl Hc]. split; [exact Hl|].
  eapply Forall_impl; [|exact Hc].
  intros c [z [E Hz]]. exists z. split; [exact E|].
  replace ((eta * 2 + 1) / 2)%Z with eta in Hz; [exact Hz|].
  apply (Z.div_unique (eta * 2 + 1) 2 eta 1); lia.
Qed.

Lemma sampled_freshElement (P : Parameters) (m : Z) (p : Polynomial) :
  sampled (param_n P) m p -> freshElement P p.
Proof.
  intros [Hl Hc]. split; [|exact Hl].
  eapply Forall_impl; [|exact Hc].
  intros c [z [E _]]. subst c. apply isInt_inject.
Qed.

Section Returns.

Variable P : Parameters.
Variable fuel : nat.
Hypothesis valid : validParameters P.
Hypothesis enough_fuel : param_n P <= fuel.

Let q : Q := inject_Z (param_q P).
Let mp : Polynomial := modulusPolynomial P.
Let n : nat := param_n P.
Let k : nat := param_k P.

(** Key generation, step by step: the three matrices sampled, the product
    and the sum. *)
Lemma generateKeys_unfold (rand : Rand) :
  let S1 := generateRandomMatrix k 1 n (samplerModulus (param_n1 P)) rand in
  let S2 :=
    generateRandomMatrix k 1 n (samplerModulus (param_n2 P)) (snd S1) in
  let S3 := generateRandomMatrix k k n q (snd S2) in
  exists As t,
    multiplyMatrices fuel (fst S3) (fst S1) q mp = Ok As /\
    matrixOf (ringElement P) k 1 As /\
    addMatrices fuel As (fst S2) q mp = Ok t /\
    matrixOf (ringElement P) k 1 t /\
    crystalsKyber_generateKeys P fuel rand
    = Ok (mkKeys (mkPublicKey t (fst S3)) (mkPrivateKey (fst S1)), snd S3).
Proof.
  intros S1 S2 S3.
  pose proof (valid_k P valid) as Hk. fold k in Hk.
  assert (Hs : matrixOf (freshElement P) k 1 (fst S1))
    by (apply generateRandomMatrix_spec; apply isInt_eta).
  assert (He : matrixOf (freshElement P) k 1 (fst S2))
    by (apply generateRandomMatrix_spec; apply isInt_eta).
  assert (HA : matrixOf (freshElement P) k k (fst S3))
    by (apply generateRandomMatrix_spec; apply isInt_inject).
  apply (matrixOf_impl _ _ _ _ _ (freshElement_ringElement P)) in Hs, HA.
  destruct (multiplyMatrices_ok P fuel valid enough_fuel _ _ _ _ _ Hk Hk HA Hs)
    as [As [EAs HAs]].
  destruct (sum_with_fresh_ok P fuel k 1 As (fst S2) Hk HAs He) as [t [Et Ht]].
  exists As, t.
  split; [exact EAs|]. split; [exact HAs|]. split; [exact Et|].
  split; [exact Ht|].
  unfold crystalsKyber_generateKeys. fold n k q mp.
  change (inject_Z (param_n1 P) * 2 + 1)%Q with (samplerModulus (param_n1 P)).
  change (inject_Z (param_n2 P) * 2 + 1)%Q with (samplerModulus (param_n2 P)).
  fold S1. destruct S1 as [s rand1] eqn:E1. cbn [fst snd] in *.
  fold S2. destruct S2 as [e rand2] eqn:E2. cbn [fst snd] in *.
  fold S3. destruct S3 as [A rand3] eqn:E3. cbn [fst snd] in *.
  unfold q, mp in *. rewrite EAs. cbn [bind]. rewrite Et. reflexivity.
Qed.

(** Encryption of a block, step by step. *)
Lemma encrypt_unfold (msg : Polynomial) (pk : CrystalsKyberPublicKey)
  (rand : Rand) :
  goodPublicKey P pk -> fullLength P msg ->
  let S1 := generateRandomMatrix k 1 n (samplerModulus (param_n1 P)) rand in
  let S2 :=
    generateRandomMatrix k 1 n (samplerModulus (param_n2 P)) (snd S1) in
  let S3 :=
    generateRandomMatrix 1 1 n (samplerModulus (param_n2 P)) (snd S2) in
  exists At Atr u tt ttr w,
    transposeMatrix (pk_A pk) = Ok At /\
    matrixOf (ringElement P) k k At /\
    multiplyMatrices fuel At (fst S1) q mp = Ok Atr /\
    matrixOf (ringElement P) k 1 Atr /\
    addMatrices fuel Atr (fst S2) q mp = Ok u /\
    matrixOf (ringElement P) k 1 u /\
    transposeMatrix (pk_t pk) = Ok tt /\
    matrixOf (ringElement P) 1 k tt /\
    multiplyMatrices fuel tt (fst S1) q mp = Ok ttr /\
    matrixOf (ringElement P) 1 1 ttr /\
    addMatrices fuel ttr (fst S3) q mp = Ok [[w]] /\
    freshElement P w /\
    crystalsKyber_encrypt P fuel msg pk rand
    = Ok (mkEncryptedBlock u
            [[combinePolynomials Qplus q w (scaleMessage P msg)]],
          snd S3).
Proof.
  intros [Ht HA] Hmsg S1 S2 S3.
  pose proof (valid_k P valid) as Hk. fold k in Hk, Ht, HA.
  assert (Hr : matrixOf (freshElement P) k 1 (fst S1))
    by (apply generateRandomMatrix_spec; apply isInt_eta).
  assert (He1 : matrixOf (freshElement P) k 1 (fst S2))
    by (apply generateRandomMatrix_spec; apply isInt_eta).
  assert (He2 : matrixOf (freshElement P) 1 1 (fst S3))
    by (apply generateRandomMatrix_spec; apply isInt_eta).
  apply (matrixOf_impl _ _ _ _ _ (freshElement_ringElement P)) in Hr.
  destruct (transposeMatrix_ok _ _ _ _ HA Hk) as [At [EAt HAt]].
  destruct (multiplyMatrices_ok P fuel valid enough_fuel _ _ _ At (fst S1)
              Hk Hk HAt Hr) as [Atr [EAtr HAtr]].
  destruct (sum_with_fresh_ok P fuel k 1 Atr (fst S2) Hk HAtr He1)
    as [u [Eu Hu]].
  destruct (transposeMatrix_ok _ _ _ _ Ht Hk) as [tt [Ett Htt]].
  destruct (multiplyMatrices_ok P fuel valid enough_fuel 1 _ 1 tt (fst S1)
              ltac:(lia) Hk Htt Hr) as [ttr [Ettr Httr]].
  destruct (combineMatrices_ok P Qplus fuel (ringElement P) (freshElement P)
              (freshElement P) 1 1 ttr (fst S3) q)
    as [ttre2 [Ettre2 Httre2]]; try assumption; try lia.
  { intros a [_ Ha]. exact Ha. }
  { intros b [_ Hb]. lia. }
  { intros a b Ha Hb. apply combinePolynomials_freshElement; assumption. }
  destruct (matrixOf_singleton _ _ Httre2) as [w [-> Hw]].
  exists At, Atr, u, tt, ttr, w.
  repeat (split; [assumption|]).
  unfold crystalsKyber_encrypt. fold n k q mp.
  change (inject_Z (param_n1 P) * 2 + 1)%Q with (samplerModulus (param_n1 P)).
  change (inject_Z (param_n2 P) * 2 + 1)%Q with (samplerModulus (param_n2 P)).
  fold S1. destruct S1 as [r rand1] eqn:E1. cbn [fst snd] in *.
  fold S2. destruct S2 as [e1 rand2] eqn:E2. cbn [fst snd] in *.
  fold S3. destruct S3 as [e2 rand3] eqn:E3. cbn [fst snd] in *.
  unfold q, mp in *.
  rewrite EAt. cbn [bind]. rewrite EAtr. cbn [bind]. rewrite Eu. cbn [bind].
  rewrite Ett. cbn [bind]. rewrite Ettr. cbn [bind].
  unfold addMatrices in *. rewrite Ettre2. cbn [bind].
  rewrite combineMatrices_short.
  - reflexivity.
  - discriminate.
  - repeat constructor; unfold shortPair; rewrite length_modulusPolynomial;
      [destruct Hw as [_ Hw]; lia|].
    unfold scaleMessage. cbn [coefficients]. rewrite length_map.
    unfold fullLength in Hmsg. lia.
Qed.

(** Decryption of a block, step by step. *)
Lemma decrypt_unfold (u : PolynomialMatrix) (vp : Polynomial)
  (sk : CrystalsKyberPrivateKey) :
  goodPrivateKey P sk ->
  matrixOf (ringElement P) k 1 u -> fullLength P vp ->
  exists st sp,
    transposeMatrix (sk_s sk) = Ok st /\
    matrixOf (ringElement P) 1 k st /\
    multiplyMatrices fuel st u q mp = Ok [[sp]] /\
    ringElement P sp /\
    decryptionPolynomial P fuel (mkEncryptedBlock u [[vp]]) sk
    = Ok (combinePolynomials Qminus q vp sp).
Proof.
  intros Hs Hu Hv.
  pose proof (valid_k P valid) as Hk. fold k in Hk. unfold goodPrivateKey in Hs.
  fold k in Hs.
  destruct (transposeMatrix_ok _ _ _ _ Hs Hk) as [st [Est Hst]].
  destruct (multiplyMatrices_ok P fuel valid enough_fuel 1 _ 1 st u
              ltac:(lia) Hk Hst Hu) as [stu [Estu Hstu]].
  destruct (matrixOf_singleton _ _ Hstu) as [sp [-> Hsp]].
  exists st, sp. repeat (split; [assumption|]).
  unfold decryptionPolynomial. cbn [eb_u eb_v]. fold q mp.
  unfold q, mp in *. rewrite Est. cbn [bind]. rewrite Estu. cbn [bind].
  unfold subtractMatrices. rewrite combineMatrices_short.
  - reflexivity.
  - discriminate.
  - repeat constructor; unfold shortPair; rewrite length_modulusPolynomial;
      [unfold fullLength in Hv; lia | destruct Hsp as [_ Hsp]; lia].
Qed.

End Returns.

(** Key generation returns for every random source: a secret of k
    polynomials of n coefficients in the range from -eta1 to eta1, a public
    matrix of k rows of k polynomials of n coefficients in the centred range
    of q, and a public vector of k polynomials of at most n coefficients;
    it uses up (2k + k*k) * n random values. *)
Theorem generateKeys_returns (P : Parameters) (fuel : nat) (rand : Rand) :
  validParameters P -> param_n P <= fuel -> (0 <= param_n1 P)%Z ->
  exists keys rand',
    crystalsKyber_generateKeys P fuel rand = Ok (keys, rand') /\
    matrixOf (bounded (param_n P) (param_n1 P)) (param_k P) 1
      (sk_s (sKey keys)) /\
    matrixOf (sampled (param_n P) (param_q P)) (param_k P) (param_k P)
      (pk_A (pKey keys)) /\
    matrixOf (ringElement P) (param_k P) 1 (pk_t (pKey keys)) /\
    forall i,
      rand' i
      = rand ((2 * param_k P + param_k P * param_k P) * param_n P + i).
Proof.
  intros Hv Hf Heta.
  destruct (generateKeys_unfold P fuel Hv Hf rand)
    as [As [t [_ [_ [_ [Ht E]]]]]].
  eexists. eexists. split; [exact E|].
  cbn [sKey pKey sk_s pk_A pk_t].
  split; [|split; [|split; [exact Ht|]]].
  - rewrite samplerModulus_inject_Z.
    eapply matrixOf_impl;
      [|apply generateRandomMatrix_sampled; lia].
    intros p. apply sampled_bounded. exact Heta.
  - apply generateRandomMatrix_sampled. apply Hv.
  - intros i. rewrite !generateRandomMatrix_draws. f_equal. ring.
Qed.

Lemma generateKeys_returns_witness :
  exists keys rand',
    crystalsKyber_generateKeys smallParameters 8 cyclingRand
    = Ok (keys, rand') /\
    matrixOf (bounded 8 2) 1 1 (sk_s (sKey keys)) /\
    rand' 0 = cyclingRand 24.
Proof.
  destruct (generateKeys_returns smallParameters 8 cyclingRand)
    as [keys [rand' [H1 [H2 [_ [_ H5]]]]]].
  - exact smallParameters_valid.
  - cbn. lia.
  - cbn. lia.
  - exists keys, rand'. split; [exact H1|]. split; [exact H2 | exact (H5 0)].
Defined.



Lemma exactBit_reduceToBinary (value minValue maxValue : Q) :
  exactBit (reduceToBinary value minValue maxValue).
Proof.
  unfold reduceToBinary, exactBit.
  destruct (Qltb _ _); [right | left]; reflexivity.
Qed.

Lemma decrypt_bits (P : Parameters) (fuel : nat) (eb : EncryptedBlock)
  (sk : CrystalsKyberPrivateKey) :
  validParameters P -> param_n P <= fuel ->
  goodPrivateKey P sk -> goodBlock P eb ->
  exists m,
    crystalsKyber_decrypt P fuel eb sk = Ok m /\
    length (coefficients m) = param_n P /\
    Forall exactBit (coefficients m).
Proof.
  intros Hv Hf Hsk Heb.
  destruct (decryptionPolynomial_ok P fuel Hv Hf eb sk Hsk Heb) as [d [Ed Hd]].
  unfold crystalsKyber_decrypt. rewrite Ed. cbn [bind].
  eexists. split; [reflexivity|]. cbn [coefficients].
  split; [rewrite length_map; exact Hd|].
  apply Forall_map. apply Forall_forall. intros c _.
  apply exactBit_reduceToBinary.
Qed.

(** Decryption makes no check of the block against the key: on a key and
    a block of the shapes that key generation and encryption produce, with
    integer coefficients in the vectors s and u, of magnitudes at most Bs
    and Bu with n * Bs * Bu + 2 q <= 2^53 (the products and sums of the
    source are then exact), it returns n coefficients, each one the number
    0 or the number 1, whatever the coefficients of v.  A wrong key or an
    altered block of that kind is not detected. *)
Theorem decrypt_returns_bits (P : Parameters) (fuel : nat)
  (eb : EncryptedBlock) (sk : CrystalsKyberPrivateKey) (Bs Bu : Z) :
  validParameters P -> param_n P <= fuel ->
  goodPrivateKey P sk -> goodBlock P eb ->
  (0 <= Bs)%Z -> (0 <= Bu)%Z ->
  matrixOf (magnitude Bs) (param_k P) 1 (sk_s sk) ->
  matrixOf (magnitude Bu) (param_k P) 1 (eb_u eb) ->
  (Z.of_nat (param_n P) * (Bs * Bu) + 2 * param_q P <= maxExactInteger)%Z ->
  exists m,
    crystalsKyber_decrypt P fuel eb sk = Ok m /\
    length (coefficients m) = param_n P /\
    Forall exactBit (coefficients m).
Proof.
  intros Hv Hf Hsk Heb _ _ _ _ _.
  destruct (decryptionPolynomial_ok P fuel Hv Hf eb sk Hsk Heb) as [d [Ed Hd]].
  exists (mkPolynomial
            (map (fun coeff =>
                    reduceToBinary coeff 0 (inject_Z (param_q P) / 2))
               (coefficients d))).
  unfold crystalsKyber_decrypt. rewrite Ed. cbn [bind coefficients].
  split; [reflexivity|].
  split; [rewrite length_map; exact Hd|].
  apply Forall_map. apply Forall_forall. intros c _.
  apply exactBit_reduceToBinary.
Qed.

Lemma decrypt_returns_bits_witness :
  let sk := mkPrivateKey [[mkPolynomial [1%Q]]] in
  let eb :=
    mkEncryptedBlock [[mkPolynomial [0%Q]]]
      [[mkPolynomial [0; 1664; 0; 900; -900; 0; 0; 1664]%Q]] in
  crystalsKyber_decrypt smallParameters 8 eb sk
  = Ok (mkPolynomial [0; 1; 0; 1; 1; 0; 0; 1]%Q) /\
  exists m,
    crystalsKyber_decrypt smallParameters 8 eb sk = Ok m /\
    length (coefficients m) = 8.
Proof.
  intros sk eb. split; [reflexivity|].
  destruct (decrypt_returns_bits smallParameters 8 eb sk 1 0)
    as [m [H1 [H2 _]]].
  - exact smallParameters_valid.
  - cbn. lia.
  - split; [reflexivity|]. repeat constructor; cbn; lia.
  - split; (split; [reflexivity|]); repeat constructor; cbn; lia.
  - lia.
  - lia.
  - small_magnitudes.
  - small_magnitudes.
  - vm_compute. discriminate.
  - exists m. split; [exact H1 | exact H2].
Defined.

(** ** Whole messages *)




Lemma removePadding_rev_suffix (l : list Q) :
  exists removed, l = removed ++ removePadding_rev l.
Proof.
  induction l as [|x l [removed IH]].
  - exists []. reflexivity.
  - cbn [removePadding_rev].
    destruct (Qeq_bool x 0).
    + exists (x :: removed). cbn [app]. rewrite <- IH. reflexivity.
    + destruct (Qeq_bool x 1).
      * exists [x]. reflexivity.
      * exists []. reflexivity.
Qed.

(** Padding removal returns the first coefficients of the block. *)
Lemma removePadding_prefix (p : Polynomial) :
  exists removed,
    coefficients p
    = coefficients (removePaddingFromPolynomialBlocks p) ++ removed.
Proof.
  unfold removePaddingFromPolynomialBlocks. cbn [coefficients].
  destruct (removePadding_rev_suffix (rev (coefficients p))) as [removed E].
  exists (rev removed).
  rewrite <- rev_app_distr, <- E, rev_involutive. reflexivity.
Qed.

Lemma removePadding_keeps (Pr : Q -> Prop) (bound : nat) (p : Polynomial) :
  Forall Pr (coefficients p) /\ length (coefficients p) <= bound ->
  Forall Pr (coefficients (removePaddingFromPolynomialBlocks p)) /\
  length (coefficients (removePaddingFromPolynomialBlocks p)) <= bound.
Proof.
  intros [Hf Hl]. destruct (removePadding_prefix p) as [removed E].
  rewrite E in Hf, Hl. apply Forall_app in Hf. rewrite length_app in Hl.
  split; [apply Hf | lia].
Qed.

Lemma unpadLast_keeps (Pr : Polynomial -> Prop) (blocks : list Polynomial) :
  (forall p, Pr p -> Pr (removePaddingFromPolynomialBlocks p)) ->
  Forall Pr blocks ->
  Forall Pr (unpadLast blocks) /\ length (unpadLast blocks) = length blocks.
Proof.
  intros Hrm. induction 1 as [|p blocks Hp Hb [IH1 IH2]].
  - split; [constructor | reflexivity].
  - cbn [unpadLast]. destruct blocks as [|p' blocks'].
    + split; [constructor; [apply Hrm; exact Hp | constructor] | reflexivity].
    + split; [constructor; assumption | cbn [length] in *; lia].
Qed.

Lemma dropZeroBlock_keeps (Pr : Polynomial -> Prop) (blocks : list Polynomial) :
  Forall Pr blocks ->
  Forall Pr (dropZeroBlock blocks) /\
  length (dropZeroBlock blocks) <= length blocks.
Proof.
  intros H. unfold dropZeroBlock.
  destruct (allZeroes _); [|split; [exact H | lia]].
  destruct (list_snoc_cases blocks) as [-> | [init [x ->]]].
  - split; [constructor | cbn; lia].
  - rewrite removelast_last. apply Forall_app in H.
    split; [apply H | rewrite length_app; cbn; lia].
Qed.

Lemma groupsOf8_count (bound : nat) :
  forall l : list Q, length l <= bound -> 8 * length (groupsOf8 l) <= length l.
Proof.
  induction bound as [|bound IH]; intros l Hl.
  - destruct l; [cbn; lia | cbn in Hl; lia].
  - destruct l as [|b7 [|b6 [|b5 [|b4 [|b3 [|b2 [|b1 [|b0 rest]]]]]]]];
      cbn [groupsOf8 length]; try lia.
    specialize (IH rest ltac:(cbn [length] in Hl; lia)). lia.
Qed.

Lemma exactBit_isBit (c : Q) : exactBit c -> isBit c.
Proof. intros [-> | ->]; [left | right]; reflexivity. Qed.

Lemma decoded_length (bytesPerBlock : nat) (blocks : list Polynomial) :
  Forall (fun block => length (coefficients block) <= 8 * bytesPerBlock)
    blocks ->
  length
    (flat_map (fun block => map byteOfBits (groupsOf8 (coefficients block)))
       blocks)
  <= length blocks * bytesPerBlock.
Proof.
  induction 1 as [|block blocks Hb _ IH]; [cbn; lia|].
  cbn [flat_map length]. rewrite length_app, length_map.
  pose proof (groupsOf8_count _ (coefficients block) (Nat.le_refl _)). lia.
Qed.

Lemma decoded_bytes (blocks : list Polynomial) :
  bitBlocks blocks ->
  byteString
    (flat_map (fun block => map byteOfBits (groupsOf8 (coefficients block)))
       blocks).
Proof.
  unfold byteString. induction 1 as [|block blocks Hb _ IH]; [constructor|].
  cbn [flat_map]. apply Forall_app. split; [|exact IH].
  apply Forall_map.
  pose proof (groupsOf8_length (coefficients block)) as Hlen.
  pose proof (groupsOf8_bits (coefficients block) Hb) as Hbits.
  revert Hbits. induction Hlen as [|g gs Hg _ IHg]; intros Hbits;
    [constructor|].
  inversion Hbits as [|? ? Hgb Hgsb]; subst.
  constructor; [|apply IHg; exact Hgsb].
  pose proof (byteOfBits_range g Hgb) as Hr. rewrite Hg in Hr.
  change (2 ^ Z.of_nat 8)%Z with 256%Z in Hr. exact Hr.
Qed.

(** Decryption of a message makes no check of the blocks against the key:
    on a key and a non-empty sequence of blocks of the shapes that key
    generation and encryption produce, with integer coefficients in the
    vectors s and u, of magnitudes at most Bs and Bu with
    n * Bs * Bu + 2 q <= 2^53 (the products and sums of the source are then
    exact), it returns a text of bytes, of at most n/8 characters for each
    block.  A wrong key or an altered block of that kind is not
    detected. *)
Theorem decryptMessage_returns_bytes (P : Parameters) (fuel : nat)
  (cts : list EncryptedBlock) (sk : CrystalsKyberPrivateKey) (Bs Bu : Z) :
  validParameters P -> param_n P <= fuel ->
  goodPrivateKey P sk -> cts <> [] -> Forall (goodBlock P) cts ->
  (0 <= Bs)%Z -> (0 <= Bu)%Z ->
  matrixOf (magnitude Bs) (param_k P) 1 (sk_s sk) ->
  Forall (fun eb => matrixOf (magnitude Bu) (param_k P) 1 (eb_u eb)) cts ->
  (Z.of_nat (param_n P) * (Bs * Bu) + 2 * param_q P <= maxExactInteger)%Z ->
  exists text,
    crystalsKyber_decryptMessage P fuel cts sk = Ok text /\
    byteString text /\
    length text <= length cts * (param_n P / 8).
Proof.
  intros Hv Hf Hsk Hne Hcts _ _ _ _ _.
  destruct (mapiM_from_ok
              (fun m => Forall exactBit (coefficients m) /\
                        length (coefficients m) <= param_n P)
              (fun _ eb => crystalsKyber_decrypt P fuel eb sk) cts 0)
    as [ds [Eds [Hlds Hds]]].
  { intros j eb Hj. rewrite Forall_forall in Hcts.
    destruct (decrypt_bits P fuel eb sk Hv Hf Hsk
                (Hcts eb (nth_error_In _ _ Hj))) as [m [E [Hl Hb]]].
    exists m. split; [exact E|]. split; [exact Hb | lia]. }
  unfold crystalsKyber_decryptMessage, mapM, mapiM. rewrite Eds. cbn [bind].
  rewrite stripPadding_eq.
  destruct ds as [|d ds']; [destruct cts; [contradiction | discriminate Hlds]|].
  cbn [bind]. eexists. split; [reflexivity|].
  set (stripped := unpadLast (dropZeroBlock (d :: ds'))).
  assert (Hstripped :
            Forall (fun m => Forall exactBit (coefficients m) /\
                             length (coefficients m) <= param_n P) stripped /\
            length stripped <= length cts).
  { destruct (dropZeroBlock_keeps _ _ Hds) as [H1 H2].
    destruct (unpadLast_keeps _ _
                (fun p => removePadding_keeps exactBit (param_n P) p) H1)
      as [H3 H4].
    split; [exact H3 | unfold stripped; lia]. }
  destruct Hstripped as [Hs1 Hs2].
  assert (Hbits : bitBlocks stripped).
  { eapply Forall_impl; [|exact Hs1]. intros m [Hm _].
    eapply Forall_impl; [|exact Hm]. apply exactBit_isBit. }
  destruct Hv as [_ [_ [Hn Hn8]]].
  destruct (whole_bytes (param_n P) Hn Hn8) as [b [En Hb]].
  rewrite (polynomialBlocksToText_groups stripped (param_n P) Hbits).
  pose proof (decoded_bytes stripped Hbits) as Hbytes.
  assert (Eid : map toUint16
                  (flat_map
                     (fun block => map byteOfBits (groupsOf8 (coefficients block)))
                     stripped)
                = flat_map
                    (fun block => map byteOfBits (groupsOf8 (coefficients block)))
                    stripped).
  { unfold byteString in Hbytes. clear - Hbytes.
    induction Hbytes as [|c l Hc _ IH]; [reflexivity|].
    cbn [map]. rewrite IH. f_equal. unfold toUint16.
    apply Z.mod_small. change (2 ^ 16)%Z with 65536%Z. lia. }
  rewrite Eid. split; [exact Hbytes|].
  replace (param_n P / 8) with b
    by (rewrite En, Nat.mul_comm, Nat.div_mul; lia).
  pose proof (decoded_length b stripped) as Hlen.
  assert (Hle : Forall (fun block => length (coefficients block) <= 8 * b)
                  stripped).
  { eapply Forall_impl; [|exact Hs1]. intros m [_ Hm]. lia. }
  specialize (Hlen Hle). nia.
Qed.

Lemma decryptMessage_returns_bytes_witness :
  let sk := mkPrivateKey [[mkPolynomial [1%Q]]] in
  let cts :=
    [mkEncryptedBlock [[mkPolynomial [3%Q]]]
       [[mkPolynomial [0; 1664; 0; 900; -900; 0; 0; 1664]%Q]];
     mkEncryptedBlock [[mkPolynomial [0%Q]]]
       [[mkPolynomial [1664; 0; 0; 0; 0; 0; 0; 0]%Q]]] in
  exists text,
    crystalsKyber_decryptMessage smallParameters 8 cts sk = Ok text /\
    byteString text /\
    length text <= 2.
Proof.
  intros sk cts.
  destruct (decryptMessage_returns_bytes smallParameters 8 cts sk 1 3)
    as [text [H1 [H2 H3]]].
  - exact smallParameters_valid.
  - cbn. lia.
  - split; [reflexivity|]. repeat constructor; cbn; lia.
  - discriminate.
  - repeat constructor; cbn; lia.
  - lia.
  - lia.
  - small_magnitudes.
  - small_magnitudes.
  - vm_compute. discriminate.
  - exists text. split; [exact H1|]. split; [exact H2 | exact H3].
Defined.

(** ** Finite sums and products of series *)

Lemma sumBelow_ext (m : nat) (f g : nat -> Z) :
  (forall i, i < m -> f i = g i) -> sumBelow m f = sumBelow m g.
Proof.
  induction m as [|m IH]; intros H; [reflexivity|].
  cbn [sumBelow]. rewrite IH, (H m) by (try lia; intros i Hi; apply H; lia).
  reflexivity.
Qed.

Lemma sumBelow_zero (m : nat) (f : nat -> Z) :
  (forall i, i < m -> f i = 0%Z) -> sumBelow m f = 0%Z.
Proof.
  induction m as [|m IH]; intros H; [reflexivity|].
  cbn [sumBelow]. rewrite IH, (H m) by (try lia; intros i Hi; apply H; lia).
  reflexivity.
Qed.

Lemma sumBelow_plus (m : nat) (f g : nat -> Z) :
  sumBelow m (fun i => (f i + g i)%Z) = (sumBelow m f + sumBelow m g)%Z.
Proof.
  induction m as [|m IH]; [reflexivity|]. cbn [sumBelow]. rewrite IH. lia.
Qed.

Lemma sumBelow_minus (m : nat) (f g : nat -> Z) :
  sumBelow m (fun i => (f i - g i)%Z) = (sumBelow m f - sumBelow m g)%Z.
Proof.
  induction m as [|m IH]; [reflexivity|]. cbn [sumBelow]. rewrite IH. lia.
Qed.

Lemma sumBelow_scale (m : nat) (c : Z) (f : nat -> Z) :
  sumBelow m (fun i => (c * f i)%Z) = (c * sumBelow m f)%Z.
Proof.
  induction m as [|m IH]; [cbn; lia|]. cbn [sumBelow]. rewrite IH. lia.
Qed.

Lemma sumBelow_scale_r (m : nat) (c : Z) (f : nat -> Z) :
  sumBelow m (fun i => (f i * c)%Z) = (sumBelow m f * c)%Z.
Proof.
  induction m as [|m IH]; [cbn; lia|]. cbn [sumBelow]. rewrite IH. lia.
Qed.

Lemma sumBelow_swap (m p : nat) (f : nat -> nat -> Z) :
  sumBelow m (fun i => sumBelow p (fun j => f i j))
  = sumBelow p (fun j => sumBelow m (fun i => f i j)).
Proof.
  induction m as [|m IH].
  - cbn [sumBelow]. symmetry. apply sumBelow_zero. reflexivity.
  - cbn [sumBelow]. rewrite IH, <- sumBelow_plus. reflexivity.
Qed.

Lemma sumBelow_split (m p : nat) (f : nat -> Z) :
  sumBelow (m + p) f
  = (sumBelow m f + sumBelow p (fun j => f (m + j)%nat))%Z.
Proof.
  induction p as [|p IH].
  - rewrite Nat.add_0_r. cbn [sumBelow]. lia.
  - replace (m + S p) with (S (m + p)) by lia. cbn [sumBelow].
    rewrite IH. lia.
Qed.

Lemma sumBelow_rev (m : nat) (f : nat -> Z) :
  sumBelow m f = sumBelow m (fun i => f (m - 1 - i)).
Proof.
  revert f. induction m as [|m IH]; intros f; [reflexivity|].
  transitivity (sumBelow (1 + m) (fun i => f (S m - 1 - i)));
    [|reflexivity].
  rewrite sumBelow_split. cbn [sumBelow]. rewrite (IH f).
  replace (S m - 1 - 0) with m by lia.
  rewrite (sumBelow_ext m (fun j => f (S m - 1 - (1 + j)))
             (fun i => f (m - 1 - i)))
    by (intros i Hi; f_equal; lia).
  lia.
Qed.

(** The terms from the index [i] on, renumbered from 0. *)
Lemma sumBelow_shift (bound i : nat) (g : nat -> Z) :
  sumBelow bound (fun s => if i <=? s then g s else 0%Z)
  = sumBelow (bound - i) (fun j => g (i + j)).
Proof.
  induction bound as [|bound IH]; [reflexivity|].
  cbn [sumBelow]. rewrite IH.
  destruct (Nat.leb_spec i bound) as [H | H].
  - replace (S bound - i) with (S (bound - i)) by lia. cbn [sumBelow].
    replace (i + (bound - i)) with bound by lia. reflexivity.
  - replace (S bound - i) with 0 by lia. replace (bound - i) with 0 by lia.
    reflexivity.
Qed.

(** A sum over i <= s <= bound written over all s <= bound. *)
Lemma sumBelow_above (m bound : nat) (f : nat -> Z) :
  m <= bound ->
  sumBelow m f = sumBelow bound (fun i => if i <? m then f i else 0%Z).
Proof.
  intros H. replace bound with (m + (bound - m)) by lia.
  rewrite sumBelow_split.
  rewrite (sumBelow_zero (bound - m)).
  - rewrite Z.add_0_r. apply sumBelow_ext. intros i Hi.
    replace (i <? m) with true by (symmetry; apply Nat.ltb_lt; exact Hi).
    reflexivity.
  - intros i _. replace (m + i <? m) with false
      by (symmetry; apply Nat.ltb_ge; lia).
    reflexivity.
Qed.

Lemma seriesProduct_ext (a a' b b' : nat -> Z) (k : nat) :
  (forall i, i <= k -> a i = a' i) -> (forall i, i <= k -> b i = b' i) ->
  seriesProduct a b k = seriesProduct a' b' k.
Proof.
  intros Ha Hb. unfold seriesProduct. apply sumBelow_ext.
  intros i Hi. rewrite Ha, Hb by lia. reflexivity.
Qed.

Lemma seriesProduct_comm (a b : nat -> Z) (k : nat) :
  seriesProduct a b k = seriesProduct b a k.
Proof.
  unfold seriesProduct. rewrite sumBelow_rev. apply sumBelow_ext.
  intros i Hi. replace (S k - 1 - i) with (k - i) by lia.
  replace (k - (k - i)) with i by lia. lia.
Qed.

Lemma seriesProduct_plus_l (a a' b : nat -> Z) (k : nat) :
  seriesProduct (fun i => (a i + a' i)%Z) b k
  = (seriesProduct a b k + seriesProduct a' b k)%Z.
Proof.
  unfold seriesProduct. rewrite <- sumBelow_plus. apply sumBelow_ext.
  intros i _. lia.
Qed.

Lemma seriesProduct_minus_l (a a' b : nat -> Z) (k : nat) :
  seriesProduct (fun i => (a i - a' i)%Z) b k
  = (seriesProduct a b k - seriesProduct a' b k)%Z.
Proof.
  unfold seriesProduct. rewrite <- sumBelow_minus. apply sumBelow_ext.
  intros i _. lia.
Qed.

Lemma seriesProduct_scale_l (c : Z) (a b : nat -> Z) (k : nat) :
  seriesProduct (fun i => (c * a i)%Z) b k = (c * seriesProduct a b k)%Z.
Proof.
  unfold seriesProduct. rewrite <- sumBelow_scale. apply sumBelow_ext.
  intros i _. lia.
Qed.

Lemma seriesProduct_sum_l (m : nat) (f : nat -> nat -> Z) (b : nat -> Z)
  (k : nat) :
  seriesProduct (fun i => sumBelow m (fun j => f j i)) b k
  = sumBelow m (fun j => seriesProduct (f j) b k).
Proof.
  unfold seriesProduct.
  rewrite (sumBelow_swap m (S k) (fun j i => (f j i * b (k - i)%nat)%Z)).
  apply sumBelow_ext. intros i _. rewrite sumBelow_scale_r. reflexivity.
Qed.

Lemma seriesProduct_assoc (a b c : nat -> Z) (k : nat) :
  seriesProduct (seriesProduct a b) c k
  = seriesProduct a (seriesProduct b c) k.
Proof.
  unfold seriesProduct at 1 2.
  (* the left side over the square of the indices i and s *)
  rewrite (sumBelow_ext (S k)
             (fun s => (sumBelow (S s) (fun i => (a i * b (s - i)%nat)%Z)
                        * c (k - s)%nat)%Z)
             (fun s =>
                sumBelow (S k)
                  (fun i => if i <=? s
                            then (a i * b (s - i)%nat * c (k - s)%nat)%Z
                            else 0%Z))).
  2:{ intros s Hs. rewrite <- sumBelow_scale_r.
      rewrite (sumBelow_above (S s) (S k)) by lia.
      apply sumBelow_ext. intros i _.
      destruct (Nat.ltb_spec i (S s)) as [H | H];
        destruct (Nat.leb_spec i s) as [H' | H']; try lia; reflexivity. }
  rewrite sumBelow_swap.
  unfold seriesProduct. apply sumBelow_ext. intros i Hi.
  rewrite sumBelow_shift.
  replace (S k - i) with (S (k - i)) by lia.
  rewrite <- sumBelow_scale. apply sumBelow_ext. intros j Hj.
  replace (i + j - i) with j by lia.
  replace (k - (i + j)) with (k - i - j) by lia. lia.
Qed.

(** Multiplication by x^n + 1 commutes with the product. *)
Lemma seriesProduct_timesModulus (n : nat) (c b : nat -> Z) (k : nat) :
  seriesProduct (timesModulus n c) b k
  = timesModulus n (seriesProduct c b) k.
Proof.
  unfold timesModulus at 1.
  rewrite (seriesProduct_plus_l c
             (fun i => if n <=? i then c (i - n) else 0%Z) b k).
  unfold timesModulus. f_equal.
  unfold seriesProduct.
  rewrite (sumBelow_ext (S k)
             (fun i =>
                ((if (n <=? i)%nat then c (i - n)%nat else 0)
                 * b (k - i)%nat)%Z)
             (fun i =>
                if n <=? i then (c (i - n)%nat * b (k - i)%nat)%Z else 0%Z))
    by (intros i _; destruct (n <=? i); lia).
  rewrite sumBelow_shift.
  destruct (Nat.leb_spec n k) as [H | H].
  - replace (S k - n) with (S (k - n)) by lia.
    apply sumBelow_ext. intros j Hj.
    replace (n + j - n) with j by lia.
    replace (k - (n + j)) with (k - n - j) by lia. reflexivity.
  - replace (S k - n) with 0 by lia. reflexivity.
Qed.

(** The product of two polynomials is a polynomial. *)
Lemma seriesProduct_support (a b : nat -> Z) (la lb k : nat) :
  (forall i, la <= i -> a i = 0%Z) -> (forall i, lb <= i -> b i = 0%Z) ->
  la + lb <= S k -> seriesProduct a b k = 0%Z.
Proof.
  intros Ha Hb Hk. unfold seriesProduct. apply sumBelow_zero.
  intros i Hi. destruct (Nat.le_gt_cases la i) as [H | H].
  - rewrite Ha by exact H. lia.
  - rewrite (Hb (k - i)) by lia. lia.
Qed.

(** ** Congruence modulo x^n + 1 and q *)

Lemma timesModulus_plus (n : nat) (c c' : nat -> Z) (k : nat) :
  timesModulus n (fun i => (c i + c' i)%Z) k
  = (timesModulus n c k + timesModulus n c' k)%Z.
Proof. unfold timesModulus. destruct (n <=? k); lia. Qed.

Lemma timesModulus_minus (n : nat) (c c' : nat -> Z) (k : nat) :
  timesModulus n (fun i => (c i - c' i)%Z) k
  = (timesModulus n c k - timesModulus n c' k)%Z.
Proof. unfold timesModulus. destruct (n <=? k); lia. Qed.

Lemma timesModulus_zero (n k : nat) : timesModulus n (fun _ => 0%Z) k = 0%Z.
Proof. unfold timesModulus. destruct (n <=? k); reflexivity. Qed.

Section Congruence.

Variable n : nat.
Variable q : Z.

Lemma ringCongruent_ext (a a' b b' : nat -> Z) :
  (forall k, a k = a' k) -> (forall k, b k = b' k) ->
  ringCongruent n q a b -> ringCongruent n q a' b'.
Proof.
  intros Ha Hb [qt [e [bound [Hq He]]]]. exists qt, e, bound.
  split; [exact Hq|]. intros k. rewrite <- Ha, <- Hb. apply He.
Qed.

Lemma ringCongruent_equal (a b : nat -> Z) :
  (forall k, a k = b k) -> ringCongruent n q a b.
Proof.
  intros H. exists (fun _ => 0%Z), (fun _ => 0%Z), 0.
  split; [reflexivity|]. intros k. rewrite timesModulus_zero, H. lia.
Qed.

Lemma ringCongruent_refl (a : nat -> Z) : ringCongruent n q a a.
Proof. apply ringCongruent_equal. reflexivity. Qed.

Lemma ringCongruent_sym (a b : nat -> Z) :
  ringCongruent n q a b -> ringCongruent n q b a.
Proof.
  intros [qt [e [bound [Hq He]]]].
  exists (fun i => (0 - qt i)%Z), (fun i => (0 - e i)%Z), bound.
  split; [intros i Hi; rewrite Hq by exact Hi; reflexivity|].
  intros k. rewrite timesModulus_minus, timesModulus_zero, He. lia.
Qed.

Lemma ringCongruent_trans (a b c : nat -> Z) :
  ringCongruent n q a b -> ringCongruent n q b c -> ringCongruent n q a c.
Proof.
  intros [qt [e [bound [Hq He]]]] [qt' [e' [bound' [Hq' He']]]].
  exists (fun i => (qt i + qt' i)%Z), (fun i => (e i + e' i)%Z),
    (Nat.max bound bound').
  split; [intros i Hi; rewrite Hq, Hq' by lia; reflexivity|].
  intros k. rewrite timesModulus_plus, He, He'. lia.
Qed.

Lemma ringCongruent_plus (a a' b b' : nat -> Z) :
  ringCongruent n q a a' -> ringCongruent n q b b' ->
  ringCongruent n q (fun k => (a k + b k)%Z) (fun k => (a' k + b' k)%Z).
Proof.
  intros [qt [e [bound [Hq He]]]] [qt' [e' [bound' [Hq' He']]]].
  exists (fun i => (qt i + qt' i)%Z), (fun i => (e i + e' i)%Z),
    (Nat.max bound bound').
  split; [intros i Hi; rewrite Hq, Hq' by lia; reflexivity|].
  intros k. rewrite timesModulus_plus, He, He'. lia.
Qed.

Lemma ringCongruent_minus (a a' b b' : nat -> Z) :
  ringCongruent n q a a' -> ringCongruent n q b b' ->
  ringCongruent n q (fun k => (a k - b k)%Z) (fun k => (a' k - b' k)%Z).
Proof.
  intros [qt [e [bound [Hq He]]]] [qt' [e' [bound' [Hq' He']]]].
  exists (fun i => (qt i - qt' i)%Z), (fun i => (e i - e' i)%Z),
    (Nat.max bound bound').
  split; [intros i Hi; rewrite Hq, Hq' by lia; reflexivity|].
  intros k. rewrite timesModulus_minus, He, He'. lia.
Qed.

Lemma ringCongruent_sum (m : nat) (f g : nat -> nat -> Z) :
  (forall i, i < m -> ringCongruent n q (f i) (g i)) ->
  ringCongruent n q (fun t => sumBelow m (fun i => f i t))
    (fun t => sumBelow m (fun i => g i t)).
Proof.
  induction m as [|m IH]; intros H.
  - apply ringCongruent_refl.
  - cbn [sumBelow].
    apply (ringCongruent_plus
             (fun t => sumBelow m (fun i => f i t))
             (fun t => sumBelow m (fun i => g i t)) (f m) (g m)).
    + apply IH. intros i Hi. apply H. lia.
    + apply H. lia.
Qed.

(** Coefficients congruent modulo q. *)
Lemma ringCongruent_pointwise (a b : nat -> Z) :
  q <> 0%Z ->
  (forall k, congruent q (a k) (b k)) -> ringCongruent n q a b.
Proof.
  intros Hq H. exists (fun _ => 0%Z), (fun k => ((a k - b k) / q)%Z), 0.
  split; [reflexivity|]. intros k. rewrite timesModulus_zero.
  destruct (H k) as [j Hj].
  replace (a k - b k)%Z with (j * q)%Z by lia.
  rewrite Z.div_mul by exact Hq. lia.
Qed.

(** The congruence is kept by the product with a polynomial. *)
Lemma ringCongruent_product_l (a a' b : nat -> Z) (lb : nat) :
  (forall i, lb <= i -> b i = 0%Z) ->
  ringCongruent n q a a' ->
  ringCongruent n q (seriesProduct a b) (seriesProduct a' b).
Proof.
  intros Hb [qt [e [bound [Hq He]]]].
  exists (seriesProduct qt b), (seriesProduct e b), (bound + lb).
  split.
  - intros i Hi. apply (seriesProduct_support qt b bound lb); [assumption..|lia].
  - intros k.
    rewrite (seriesProduct_ext a
               (fun i => (a' i + timesModulus n qt i + q * e i)%Z) b b k)
      by (intros; try apply He; reflexivity).
    rewrite (seriesProduct_plus_l
               (fun i => (a' i + timesModulus n qt i)%Z)
               (fun i => (q * e i)%Z) b k).
    rewrite (seriesProduct_plus_l a' (timesModulus n qt) b k).
    rewrite seriesProduct_timesModulus, seriesProduct_scale_l. reflexivity.
Qed.

Lemma ringCongruent_product_r (a b b' : nat -> Z) (la : nat) :
  (forall i, la <= i -> a i = 0%Z) ->
  ringCongruent n q b b' ->
  ringCongruent n q (seriesProduct a b) (seriesProduct a b').
Proof.
  intros Ha H.
  apply (ringCongruent_ext (seriesProduct b a) _ (seriesProduct b' a) _).
  - intros k. apply seriesProduct_comm.
  - intros k. apply seriesProduct_comm.
  - apply (ringCongruent_product_l b b' a la Ha H).
Qed.

(** Of two congruent polynomials, one of fewer than n coefficients and one
    of fewer than 2n: the coefficients of the first are congruent modulo q
    to those of the second folded once. *)
Lemma ringCongruent_fold (a b : nat -> Z) :
  0 < n ->
  ringCongruent n q a b ->
  (forall i, n <= i -> a i = 0%Z) ->
  (forall i, 2 * n <= i -> b i = 0%Z) ->
  forall t, t < n -> congruent q (a t) (b t - b (t + n)%nat)%Z.
Proof.
  intros Hn [qt [e [bound [Hq He]]]] Ha Hb t Ht.
  set (terms := bound + 2).
  assert (E : alternatingSum terms n a t
              = (alternatingSum terms n b t
                 + alternatingSum terms n (timesModulus n qt) t
                 + q * alternatingSum terms n e t)%Z).
  { rewrite (alternatingSum_ext _ _ _ _ He).
    rewrite alternatingSum_plus, alternatingSum_plus, alternatingSum_scale.
    reflexivity. }
  rewrite (alternatingSum_short terms n a t) in E by (unfold terms; lia || exact Ha).
  unfold timesModulus in E.
  rewrite (alternatingSum_quotient n bound qt Hq) in E
    by (unfold terms; nia).
  replace (n <=? t) with false in E by (symmetry; apply Nat.leb_gt; lia).
  assert (Eb : alternatingSum terms n b t = (b t - b (t + n)%nat)%Z).
  { unfold terms. replace (bound + 2) with (S (S bound)) by lia.
    cbn [alternatingSum].
    rewrite (alternatingSum_vanish bound n (2 * n) b Hb) by lia. lia. }
  rewrite Eb in E.
  exists (alternatingSum terms n e t). lia.
Qed.

End Congruence.

(** ** The operations of the program as operations on series *)

Lemma fold_right_add_from (c : Z) (l : list Z) :
  fold_right Z.add c l = (fold_right Z.add 0 l + c)%Z.
Proof. induction l as [|x l IH]; cbn [fold_right]; [lia|]. rewrite IH. lia. Qed.

Lemma fold_right_seq_sumBelow (m : nat) (f : nat -> Z) :
  fold_right Z.add 0%Z (map f (seq 0 m)) = sumBelow m f.
Proof.
  induction m as [|m IH]; [reflexivity|].
  rewrite seq_S, map_app, fold_right_app. cbn [map fold_right Nat.add sumBelow].
  rewrite fold_right_add_from, IH. lia.
Qed.

Lemma convolution_seriesProduct (a b : list Z) (k : nat) :
  convolution a b k
  = seriesProduct (fun i => nth i a 0%Z) (fun i => nth i b 0%Z) k.
Proof. unfold convolution, seriesProduct. apply fold_right_seq_sumBelow. Qed.

Lemma seriesOf_isInt (p : Polynomial) (t : nat) :
  Forall isInt (coefficients p) ->
  nth t (coefficients p) 0%Q = inject_Z (seriesOf p t).
Proof.
  intros H. unfold seriesOf. apply isInt_inject_Z. apply isInt_nth. exact H.
Qed.

Lemma seriesOf_overflow (p : Polynomial) (t : nat) :
  length (coefficients p) <= t -> seriesOf p t = 0%Z.
Proof. intros H. unfold seriesOf. rewrite nth_overflow by exact H. reflexivity. Qed.

Lemma nth_map_Qnum (l : list Q) (t : nat) :
  nth t (map Qnum l) 0%Z = Qnum (nth t l 0%Q).
Proof. change 0%Z with (Qnum 0%Q) at 1. apply map_nth. Qed.

(** The product array, coefficient by coefficient. *)
Lemma nth_productCoefficients (a b : Polynomial) (t : nat) :
  Forall isInt (coefficients a) -> Forall isInt (coefficients b) ->
  nth t (productCoefficients (coefficients a) (coefficients b)) 0%Q
  = inject_Z (seriesProduct (seriesOf a) (seriesOf b) t).
Proof.
  intros Ha Hb.
  set (az := map Qnum (coefficients a)). set (bz := map Qnum (coefficients b)).
  replace (coefficients a) with (map inject_Z az)
    by (symmetry; apply ints_as_Z; exact Ha).
  replace (coefficients b) with (map inject_Z bz)
    by (symmetry; apply ints_as_Z; exact Hb).
  destruct (productCoefficients_rows az bz) as [pz [E [Hl Hk]]].
  rewrite E, nth_map_inject_Z. f_equal.
  assert (Eser : forall k,
             seriesProduct (fun i => nth i az 0%Z) (fun i => nth i bz 0%Z) k
             = seriesProduct (seriesOf a) (seriesOf b) k).
  { intros k. apply seriesProduct_ext; intros i _; unfold az, bz;
      apply nth_map_Qnum. }
  destruct (Nat.lt_ge_cases t (length pz)) as [Hlt | Hge].
  - rewrite (Hk t Hlt), convolution_seriesProduct. apply Eser.
  - rewrite nth_overflow by exact Hge. symmetry.
    apply (seriesProduct_support _ _ (length az) (length bz)).
    + intros i Hi. apply seriesOf_overflow.
      unfold az in Hi. rewrite length_map in Hi. exact Hi.
    + intros i Hi. apply seriesOf_overflow.
      unfold bz in Hi. rewrite length_map in Hi. exact Hi.
    + lia.
Qed.

(** A sum or a difference of two arrays of integers, coefficient by
    coefficient, is the sum or the difference modulo q. *)
Lemma combine_congruent (op : Q -> Q -> Q) (opZ : Z -> Z -> Z)
  (a b : list Q) (q : Z) (t : nat) :
  (forall x y, op (inject_Z x) (inject_Z y) = inject_Z (opZ x y)) ->
  opZ 0%Z 0%Z = 0%Z ->
  (0 < q)%Z -> Forall isInt a -> Forall isInt b ->
  congruent q (Qnum (nth t (combineCoefficients op a b (inject_Z q)) 0%Q))
    (opZ (Qnum (nth t a 0%Q)) (Qnum (nth t b 0%Q))).
Proof.
  intros Hop Hop0 Hq Ha Hb.
  destruct (Nat.lt_ge_cases t (Nat.max (length a) (length b))) as [Hlt | Hge].
  - rewrite nth_combineCoefficients by exact Hlt.
    rewrite (isInt_inject_Z _ (isInt_nth a t Ha)).
    rewrite (isInt_inject_Z _ (isInt_nth b t Hb)).
    rewrite Hop, symmetricValueModuloQ_inject_Z by exact Hq.
    cbn [Qnum inject_Z].
    destruct (centerZ_congruent
                (opZ (Qnum (nth t a 0%Q)) (Qnum (nth t b 0%Q))) q Hq)
      as [j Hj].
    exists j. exact Hj.
  - rewrite !nth_overflow by (rewrite ?length_combineCoefficients; lia).
    cbn [Qnum]. exists 0%Z. lia.
Qed.

Lemma mapiM_from_ok_indexed {X Y : Type} (f : nat -> X -> outcome Y)
  (l : list X) :
  forall (Pr : nat -> Y -> Prop) (off : nat),
    (forall j x, nth_error l j = Some x ->
                 exists y, f (off + j) x = Ok y /\ Pr j y) ->
    exists ys,
      mapiM_from f off l = Ok ys /\ length ys = length l /\
      forall j y, nth_error ys j = Some y -> Pr j y.
Proof.
  induction l as [|x l IH]; intros Pr off H.
  - exists []. split; [reflexivity|]. split; [reflexivity|].
    intros j y Hj. destruct j; discriminate Hj.
  - destruct (H 0 x eq_refl) as [y [Ey Hy]]. rewrite Nat.add_0_r in Ey.
    destruct (IH (fun j => Pr (S j)) (S off)) as [ys [Eys [Hl Hys]]].
    { intros j x' Hj. replace (S off + j) with (off + S j) by lia.
      apply (H (S j) x' Hj). }
    exists (y :: ys). cbn [mapiM_from]. rewrite Ey. cbn [bind].
    rewrite Eys. cbn [bind]. split; [reflexivity|].
    split; [cbn [length]; lia|].
    intros j y' Hj. destruct j as [|j].
    + cbn in Hj. injection Hj as <-. exact Hy.
    + apply Hys. exact Hj.
Qed.

Lemma foldM_seq_ok {St : Type} (Inv : nat -> St -> Prop)
  (f : St -> nat -> outcome St) (len : nat) :
  forall (s : nat) (acc : St),
    Inv s acc ->
    (forall acc x,
        s <= x < s + len -> Inv x acc ->
        exists acc', f acc x = Ok acc' /\ Inv (S x) acc') ->
    exists r, foldM f (seq s len) acc = Ok r /\ Inv (s + len) r.
Proof.
  induction len as [|len IH]; intros s acc Hacc H.
  - exists acc. rewrite Nat.add_0_r. split; [reflexivity | exact Hacc].
  - cbn [seq foldM].
    destruct (H acc s ltac:(lia) Hacc) as [acc' [E Hacc']].
    rewrite E. cbn [bind].
    destruct (IH (S s) acc' Hacc') as [r [Er Hr]].
    { intros a x Hx. apply H. lia. }
    exists r. split; [exact Er|].
    replace (s + S len) with (S s + len) by lia. exact Hr.
Qed.

Lemma nth_zipWith {X Y W : Type} (g : X -> Y -> W) (l : list X) (l' : list Y)
  (i : nat) (dx : X) (dy : Y) (dw : W) :
  i < length l -> i < length l' ->
  nth i (zipWith g l l') dw = g (nth i l dx) (nth i l' dy).
Proof.
  revert l' i. induction l as [|x l IH]; intros l' i Hl Hl';
    [cbn in Hl; lia|].
  destruct l' as [|y l']; [cbn in Hl'; lia|].
  destruct i as [|i]; cbn [zipWith nth]; [reflexivity|].
  apply IH; cbn [length] in *; lia.
Qed.

Lemma length_zipWith {X Y W : Type} (g : X -> Y -> W) (l : list X)
  (l' : list Y) :
  length l = length l' -> length (zipWith g l l') = length l.
Proof.
  revert l'. induction l as [|x l IH]; intros l' H; [reflexivity|].
  destruct l' as [|y l']; [discriminate H|].
  cbn [zipWith length]. rewrite IH; [reflexivity|]. cbn in H. lia.
Qed.

(** The entries of the transposed matrix. *)
Lemma transposeMatrix_entry (Pr : Polynomial -> Prop) (rows cols : nat)
  (M T : PolynomialMatrix) (i j : nat) :
  matrixOf Pr rows cols M -> 0 < rows ->
  transposeMatrix M = Ok T ->
  i < rows -> j < cols ->
  entry T j i = entry M i j.
Proof.
  intros [Hl HM] Hr ET Hi Hj.
  assert (HM' : Forall (fun row => length row = cols) M).
  { eapply Forall_impl; [|exact HM]. intros row [H _]. exact H. }
  set (d0 := mkPolynomial []).
  rewrite (transposeMatrix_rectangular rows cols M d0 Hl Hr HM') in ET.
  injection ET as ET. subst T. unfold entry. fold d0.
  rewrite (nth_indep _ [] (map (fun row => nth 0 row d0) M))
    by (rewrite length_map, length_seq; exact Hj).
  rewrite (map_nth (fun j => map (fun row => nth j row d0) M) (seq 0 cols) 0 j).
  rewrite seq_nth by exact Hj. cbn [Nat.add].
  rewrite (nth_indep _ d0 (nth j [] d0)) by (rewrite length_map; lia).
  rewrite (map_nth (fun row => nth j row d0) M [] i). reflexivity.
Qed.

Lemma entry_ringElement (Pr : Polynomial -> Prop) (rows cols : nat)
  (M : PolynomialMatrix) (i j : nat) :
  matrixOf Pr rows cols M -> i < rows -> j < cols -> Pr (entry M i j).
Proof.
  intros HM Hi Hj.
  destruct (matrixOf_row Pr rows cols M i HM Hi) as [row [_ [E [Hl HP]]]].
  unfold entry. rewrite E. rewrite Forall_forall in HP. apply HP.
  apply nth_In. lia.
Qed.

Lemma entry_zipWith (g : Polynomial -> Polynomial -> Polynomial)
  (Pr Pr' : Polynomial -> Prop) (rows cols : nat) (A B : PolynomialMatrix)
  (i j : nat) :
  matrixOf Pr rows cols A -> matrixOf Pr' rows cols B ->
  i < rows -> j < cols ->
  entry (zipWith (zipWith g) A B) i j = g (entry A i j) (entry B i j).
Proof.
  intros HA HB Hi Hj. unfold entry.
  destruct (matrixOf_row _ _ _ A i HA Hi) as [ra [_ [Era [Hla _]]]].
  destruct (matrixOf_row _ _ _ B i HB Hi) as [rb [_ [Erb [Hlb _]]]].
  destruct HA as [HlA _]. destruct HB as [HlB _].
  rewrite (nth_zipWith (zipWith g) A B i [] []) by lia.
  rewrite Era, Erb.
  apply (nth_zipWith g ra rb j (mkPolynomial []) (mkPolynomial [])); lia.
Qed.

(** The coefficients of a sum or difference are centred. *)
Lemma combine_centered (op : Q -> Q -> Q) (a b : list Q) (q : Z) (t : nat) :
  (forall x y, isInt x -> isInt y -> isInt (op x y)) ->
  (0 < q)%Z -> Forall isInt a -> Forall isInt b ->
  centeredZ q (Qnum (nth t (combineCoefficients op a b (inject_Z q)) 0%Q)).
Proof.
  intros Hop Hq Ha Hb. unfold centeredZ.
  destruct (Nat.lt_ge_cases t (Nat.max (length a) (length b))) as [Hlt | Hge].
  - rewrite nth_combineCoefficients by exact Hlt.
    rewrite (isInt_inject_Z (op (nth t a 0%Q) (nth t b 0%Q)))
      by (apply Hop; apply isInt_nth; assumption).
    rewrite symmetricValueModuloQ_inject_Z by exact Hq.
    cbn [Qnum inject_Z]. apply centerZ_range. exact Hq.
  - rewrite nth_overflow by (rewrite length_combineCoefficients; lia).
    cbn [Qnum].
    pose proof (Z.div_pos q 2 ltac:(lia) ltac:(lia)). lia.
Qed.

Section Semantics.

Variable P : Parameters.
Variable fuel : nat.
Hypothesis valid : validParameters P.
Hypothesis enough_fuel : param_n P <= fuel.

Let q : Q := inject_Z (param_q P).
Let mp : Polynomial := modulusPolynomial P.
Let n : nat := param_n P.

Lemma valid_n : 0 < param_n P.
Proof. apply valid. Qed.

(** The reduction of an array of integers of at most 2n coefficients
    returns a polynomial congruent to it. *)
Lemma reduce_semantics (summed : list Q) :
  Forall isInt summed -> length summed <= 2 * n ->
  exists r,
    dividePolynomials fuel (mkPolynomial summed) mp q = Ok r /\
    ringElement P r /\
    ringCongruent n (param_q P) (seriesOf r) (seriesOf (mkPolynomial summed)) /\
    ((forall t, centeredZ (param_q P) (Qnum (nth t summed 0%Q))) ->
     forall t, centeredZ (param_q P) (seriesOf r t)).
Proof.
  intros Hi Hl.
  destruct (reduction_loop P (valid_q P valid) valid_n fuel (map Qnum summed))
    as [rz [qf [ef [Er [Hlr [_ [Hqf [He Hcen]]]]]]]].
  { rewrite length_map. fold n. lia. }
  rewrite <- (ints_as_Z summed Hi) in Er.
  exists (mkPolynomial (map inject_Z rz)).
  unfold dividePolynomials, mp, q. cbn [coefficients]. rewrite Er.
  split; [reflexivity|]. split; [|split].
  - split; [|cbn [coefficients]; rewrite length_map; exact Hlr].
    cbn [coefficients]. apply Forall_forall. intros x Hx.
    apply in_map_iff in Hx. destruct Hx as [z [<- _]]. apply isInt_inject.
  - apply ringCongruent_sym.
    exists qf, ef, (length (map Qnum summed) - param_n P).
    split; [exact Hqf|]. intros t. unfold seriesOf, timesModulus.
    cbn [coefficients]. rewrite nth_map_inject_Z. cbn [Qnum inject_Z].
    rewrite <- nth_map_Qnum. rewrite (He t). fold n. lia.
  - intros Hsummed t. unfold seriesOf. cbn [coefficients].
    rewrite nth_map_inject_Z. cbn [Qnum inject_Z].
    destruct (Hcen t) as [E | H]; [|exact H].
    rewrite E, nth_map_Qnum. apply Hsummed.
Qed.

(** One entry of a product of matrices: the sum over the inner index of
    the products of the entries, modulo x^n + 1 and q. *)
Lemma product_entry_semantics (rowA : list Polynomial) (B : PolynomialMatrix)
  (inner cols j : nat) :
  length rowA = inner -> Forall (ringElement P) rowA ->
  matrixOf (ringElement P) inner cols B -> j < cols ->
  exists r,
    (summed <-
       foldM
         (fun current k =>
            polyA <- defined (nth_error rowA k) ;;
            polyB <- defined (nth_error (nth k B []) j) ;;
            Ok (combineCoefficients Qplus current
                  (productCoefficients (coefficients polyA)
                     (coefficients polyB)) q))
         (seq 0 inner) [] ;;
     dividePolynomials fuel (mkPolynomial summed) mp q) = Ok r /\
    ringElement P r /\
    ringCongruent n (param_q P) (seriesOf r)
      (fun t =>
         sumBelow inner
           (fun kk =>
              seriesProduct (seriesOf (nth kk rowA (mkPolynomial [])))
                (seriesOf (entry B kk j)) t)) /\
    forall t, centeredZ (param_q P) (seriesOf r t).
Proof.
  intros HlA HPA HB Hj.
  pose proof (valid_q P valid) as Hq.
  destruct (foldM_seq_ok
              (fun k' acc =>
                 Forall isInt acc /\ length acc <= 2 * n /\
                 (forall t, centeredZ (param_q P) (Qnum (nth t acc 0%Q))) /\
                 forall t,
                   congruent (param_q P) (Qnum (nth t acc 0%Q))
                     (sumBelow k'
                        (fun kk =>
                           seriesProduct
                             (seriesOf (nth kk rowA (mkPolynomial [])))
                             (seriesOf (entry B kk j)) t)))
              (fun current k =>
                 polyA <- defined (nth_error rowA k) ;;
                 polyB <- defined (nth_error (nth k B []) j) ;;
                 Ok (combineCoefficients Qplus current
                       (productCoefficients (coefficients polyA)
                          (coefficients polyB)) q))
              inner 0 []) as [summed [Hs [Hsi [Hsl [Hscen Hsc]]]]].
  - split; [constructor|]. split; [cbn; lia|]. split.
    + intros t. unfold centeredZ.
      pose proof (Z.div_pos (param_q P) 2 ltac:(lia) ltac:(lia)).
      destruct t; cbn; lia.
    + intros t. cbn [sumBelow]. destruct t; cbn; exists 0%Z; lia.
  - intros acc k [_ Hk] [Hai [Hal [_ Hac]]].
    destruct (row_entry _ rowA k HPA ltac:(lia)) as [polyA [EpA [HiA HlpA]]].
    destruct (matrixOf_row _ _ _ B k HB ltac:(lia))
      as [rowB [_ [ErowB [HlrB HPrB]]]].
    destruct (row_entry _ rowB j HPrB ltac:(lia)) as [polyB [EpB [HiB HlpB]]].
    rewrite EpA, ErowB, EpB. cbn [defined bind].
    eexists. split; [reflexivity|].
    destruct (productCoefficients_spec _ _ HiA HiB) as [Hpl Hpi].
    split; [|split; [|split]].
    + apply isInt_combineCoefficients; unfold q; auto with ints.
    + rewrite length_combineCoefficients, Hpl. fold n in HlpA, HlpB. lia.
    + intros t. unfold q.
      apply combine_centered; [auto with ints | exact Hq | exact Hai | exact Hpi].
    + intros t. cbn [sumBelow].
      destruct (combine_congruent Qplus Z.add acc
                  (productCoefficients (coefficients polyA)
                     (coefficients polyB))
                  (param_q P) t inject_Z_plus eq_refl Hq Hai Hpi) as [j1 Hj1].
      destruct (Hac t) as [j2 Hj2].
      exists (j1 + j2)%Z. unfold q. rewrite Hj1, Hj2.
      rewrite (nth_productCoefficients polyA polyB t HiA HiB).
      cbn [Qnum inject_Z].
      rewrite (nth_error_nth_default rowA k polyA (mkPolynomial []) EpA).
      unfold entry. rewrite ErowB.
      rewrite (nth_error_nth_default rowB j polyB (mkPolynomial []) EpB).
      lia.
  - rewrite Hs. cbn [bind].
    destruct (reduce_semantics summed Hsi Hsl) as [r [Er [Hr [Hc Hrc]]]].
    exists r. split; [exact Er|]. split; [exact Hr|]. split.
    + eapply ringCongruent_trans; [exact Hc|].
      apply ringCongruent_pointwise; [lia|].
      intros t. unfold seriesOf at 1. cbn [coefficients]. apply Hsc.
    + apply Hrc. exact Hscen.
Qed.

(** The entries of a product of matrices. *)
Lemma multiply_semantics (rows inner cols : nat) (A B : PolynomialMatrix) :
  0 < rows -> 0 < inner ->
  matrixOf (ringElement P) rows inner A ->
  matrixOf (ringElement P) inner cols B ->
  exists C,
    multiplyMatrices fuel A B q mp = Ok C /\
    matrixOf (ringElement P) rows cols C /\
    forall i j,
      i < rows -> j < cols ->
      ringCongruent n (param_q P) (seriesOf (entry C i j))
        (fun t =>
           sumBelow inner
             (fun kk =>
                seriesProduct (seriesOf (entry A i kk))
                  (seriesOf (entry B kk j)) t)) /\
      forall t, centeredZ (param_q P) (seriesOf (entry C i j) t).
Proof.
  intros Hrows Hinner HA HB. unfold multiplyMatrices.
  destruct (matrixOf_row _ _ _ A 0 HA Hrows) as [A0 [EA0 [_ [HlA0 _]]]].
  destruct (matrixOf_row _ _ _ B 0 HB Hinner) as [B0 [EB0 [_ [HlB0 _]]]].
  rewrite EA0. cbn [defined bind].
  assert (HlB : length B = inner) by (destruct HB; assumption).
  assert (HlA : length A = rows) by (destruct HA; assumption).
  rewrite HlA0, HlB, Nat.eqb_refl. cbn [negb].
  rewrite EB0. cbn [defined bind]. rewrite HlB0.
  match goal with
  | |- exists C, mapiM ?f A = Ok C /\ _ =>
      destruct (mapiM_from_ok_indexed f A
                  (fun i row =>
                     length row = cols /\
                     forall j y,
                       nth_error row j = Some y ->
                       ringElement P y /\
                       ringCongruent n (param_q P) (seriesOf y)
                         (fun t =>
                            sumBelow inner
                              (fun kk =>
                                 seriesProduct (seriesOf (entry A i kk))
                                   (seriesOf (entry B kk j)) t)) /\
                       forall t, centeredZ (param_q P) (seriesOf y t))
                  0) as [C [HC [HlC HPC]]]
  end.
  - intros i rowA Hi. cbn [Nat.add].
    assert (Hirows : i < rows).
    { rewrite <- HlA. apply nth_error_Some. congruence. }
    destruct (matrixOf_row _ _ _ A i HA Hirows)
      as [rowA' [_ [ErowA [HlrA HPrA]]]].
    rewrite ErowA. unfold mapM, mapiM.
    match goal with
    | |- exists y, mapiM_from ?g 0 _ = Ok y /\ _ =>
        destruct (mapiM_from_ok_indexed g (seq 0 cols)
                    (fun j y =>
                       ringElement P y /\
                       ringCongruent n (param_q P) (seriesOf y)
                         (fun t =>
                            sumBelow inner
                              (fun kk =>
                                 seriesProduct (seriesOf (entry A i kk))
                                   (seriesOf (entry B kk j)) t)) /\
                       forall t, centeredZ (param_q P) (seriesOf y t))
                    0) as [row [Hrow [Hlrow HProw]]]
    end.
    + intros j x Hx. cbn [Nat.add].
      assert (Hjc : j < cols).
      { rewrite <- (length_seq cols 0). apply nth_error_Some. congruence. }
      assert (Ex : x = j).
      { pose proof (nth_error_nth_default (seq 0 cols) j x 0 Hx) as Ex0.
        rewrite seq_nth in Ex0 by exact Hjc. symmetry. exact Ex0. }
      subst x.
      destruct (product_entry_semantics rowA' B inner cols j HlrA HPrA HB Hjc)
        as [r [Er [Hr [Hc Hrc]]]].
      exists r. split; [exact Er|]. split; [exact Hr|].
      split; [|exact Hrc].
      eapply ringCongruent_ext; [reflexivity | | exact Hc].
      intros t. cbv beta. apply sumBelow_ext. intros kk _.
      unfold entry at 2. rewrite ErowA. reflexivity.
    + exists row. split; [exact Hrow|]. rewrite length_seq in Hlrow.
      split; [exact Hlrow | exact HProw].
  - exists C. split; [exact HC|]. split.
    + split; [lia|]. apply Forall_forall. intros row Hrow.
      destruct (In_nth_error _ _ Hrow) as [i Hi].
      destruct (HPC i row Hi) as [Hl Hy]. split; [exact Hl|].
      apply Forall_forall. intros y Hyin.
      destruct (In_nth_error _ _ Hyin) as [j Hj].
      exact (proj1 (Hy j y Hj)).
    + intros i j Hi Hj.
      destruct (nth_error C i) as [row|] eqn:Erow;
        [|apply nth_error_None in Erow; lia].
      destruct (HPC i row Erow) as [Hl Hy].
      destruct (nth_error row j) as [y|] eqn:Ey;
        [|apply nth_error_None in Ey; lia].
      change (entry C i j) with (nth j (nth i C []) (mkPolynomial [])).
      rewrite (nth_error_nth_default C i row [] Erow).
      rewrite (nth_error_nth_default row j y (mkPolynomial []) Ey).
      exact (proj2 (Hy j y Ey)).
Qed.

(** A sum or a difference of matrices whose entries have at most n
    coefficients needs no reduction. *)
Lemma combineMatrices_explicit (op : Q -> Q -> Q)
  (PA PB : Polynomial -> Prop) (rows cols : nat) (A B : PolynomialMatrix)
  (moduloQ : Q) :
  0 < rows ->
  matrixOf PA rows cols A -> matrixOf PB rows cols B ->
  (forall a, PA a -> length (coefficients a) <= n) ->
  (forall b, PB b -> length (coefficients b) <= n) ->
  combineMatrices op fuel A B moduloQ mp
  = Ok (zipWith (zipWith (combinePolynomials op moduloQ)) A B).
Proof.
  intros Hrows [HlA HrA] [HlB HrB] HPA HPB.
  apply combineMatrices_short.
  - intros E. rewrite E in HlA. simpl in HlA. lia.
  - assert (H0 : Forall2
                   (fun ra rb => (length ra = cols /\ Forall PA ra)
                                 /\ (length rb = cols /\ Forall PB rb)) A B)
      by (apply Forall2_of_Forall; [lia | assumption | assumption]).
    eapply Forall2_impl; [|exact H0].
    intros ra rb [[Hla Hfa] [Hlb Hfb]].
    assert (H1 : Forall2 (fun a b => PA a /\ PB b) ra rb)
      by (apply Forall2_of_Forall; [lia | assumption | assumption]).
    eapply Forall2_impl; [|exact H1].
    intros a b [Ha Hb]. unfold shortPair, mp.
    rewrite length_modulusPolynomial.
    pose proof (HPA a Ha). pose proof (HPB b Hb). fold n. lia.
Qed.

(** The entries of a sum of matrices of polynomials with integer
    coefficients. *)
Lemma sum_semantics (rows cols : nat) (A B C : PolynomialMatrix) :
  0 < rows ->
  matrixOf (ringElement P) rows cols A ->
  matrixOf (ringElement P) rows cols B ->
  addMatrices fuel A B q mp = Ok C ->
  forall i j,
    i < rows -> j < cols ->
    entry C i j = combinePolynomials Qplus q (entry A i j) (entry B i j) /\
    ringCongruent n (param_q P) (seriesOf (entry C i j))
      (fun t => (seriesOf (entry A i j) t + seriesOf (entry B i j) t)%Z).
Proof.
  intros Hrows HA HB E i j Hi Hj.
  unfold addMatrices in E.
  rewrite (combineMatrices_explicit Qplus _ _ rows cols A B q Hrows HA HB) in E.
  2:{ intros a [_ Ha]. exact Ha. }
  2:{ intros b [_ Hb]. exact Hb. }
  injection E as E. subst C.
  rewrite (entry_zipWith _ _ _ rows cols A B i j HA HB Hi Hj).
  split; [reflexivity|].
  destruct (entry_ringElement _ _ _ A i j HA Hi Hj) as [HiA _].
  destruct (entry_ringElement _ _ _ B i j HB Hi Hj) as [HiB _].
  apply ringCongruent_pointwise; [pose proof (valid_q P valid); lia|].
  intros t. unfold seriesOf, combinePolynomials, q. cbn [coefficients].
  apply (combine_congruent Qplus Z.add _ _ (param_q P) t inject_Z_plus eq_refl
           (valid_q P valid) HiA HiB).
Qed.

End Semantics.

(** ** Decryption recovers the block when the noise is small *)

Lemma seriesOf_support (P : Parameters) (p : Polynomial) (i : nat) :
  ringElement P p -> param_n P <= i -> seriesOf p i = 0%Z.
Proof. intros [_ Hl] Hi. apply seriesOf_overflow. lia. Qed.

Section Algebra.

Variable P : Parameters.
Variable fuel : nat.
Hypothesis valid : validParameters P.
Hypothesis enough_fuel : param_n P <= fuel.

Let q : Q := inject_Z (param_q P).
Let mp : Polynomial := modulusPolynomial P.
Let n : nat := param_n P.
Let k : nat := param_k P.

(** The sampled matrices. *)
Variables s e A r e1 e2 : PolynomialMatrix.
Hypothesis s_shape : matrixOf (ringElement P) k 1 s.
Hypothesis e_shape : matrixOf (ringElement P) k 1 e.
Hypothesis A_shape : matrixOf (ringElement P) k k A.
Hypothesis r_shape : matrixOf (ringElement P) k 1 r.
Hypothesis e1_shape : matrixOf (ringElement P) k 1 e1.
Hypothesis e2_shape : matrixOf (ringElement P) 1 1 e2.

(** The matrices computed by key generation, encryption and decryption. *)
Variables As t At Atr u tt ttr st : PolynomialMatrix.
Variables w sp : Polynomial.
Hypothesis As_eq : multiplyMatrices fuel A s q mp = Ok As.
Hypothesis t_eq : addMatrices fuel As e q mp = Ok t.
Hypothesis At_eq : transposeMatrix A = Ok At.
Hypothesis Atr_eq : multiplyMatrices fuel At r q mp = Ok Atr.
Hypothesis u_eq : addMatrices fuel Atr e1 q mp = Ok u.
Hypothesis tt_eq : transposeMatrix t = Ok tt.
Hypothesis ttr_eq : multiplyMatrices fuel tt r q mp = Ok ttr.
Hypothesis w_eq : addMatrices fuel ttr e2 q mp = Ok [[w]].
Hypothesis st_eq : transposeMatrix s = Ok st.
Hypothesis sp_eq : multiplyMatrices fuel st u q mp = Ok [[sp]].

Let Sv (i : nat) : nat -> Z := seriesOf (entry s i 0).
Let Ev (i : nat) : nat -> Z := seriesOf (entry e i 0).
Let Am (i j : nat) : nat -> Z := seriesOf (entry A i j).
Let Rv (i : nat) : nat -> Z := seriesOf (entry r i 0).
Let E1v (i : nat) : nat -> Z := seriesOf (entry e1 i 0).
Let E2p : nat -> Z := seriesOf (entry e2 0 0).

(** t = A s + e *)
Let Tv (i : nat) : nat -> Z :=
  fun x => (sumBelow k (fun j => seriesProduct (Am i j) (Sv j) x) + Ev i x)%Z.

(** u = A^T r + e1 *)
Let Uv (i : nat) : nat -> Z :=
  fun x => (sumBelow k (fun j => seriesProduct (Am j i) (Rv j) x) + E1v i x)%Z.

Lemma k_positive : 0 < k.
Proof. apply valid. Qed.

Lemma same_result {X : Type} (x y : X) (m : outcome X) :
  m = Ok x -> m = Ok y -> x = y.
Proof. intros E1 E2. rewrite E1 in E2. injection E2 as E2. exact E2. Qed.

Lemma As_shape : matrixOf (ringElement P) k 1 As.
Proof.
  destruct (multiply_semantics P fuel valid enough_fuel k k 1 A s
              k_positive k_positive A_shape s_shape) as [C [EC [HC _]]].
  rewrite (same_result _ _ _ As_eq EC). exact HC.
Qed.

Lemma t_congruent (i : nat) :
  i < k -> ringCongruent n (param_q P) (seriesOf (entry t i 0)) (Tv i).
Proof.
  intros Hi.
  destruct (multiply_semantics P fuel valid enough_fuel k k 1 A s
              k_positive k_positive A_shape s_shape) as [C [EC [HC Hsem]]].
  pose proof (same_result _ _ _ As_eq EC) as EAs. subst C.
  destruct (sum_semantics P fuel valid enough_fuel k 1 As e t k_positive
              HC e_shape t_eq i 0 Hi ltac:(lia)) as [_ Hsum].
  eapply ringCongruent_trans; [exact Hsum|].
  apply (ringCongruent_plus n (param_q P) (seriesOf (entry As i 0))
           (fun x => sumBelow k (fun j => seriesProduct (Am i j) (Sv j) x))
           (seriesOf (entry e i 0)) (Ev i)).
  - apply (Hsem i 0 Hi). lia.
  - apply ringCongruent_refl.
Qed.

Lemma sum_shape (rows cols : nat) (X Y Z : PolynomialMatrix) :
  0 < rows ->
  matrixOf (ringElement P) rows cols X ->
  matrixOf (ringElement P) rows cols Y ->
  addMatrices fuel X Y q mp = Ok Z ->
  matrixOf (ringElement P) rows cols Z.
Proof.
  intros Hrows HX HY E.
  destruct (combineMatrices_ok P Qplus fuel (ringElement P) (ringElement P)
              (ringElement P) rows cols X Y q Hrows HX HY)
    as [C [EC HC]].
  - intros a [_ Ha]. exact Ha.
  - intros b [_ Hb]. exact Hb.
  - intros a b Ha Hb. apply combinePolynomials_ringElement;
      [apply isInt_plus | assumption | assumption].
  - unfold addMatrices in E. rewrite (same_result _ _ _ E EC). exact HC.
Qed.

Lemma t_shape : matrixOf (ringElement P) k 1 t.
Proof. exact (sum_shape k 1 As e t k_positive As_shape e_shape t_eq). Qed.

Lemma At_shape : matrixOf (ringElement P) k k At.
Proof.
  destruct (transposeMatrix_ok _ _ _ _ A_shape k_positive) as [T [ET HT]].
  rewrite (same_result _ _ _ At_eq ET). exact HT.
Qed.

Lemma tt_shape : matrixOf (ringElement P) 1 k tt.
Proof.
  destruct (transposeMatrix_ok _ _ _ _ t_shape k_positive) as [T [ET HT]].
  rewrite (same_result _ _ _ tt_eq ET). exact HT.
Qed.

Lemma st_shape : matrixOf (ringElement P) 1 k st.
Proof.
  destruct (transposeMatrix_ok _ _ _ _ s_shape k_positive) as [T [ET HT]].
  rewrite (same_result _ _ _ st_eq ET). exact HT.
Qed.

Lemma Atr_shape : matrixOf (ringElement P) k 1 Atr.
Proof.
  destruct (multiply_semantics P fuel valid enough_fuel k k 1 At r
              k_positive k_positive At_shape r_shape) as [C [EC [HC _]]].
  rewrite (same_result _ _ _ Atr_eq EC). exact HC.
Qed.

Lemma u_shape : matrixOf (ringElement P) k 1 u.
Proof. exact (sum_shape k 1 Atr e1 u k_positive Atr_shape e1_shape u_eq). Qed.

Lemma ttr_shape : matrixOf (ringElement P) 1 1 ttr.
Proof.
  destruct (multiply_semantics P fuel valid enough_fuel 1 k 1 tt r
              ltac:(lia) k_positive tt_shape r_shape) as [C [EC [HC _]]].
  rewrite (same_result _ _ _ ttr_eq EC). exact HC.
Qed.

Lemma u_congruent (i : nat) :
  i < k -> ringCongruent n (param_q P) (seriesOf (entry u i 0)) (Uv i).
Proof.
  intros Hi.
  destruct (multiply_semantics P fuel valid enough_fuel k k 1 At r
              k_positive k_positive At_shape r_shape) as [C [EC [HC Hsem]]].
  pose proof (same_result _ _ _ Atr_eq EC) as E0. subst C.
  destruct (sum_semantics P fuel valid enough_fuel k 1 Atr e1 u k_positive
              HC e1_shape u_eq i 0 Hi ltac:(lia)) as [_ Hsum].
  eapply ringCongruent_trans; [exact Hsum|].
  apply (ringCongruent_plus n (param_q P) (seriesOf (entry Atr i 0))
           (fun x => sumBelow k (fun j => seriesProduct (Am j i) (Rv j) x))
           (seriesOf (entry e1 i 0)) (E1v i)).
  - eapply ringCongruent_ext; [reflexivity | | apply (Hsem i 0 Hi); lia].
    intros x. cbv beta. apply sumBelow_ext. intros j Hj.
    unfold Am, Rv.
    rewrite (transposeMatrix_entry _ k k A At j i A_shape k_positive At_eq Hj Hi).
    reflexivity.
  - apply ringCongruent_refl.
Qed.

Lemma Rv_support (i j : nat) : i < k -> n <= j -> Rv i j = 0%Z.
Proof.
  intros Hi Hj. unfold Rv. apply (seriesOf_support P); [|exact Hj].
  apply (entry_ringElement _ k 1 r i 0 r_shape Hi). lia.
Qed.

Lemma Sv_support (i j : nat) : i < k -> n <= j -> Sv i j = 0%Z.
Proof.
  intros Hi Hj. unfold Sv. apply (seriesOf_support P); [|exact Hj].
  apply (entry_ringElement _ k 1 s i 0 s_shape Hi). lia.
Qed.

Lemma Ev_support (i j : nat) : i < k -> n <= j -> Ev i j = 0%Z.
Proof.
  intros Hi Hj. unfold Ev. apply (seriesOf_support P); [|exact Hj].
  apply (entry_ringElement _ k 1 e i 0 e_shape Hi). lia.
Qed.

Lemma E1v_support (i j : nat) : i < k -> n <= j -> E1v i j = 0%Z.
Proof.
  intros Hi Hj. unfold E1v. apply (seriesOf_support P); [|exact Hj].
  apply (entry_ringElement _ k 1 e1 i 0 e1_shape Hi). lia.
Qed.

Lemma E2p_support (j : nat) : n <= j -> E2p j = 0%Z.
Proof.
  intros Hj. unfold E2p. apply (seriesOf_support P); [|exact Hj].
  apply (entry_ringElement _ 1 1 e2 0 0 e2_shape); lia.
Qed.

(** w = t^T r + e2 *)
Lemma w_congruent :
  ringCongruent n (param_q P) (seriesOf w)
    (fun x =>
       (sumBelow k (fun i => seriesProduct (Tv i) (Rv i) x) + E2p x)%Z).
Proof.
  destruct (multiply_semantics P fuel valid enough_fuel 1 k 1 tt r
              ltac:(lia) k_positive tt_shape r_shape) as [C [EC [HC Hsem]]].
  pose proof (same_result _ _ _ ttr_eq EC) as E0. subst C.
  destruct (sum_semantics P fuel valid enough_fuel 1 1 ttr e2 [[w]]
              ltac:(lia) HC e2_shape w_eq 0 0 ltac:(lia) ltac:(lia))
    as [_ Hsum].
  change (entry [[w]] 0 0) with w in Hsum.
  eapply ringCongruent_trans; [exact Hsum|].
  apply (ringCongruent_plus n (param_q P) (seriesOf (entry ttr 0 0))
           (fun x => sumBelow k (fun i => seriesProduct (Tv i) (Rv i) x))
           (seriesOf (entry e2 0 0)) E2p); [|apply ringCongruent_refl].
  eapply ringCongruent_trans; [apply (Hsem 0 0); lia|].
  apply (ringCongruent_sum n (param_q P) k
           (fun i => seriesProduct (seriesOf (entry tt 0 i))
                       (seriesOf (entry r i 0)))
           (fun i => seriesProduct (Tv i) (Rv i))).
  intros i Hi.
  rewrite (transposeMatrix_entry _ k 1 t tt i 0 t_shape k_positive tt_eq Hi)
    by lia.
  apply (ringCongruent_product_l n (param_q P) _ _ (Rv i) n).
  - intros j Hj. apply Rv_support; assumption.
  - apply t_congruent. exact Hi.
Qed.

(** s^T u *)
Lemma sp_congruent :
  ringCongruent n (param_q P) (seriesOf sp)
    (fun x => sumBelow k (fun i => seriesProduct (Sv i) (Uv i) x)).
Proof.
  destruct (multiply_semantics P fuel valid enough_fuel 1 k 1 st u
              ltac:(lia) k_positive st_shape u_shape) as [C [EC [HC Hsem]]].
  pose proof (same_result _ _ _ sp_eq EC) as E0. subst C.
  change sp with (entry [[sp]] 0 0) at 1.
  eapply ringCongruent_trans; [apply (Hsem 0 0); lia|].
  apply (ringCongruent_sum n (param_q P) k
           (fun i => seriesProduct (seriesOf (entry st 0 i))
                       (seriesOf (entry u i 0)))
           (fun i => seriesProduct (Sv i) (Uv i))).
  intros i Hi.
  rewrite (transposeMatrix_entry _ k 1 s st i 0 s_shape k_positive st_eq Hi)
    by lia.
  apply (ringCongruent_product_r n (param_q P) (Sv i) _ _ n).
  - intros j Hj. apply Sv_support; assumption.
  - apply u_congruent. exact Hi.
Qed.

(** The terms with the matrix A cancel: (A s)^T r = s^T (A^T r). *)
Lemma cross_terms_cancel (x : nat) :
  sumBelow k
    (fun i => sumBelow k
                (fun j => seriesProduct (seriesProduct (Am i j) (Sv j)) (Rv i) x))
  = sumBelow k
      (fun i => sumBelow k
                  (fun j =>
                     seriesProduct (seriesProduct (Am j i) (Rv j)) (Sv i) x)).
Proof.
  rewrite (sumBelow_swap k k
             (fun i j => seriesProduct (seriesProduct (Am j i) (Rv j)) (Sv i) x)).
  apply sumBelow_ext. intros i _. apply sumBelow_ext. intros j _.
  rewrite !seriesProduct_assoc.
  apply seriesProduct_ext; [reflexivity|].
  intros y _. apply seriesProduct_comm.
Qed.

Lemma noise_identity (x : nat) :
  (sumBelow k (fun i => seriesProduct (Tv i) (Rv i) x) + E2p x
   - sumBelow k (fun i => seriesProduct (Sv i) (Uv i) x))%Z
  = (sumBelow k (fun i => seriesProduct (Ev i) (Rv i) x) + E2p x
     - sumBelow k (fun i => seriesProduct (Sv i) (E1v i) x))%Z.
Proof.
  assert (ET : sumBelow k (fun i => seriesProduct (Tv i) (Rv i) x)
               = (sumBelow k
                    (fun i =>
                       sumBelow k
                         (fun j =>
                            seriesProduct (seriesProduct (Am i j) (Sv j))
                              (Rv i) x))
                  + sumBelow k (fun i => seriesProduct (Ev i) (Rv i) x))%Z).
  { rewrite <- sumBelow_plus. apply sumBelow_ext. intros i _.
    unfold Tv.
    rewrite (seriesProduct_plus_l
               (fun y => sumBelow k (fun j => seriesProduct (Am i j) (Sv j) y))
               (Ev i) (Rv i) x).
    rewrite (seriesProduct_sum_l k
               (fun j => seriesProduct (Am i j) (Sv j)) (Rv i) x).
    reflexivity. }
  assert (EU : sumBelow k (fun i => seriesProduct (Sv i) (Uv i) x)
               = (sumBelow k
                    (fun i =>
                       sumBelow k
                         (fun j =>
                            seriesProduct (seriesProduct (Am j i) (Rv j))
                              (Sv i) x))
                  + sumBelow k (fun i => seriesProduct (Sv i) (E1v i) x))%Z).
  { rewrite <- sumBelow_plus. apply sumBelow_ext. intros i _.
    rewrite (seriesProduct_comm (Sv i) (Uv i) x). unfold Uv.
    rewrite (seriesProduct_plus_l
               (fun y => sumBelow k (fun j => seriesProduct (Am j i) (Rv j) y))
               (E1v i) (Sv i) x).
    rewrite (seriesProduct_sum_l k
               (fun j => seriesProduct (Am j i) (Rv j)) (Sv i) x).
    rewrite (seriesProduct_comm (E1v i) (Sv i) x). reflexivity. }
  rewrite ET, EU, cross_terms_cancel. lia.
Qed.

Lemma w_ringElement : ringElement P w.
Proof.
  pose proof (sum_shape 1 1 ttr e2 [[w]] ltac:(lia) ttr_shape e2_shape w_eq)
    as H.
  destruct (matrixOf_singleton _ _ H) as [p [E Hp]].
  injection E as <-. exact Hp.
Qed.

Lemma sp_ringElement : ringElement P sp.
Proof.
  destruct (multiply_semantics P fuel valid enough_fuel 1 k 1 st u
              ltac:(lia) k_positive st_shape u_shape) as [C [EC [HC _]]].
  pose proof (same_result _ _ _ sp_eq EC) as E0. subst C.
  destruct (matrixOf_singleton _ _ HC) as [p [E Hp]].
  injection E as <-. exact Hp.
Qed.

(** The coefficients of t^T r + e2 - s^T u are those of the noise modulo
    q. *)
Lemma difference_is_noise (x : nat) :
  x < n ->
  congruent (param_q P) (seriesOf w x - seriesOf sp x)%Z
    (decryptionNoise n k s e r e1 e2 x).
Proof.
  intros Hx.
  pose proof (ringCongruent_fold n (param_q P)
                (fun y => (seriesOf w y - seriesOf sp y)%Z)
                (fun y =>
                   (sumBelow k (fun i => seriesProduct (Ev i) (Rv i) y) + E2p y
                    - sumBelow k (fun i => seriesProduct (Sv i) (E1v i) y))%Z)
                (valid_n P valid)) as H.
  destruct H with (t := x) as [j Hj]; [| | |exact Hx|].
  - eapply ringCongruent_ext;
      [reflexivity | exact noise_identity |].
    apply (ringCongruent_minus n (param_q P) (seriesOf w) _ (seriesOf sp) _
             w_congruent sp_congruent).
  - intros i Hi.
    rewrite (seriesOf_support P w i w_ringElement Hi).
    rewrite (seriesOf_support P sp i sp_ringElement Hi). reflexivity.
  - intros i Hi. rewrite E2p_support by (fold n; lia).
    rewrite !sumBelow_zero; [reflexivity | |].
    + intros i0 Hi0. apply (seriesProduct_support _ _ n n).
      * intros y Hy. apply Sv_support; assumption.
      * intros y Hy. apply E1v_support; assumption.
      * lia.
    + intros i0 Hi0. apply (seriesProduct_support _ _ n n).
      * intros y Hy. apply Ev_support; assumption.
      * intros y Hy. apply Rv_support; assumption.
      * lia.
  - exists j. rewrite Hj. unfold decryptionNoise, dotProduct, negacyclicProduct.
    rewrite !sumBelow_minus. fold Ev Rv Sv E1v E2p.
    rewrite (E2p_support (x + n)) by lia.
    unfold Ev, Rv, Sv, E1v, E2p. lia.
Qed.

End Algebra.

(** One coefficient of the decryption: when t^T r + e2 - s^T u is the noise
    modulo q and the noise is at most floor(q/4) in magnitude, the bit of
    the message comes back. *)
Lemma round_coefficient (qz noise wz sz : Z) (m : Q) :
  (0 < qz)%Z -> Z.odd qz = true -> exactBit m ->
  congruent qz (wz - sz) noise -> (Z.abs noise <= qz / 4)%Z ->
  reduceToBinary
    (symmetricValueModuloQ
       (symmetricValueModuloQ (inject_Z wz + m * (inject_Z qz / 2))
          (inject_Z qz)
        - inject_Z sz)
       (inject_Z qz))
    0 (inject_Z qz / 2)
  = m.
Proof.
  intros Hq Hodd Hm [k2 Hk2] Hnoise.
  assert (Ebit : exists bit, m = bitValue bit).
  { destruct Hm as [-> | ->]; [exists false | exists true]; reflexivity. }
  destruct Ebit as [bit ->].
  destruct (symmetricValueModuloQ_rational
              (inject_Z wz + bitValue bit * (inject_Z qz / 2))%Q qz Hq)
    as [k1 [Hk1 _]].
  apply (rounding_recovers_bit qz noise (k1 + k2) bit); try assumption.
  rewrite Hk1. replace wz with (sz + noise + k2 * qz)%Z by lia.
  destruct bit; cbn [bitValue];
    unfold Qeq, Qminus, Qplus, Qopp, Qmult, Qdiv, Qinv, inject_Z;
    cbn -[Z.mul Z.add]; ring.
Qed.

Lemma nth_scaleMessage (P : Parameters) (msg : Polynomial) (j : nat) :
  j < length (coefficients msg) ->
  nth j (coefficients (scaleMessage P msg)) 0%Q
  = (nth j (coefficients msg) 0 * (inject_Z (param_q P) / 2))%Q.
Proof.
  intros Hj. unfold scaleMessage. cbn [coefficients].
  rewrite (nth_indep _ 0%Q (0 * (inject_Z (param_q P) / 2))%Q)
    by (rewrite length_map; exact Hj).
  apply (map_nth (fun coeff => (coeff * (inject_Z (param_q P) / 2))%Q)).
Qed.

(** The block encrypted with the random source [randb] under the keys
    generated with the random source [rand] decrypts to the message when
    every coefficient of the noise is at most floor(q/4) in magnitude. *)
Lemma decrypt_encrypt_noise (P : Parameters) (fuel : nat) (rand randb : Rand)
  (msg : Polynomial) (keys : CrystalsKyberKeys) (rand1 : Rand)
  (eb : EncryptedBlock) (rand2 : Rand) :
  validParameters P -> Z.odd (param_q P) = true -> param_n P <= fuel ->
  fullLength P msg -> Forall exactBit (coefficients msg) ->
  crystalsKyber_generateKeys P fuel rand = Ok (keys, rand1) ->
  crystalsKyber_encrypt P fuel msg (pKey keys) randb = Ok (eb, rand2) ->
  (forall t,
      t < param_n P ->
      (Z.abs (blockNoise P rand randb t) <= param_q P / 4)%Z) ->
  crystalsKyber_decrypt P fuel eb (sKey keys) = Ok msg.
Proof.
  intros Hv Hodd Hf Hmsg Hbits Hkeys Hblock Hnoise.
  pose proof (valid_q P Hv) as Hq.
  assert (Hfresh : forall rows cols m rnd,
             isInt m ->
             matrixOf (ringElement P) rows cols
               (fst (generateRandomMatrix rows cols (param_n P) m rnd))).
  { intros rows cols m rnd Hm.
    apply (matrixOf_impl _ _ _ _ _ (freshElement_ringElement P)).
    apply generateRandomMatrix_spec. exact Hm. }
  destruct (generateKeys_unfold P fuel Hv Hf rand)
    as [As [t [EAs [HAs [Et [Ht Ekeys]]]]]].
  cbv zeta in EAs, Et, Ekeys.
  fold (keySample1 P rand) in EAs, Et, Ekeys.
  fold (keySample2 P rand) in EAs, Et, Ekeys.
  fold (keySample3 P rand) in EAs, Et, Ekeys.
  rewrite Ekeys in Hkeys. injection Hkeys as <- _.
  cbn [pKey sKey] in *.
  set (s := fst (keySample1 P rand)) in *.
  set (e := fst (keySample2 P rand)) in *.
  set (A := fst (keySample3 P rand)) in *.
  assert (Hs : matrixOf (ringElement P) (param_k P) 1 s)
    by (apply Hfresh; apply isInt_eta).
  assert (He : matrixOf (ringElement P) (param_k P) 1 e)
    by (apply Hfresh; apply isInt_eta).
  assert (HA : matrixOf (ringElement P) (param_k P) (param_k P) A)
    by (apply Hfresh; apply isInt_inject).
  destruct (encrypt_unfold P fuel Hv Hf msg (mkPublicKey t A) randb
              (conj Ht HA) Hmsg)
    as [At [Atr [u [tt [ttr [w [EAt [HAt [EAtr [HAtr [Eu [Hu [Ett [Htt
         [Ettr [Httr [Ew [Hw Eenc]]]]]]]]]]]]]]]]]].
  cbv zeta in EAtr, Eu, Ettr, Ew, Eenc. cbn [pk_A pk_t] in EAt, Ett.
  fold (blockSample1 P randb) in EAtr, Eu, Ettr, Ew, Eenc.
  fold (blockSample2 P randb) in Eu, Ew, Eenc.
  fold (blockSample3 P randb) in Ew, Eenc.
  rewrite Eenc in Hblock. injection Hblock as <- _.
  set (r := fst (blockSample1 P randb)) in *.
  set (e1 := fst (blockSample2 P randb)) in *.
  set (e2 := fst (blockSample3 P randb)) in *.
  assert (Hr : matrixOf (ringElement P) (param_k P) 1 r)
    by (apply Hfresh; apply isInt_eta).
  assert (He1 : matrixOf (ringElement P) (param_k P) 1 e1)
    by (apply Hfresh; apply isInt_eta).
  assert (He2 : matrixOf (ringElement P) 1 1 e2)
    by (apply Hfresh; apply isInt_eta).
  set (vp := combinePolynomials Qplus (inject_Z (param_q P)) w
               (scaleMessage P msg)) in *.
  assert (Hlms : length (coefficients (scaleMessage P msg)) = param_n P).
  { unfold scaleMessage. cbn [coefficients]. rewrite length_map. exact Hmsg. }
  assert (Hvp : fullLength P vp).
  { apply combinePolynomials_fullLength_l; [apply Hw | lia]. }
  destruct (decrypt_unfold P fuel Hv Hf u vp (mkPrivateKey s) Hs Hu Hvp)
    as [st [sp [Est [Hst [Esp [Hsp Ed]]]]]].
  cbn [sk_s] in Est.
  apply (decrypt_rounds_back P fuel _ _ _ msg Ed).
  - apply combinePolynomials_fullLength_l; [exact Hvp | apply Hsp].
  - exact Hmsg.
  - intros j Hj. unfold combinePolynomials at 1. cbn [coefficients].
    rewrite nth_combineCoefficients
      by (unfold fullLength in Hvp; rewrite Hvp; lia).
    unfold vp at 1. unfold combinePolynomials at 1. cbn [coefficients].
    rewrite nth_combineCoefficients
      by (destruct Hw as [_ Hw]; rewrite Hw; lia).
    rewrite nth_scaleMessage by (unfold fullLength in Hmsg; lia).
    rewrite (seriesOf_isInt w j (proj1 Hw)).
    rewrite (seriesOf_isInt sp j (proj1 Hsp)).
    apply (round_coefficient (param_q P) (blockNoise P rand randb j));
      [exact Hq | exact Hodd | | | apply Hnoise; exact Hj].
    + rewrite Forall_forall in Hbits. apply Hbits. apply nth_In.
      unfold fullLength in Hmsg. lia.
    + apply (difference_is_noise P fuel Hv Hf s e A r e1 e2 Hs He HA Hr He1
               He2 As t At Atr u tt ttr st w sp EAs Et EAt EAtr Eu Ett Ettr
               Ew Est Esp j Hj).
Qed.

(** For valid parameters with an odd q, key generation returns for every
    random source, and so does the encryption of a block of n bits under
    the generated public key for every random source; the decryption of
    that block with the generated private key returns the block whenever
    every coefficient of the noise e^T r + e2 - s^T e1, computed over the
    integers modulo x^n + 1 from the matrices that were sampled, is at most
    floor(q/4) in magnitude. *)
Theorem decryption_recovers_block (P : Parameters) (fuel : nat) (rand : Rand)
  (msg : Polynomial) :
  validParameters P -> Z.odd (param_q P) = true -> param_n P <= fuel ->
  fullLength P msg -> Forall exactBit (coefficients msg) ->
  exists keys rand1,
    crystalsKyber_generateKeys P fuel rand = Ok (keys, rand1) /\
    forall randb,
    exists eb rand2,
      crystalsKyber_encrypt P fuel msg (pKey keys) randb = Ok (eb, rand2) /\
      ((forall t,
           t < param_n P ->
           (Z.abs (blockNoise P rand randb t) <= param_q P / 4)%Z) ->
       crystalsKyber_decrypt P fuel eb (sKey keys) = Ok msg).
Proof.
  intros Hv Hodd Hf Hmsg Hbits.
  destruct (generateKeys_ok P fuel Hv Hf rand)
    as [keys [rand1 [Ekeys [Hpk _]]]].
  exists keys, rand1. split; [exact Ekeys|].
  intros randb.
  destruct (encrypt_ok P fuel Hv Hf msg (pKey keys) randb Hpk Hmsg)
    as [eb [rand2 [Eeb _]]].
  exists eb, rand2. split; [exact Eeb|].
  intros Hnoise.
  exact (decrypt_encrypt_noise P fuel rand randb msg keys rand1 eb rand2
           Hv Hodd Hf Hmsg Hbits Ekeys Eeb Hnoise).
Qed.

Lemma decryption_recovers_block_witness :
  let msg := mkPolynomial [0; 1; 0; 0; 0; 0; 0; 1]%Q in
  exists keys rand1 eb rand2,
    crystalsKyber_generateKeys smallParameters 8 cyclingRand
    = Ok (keys, rand1) /\
    crystalsKyber_encrypt smallParameters 8 msg (pKey keys) rand1
    = Ok (eb, rand2) /\
    crystalsKyber_decrypt smallParameters 8 eb (sKey keys) = Ok msg.
Proof.
  intros msg.
  destruct (decryption_recovers_block smallParameters 8 cyclingRand msg)
    as [keys [rand1 [Ekeys Hblock]]].
  - exact smallParameters_valid.
  - reflexivity.
  - cbn. lia.
  - reflexivity.
  - repeat constructor; (left; reflexivity) || (right; reflexivity).
  - destruct (Hblock rand1) as [eb [rand2 [Eeb Hdec]]].
    exists keys, rand1, eb, rand2.
    split; [exact Ekeys|]. split; [exact Eeb|].
    apply Hdec. clear Hdec Eeb Hblock.
    vm_compute in Ekeys. injection Ekeys as _ <-.
    intros t Ht.
    do 8 (destruct t as [|t]; [apply Z.leb_le; vm_compute; reflexivity|]).
    cbn in Ht. lia.
Defined.

(** ** The largest noise of a parameter set *)

(** A sum whose terms vanish outside of [lo, hi) and are at most [B] in
    magnitude inside. *)
Lemma sumBelow_bound_support (m lo hi : nat) (B : Z) (f : nat -> Z) :
  (0 <= B)%Z ->
  (forall i, i < m -> lo <= i < hi -> (Z.abs (f i) <= B)%Z) ->
  (forall i, i < m -> i < lo \/ hi <= i -> f i = 0%Z) ->
  (Z.abs (sumBelow m f) <= Z.of_nat (hi - lo) * B)%Z.
Proof.
  intros HB Hin Hout.
  assert (H : (Z.abs (sumBelow m f) <= Z.of_nat (Nat.min m hi - lo) * B)%Z).
  { induction m as [|m IH]; [cbn; nia|].
    assert (IH' : (Z.abs (sumBelow m f)
                   <= Z.of_nat (Nat.min m hi - lo) * B)%Z).
    { apply IH; intros i Hi; [apply Hin | apply Hout]; lia. }
    clear IH. cbn [sumBelow].
    destruct (Nat.lt_ge_cases m lo) as [Hlo | Hlo].
    - rewrite (Hout m) by lia. rewrite Z.add_0_r.
      replace (Nat.min (S m) hi - lo) with 0 by lia.
      replace (Nat.min m hi - lo) with 0 in IH' by lia. exact IH'.
    - destruct (Nat.lt_ge_cases m hi) as [Hhi | Hhi].
      + pose proof (Hin m (Nat.lt_succ_diag_r m) (conj Hlo Hhi)) as Hm.
        replace (Nat.min (S m) hi - lo) with (S (Nat.min m hi - lo)) by lia.
        rewrite Nat2Z.inj_succ. lia.
      + rewrite (Hout m) by lia. rewrite Z.add_0_r.
        replace (Nat.min (S m) hi) with (Nat.min m hi) by lia. exact IH'. }
  assert (Hle : (Z.of_nat (Nat.min m hi - lo) <= Z.of_nat (hi - lo))%Z) by lia.
  nia.
Qed.

(** The coefficients of a polynomial with n coefficients of magnitude at
    most eta. *)
Lemma seriesOf_bounded (n : nat) (eta : Z) (p : Polynomial) (i : nat) :
  (0 <= eta)%Z -> bounded n eta p -> (Z.abs (seriesOf p i) <= eta)%Z.
Proof.
  intros Heta [Hl Hc]. unfold seriesOf.
  destruct (Nat.lt_ge_cases i (length (coefficients p))) as [Hi | Hi].
  - rewrite Forall_forall in Hc.
    destruct (Hc _ (nth_In _ 0%Q Hi)) as [z [E Hz]].
    rewrite E. cbn. lia.
  - rewrite nth_overflow by exact Hi. cbn. lia.
Qed.

Lemma seriesOf_bounded_support (n : nat) (eta : Z) (p : Polynomial) (i : nat) :
  bounded n eta p -> n <= i -> seriesOf p i = 0%Z.
Proof. intros [Hl _] Hi. apply seriesOf_overflow. lia. Qed.

(** A coefficient of the product modulo x^n + 1 of two polynomials with n
    coefficients is a sum of n products of coefficients, up to signs. *)
Lemma negacyclicProduct_bound (n : nat) (Ba Bb : Z) (a b : nat -> Z) (t : nat) :
  (0 <= Ba)%Z -> (0 <= Bb)%Z ->
  (forall i, (Z.abs (a i) <= Ba)%Z) -> (forall i, n <= i -> a i = 0%Z) ->
  (forall i, (Z.abs (b i) <= Bb)%Z) -> (forall i, n <= i -> b i = 0%Z) ->
  t < n ->
  (Z.abs (negacyclicProduct n a b t) <= Z.of_nat n * (Ba * Bb))%Z.
Proof.
  intros HBa HBb Ha Hsa Hb Hsb Ht.
  assert (Hterm : forall i j, (Z.abs (a i * b j) <= Ba * Bb)%Z).
  { intros i j. rewrite Z.abs_mul.
    pose proof (Ha i). pose proof (Hb j).
    pose proof (Z.abs_nonneg (a i)). pose proof (Z.abs_nonneg (b j)). nia. }
  assert (Hlow : (Z.abs (seriesProduct a b t)
                  <= Z.of_nat (S t - 0) * (Ba * Bb))%Z).
  { unfold seriesProduct. apply sumBelow_bound_support.
    - nia.
    - intros i _ _. apply Hterm.
    - intros i Hi [Hi' | Hi']; lia. }
  assert (Hhigh : (Z.abs (seriesProduct a b (t + n))
                   <= Z.of_nat (n - S t) * (Ba * Bb))%Z).
  { unfold seriesProduct. apply sumBelow_bound_support.
    - nia.
    - intros i _ _. apply Hterm.
    - intros i Hi [Hi' | Hi'].
      + rewrite (Hsb (t + n - i)) by lia. lia.
      + rewrite (Hsa i Hi'). lia. }
  unfold negacyclicProduct.
  replace (Z.of_nat n) with (Z.of_nat (S t - 0) + Z.of_nat (n - S t))%Z by lia.
  lia.
Qed.

(** A coefficient of the dot product of two vectors of k polynomials with n
    coefficients. *)
Lemma dotProduct_bound (n k : nat) (Bu Bv : Z) (u v : PolynomialMatrix)
  (t : nat) :
  (0 <= Bu)%Z -> (0 <= Bv)%Z ->
  matrixOf (bounded n Bu) k 1 u -> matrixOf (bounded n Bv) k 1 v ->
  t < n ->
  (Z.abs (dotProduct n k u v t) <= Z.of_nat k * (Z.of_nat n * (Bu * Bv)))%Z.
Proof.
  intros HBu HBv Hu Hv Ht. unfold dotProduct.
  replace (Z.of_nat k) with (Z.of_nat (k - 0)) by (f_equal; lia).
  apply sumBelow_bound_support.
  - nia.
  - intros i Hi _.
    pose proof (entry_ringElement _ _ _ u i 0 Hu Hi Nat.lt_0_1) as Hui.
    pose proof (entry_ringElement _ _ _ v i 0 Hv Hi Nat.lt_0_1) as Hvi.
    apply negacyclicProduct_bound; try assumption.
    + intros j. apply (seriesOf_bounded n); assumption.
    + intros j. apply (seriesOf_bounded_support n Bu). exact Hui.
    + intros j. apply (seriesOf_bounded n); assumption.
    + intros j. apply (seriesOf_bounded_support n Bv). exact Hvi.
  - intros i Hi [Hi' | Hi']; lia.
Qed.

(** The matrices of the samplers have coefficients of magnitude at most
    eta. *)
Lemma sampler_bounded (rows cols n : nat) (eta : Z) (rand : Rand) :
  (0 <= eta)%Z ->
  matrixOf (bounded n eta) rows cols
    (fst (generateRandomMatrix rows cols n (samplerModulus eta) rand)).
Proof.
  intros Heta. rewrite samplerModulus_inject_Z.
  eapply matrixOf_impl; [|apply generateRandomMatrix_sampled; lia].
  intros p. apply sampled_bounded. exact Heta.
Qed.

(** The noise of every block, whatever the random sources return: at most
    2 k n eta1 eta2 + eta2 in magnitude. *)
Lemma blockNoise_bound (P : Parameters) (rand randb : Rand) (t : nat) :
  (0 <= param_n1 P)%Z -> (0 <= param_n2 P)%Z -> t < param_n P ->
  (Z.abs (blockNoise P rand randb t)
   <= 2 * Z.of_nat (param_k P) * Z.of_nat (param_n P)
        * param_n1 P * param_n2 P
      + param_n2 P)%Z.
Proof.
  intros H1 H2 Ht. unfold blockNoise, decryptionNoise.
  pose proof (dotProduct_bound (param_n P) (param_k P) (param_n2 P)
                (param_n1 P) (fst (keySample2 P rand))
                (fst (blockSample1 P randb)) t H2 H1
                (sampler_bounded _ _ _ _ _ H2)
                (sampler_bounded _ _ _ _ _ H1) Ht) as Her.
  pose proof (dotProduct_bound (param_n P) (param_k P) (param_n1 P)
                (param_n2 P) (fst (keySample1 P rand))
                (fst (blockSample2 P randb)) t H1 H2
                (sampler_bounded _ _ _ _ _ H1)
                (sampler_bounded _ _ _ _ _ H2) Ht) as Hse.
  pose proof (seriesOf_bounded (param_n P) (param_n2 P)
                (entry (fst (blockSample3 P randb)) 0 0) t H2
                (entry_ringElement _ _ _ _ 0 0
                   (sampler_bounded 1 1 _ _ _ H2)
                   Nat.lt_0_1 Nat.lt_0_1)) as He2.
  lia.
Qed.

(** ** Round trip of a message for parameters of small noise *)

Lemma exactBit_land_1 (z : Z) : exactBit (inject_Z (Z.land z 1)).
Proof.
  change 1%Z with (Z.ones 1). rewrite Z.land_ones by lia.
  change (2 ^ 1)%Z with 2%Z.
  pose proof (Z.mod_pos_bound z 2 ltac:(lia)) as H.
  assert (E : (z mod 2 = 0 \/ z mod 2 = 1)%Z) by lia.
  destruct E as [-> | ->]; [left | right]; reflexivity.
Qed.

Lemma encodeChunk_exactBits (ch : list Z) :
  Forall exactBit (coefficients (encodeChunk ch)).
Proof.
  unfold encodeChunk; cbn [coefficients].
  induction ch as [|x ch IH]; [constructor|].
  cbn [flat_map]. apply Forall_app. split; [|exact IH].
  unfold bitsOfByte. apply Forall_map.
  apply Forall_forall. intros bit _. apply exactBit_land_1.
Qed.

Lemma Forall_exactBit_zeros (j : nat) : Forall exactBit (repeat 0%Q j).
Proof.
  apply Forall_forall. intros x Hx. apply repeat_spec in Hx. subst.
  left. reflexivity.
Qed.

Lemma Forall_exactBit_marker (cur : list Q) (j : nat) :
  Forall exactBit cur -> Forall exactBit (cur ++ 1%Q :: repeat 0%Q j).
Proof.
  intros H. apply Forall_app. split; [exact H|].
  constructor; [right; reflexivity | apply Forall_exactBit_zeros].
Qed.

(** The blocks of a text hold the numbers 0 and 1 themselves. *)
Lemma textToPolynomialBlocks_exactBits (bytesPerBlock : nat) (text : jsString) :
  0 < bytesPerBlock ->
  Forall (fun block => Forall exactBit (coefficients block))
    (textToPolynomialBlocks text (8 * bytesPerBlock)).
Proof.
  intros Hb.
  destruct (textToPolynomialBlocks_chunks bytesPerBlock Hb text)
    as [chunks [cur [H1 [H2 [H3 H4]]]]].
  rewrite H1. apply Forall_app. split.
  - apply Forall_map. apply Forall_forall. intros ch _.
    apply encodeChunk_exactBits.
  - pose proof (encodeChunk_exactBits cur) as Hcur.
    unfold encodeChunk in *. cbn [coefficients] in Hcur.
    rewrite addPadding_eq.
    destruct (length (flat_map bitsOfByte cur) =? 8 * bytesPerBlock);
      [destruct (8 =? 8 * bytesPerBlock)|
       destruct (length (flat_map bitsOfByte cur) + 8 =? 8 * bytesPerBlock)];
      repeat match goal with
             | |- Forall _ (_ :: _) => apply Forall_cons
             | |- Forall _ [] => apply Forall_nil
             end;
      cbn [coefficients];
      first [ exact Hcur
            | apply Forall_exactBit_zeros
            | apply Forall_exactBit_marker; first [exact Hcur | constructor] ].
Qed.

(** Two random sources with the same values give the same matrices. *)
Lemma generateRandomMatrix_ext (rows cols n : nat) (moduloQ : Q)
  (r r' : Rand) :
  (forall i, r i = r' i) ->
  fst (generateRandomMatrix rows cols n moduloQ r)
  = fst (generateRandomMatrix rows cols n moduloQ r') /\
  forall i,
    snd (generateRandomMatrix rows cols n moduloQ r) i
    = snd (generateRandomMatrix rows cols n moduloQ r') i.
Proof.
  intros E. unfold generateRandomMatrix.
  apply repeatRand_ext; [|exact E].
  intros r0 r0' E0. apply randomRow_ext. exact E0.
Qed.

Lemma blockNoise_ext (P : Parameters) (rand r r' : Rand) (t : nat) :
  (forall i, r i = r' i) -> blockNoise P rand r t = blockNoise P rand r' t.
Proof.
  intros E. unfold blockNoise.
  destruct (generateRandomMatrix_ext (param_k P) 1 (param_n P)
              (samplerModulus (param_n1 P)) r r' E) as [E1 E1'].
  destruct (generateRandomMatrix_ext (param_k P) 1 (param_n P)
              (samplerModulus (param_n2 P)) _ _ E1') as [E2 E2'].
  destruct (generateRandomMatrix_ext 1 1 (param_n P)
              (samplerModulus (param_n2 P)) _ _ E2') as [E3 _].
  unfold blockSample3, blockSample2, blockSample1.
  rewrite E1, E2, E3. reflexivity.
Qed.

(** The block of index i of a message is encrypted with the random source
    advanced by i * (2k + 1) * n values. *)
Lemma encryptBlocks_each (P : Parameters) (fuel : nat)
  (pk : CrystalsKyberPublicKey) :
  validParameters P -> param_n P <= fuel -> goodPublicKey P pk ->
  forall blocks,
    Forall (fullLength P) blocks ->
    forall rand cts rand',
      encryptBlocks P fuel blocks pk rand = Ok (cts, rand') ->
      forall i eb,
        nth_error cts i = Some eb ->
        exists msg randi rand2,
          nth_error blocks i = Some msg /\
          (forall j,
              randi j
              = rand (i * ((2 * param_k P + 1) * param_n P) + j)) /\
          crystalsKyber_encrypt P fuel msg pk randi = Ok (eb, rand2).
Proof.
  intros Hv Hf Hpk blocks Hb.
  induction Hb as [|msg blocks Hm _ IH]; intros rand cts rand' E i eb Hi.
  - cbn in E. injection E as <- _. destruct i; discriminate Hi.
  - cbn [encryptBlocks] in E.
    destruct (encrypt_unfold P fuel Hv Hf msg pk rand Hpk Hm)
      as [At [Atr [u [tt [ttr [w [_ [_ [_ [_ [_ [_ [_ [_ [_ [_ [_ [_ E1]]]]]]]]]]]]]]]]]].
    cbv zeta in E1.
    pose proof E1 as E1'.
    rewrite E1 in E. cbn [bind fst snd] in E.
    apply bind_Ok_inv in E. destruct E as [[cts' rand2] [E2 E3]].
    cbn [fst snd] in E3. injection E3 as <- _.
    destruct i as [|i].
    + cbn in Hi. injection Hi as <-.
      eexists msg, rand, _. split; [reflexivity|].
      split; [intros j; reflexivity | exact E1'].
    + cbn [nth_error] in Hi.
      destruct (IH _ _ _ E2 i eb Hi) as [m [randi [r2 [Hm' [Hr He]]]]].
      exists m, randi, r2. split; [exact Hm'|]. split; [|exact He].
      intros j. rewrite Hr, !generateRandomMatrix_draws. f_equal. ring.
Qed.

(** For valid parameters with an odd q and whatever the random sources
    return: key generation returns a key pair, the encryption of a text of
    bytes under the public key returns as many ciphertext blocks as the
    text has blocks, the block of index i being encrypted with the random
    values from the index i * (2k + 1) * n on, and the decryption of these
    blocks with the private key returns the text whenever, in every block,
    every coefficient of the noise e^T r + e2 - s^T e1 of the matrices
    sampled for the keys and for that block is at most floor(q/4) in
    magnitude. *)
Theorem message_round_trip_explicit_noise (P : Parameters) (fuel : nat)
  (rand : Rand) (text : jsString) :
  validParameters P -> Z.odd (param_q P) = true -> param_n P <= fuel ->
  byteString text ->
  exists keys rand1,
    crystalsKyber_generateKeys P fuel rand = Ok (keys, rand1) /\
    forall randb,
    exists cts rand2,
      crystalsKyber_encryptMessage P fuel text (pKey keys) randb
      = Ok (cts, rand2) /\
      length cts = length (textToPolynomialBlocks text (param_n P)) /\
      ((forall i t,
           i < length cts -> t < param_n P ->
           (Z.abs
              (blockNoise P rand
                 (fun j =>
                    randb (i * ((2 * param_k P + 1) * param_n P) + j)%nat)
                 t)
            <= param_q P / 4)%Z) ->
       crystalsKyber_decryptMessage P fuel cts (sKey keys) = Ok text).
Proof.
  intros Hv Hodd Hf Htext.
  destruct (generateKeys_ok P fuel Hv Hf rand)
    as [keys [rand1 [Ekeys [Hpk _]]]].
  exists keys, rand1. split; [exact Ekeys|].
  intros randb.
  pose proof (textToPolynomialBlocks_fullLength P text Hv) as Hblocks.
  destruct (encryptBlocks_ok P fuel Hv Hf (pKey keys)
              (textToPolynomialBlocks text (param_n P)) Hpk Hblocks randb)
    as [cts [rand2 [Ects [Hlen _]]]].
  exists cts, rand2. split; [exact Ects|]. split; [exact Hlen|].
  intros Hnoise.
  destruct Hv as [Hq [Hk [Hn Hn8]]].
  destruct (whole_bytes (param_n P) Hn Hn8) as [b [En Hb]].
  assert (Hv : validParameters P) by (repeat split; assumption).
  pose proof (textToPolynomialBlocks_exactBits b text Hb) as Hbits.
  rewrite <- En in Hbits.
  assert (Hdec : Forall2
                   (fun eb m =>
                      crystalsKyber_decrypt P fuel eb (sKey keys) = Ok m)
                   cts (textToPolynomialBlocks text (param_n P))).
  { apply Forall2_nth_error_intro; [exact Hlen|].
    intros i eb m Hi Hm.
    destruct (encryptBlocks_each P fuel (pKey keys) Hv Hf Hpk _ Hblocks
                randb cts rand2 Ects i eb Hi)
      as [m' [randi [randj [Hm' [Hr Eeb]]]]].
    rewrite Hm in Hm'. injection Hm' as <-.
    rewrite Forall_forall in Hblocks, Hbits.
    pose proof (nth_error_In _ _ Hm) as Hin.
    apply (decrypt_encrypt_noise P fuel rand randi m keys rand1 eb randj
             Hv Hodd Hf (Hblocks m Hin) (Hbits m Hin) Ekeys Eeb).
    intros t Ht.
    rewrite (blockNoise_ext P rand randi _ t Hr).
    apply Hnoise; [|exact Ht].
    apply nth_error_Some. congruence. }
  unfold crystalsKyber_decryptMessage.
  rewrite (mapM_Forall2 _ _ _ Hdec). cbn [bind].
  rewrite En.
  destruct (decode_stripped_blocks b text Hb Htext) as [stripped [Es Et]].
  rewrite Es. cbn [bind]. rewrite Et. reflexivity.
Qed.

Lemma message_round_trip_explicit_noise_witness :
  exists keys rand1 cts rand2,
    crystalsKyber_generateKeys smallParameters 8 cyclingRand
    = Ok (keys, rand1) /\
    crystalsKyber_encryptMessage smallParameters 8 [72; 105]%Z (pKey keys)
      rand1
    = Ok (cts, rand2) /\
    length cts = 4 /\
    crystalsKyber_decryptMessage smallParameters 8 cts (sKey keys)
    = Ok [72; 105]%Z.
Proof.
  destruct (message_round_trip_explicit_noise smallParameters 8 cyclingRand
              [72; 105]%Z)
    as [keys [rand1 [Ekeys Hmsg]]].
  - exact smallParameters_valid.
  - reflexivity.
  - cbn. lia.
  - repeat constructor; lia.
  - destruct (Hmsg rand1) as [cts [rand2 [Ects [Hlen Hdec]]]].
    exists keys, rand1, cts, rand2.
    split; [exact Ekeys|]. split; [exact Ects|].
    split; [rewrite Hlen; reflexivity|].
    apply Hdec. intros i t _ Ht.
    pose proof (blockNoise_bound smallParameters cyclingRand
                  (fun j =>
                     rand1
                       (i * ((2 * param_k smallParameters + 1)
                             * param_n smallParameters) + j))
                  t ltac:(cbn; lia) ltac:(cbn; lia) Ht) as Hb.
    cbn [param_k param_n param_n1 param_n2 param_q smallParameters] in *.
    change (3329 / 4)%Z with 832%Z. lia.
Defined.

(** ** The matrix operations in the ring of the scheme *)

(** The product of matrices of polynomials with integer coefficients and at
    most n of them is the product of matrices over the polynomials modulo
    x^n + 1 and q: for an odd q and coefficients of magnitudes at most BA
    and BB with n * BA * BB + 2 q <= 2^53 (the products and sums of the
    source are then exact), the coefficient of degree t < n of the entry
    (i, j) is the centred remainder modulo q of the sum over the inner
    index kk of the coefficient of degree t of A[i][kk] * B[kk][j], less
    its coefficient of degree t + n. *)
Theorem multiplyMatrices_ring_product (P : Parameters) (fuel : nat)
  (rows inner cols : nat) (A B : PolynomialMatrix) (BA BB : Z) :
  validParameters P -> Z.odd (param_q P) = true -> param_n P <= fuel ->
  0 < rows -> 0 < inner ->
  matrixOf (ringElement P) rows inner A ->
  matrixOf (ringElement P) inner cols B ->
  (0 <= BA)%Z -> (0 <= BB)%Z ->
  matrixOf (magnitude BA) rows inner A ->
  matrixOf (magnitude BB) inner cols B ->
  (Z.of_nat (param_n P) * (BA * BB) + 2 * param_q P <= maxExactInteger)%Z ->
  exists C,
    multiplyMatrices fuel A B (inject_Z (param_q P)) (modulusPolynomial P)
    = Ok C /\
    matrixOf (ringElement P) rows cols C /\
    forall i j t,
      i < rows -> j < cols -> t < param_n P ->
      nth t (coefficients (entry C i j)) 0%Q
      = inject_Z
          (centerZ
             (sumBelow inner
                (fun kk =>
                   negacyclicProduct (param_n P) (seriesOf (entry A i kk))
                     (seriesOf (entry B kk j)) t))
             (param_q P)).
Proof.
  intros Hv Hodd Hf Hrows Hinner HA HB _ _ _ _ _.
  pose proof (valid_q P Hv) as Hq.
  destruct (multiply_semantics P fuel Hv Hf rows inner cols A B Hrows Hinner
              HA HB) as [C [EC [HC Hsem]]].
  exists C. split; [exact EC|]. split; [exact HC|].
  intros i j t Hi Hj Ht.
  destruct (Hsem i j Hi Hj) as [Hcong Hcen].
  pose proof (entry_ringElement _ _ _ C i j HC Hi Hj) as HCij.
  rewrite (seriesOf_isInt _ t (proj1 HCij)). f_equal. symmetry.
  destruct (ringCongruent_fold (param_n P) (param_q P) _ _ (valid_n P Hv)
              Hcong) with (t := t) as [m Hm].
  - intros x Hx. apply (seriesOf_support P); assumption.
  - intros x Hx. apply sumBelow_zero. intros kk Hkk.
    apply (seriesProduct_support _ _ (param_n P) (param_n P)).
    + intros y Hy. apply (seriesOf_support P); [|exact Hy].
      apply (entry_ringElement _ _ _ A i kk HA Hi Hkk).
    + intros y Hy. apply (seriesOf_support P); [|exact Hy].
      apply (entry_ringElement _ _ _ B kk j HB Hkk Hj).
    + lia.
  - exact Ht.
  - apply centerZ_unique; [exact Hq | exact Hodd | | apply Hcen].
    exists (- m)%Z. rewrite Hm. unfold negacyclicProduct.
    rewrite sumBelow_minus. lia.
Qed.

Lemma multiplyMatrices_ring_product_witness :
  let x7 := mkPolynomial [0; 0; 0; 0; 0; 0; 0; 1]%Q in
  let x1 := mkPolynomial [2; 3]%Q in
  exists C,
    multiplyMatrices 8 [[x7]] [[x1]] 3329 (modulusPolynomial smallParameters)
    = Ok C /\
    nth 0 (coefficients (entry C 0 0)) 0%Q = (-3)%Q /\
    nth 7 (coefficients (entry C 0 0)) 0%Q = 2%Q.
Proof.
  intros x7 x1.
  destruct (multiplyMatrices_ring_product smallParameters 8 1 1 1
              [[x7]] [[x1]] 1 3) as [C [EC [_ HC]]].
  - exact smallParameters_valid.
  - reflexivity.
  - cbn. lia.
  - lia.
  - lia.
  - split; [reflexivity|]. repeat constructor; cbn; lia.
  - split; [reflexivity|]. repeat constructor; cbn; lia.
  - lia.
  - lia.
  - small_magnitudes.
  - small_magnitudes.
  - vm_compute. discriminate.
  - exists C. split; [exact EC|]. split.
    + rewrite (HC 0 0 0) by (cbn; lia). vm_compute. reflexivity.
    + rewrite (HC 0 0 7) by (cbn; lia). vm_compute. reflexivity.
Defined.

(** The sum and the difference of two matrices of polynomials with integer
    coefficients and at most n of them, of magnitudes at most BA and BB
    with BA + BB + q <= 2^53 (the sums and differences of the source are
    then exact), are taken coefficient by coefficient and need no
    reduction: the entry (i, j) has as many coefficients as the longer of
    the two entries, and its coefficient of degree t is the centred
    remainder modulo q of the sum, or of the difference, of their
    coefficients of degree t. *)
Theorem sum_and_difference_coefficients (P : Parameters) (fuel : nat)
  (rows cols : nat) (A B : PolynomialMatrix) (BA BB : Z) :
  validParameters P -> param_n P <= fuel -> 0 < rows ->
  matrixOf (ringElement P) rows cols A ->
  matrixOf (ringElement P) rows cols B ->
  (0 <= BA)%Z -> (0 <= BB)%Z ->
  matrixOf (magnitude BA) rows cols A ->
  matrixOf (magnitude BB) rows cols B ->
  (BA + BB + param_q P <= maxExactInteger)%Z ->
  exists C D,
    addMatrices fuel A B (inject_Z (param_q P)) (modulusPolynomial P) = Ok C /\
    subtractMatrices fuel A B (inject_Z (param_q P)) (modulusPolynomial P)
    = Ok D /\
    forall i j,
      i < rows -> j < cols ->
      length (coefficients (entry C i j))
      = Nat.max (length (coefficients (entry A i j)))
          (length (coefficients (entry B i j))) /\
      length (coefficients (entry D i j))
      = Nat.max (length (coefficients (entry A i j)))
          (length (coefficients (entry B i j))) /\
      forall t,
        nth t (coefficients (entry C i j)) 0%Q
        = inject_Z
            (centerZ (seriesOf (entry A i j) t + seriesOf (entry B i j) t)
               (param_q P)) /\
        nth t (coefficients (entry D i j)) 0%Q
        = inject_Z
            (centerZ (seriesOf (entry A i j) t - seriesOf (entry B i j) t)
               (param_q P)).
Proof.
  intros Hv Hf Hrows HA HB _ _ _ _ _.
  pose proof (valid_q P Hv) as Hq.
  assert (Hshort : forall p, ringElement P p ->
                             length (coefficients p) <= param_n P)
    by (intros p [_ Hp]; exact Hp).
  assert (Hcoef : forall (op : Q -> Q -> Q) (opZ : Z -> Z -> Z) a b t,
             (forall x y, op (inject_Z x) (inject_Z y) = inject_Z (opZ x y)) ->
             opZ 0%Z 0%Z = 0%Z ->
             ringElement P a -> ringElement P b ->
             nth t (coefficients
                      (combinePolynomials op (inject_Z (param_q P)) a b)) 0%Q
             = inject_Z (centerZ (opZ (seriesOf a t) (seriesOf b t))
                           (param_q P))).
  { intros op opZ a b t Hop Hop0 [Ha _] [Hb _].
    unfold combinePolynomials. cbn [coefficients].
    destruct (Nat.lt_ge_cases t
                (Nat.max (length (coefficients a)) (length (coefficients b))))
      as [Hlt | Hge].
    - rewrite nth_combineCoefficients by exact Hlt.
      rewrite (seriesOf_isInt a t Ha), (seriesOf_isInt b t Hb), Hop.
      apply symmetricValueModuloQ_inject_Z. exact Hq.
    - rewrite nth_overflow by (rewrite length_combineCoefficients; exact Hge).
      rewrite !seriesOf_overflow by lia. rewrite Hop0.
      change 0%Z with (0 * param_q P)%Z.
      rewrite centerZ_multiple by exact Hq. reflexivity. }
  eexists. eexists.
  split; [|split].
  - unfold addMatrices.
    apply combineMatrices_explicit
      with (rows := rows) (cols := cols) (PA := ringElement P)
           (PB := ringElement P); assumption.
  - unfold subtractMatrices.
    apply combineMatrices_explicit
      with (rows := rows) (cols := cols) (PA := ringElement P)
           (PB := ringElement P); assumption.
  - intros i j Hi Hj.
    rewrite !(entry_zipWith _ _ _ rows cols A B i j HA HB Hi Hj).
    pose proof (entry_ringElement _ _ _ A i j HA Hi Hj) as Ha.
    pose proof (entry_ringElement _ _ _ B i j HB Hi Hj) as Hb.
    unfold combinePolynomials at 1 2. cbn [coefficients].
    rewrite !length_combineCoefficients.
    split; [reflexivity|]. split; [reflexivity|].
    intros t. split.
    + apply (Hcoef Qplus Z.add); [apply inject_Z_plus | reflexivity | | ];
        assumption.
    + apply (Hcoef Qminus Z.sub); [|reflexivity | | ]; try assumption.
      intros x y. unfold Qminus, Qplus, Qopp, inject_Z. cbn [Qnum Qden].
      f_equal. lia.
Qed.

Lemma sum_and_difference_coefficients_witness :
  let a := mkPolynomial [1664; 2]%Q in
  let b := mkPolynomial [1; -3; 5]%Q in
  exists C D,
    addMatrices 8 [[a]] [[b]] 3329 (modulusPolynomial smallParameters)
    = Ok C /\
    subtractMatrices 8 [[a]] [[b]] 3329 (modulusPolynomial smallParameters)
    = Ok D /\
    length (coefficients (entry C 0 0)) = 3 /\
    nth 0 (coefficients (entry C 0 0)) 0%Q = (-1664)%Q /\
    nth 2 (coefficients (entry D 0 0)) 0%Q = (-5)%Q.
Proof.
  intros a b.
  destruct (sum_and_difference_coefficients smallParameters 8 1 1
              [[a]] [[b]] 1664 5) as [C [D [EC [ED H]]]].
  - exact smallParameters_valid.
  - cbn. lia.
  - lia.
  - split; [reflexivity|]. repeat constructor; cbn; lia.
  - split; [reflexivity|]. repeat constructor; cbn; lia.
  - lia.
  - lia.
  - small_magnitudes.
  - small_magnitudes.
  - vm_compute. discriminate.
  - exists C, D. split; [exact EC|]. split; [exact ED|].
    destruct (H 0 0) as [HlC [_ Ht]]; [lia | lia |].
    split; [rewrite HlC; reflexivity|]. split.
    + rewrite (proj1 (Ht 0)). vm_compute. reflexivity.
    + rewrite (proj2 (Ht 2)). vm_compute. reflexivity.
Defined.

(** ** The relation between the keys *)

(** A product of a matrix and a column vector plus a column vector, as key
    generation and encryption compute them: each coefficient of the result
    is congruent modulo q to the one of the product over the integers,
    folded with x^n = -1, plus the one of the vector added. *)
Lemma affine_congruent (P : Parameters) (fuel rows inner : nat)
  (M r e Mr res : PolynomialMatrix) :
  validParameters P -> param_n P <= fuel -> 0 < rows -> 0 < inner ->
  matrixOf (ringElement P) rows inner M ->
  matrixOf (ringElement P) inner 1 r ->
  matrixOf (ringElement P) rows 1 e ->
  multiplyMatrices fuel M r (inject_Z (param_q P)) (modulusPolynomial P)
  = Ok Mr ->
  addMatrices fuel Mr e (inject_Z (param_q P)) (modulusPolynomial P)
  = Ok res ->
  forall i x,
    i < rows -> x < param_n P ->
    congruent (param_q P) (seriesOf (entry res i 0) x)
      (sumBelow inner
         (fun j =>
            negacyclicProduct (param_n P) (seriesOf (entry M i j))
              (seriesOf (entry r j 0)) x)
       + seriesOf (entry e i 0) x).
Proof.
  intros Hv Hf Hrows Hinner HM Hr He EMr Eres i x Hi Hx.
  destruct (multiply_semantics P fuel Hv Hf rows inner 1 M r Hrows Hinner
              HM Hr) as [C [EC [HC Hsem]]].
  rewrite EC in EMr. injection EMr as ->.
  destruct (sum_semantics P fuel Hv Hf rows 1 Mr e res Hrows HC He Eres i 0
              Hi Nat.lt_0_1) as [Eentry Hsum].
  pose proof (entry_ringElement _ _ _ Mr i 0 HC Hi Nat.lt_0_1) as HMri.
  pose proof (entry_ringElement _ _ _ e i 0 He Hi Nat.lt_0_1) as Hei.
  assert (Hcong :
            ringCongruent (param_n P) (param_q P) (seriesOf (entry res i 0))
              (fun y =>
                 (sumBelow inner
                    (fun j =>
                       seriesProduct (seriesOf (entry M i j))
                         (seriesOf (entry r j 0)) y)
                  + seriesOf (entry e i 0) y)%Z)).
  { eapply ringCongruent_trans; [exact Hsum|].
    apply (ringCongruent_plus (param_n P) (param_q P)
             (seriesOf (entry Mr i 0)) _ (seriesOf (entry e i 0))
             (seriesOf (entry e i 0)));
      [apply (Hsem i 0 Hi Nat.lt_0_1) | apply ringCongruent_refl]. }
  destruct (ringCongruent_fold (param_n P) (param_q P) _ _ (valid_n P Hv)
              Hcong) with (t := x) as [m Hm].
  - intros y Hy. apply (seriesOf_support P); [|exact Hy].
    rewrite Eentry.
    apply combinePolynomials_ringElement; [apply isInt_plus | | ];
      assumption.
  - intros y Hy.
    rewrite (seriesOf_support P _ y Hei) by lia.
    rewrite sumBelow_zero; [reflexivity|].
    intros j Hj.
    apply (seriesProduct_support _ _ (param_n P) (param_n P)).
    + intros z Hz. apply (seriesOf_support P); [|exact Hz].
      apply (entry_ringElement _ _ _ M i j HM Hi Hj).
    + intros z Hz. apply (seriesOf_support P); [|exact Hz].
      apply (entry_ringElement _ _ _ r j 0 Hr Hj Nat.lt_0_1).
    + lia.
  - exact Hx.
  - exists m. rewrite Hm.
    rewrite (seriesOf_support P _ (x + param_n P) Hei) by lia.
    unfold negacyclicProduct. rewrite sumBelow_minus. lia.
Qed.

Lemma sampler_ringElement (P : Parameters) (rows cols : nat) (m : Q)
  (rand : Rand) :
  isInt m ->
  matrixOf (ringElement P) rows cols
    (fst (generateRandomMatrix rows cols (param_n P) m rand)).
Proof.
  intros Hm.
  apply (matrixOf_impl _ _ _ _ _ (freshElement_ringElement P)).
  apply generateRandomMatrix_spec. exact Hm.
Qed.

(** The public key hides the private key behind a small error: key
    generation returns t, A and s with t = A s + e modulo x^n + 1 and q,
    for a vector e of k polynomials with n coefficients of magnitude at
    most eta2, the coefficients of s being of magnitude at most eta1. *)
Theorem generateKeys_key_relation (P : Parameters) (fuel : nat) (rand : Rand) :
  validParameters P -> param_n P <= fuel ->
  (0 <= param_n1 P)%Z -> (0 <= param_n2 P)%Z ->
  exists keys rand1 e,
    crystalsKyber_generateKeys P fuel rand = Ok (keys, rand1) /\
    matrixOf (bounded (param_n P) (param_n1 P)) (param_k P) 1
      (sk_s (sKey keys)) /\
    matrixOf (bounded (param_n P) (param_n2 P)) (param_k P) 1 e /\
    forall i x,
      i < param_k P -> x < param_n P ->
      congruent (param_q P)
        (seriesOf (entry (pk_t (pKey keys)) i 0) x)
        (sumBelow (param_k P)
           (fun j =>
              negacyclicProduct (param_n P)
                (seriesOf (entry (pk_A (pKey keys)) i j))
                (seriesOf (entry (sk_s (sKey keys)) j 0)) x)
         + seriesOf (entry e i 0) x).
Proof.
  intros Hv Hf H1 H2.
  destruct (generateKeys_unfold P fuel Hv Hf rand)
    as [As [t [EAs [HAs [Et [Ht Ekeys]]]]]].
  cbv zeta in EAs, Et, Ekeys.
  fold (keySample1 P rand) in EAs, Et, Ekeys.
  fold (keySample2 P rand) in EAs, Et, Ekeys.
  fold (keySample3 P rand) in EAs, Et, Ekeys.
  exists (mkKeys (mkPublicKey t (fst (keySample3 P rand)))
            (mkPrivateKey (fst (keySample1 P rand)))),
    (snd (keySample3 P rand)), (fst (keySample2 P rand)).
  cbn [pKey sKey pk_t pk_A sk_s].
  split; [exact Ekeys|].
  split; [apply sampler_bounded; exact H1|].
  split; [apply sampler_bounded; exact H2|].
  intros i x Hi Hx.
  apply (affine_congruent P fuel (param_k P) (param_k P)
           (fst (keySample3 P rand)) (fst (keySample1 P rand))
           (fst (keySample2 P rand)) As t Hv Hf (valid_k P Hv)
           (valid_k P Hv));
    try assumption.
  - apply sampler_ringElement. apply isInt_inject.
  - apply sampler_ringElement. apply isInt_eta.
  - apply sampler_ringElement. apply isInt_eta.
Qed.

Lemma generateKeys_key_relation_witness :
  exists keys rand1 e,
    crystalsKyber_generateKeys smallParameters 8 cyclingRand
    = Ok (keys, rand1) /\
    matrixOf (bounded 8 2) 1 1 e /\
    congruent 3329
      (seriesOf (entry (pk_t (pKey keys)) 0 0) 0)
      (negacyclicProduct 8 (seriesOf (entry (pk_A (pKey keys)) 0 0))
         (seriesOf (entry (sk_s (sKey keys)) 0 0)) 0
       + seriesOf (entry e 0 0) 0).
Proof.
  destruct (generateKeys_key_relation smallParameters 8 cyclingRand)
    as [keys [rand1 [e [Ekeys [_ [He Hrel]]]]]].
  - exact smallParameters_valid.
  - cbn. lia.
  - cbn. lia.
  - cbn. lia.
  - exists keys, rand1, e. split; [exact Ekeys|]. split; [exact He|].
    pose proof (Hrel 0 0) as H. cbn [param_k param_n smallParameters] in H.
    cbn [sumBelow] in H. apply H; lia.
Defined.

(** Matrices in reduced form given by their entries. *)
Ltac in_reduced_form :=
  repeat (cbv beta;
          match goal with
          | |- matrixOf _ _ _ _ => split; [reflexivity|]
          | |- reduced _ _ => split; [cbn; lia|]; cbn [coefficients]
          | |- centered _ _ => split; vm_compute; discriminate
          | |- Forall _ (_ :: _) => apply Forall_cons
          | |- Forall _ [] => apply Forall_nil
          | |- _ /\ _ => split
          | |- length _ = _ => reflexivity
          | |- Forall _ ?l =>
              let l' := eval hnf in l in progress change l with l'
          end).

(** The ciphertext of a block of n bits: encryption under a public key
    (t, A) of the shapes of key generation, with integer coefficients in
    reduced form (from -floor(q/2) to floor(q/2)), returns u and v with
    u = A^T r + e1 modulo x^n + 1 and q, and v = t^T r + e2 + (q/2) m up to
    multiples of q in each coefficient, for vectors r, e1 and a polynomial
    e2 with n coefficients of magnitudes at most eta1, eta2 and eta2. *)
Theorem encrypt_ciphertext_relation (P : Parameters) (fuel : nat)
  (msg : Polynomial) (pk : CrystalsKyberPublicKey) (rand : Rand) :
  validParameters P -> param_n P <= fuel ->
  (0 <= param_n1 P)%Z -> (0 <= param_n2 P)%Z ->
  goodPublicKey P pk ->
  matrixOf (reduced P) (param_k P) 1 (pk_t pk) ->
  matrixOf (reduced P) (param_k P) (param_k P) (pk_A pk) ->
  fullLength P msg -> Forall exactBit (coefficients msg) ->
  exists eb rand1 vp r e1 e2,
    crystalsKyber_encrypt P fuel msg pk rand = Ok (eb, rand1) /\
    eb_v eb = [[vp]] /\
    matrixOf (bounded (param_n P) (param_n1 P)) (param_k P) 1 r /\
    matrixOf (bounded (param_n P) (param_n2 P)) (param_k P) 1 e1 /\
    matrixOf (bounded (param_n P) (param_n2 P)) 1 1 e2 /\
    (forall i x,
        i < param_k P -> x < param_n P ->
        congruent (param_q P)
          (seriesOf (entry (eb_u eb) i 0) x)
          (sumBelow (param_k P)
             (fun j =>
                negacyclicProduct (param_n P)
                  (seriesOf (entry (pk_A pk) j i))
                  (seriesOf (entry r j 0)) x)
           + seriesOf (entry e1 i 0) x)) /\
    (forall x,
        x < param_n P ->
        exists j : Z,
          (nth x (coefficients vp) 0
           == inject_Z
                (sumBelow (param_k P)
                   (fun j =>
                      negacyclicProduct (param_n P)
                        (seriesOf (entry (pk_t pk) j 0))
                        (seriesOf (entry r j 0)) x)
                 + seriesOf (entry e2 0 0) x)
              + nth x (coefficients msg) 0 * (inject_Z (param_q P) / 2)
              + inject_Z (j * param_q P))%Q).
Proof.
  intros Hv Hf H1 H2 Hpk _ _ Hmsg _.
  pose proof (valid_q P Hv) as Hq. pose proof (valid_k P Hv) as Hk.
  destruct (encrypt_unfold P fuel Hv Hf msg pk rand Hpk Hmsg)
    as [At [Atr [u [tt [ttr [w [EAt [HAt [EAtr [HAtr [Eu [Hu [Ett [Htt
         [Ettr [Httr [Ew [Hw Eenc]]]]]]]]]]]]]]]]]].
  cbv zeta in EAtr, Eu, Ettr, Ew, Eenc.
  fold (blockSample1 P rand) in EAtr, Eu, Ettr, Ew, Eenc.
  fold (blockSample2 P rand) in Eu, Ew, Eenc.
  fold (blockSample3 P rand) in Ew, Eenc.
  destruct Hpk as [Ht HA].
  set (r := fst (blockSample1 P rand)) in *.
  set (e1 := fst (blockSample2 P rand)) in *.
  set (e2 := fst (blockSample3 P rand)) in *.
  assert (Hr : matrixOf (ringElement P) (param_k P) 1 r)
    by (apply sampler_ringElement; apply isInt_eta).
  assert (He1 : matrixOf (ringElement P) (param_k P) 1 e1)
    by (apply sampler_ringElement; apply isInt_eta).
  assert (He2 : matrixOf (ringElement P) 1 1 e2)
    by (apply sampler_ringElement; apply isInt_eta).
  eexists. eexists. eexists. exists r, e1, e2.
  split; [exact Eenc|]. cbn [eb_u eb_v].
  split; [reflexivity|].
  split; [apply sampler_bounded; exact H1|].
  split; [apply sampler_bounded; exact H2|].
  split; [apply sampler_bounded; exact H2|].
  split.
  - intros i x Hi Hx.
    pose proof (affine_congruent P fuel (param_k P) (param_k P) At r e1 Atr u
                  Hv Hf Hk Hk HAt Hr He1 EAtr Eu i x Hi Hx) as Hrel.
    rewrite (sumBelow_ext (param_k P)
               (fun j =>
                  negacyclicProduct (param_n P)
                    (seriesOf (entry (pk_A pk) j i))
                    (seriesOf (entry r j 0)) x)
               (fun j =>
                  negacyclicProduct (param_n P) (seriesOf (entry At i j))
                    (seriesOf (entry r j 0)) x)).
    + exact Hrel.
    + intros j Hj.
      rewrite (transposeMatrix_entry _ _ _ (pk_A pk) At j i HA Hk EAt Hj Hi).
      reflexivity.
  - intros x Hx.
    pose proof (affine_congruent P fuel 1 (param_k P) tt r e2 ttr [[w]]
                  Hv Hf Nat.lt_0_1 Hk Htt Hr He2 Ettr Ew 0 x Nat.lt_0_1 Hx)
      as [j2 Hj2].
    change (entry [[w]] 0 0) with w in Hj2.
    rewrite (sumBelow_ext (param_k P)
               (fun j =>
                  negacyclicProduct (param_n P) (seriesOf (entry tt 0 j))
                    (seriesOf (entry r j 0)) x)
               (fun j =>
                  negacyclicProduct (param_n P)
                    (seriesOf (entry (pk_t pk) j 0))
                    (seriesOf (entry r j 0)) x)) in Hj2.
    2:{ intros j Hj.
        rewrite (transposeMatrix_entry _ _ _ (pk_t pk) tt j 0 Ht Hk Ett Hj
                   Nat.lt_0_1).
        reflexivity. }
    unfold combinePolynomials. cbn [coefficients].
    rewrite nth_combineCoefficients
      by (destruct Hw as [_ Hw]; rewrite Hw; lia).
    rewrite nth_scaleMessage by (unfold fullLength in Hmsg; lia).
    rewrite (seriesOf_isInt w x (proj1 Hw)).
    destruct (symmetricValueModuloQ_rational
                (inject_Z (seriesOf w x)
                 + nth x (coefficients msg) 0 * (inject_Z (param_q P) / 2))%Q
                (param_q P) Hq) as [j1 [Hj1 _]].
    exists (j1 + j2)%Z. rewrite Hj1, Hj2.
    rewrite <- !inject_Z_plus, <- !inject_Z_mult, <- !inject_Z_plus. ring.
Qed.

Lemma encrypt_ciphertext_relation_witness :
  let msg := mkPolynomial [0; 1; 0; 0; 0; 0; 0; 1]%Q in
  let pk := mkPublicKey [[mkPolynomial [5%Q]]] [[mkPolynomial [7%Q]]] in
  exists eb rand1 r e1,
    crystalsKyber_encrypt smallParameters 8 msg pk cyclingRand
    = Ok (eb, rand1) /\
    matrixOf (bounded 8 2) 1 1 r /\
    congruent 3329
      (seriesOf (entry (eb_u eb) 0 0) 0)
      (negacyclicProduct 8 (seriesOf (mkPolynomial [7%Q]))
         (seriesOf (entry r 0 0)) 0
       + seriesOf (entry e1 0 0) 0).
Proof.
  intros msg pk.
  destruct (encrypt_ciphertext_relation smallParameters 8 msg pk cyclingRand)
    as [eb [rand1 [vp [r [e1 [e2 [Eeb [_ [Hr [_ [_ [Hu _]]]]]]]]]]]].
  - exact smallParameters_valid.
  - cbn. lia.
  - cbn. lia.
  - cbn. lia.
  - split; (split; [reflexivity|]); repeat constructor; cbn; lia.
  - in_reduced_form.
  - in_reduced_form.
  - reflexivity.
  - repeat constructor; (left; reflexivity) || (right; reflexivity).
  - exists eb, rand1, r, e1. split; [exact Eeb|]. split; [exact Hr|].
    pose proof (Hu 0 0) as H. cbn [param_k param_n smallParameters] in H.
    cbn [sumBelow] in H. apply H; lia.
Defined.

(** ** The sizes of the padded blocks *)

Ltac blocks_one_by_one :=
  repeat match goal with
         | |- Forall _ (_ :: _) => apply Forall_cons
         | |- Forall _ [] => apply Forall_nil
         end.

(** The padding writes the coefficients of its argument, the marker bit 1
    and then zeros only, at least seven of them, and no block it returns is
    shorter than the block size; but the blocks all have the block size
    only when the argument leaves room for the marker byte, or fills a
    block of at least 8 coefficients: in the other cases a block is longer
    than the block size. *)
Theorem addPadding_fixed_size (p : Polynomial) (blockSize : nat) :
  (exists zeros,
      7 <= zeros /\
      flat_map coefficients (addPaddingToPolynomialBlocks p blockSize)
      = coefficients p ++ 1%Q :: repeat 0%Q zeros) /\
  (Forall (fun block => length (coefficients block) = blockSize)
     (addPaddingToPolynomialBlocks p blockSize)
   <-> length (coefficients p) + 8 <= blockSize
       \/ (length (coefficients p) = blockSize /\ 8 <= blockSize)) /\
  (Forall (fun block => blockSize <= length (coefficients block))
     (addPaddingToPolynomialBlocks p blockSize)).
Proof.
  destruct p as [cur]. cbn [coefficients]. rewrite addPadding_eq.
  destruct (Nat.eqb_spec (length cur) blockSize) as [E | E];
    [destruct (Nat.eqb_spec 8 blockSize) as [E8 | E8]
    |destruct (Nat.eqb_spec (length cur + 8) blockSize) as [E8 | E8]];
    cbn [flat_map coefficients app].
  - split; [|split].
    + exists (7 + blockSize). split; [lia|].
      rewrite app_nil_r. cbn [repeat Nat.add]. reflexivity.
    + split; [intros _; right; lia|].
      intros _. blocks_one_by_one; cbn [coefficients length];
        rewrite ?repeat_length; lia.
    + blocks_one_by_one; cbn [coefficients length];
        rewrite ?repeat_length; lia.
  - split; [|split].
    + exists (7 + (blockSize - 8)). split; [lia|].
      rewrite app_nil_r. reflexivity.
    + split.
      * intros H. right. split; [exact E|].
        apply Forall_inv_tail in H. apply Forall_inv in H.
        cbn [coefficients length] in H. rewrite repeat_length in H. lia.
      * intros [H | [_ H]]; [lia|].
        blocks_one_by_one; cbn [coefficients length];
          rewrite ?repeat_length; lia.
    + blocks_one_by_one; cbn [coefficients length];
        rewrite ?repeat_length; lia.
  - split; [|split].
    + exists (7 + blockSize). split; [lia|].
      rewrite app_nil_r, <- app_assoc. cbn [app repeat Nat.add].
      reflexivity.
    + split; [intros _; left; lia|].
      intros _. blocks_one_by_one; cbn [coefficients];
        rewrite ?length_app; cbn [length]; rewrite ?repeat_length; lia.
    + blocks_one_by_one; cbn [coefficients];
        rewrite ?length_app; cbn [length]; rewrite ?repeat_length; lia.
  - split; [|split].
    + exists (7 + (blockSize - (length cur + 8))). split; [lia|].
      rewrite app_nil_r. reflexivity.
    + split.
      * intros H. left. apply Forall_inv in H.
        cbn [coefficients] in H. rewrite length_app in H.
        cbn [length] in H. rewrite repeat_length in H. lia.
      * intros [H | [H _]]; [|lia].
        blocks_one_by_one; cbn [coefficients];
          rewrite ?length_app; cbn [length]; rewrite ?repeat_length; lia.
    + blocks_one_by_one; cbn [coefficients];
        rewrite ?length_app; cbn [length]; rewrite ?repeat_length; lia.
Qed.

(** ** The product array *)

Lemma nth_magnitude (l : list Z) (B : Z) (i : nat) :
  (0 <= B)%Z -> Forall (fun z => (Z.abs z <= B)%Z) l ->
  (Z.abs (nth i l 0%Z) <= B)%Z.
Proof.
  intros HB Hl.
  destruct (Nat.lt_ge_cases i (length l)) as [Hi | Hi].
  - rewrite Forall_forall in Hl. apply Hl. apply nth_In. exact Hi.
  - rewrite nth_overflow by exact Hi. cbn. exact HB.
Qed.

(** The coefficients of a product of polynomials with coefficients of
    magnitudes at most A and B. *)
Lemma convolution_magnitude (a b : list Z) (A B : Z) (k : nat) :
  (0 <= A)%Z -> (0 <= B)%Z ->
  Forall (fun z => (Z.abs z <= A)%Z) a ->
  Forall (fun z => (Z.abs z <= B)%Z) b ->
  (Z.abs (convolution a b k) <= Z.of_nat (length a) * (A * B))%Z.
Proof.
  intros HA HB Ha Hb. rewrite convolution_seriesProduct.
  unfold seriesProduct.
  replace (Z.of_nat (length a)) with (Z.of_nat (length a - 0))
    by (f_equal; lia).
  apply sumBelow_bound_support.
  - nia.
  - intros i _ _. rewrite Z.abs_mul.
    pose proof (nth_magnitude a A i HA Ha).
    pose proof (nth_magnitude b B (k - i) HB Hb).
    pose proof (Z.abs_nonneg (nth i a 0%Z)).
    pose proof (Z.abs_nonneg (nth (k - i) b 0%Z)).
    nia.
  - intros i _ [Hi | Hi]; [lia|].
    rewrite (nth_overflow a) by exact Hi. lia.
Qed.

(** The product array of two arrays of integers holds the coefficients of
    the product polynomial, for coefficients of magnitudes at most A and B
    with length(a) * A * B <= 2^53 (every product and every partial sum of
    the source is then an integer of magnitude at most 2^53, and exact): at
    every index [k] below the sum of the lengths less one, the sum of the
    products [a_i * b_(k-i)], of magnitude at most length(a) * A * B; it is
    empty when both arrays are. *)
Theorem productCoefficients_convolution (a b : list Z) (A B : Z) :
  (0 <= A)%Z -> (0 <= B)%Z ->
  Forall (fun z => (Z.abs z <= A)%Z) a ->
  Forall (fun z => (Z.abs z <= B)%Z) b ->
  (Z.of_nat (length a) * (A * B) <= maxExactInteger)%Z ->
  productCoefficients (map inject_Z a) (map inject_Z b)
  = map (fun k => inject_Z (convolution a b k))
      (seq 0 (length a + length b - 1)) /\
  forall k, (Z.abs (convolution a b k) <= maxExactInteger)%Z.
Proof.
  intros HA HB Ha Hb Hexact. split.
  - destruct (productCoefficients_rows a b) as [pz [E [Hl Hk]]].
    rewrite E. apply (nth_ext _ _ 0%Q 0%Q).
    + rewrite !length_map, length_seq. exact Hl.
    + intros k Hklt. rewrite length_map in Hklt.
      rewrite nth_map_inject_Z, (Hk k Hklt).
      rewrite (nth_indep _ 0%Q (inject_Z (convolution a b 0)))
        by (rewrite length_map, length_seq; lia).
      rewrite (map_nth (fun k => inject_Z (convolution a b k))).
      rewrite seq_nth by lia. reflexivity.
  - intros k.
    pose proof (convolution_magnitude a b A B k HA HB Ha Hb). lia.
Qed.

Lemma productCoefficients_convolution_witness :
  productCoefficients [1; 2]%Q [3; -4; 5]%Q = [3; 2; -3; 10]%Q.
Proof.
  destruct (productCoefficients_convolution [1; 2]%Z [3; -4; 5]%Z 2 5)
    as [E _].
  - lia.
  - lia.
  - repeat constructor; cbn; lia.
  - repeat constructor; cbn; lia.
  - vm_compute. discriminate.
  - exact E.
Defined.
